(* ===== verification/_CoqProject ===== *)
-Q . S2P
Prelude.v
GoStd.v
GoText.v
Json.v
JsonPrint.v
Cluster.v
ElectionState.v
Health.v
ElectionEngine.v
ElectionNetwork.v
TaskStore.v
StoreIface.v
TaskTx.v
TaskLifecycle.v
TaskRefine.v
TaskAtomic.v
TaskReach.v
TaskFunctional.v
TaskRecovery.v
TaskWitness.v
TaskIsolation.v
TaskLocality.v
Strategy.v
Scheduler.v
SchedulerProps.v
SchedulerWitness.v
SchedulerProgress.v
Server.v
Worker.v
WorkerProps.v
WorkerWitness.v
Executor.v
Clients.v
Config.v
Node.v
