(* ===== verification/Prelude.v ===== *)
(** * pi-bully: leader election and task scheduling, verified

    pi-bully runs the same program on every node of a cluster.  The nodes elect
    a leader with the bully algorithm; the leader schedules tasks, which are
    Python scripts, on the other nodes; the state of the tasks is in PostgreSQL,
    scripts and data are in an object store, membership comes from
    hashicorp/memberlist.  This library models the program's own logic and
    proves the properties that make it correct.  It is a shallow embedding: Go
    functions are functions on explicit state, errors are values of [result],
    goroutines and nodes are step relations.

    ** Parts and files

    - Prelude.v (this file): machine integers, errors and results, tactics, the
      hint database [pibully], sorting, lemmas on lists.
    - GoStd.v, GoText.v, Json.v, JsonPrint.v: the parts of strconv, unicode/utf8,
      strings, time (ParseDuration) and encoding/json that the sources use.
    - Cluster.v: cluster/event.go, cluster/meta.go and the parts of
      cluster/cluster.go that are not calls of memberlist.  [EventHandler] is the
      registry with its event channel, [NotifyJoin], [NotifyLeave] and
      [NotifyUpdate] the notifications.
    - ElectionState.v: election/state.go.  [State] is the register behind the
      mutex, one definition per method.
    - ElectionEngine.v: election/engine.go and server/election.go.  A [goroutine]
      is a program point with its local variables; [run_step] (run and the event
      handlers), [elect_step] (startElection, sendToHigher), [wait_step]
      (waitForCoordinator), [declare_step] (declareLeader), [on_start_step]
      (OnStartElection) and [on_announce_step] (OnAnnounceLeader) run one to its
      next access of shared state; [estep] interleaves them.
    - ElectionNetwork.v: nodes that run the engine, messages in flight, crashes.
    - Health.v: health/handler.go.  [ServeHTTP] on the register at each of its four
      reads.
    - TaskStore.v: task/store.go, task/model.go, task/task.go, the queries of
      task/sql and the tables of migrations/000001_init.up.sql.  [db] is the three
      tables, the body of a method ([MarkRunning_tx]) a tree of calls, reads and
      writes of type [tx], the method ([MarkRunning]) its run without interruption
      ([run_tx], [with_tx]).
    - StoreIface.v: the interface task.Store as a type class, with the PostgreSQL
      store as its instance; google/uuid as a class.
    - TaskTx.v: a program logic for [tx]; per method an effect and the lemma that it
      applies all of the effect or none.
    - TaskLifecycle.v, TaskRefine.v, TaskReach.v: the abstract task and its steps
      [astep], the invariant [table_inv] of the tables, the refinement for each
      method, and the reachable databases.  All of them come in two strengths:
      [AnyWorker] for calls with any arguments, [HolderOnly] ([store_inv], [sstep])
      for users whose MarkWorkerLost names only the holder of a lease ([op_ok]), a
      check that store.go leaves to its caller, the scheduler.
    - TaskAtomic.v: the methods under faults; [store_op] is a call of the interface.
    - TaskFunctional.v, TaskRecovery.v: the methods without faults; fencing.
    - TaskIsolation.v: the same bodies as sessions that move one statement at a time
      over shared tables, any number of them interleaved.  [session_step] and
      [server_step] stand for PostgreSQL's READ COMMITTED, not for code of the program.
    - TaskLocality.v: the methods that move one task read and write that task only.
    - Strategy.v, Scheduler.v, SchedulerProps.v, SchedulerProgress.v: scheduler/strategy and
      scheduler/engine.go.  The strategy is a type class with laws; [tick] is
      written against the interfaces, [sworld] is the database with worker reports
      and submissions between the calls.
    - Server.v: the handlers of server/scheduler.go and server/worker_server.go.
    - Worker.v, WorkerProps.v: worker/engine.go, with the scheduler service on the
      other side of its client.
    - Executor.v: worker/task_executor.go and storage/client.go on maps of files and
      objects.
    - Clients.v: election/client.go, scheduler/dispatcher.go, server/worker_client.go
      as instances of the interfaces the engines call, over a class for gRPC.
    - Config.v: config/.  [Load] on an environment, a function from names to values.
    - Node.v: cmd/node/main.go, New, Join and Leave of cluster/cluster.go, New of
      storage/client.go, task/postgres.go and the logger of config/log.go.  [main] is a
      list of actions and the running [node]; [stop_step] is the shutdown.
    - TaskWitness.v, SchedulerWitness.v, WorkerWitness.v: instances of what is
      assumed (pgx's conversions, uuids, environments), a concrete run, and the
      properties applied to it.

    ** What the theorems show

    - Election register (ElectionState.v): every run of its operations keeps it well
      formed; the term never decreases and, until a lost leader is cleared, the
      view (term, leader) only moves up; nodes that receive the same announcements
      in any order agree.
    - Election engine (ElectionEngine.v): an invariant of every interleaving of a
      node's goroutines; every election comes to its end; sendToHigher says yes only
      if a higher node did, and no only after the timeout or when all requests
      failed; the announcers end; the elections of a node have different terms.
    - Election of a cluster (ElectionNetwork.v): when nodes only crash and none joins
      later, membership snapshots list the live nodes above the reader ([env_ok]) and
      election requests reach live nodes in time, two live nodes
      are never both the leader, and no live node is above a recorded leader.
    - Membership (Cluster.v): the registry is a function of the notifications; what a
      node publishes is what its peers record.
    - Task store: refinement of a lifecycle ([astep], [allowed]: the arrows of
      docs/design.md and those the code adds), with a lease on every assigned and
      running task, none on finished ones, none on queued ones while only lease holders
      are declared lost, and failures within the retry limit; finished tasks
      stay finished; atomicity under faults; what claiming, failing and the three
      recoveries do; reports of workers without the lease have no effect; a session
      beside others that change other tasks does what the method does.
    - Scheduler: a tick stays within the lifecycle and keeps one task per worker; an
      undisturbed tick assigns as many tasks as batch, idle workers and queue allow.
    - Servers, worker and executor: requests refine the lifecycle; task ids survive
      the trip; a script runs only after RUNNING was recorded for its worker; an
      undisturbed worker brings its task to its end; an upload is the output of a
      script that succeeded.
    - Configuration, health and node program: loading fails exactly on the first of
      its checks, and what loads is well formed; seeds and whole durations are read
      back as written; the body of the health endpoint decodes to what was read; main
      starts the parts in order; the invariant of the election engine also holds
      behind a server that answers before the engine starts; with room in the internal
      channel the node can shut down; clients close their connections.
    - Faults of the code that the model shows are theorems too: a task lost between a
      recovery and the start of the task by its worker, a lease left on a queued task,
      announcements that block their
      handler and with it the shutdown, a deposed leader that announces itself, claims
      blocked by a task without URIs, expiry blocked by large worker ids, tasks left
      in SCHEDULING, an output file that is the input file, a health answer that mixes
      two states, leases of less than a second.

    ** Assumptions and bounds

    Terms and ids are unsigned 64-bit numbers; what holds only below the wrap of a
    counter says so.  FormatUint has fuel for 20 digits, enough for 64 bits; JSON
    and duration parsing have fuel for the length of their input.  A transaction's time is no earlier
    than the recorded rows and its ids are larger ([ready]): NOW() and uuidv7() of
    one server.  Outside TaskIsolation.v the methods of the store run one after the other;
    there the locks of SKIP LOCKED are inputs ([tx_locked]), and a session's writes are
    replayed over what others committed.  pgx's conversions
    ([PgxScan]), uuid ([Uuid]), memberlist, gRPC, S3 and the operating system are
    parameters or inputs.

    ** Not modelled

    The generated code (gen/) and logging.  The locks two sessions take on rows they
    write, and the tables a session sees when another one blocks it, are not derived
    from the queries.  Nodes that join during an election, a worker that runs beside a
    scheduler, and sessions of the methods that change many tasks at once, beyond the
    race of TaskIsolation.v, are left out. *)

From stdpp Require Export base gmap list strings sorting relations.
From Stdlib Require Export ZArith Lia.

#[global] Open Scope Z_scope.

(** ** Machine integers

    Go's [uint64] and [int64] are integers [Z] kept in range by explicit
    conversions; arithmetic of the source that can leave the range is written
    with the conversion around it. *)

Definition u64_size : Z := 2 ^ 64.

Definition u64_max : Z := u64_size - 1.

(** [uint64(x)]: reduction modulo 2^64. *)
Definition uint64 (z : Z) : Z := z mod u64_size.

(** [int64(x)]: two's complement reading of the low 64 bits. *)
Definition int64 (z : Z) : Z :=
  let w := z mod u64_size in
  if w <? 2 ^ 63 then w else w - u64_size.

(** A value of type [uint64]. *)
Definition is_u64 (z : Z) : Prop := 0 <= z < u64_size.

(** ** Errors and results

    [fmt.Errorf] values: a format with its arguments, or a context wrapped
    around an inner error with [%w]. *)

Inductive farg :=
| FInt (z : Z)
| FStr (s : string).

Inductive error :=
| EFmt (fmt : string) (args : list farg)
| EWrap (fmt : string) (args : list farg) (e : error).

Inductive result (A : Type) :=
| Ok (a : A)
| Err (e : error).
Arguments Ok {A} _.
Arguments Err {A} _.

Definition is_ok {A} (r : result A) : bool :=
  match r with Ok _ => true | Err _ => false end.

Definition rmap {A B} (f : A -> B) (r : result A) : result B :=
  match r with Ok a => Ok (f a) | Err e => Err e end.

Definition rbind {A B} (r : result A) (f : A -> result B) : result B :=
  match r with Ok a => f a | Err e => Err e end.

(** ** Tactics *)

(** Case analysis on the discriminee of some [match] or [if]. *)
Ltac dmatch :=
  match goal with
  | |- context [match ?x with _ => _ end] => destruct x eqn:?
  | H : context [match ?x with _ => _ end] |- _ => destruct x eqn:?
  end.

(** Boolean comparisons of the code turned into propositions. *)
Ltac zbool :=
  repeat match goal with
  | H : (_ =? _) = true |- _ => apply Z.eqb_eq in H
  | H : (_ =? _) = false |- _ => apply Z.eqb_neq in H
  | H : (_ <? _) = true |- _ => apply Z.ltb_lt in H
  | H : (_ <? _) = false |- _ => apply Z.ltb_ge in H
  | H : (_ <=? _) = true |- _ => apply Z.leb_le in H
  | H : (_ <=? _) = false |- _ => apply Z.leb_gt in H
  | H : (_ && _) = true |- _ => apply andb_true_iff in H; destruct H
  | H : (_ && _) = false |- _ => apply andb_false_iff in H
  | H : (_ || _) = false |- _ => apply orb_false_iff in H; destruct H
  | H : negb _ = true |- _ => apply negb_true_iff in H
  | H : negb _ = false |- _ => apply negb_false_iff in H
  end.

Ltac invert H := inversion H; subst; clear H.

Create HintDb pibully.

(** ** Lemmas on machine integers *)

Lemma uint64_range z : is_u64 (uint64 z).
Proof. apply Z.mod_pos_bound. reflexivity. Qed.

Lemma uint64_id z : is_u64 z -> uint64 z = z.
Proof. intros H. apply Z.mod_small, H. Qed.

(** A [uint64] survives the trip through a signed column: the conversions
    [int64(x)] on the way in and [uint64(x)] on the way out cancel. *)
Lemma uint64_int64 z : is_u64 z -> uint64 (int64 z) = z.
Proof.
  intros H. unfold int64. rewrite Z.mod_small by exact H.
  unfold uint64, is_u64, u64_size in *. dmatch; zbool.
  - apply Z.mod_small. lia.
  - rewrite <- (Z.mod_add _ 1) by lia.
    replace (z - 2 ^ 64 + 1 * 2 ^ 64) with z by lia. apply Z.mod_small. lia.
Qed.

Lemma int64_inj x y : is_u64 x -> is_u64 y -> int64 x = int64 y -> x = y.
Proof. intros Hx Hy H. rewrite <- (uint64_int64 x), <- (uint64_int64 y), H by done. done. Qed.

#[export] Hint Resolve uint64_range uint64_id : pibully.

(** ** Sorting by a boolean comparison *)

Definition leb_rel {A} (leb : A -> A -> bool) : relation A := fun a b => leb a b = true.

#[export] Instance leb_rel_dec {A} (leb : A -> A -> bool) a b : Decision (leb_rel leb a b).
Proof. unfold leb_rel. apply _. Defined.

(** slices.Sort and ORDER BY. *)
Definition sort_by {A} (leb : A -> A -> bool) (l : list A) : list A :=
  merge_sort (leb_rel leb) l.

Lemma sort_by_Permutation {A} (leb : A -> A -> bool) l : sort_by leb l ≡ₚ l.
Proof. apply merge_sort_Permutation. Qed.

Lemma elem_of_sort_by {A} (leb : A -> A -> bool) l x : x ∈ sort_by leb l <-> x ∈ l.
Proof. by rewrite sort_by_Permutation. Qed.

Lemma sort_by_sorted {A} (leb : A -> A -> bool) l :
  Transitive (leb_rel leb) -> Total (leb_rel leb) -> StronglySorted (leb_rel leb) (sort_by leb l).
Proof. intros Ht Htot. by apply StronglySorted_merge_sort. Qed.

Lemma StronglySorted_filter {A} (R : relation A) (Q : A -> Prop) `{!forall x, Decision (Q x)} l :
  StronglySorted R l -> StronglySorted R (filter Q l).
Proof.
  induction 1 as [|x l Hl IH Hx]; [constructor|]. rewrite filter_cons. case_decide; [|done].
  constructor; [done|]. rewrite Forall_forall in *. intros y Hy. apply Hx.
  by apply list_elem_of_filter in Hy as [_ Hy].
Qed.

Lemma int64_range z : - 2 ^ 63 <= int64 z < 2 ^ 63.
Proof.
  unfold int64. pose proof (Z.mod_pos_bound z u64_size) as H. unfold u64_size in *.
  case_match; zbool; lia.
Qed.

Lemma int64_uint64 z : - 2 ^ 63 <= z < 2 ^ 63 -> int64 (uint64 z) = z.
Proof.
  intros H. unfold int64, uint64, u64_size. rewrite Z.mod_mod by lia.
  destruct (Z.leb_spec 0 z) as [Hz|Hz].
  - rewrite Z.mod_small by lia. case_match; zbool; lia.
  - replace (z mod 2 ^ 64) with (z + 2 ^ 64).
    + case_match; zbool; lia.
    + rewrite <- (Z.mod_add z 1) by lia. rewrite Z.mod_small by lia. lia.
Qed.

Lemma int64_id z : 0 <= z < 2 ^ 63 -> int64 z = z.
Proof.
  intros H. unfold int64, u64_size. rewrite Z.mod_small by lia. case_match; zbool; lia.
Qed.
