(* ===== verification/GoStd.v ===== *)
(** * The parts of Go's standard library the sources use

    Go strings and byte slices are sequences of bytes; here a byte is an
    [ascii] and a byte slice a [list ascii] ([string] where the source has a
    string).  [ParseUint], [Atoi] and [FormatUint] are package strconv;
    [rune_size] is utf8.DecodeRune's notion of a well-formed rune. *)

From S2P Require Import Prelude.
From Stdlib Require Import Ascii.

(** The bytes of a string and back. *)
Definition bytes_of (s : string) : list ascii := String.list_ascii_of_string s.

Definition string_of (b : list ascii) : string := String.string_of_list_ascii b.

Definition byte_val (c : ascii) : Z := Z.of_nat (nat_of_ascii c).

Definition byte_of (z : Z) : ascii := ascii_of_nat (Z.to_nat z).

(** ** strconv *)

Definition digit_val (c : ascii) : option Z :=
  let v := byte_val c in
  if (48 <=? v) && (v <=? 57) then Some (v - 48) else None.

Definition digit_char (d : Z) : ascii := byte_of (48 + d).

Definition err_syntax : error := EFmt "invalid syntax" [].

Definition err_range : error := EFmt "value out of range" [].

(** The loop of strconv.ParseUint in base 10 with a bound on the result:
    a non-digit is a syntax error, and a value past the bound a range error,
    whichever the scan from the left meets first. *)
Fixpoint parse_digits (maxv : Z) (acc : Z) (b : list ascii) : result Z :=
  match b with
  | [] => Ok acc
  | c :: b' =>
      match digit_val c with
      | None => Err err_syntax
      | Some d =>
          let acc' := acc * 10 + d in
          if maxv <? acc' then Err err_range else parse_digits maxv acc' b'
      end
  end.

(** strconv.ParseUint(s, 10, 64) *)
Definition ParseUint (s : string) : result Z :=
  match bytes_of s with
  | [] => Err err_syntax
  | b => parse_digits u64_max 0 b
  end.

(** strconv.Atoi: an optional sign, then digits, in the range of a 64-bit int.
    strconv.ParseInt, which it agrees with, parses the digits as a uint64 first
    and compares the magnitude with the cutoff afterwards. *)
Definition Atoi (s : string) : result Z :=
  let parse_mag b :=
    match b with [] => Err err_syntax | _ => parse_digits u64_max 0 b end in
  match bytes_of s with
  | [] => Err err_syntax
  | c :: b =>
      if Ascii.eqb c "-" then
        rbind (parse_mag b) (fun v => if 2 ^ 63 <? v then Err err_range else Ok (- v))
      else
        rbind (parse_mag (if Ascii.eqb c "+" then b else c :: b))
          (fun v => if 2 ^ 63 <=? v then Err err_range else Ok v)
  end.

(** strconv.FormatUint(n, 10): the decimal digits, most significant first.  The
    fuel bounds the number of digits. *)
Fixpoint format_digits (fuel : nat) (n : Z) (acc : list ascii) : list ascii :=
  match fuel with
  | O => acc
  | S f =>
      let acc' := digit_char (n mod 10) :: acc in
      if n <? 10 then acc' else format_digits f (n / 10) acc'
  end.

Definition FormatUint (n : Z) : string := string_of (format_digits 20 n []).

(** ** unicode/utf8 *)

Definition in_range (lo hi : Z) (c : ascii) : bool :=
  (lo <=? byte_val c) && (byte_val c <=? hi).

(** The size of the well-formed rune at the head of the bytes, 0 when
    utf8.DecodeRune would return RuneError. *)
Definition rune_size (b : list ascii) : nat :=
  match b with
  | [] => 0%nat
  | c0 :: r =>
      if in_range 0 127 c0 then 1%nat
      else if in_range 194 223 c0 then
        match r with c1 :: _ => if in_range 128 191 c1 then 2%nat else 0%nat | _ => 0%nat end
      else if in_range 224 239 c0 then
        let lo := if byte_val c0 =? 224 then 160 else 128 in
        let hi := if byte_val c0 =? 237 then 159 else 191 in
        match r with
        | c1 :: c2 :: _ => if in_range lo hi c1 && in_range 128 191 c2 then 3%nat else 0%nat
        | _ => 0%nat
        end
      else if in_range 240 244 c0 then
        let lo := if byte_val c0 =? 240 then 144 else 128 in
        let hi := if byte_val c0 =? 244 then 143 else 191 in
        match r with
        | c1 :: c2 :: c3 :: _ =>
            if in_range lo hi c1 && in_range 128 191 c2 && in_range 128 191 c3 then 4%nat else 0%nat
        | _ => 0%nat
        end
      else 0%nat
  end.

(** utf8.AppendRune for a code point outside the surrogate range. *)
Definition encode_rune (r : Z) : list ascii :=
  if r <? 128 then [byte_of r]
  else if r <? 2048 then [byte_of (192 + r / 64); byte_of (128 + r mod 64)]
  else if r <? 65536 then
    [byte_of (224 + r / 4096); byte_of (128 + (r / 64) mod 64); byte_of (128 + r mod 64)]
  else
    [byte_of (240 + r / 262144); byte_of (128 + (r / 4096) mod 64);
     byte_of (128 + (r / 64) mod 64); byte_of (128 + r mod 64)].

(** ** Lemmas *)

Lemma bytes_string_of b : bytes_of (string_of b) = b.
Proof. apply String.list_ascii_of_string_of_list_ascii. Qed.

Lemma string_bytes_of s : string_of (bytes_of s) = s.
Proof. apply String.string_of_list_ascii_of_string. Qed.

Lemma digit_val_char d : 0 <= d < 10 -> digit_val (digit_char d) = Some d.
Proof.
  intros H. assert (d = 0 \/ d = 1 \/ d = 2 \/ d = 3 \/ d = 4 \/ d = 5 \/ d = 6 \/ d = 7 \/ d = 8 \/ d = 9) by lia.
  naive_solver.
Qed.

(** Parsing after the digits of [n] continues from the value they denote. *)
Lemma parse_format_digits fuel n acc maxv :
  0 <= n <= maxv -> n < 10 ^ Z.of_nat fuel ->
  parse_digits maxv 0 (format_digits fuel n acc) = parse_digits maxv n acc.
Proof.
  revert n acc. induction fuel as [|f IH]; intros n acc Hn Hf; cbn [format_digits].
  { replace n with 0 by lia. done. }
  assert (Hm : 0 <= n mod 10 < 10) by (apply Z.mod_pos_bound; lia).
  case_match; zbool.
  - cbn [parse_digits]. rewrite digit_val_char by done. rewrite Z.mod_small by lia.
    replace (0 * 10 + n) with n by lia. case_match; zbool; [lia|done].
  - assert (Hd : n = 10 * (n / 10) + n mod 10) by (apply Z.div_mod; lia).
    rewrite IH.
    + cbn [parse_digits]. rewrite digit_val_char by done.
      replace (n / 10 * 10 + n mod 10) with n by lia. case_match; zbool; [lia|done].
    + split; [apply Z.div_pos; lia | lia].
    + rewrite Nat2Z.inj_succ, Z.pow_succ_r in Hf by lia. apply Z.div_lt_upper_bound; lia.
Qed.

Lemma format_digits_nonempty fuel n acc : (0 < fuel)%nat -> format_digits fuel n acc <> [].
Proof.
  destruct fuel as [|f]; [lia|]. intros _. cbn. case_match; [done|].
  generalize (n / 10), (digit_char (n mod 10)). clear.
  intros m c. revert m c acc. induction f as [|f IH]; intros m c acc; cbn; [done|].
  case_match; [done|]. apply IH.
Qed.

(** Node names round-trip: a node publishes its id with FormatUint and its peers
    read it back with ParseUint. *)
Lemma ParseUint_FormatUint n : is_u64 n -> ParseUint (FormatUint n) = Ok n.
Proof.
  intros H. unfold ParseUint, FormatUint. rewrite bytes_string_of.
  pose proof (format_digits_nonempty 20 n []) as Hne.
  pose proof (parse_format_digits 20 n [] u64_max) as Hp. unfold is_u64, u64_max, u64_size in *.
  destruct (format_digits 20 n []) as [|c b]; [exfalso; apply Hne; [lia|done]|].
  rewrite Hp; cbn; [done | lia | lia].
Qed.

Lemma parse_digits_range maxv acc b v :
  0 <= acc <= maxv -> parse_digits maxv acc b = Ok v -> 0 <= v <= maxv.
Proof.
  revert acc. induction b as [|c b IH]; intros acc Ha H; cbn in H; [naive_solver|].
  unfold digit_val in H. repeat case_match; simplify_eq; zbool.
  eapply IH; [|done]. lia.
Qed.

Lemma ParseUint_range s v : ParseUint s = Ok v -> is_u64 v.
Proof.
  unfold ParseUint. case_match; [done|]. intros Hp%parse_digits_range;
    unfold is_u64, u64_max, u64_size in *; lia.
Qed.
