(* ===== verification/GoText.v ===== *)
(** * Text of the environment: strings.Split, strings.TrimSpace, time.ParseDuration

    The functions of Go's standard library that read the values of environment
    variables.  [ParseDuration] computes the fraction of a number as the library
    does, in IEEE double precision, with the Standard Library's [SpecFloat]. *)

From S2P Require Import Prelude GoStd.
From Stdlib Require Import Ascii SpecFloat.

(** ** strings *)

(** strings.SplitSeq(s, ",") *)
Fixpoint split_comma (b : list ascii) : list (list ascii) :=
  match b with
  | [] => [[]]
  | c :: b' =>
      if Ascii.eqb c "," then [] :: split_comma b'
      else match split_comma b' with
           | [] => [[c]]
           | p :: ps => (c :: p) :: ps
           end
  end.

(** strings.Join(l, ",") *)
Fixpoint join_comma (l : list (list ascii)) : list ascii :=
  match l with
  | [] => []
  | [p] => p
  | p :: l' => p ++ ","%char :: join_comma l'
  end.

(** unicode.IsSpace of a rune of one, two and three bytes in UTF-8. *)
Definition space1 (c : ascii) : bool := in_range 9 13 c || (byte_val c =? 32).

Definition space2 (c c1 : ascii) : bool :=
  (byte_val c =? 194) && ((byte_val c1 =? 133) || (byte_val c1 =? 160)).

Definition space3 (c c1 c2 : ascii) : bool :=
  (byte_val c =? 225) && (byte_val c1 =? 154) && (byte_val c2 =? 128)                    (* U+1680 *)
  || (byte_val c =? 226) && (byte_val c1 =? 128) &&
       (in_range 128 138 c2 || (byte_val c2 =? 168) || (byte_val c2 =? 169) || (byte_val c2 =? 175))
  || (byte_val c =? 226) && (byte_val c1 =? 129) && (byte_val c2 =? 159)                 (* U+205F *)
  || (byte_val c =? 227) && (byte_val c1 =? 128) && (byte_val c2 =? 128).                (* U+3000 *)

(** Removes the spaces at the head, given the spaces of two and of three bytes. *)
Fixpoint trim_head (s2 : ascii -> ascii -> bool) (s3 : ascii -> ascii -> ascii -> bool)
    (b : list ascii) : list ascii :=
  match b with
  | [] => []
  | c :: r =>
      if space1 c then trim_head s2 s3 r
      else match r with
      | [] => b
      | c1 :: r1 =>
          if s2 c c1 then trim_head s2 s3 r1
          else match r1 with
          | [] => b
          | c2 :: r2 => if s3 c c1 c2 then trim_head s2 s3 r2 else b
          end
      end
  end.

Definition trim_left : list ascii -> list ascii := trim_head space2 space3.

Definition trim_right (b : list ascii) : list ascii :=
  rev (trim_head (fun c1 c => space2 c c1) (fun c2 c1 c => space3 c c1 c2) (rev b)).

(** strings.TrimSpace *)
Definition TrimSpace (b : list ascii) : list ascii := trim_right (trim_left b).

(** ** time.ParseDuration *)

(** float64(n) for an unsigned n *)
Definition float_of (n : Z) : spec_float := binary_normalize 53 1024 n 0 false.

Definition float_mul : spec_float -> spec_float -> spec_float := SFmul 53 1024.

Definition float_div : spec_float -> spec_float -> spec_float := SFdiv 53 1024.

(** uint64(x) for a finite x that is not negative and fits *)
Definition float_trunc (x : spec_float) : Z :=
  match x with
  | S754_finite false m e => if 0 <=? e then Z.pos m * 2 ^ e else Z.pos m / 2 ^ (- e)
  | _ => 0
  end.

(** leadingInt: the digits at the head as a number of at most 2^63, and the rest;
    [None] on overflow. *)
Fixpoint leadingInt (x : Z) (b : list ascii) : option (Z * list ascii) :=
  match b with
  | [] => Some (x, [])
  | c :: r =>
      match digit_val c with
      | None => Some (x, b)
      | Some d =>
          if 2 ^ 63 / 10 <? x then None
          else if 2 ^ 63 <? x * 10 + d then None
          else leadingInt (x * 10 + d) r
      end
  end.

(** leadingFraction: the digits as a number, the power of ten to divide it by, and the
    rest.  Digits past the range are read and ignored. *)
Fixpoint leadingFraction (x : Z) (scale : spec_float) (overflow : bool) (b : list ascii) :
    Z * spec_float * list ascii :=
  match b with
  | [] => (x, scale, [])
  | c :: r =>
      match digit_val c with
      | None => (x, scale, b)
      | Some d =>
          if overflow then leadingFraction x scale true r
          else if (2 ^ 63 - 1) / 10 <? x then leadingFraction x scale true r
          else if 2 ^ 63 <? x * 10 + d then leadingFraction x scale true r
          else leadingFraction (x * 10 + d) (float_mul scale (float_of 10)) false r
      end
  end.

(** The unit: the bytes up to the next digit or point. *)
Fixpoint span_unit (b : list ascii) : list ascii * list ascii :=
  match b with
  | [] => ([], [])
  | c :: r =>
      if Ascii.eqb c "." || bool_decide (is_Some (digit_val c)) then ([], b)
      else let '(u, rest) := span_unit r in (c :: u, rest)
  end.

(** unitMap, in nanoseconds; the two spellings of micro are U+00B5 and U+03BC. *)
Definition unit_map (u : list ascii) : option Z :=
  if bool_decide (u = bytes_of "ns") then Some 1
  else if bool_decide (u = bytes_of "us") then Some 1000
  else if bool_decide (u = [byte_of 194; byte_of 181; byte_of 115]) then Some 1000
  else if bool_decide (u = [byte_of 206; byte_of 188; byte_of 115]) then Some 1000
  else if bool_decide (u = bytes_of "ms") then Some 1000000
  else if bool_decide (u = bytes_of "s") then Some 1000000000
  else if bool_decide (u = bytes_of "m") then Some 60000000000
  else if bool_decide (u = bytes_of "h") then Some 3600000000000
  else None.

Definition err_duration (orig : list ascii) : error := EFmt "time: invalid duration %q" [FStr (string_of orig)].

Definition err_missing_unit (orig : list ascii) : error :=
  EFmt "time: missing unit in duration %q" [FStr (string_of orig)].

Definition err_unknown_unit (u orig : list ascii) : error :=
  EFmt "time: unknown unit %q in duration %q" [FStr (string_of u); FStr (string_of orig)].

(** One number with its unit: its nanoseconds, at most 2^63, and the rest. *)
Definition duration_part (orig b : list ascii) : result (Z * list ascii) :=
  match b with
  | [] => Err (err_duration orig)
  | c :: _ =>
      if negb (Ascii.eqb c "." || bool_decide (is_Some (digit_val c))) then Err (err_duration orig)
      else match leadingInt 0 b with
      | None => Err (err_duration orig)
      | Some (v, b1) =>
          let pre := negb (Nat.eqb (length b) (length b1)) in
          let '(f, scale, b2, post) :=
            match b1 with
            | c1 :: r =>
                if Ascii.eqb c1 "." then
                  let '(f, scale, b2) := leadingFraction 0 (float_of 1) false r in
                  (f, scale, b2, negb (Nat.eqb (length r) (length b2)))
                else (0, float_of 1, b1, false)
            | [] => (0, float_of 1, b1, false)
            end in
          if negb pre && negb post then Err (err_duration orig)
          else let '(u, b3) := span_unit b2 in
          match u with
          | [] => Err (err_missing_unit orig)
          | _ =>
              match unit_map u with
              | None => Err (err_unknown_unit u orig)
              | Some unit =>
                  if 2 ^ 63 / unit <? v then Err (err_duration orig)
                  else
                    let v1 := v * unit in
                    let v2 := if 0 <? f
                      then uint64 (v1 + float_trunc (float_mul (float_of f) (float_div (float_of unit) scale)))
                      else v1 in
                    if (0 <? f) && (2 ^ 63 <? v2) then Err (err_duration orig) else Ok (v2, b3)
              end
          end
      end
  end.

(** The loop over the parts; each one takes at least one byte, so that a fuel of the
    number of bytes is enough. *)
Fixpoint duration_parts (fuel : nat) (orig : list ascii) (d : Z) (b : list ascii) : result Z :=
  match b with
  | [] => Ok d
  | _ =>
      match fuel with
      | O => Err (err_duration orig)
      | S fuel' =>
          rbind (duration_part orig b) (fun p =>
            let d' := uint64 (d + fst p) in
            if 2 ^ 63 <? d' then Err (err_duration orig) else duration_parts fuel' orig d' (snd p))
      end
  end.

Definition ParseDuration (s : string) : result Z :=
  let orig := bytes_of s in
  let '(neg, b) :=
    match orig with
    | c :: r => if Ascii.eqb c "-" then (true, r) else if Ascii.eqb c "+" then (false, r) else (false, orig)
    | [] => (false, [])
    end in
  if bool_decide (b = ["0"%char]) then Ok 0
  else if bool_decide (b = []) then Err (err_duration orig)
  else rbind (duration_parts (length b) orig 0 b) (fun d =>
    if neg then Ok (int64 (- d))
    else if 2 ^ 63 - 1 <? d then Err (err_duration orig) else Ok d).

(** Values from the table of tests of package time. *)
Example ParseDuration_values :
  map ParseDuration ["1h30m"; "-2m3.4s"; ".5s"; "0.3333333333333333333h"; "0.100000000000000000000h";
                     "9223372036854775807ns"; "-9223372036854775808ns"]%string =
  map Ok [5400000000000; -123400000000; 500000000; 1200000000000; 360000000000;
          9223372036854775807; -9223372036854775808] /\
  forallb (fun s => negb (is_ok (ParseDuration s)))
    [EmptyString; "3"; "-"; "s"; "."; "-."; ".s"; "+.s"; "1d"; "9223372036854775.808us"; "9223372036854775808ns"]%string = true.
Proof. by vm_compute. Qed.

(** ** Lemmas *)

(** *** Lists separated by commas *)

Definition no_comma (b : list ascii) : Prop := Forall (fun c => Ascii.eqb c "," = false) b.

Lemma split_no_comma b : Forall no_comma (split_comma b).
Proof.
  induction b as [|c b IH]; cbn; [by repeat constructor|].
  destruct (Ascii.eqb c ",") eqn:Hc; [by repeat constructor|].
  destruct (split_comma b) as [|p ps]; [by repeat constructor|].
  apply Forall_cons in IH as [Hp Hps]. by repeat constructor.
Qed.

Lemma split_one p : no_comma p -> split_comma p = [p].
Proof. induction 1 as [|c p Hc _ IH]; cbn; [done|]. by rewrite Hc, IH. Qed.

Lemma split_app p b : no_comma p -> split_comma (p ++ ","%char :: b) = p :: split_comma b.
Proof. induction 1 as [|c p Hc _ IH]; cbn; [done|]. by rewrite Hc, IH. Qed.

Lemma split_join l : Forall no_comma l -> l <> [] -> split_comma (join_comma l) = l.
Proof.
  induction 1 as [|p l Hp Hl IH]; intros Hne; [done|]. cbn. destruct l as [|q l]; [by apply split_one|].
  rewrite split_app by done. by rewrite IH.
Qed.

(** *** Spaces *)

(** No space at the head. *)
Definition bare_head (s2 : ascii -> ascii -> bool) (s3 : ascii -> ascii -> ascii -> bool)
    (b : list ascii) : Prop := trim_head s2 s3 b = b.

Lemma trim_head_suffix s2 s3 b : exists p, b = p ++ trim_head s2 s3 b.
Proof.
  enough (H : forall n b, (length b <= n)%nat -> exists p, b = p ++ trim_head s2 s3 b) by eauto.
  clear b. induction n as [|n IH]; intros b Hn; [destruct b; [by exists []|cbn in Hn; lia]|].
  destruct b as [|c r]; [by exists []|]. cbn in *.
  destruct (space1 c); [destruct (IH r ltac:(lia)) as [p Hp]; exists (c :: p); cbn; by f_equal|].
  destruct r as [|c1 r1]; [by exists []|]. cbn in *.
  destruct (s2 c c1); [destruct (IH r1 ltac:(lia)) as [p Hp]; exists (c :: c1 :: p); cbn; by repeat f_equal|].
  destruct r1 as [|c2 r2]; [by exists []|]. cbn in *.
  destruct (s3 c c1 c2); [destruct (IH r2 ltac:(lia)) as [p Hp]; exists (c :: c1 :: c2 :: p); cbn; by repeat f_equal|].
  by exists [].
Qed.

Lemma trim_head_bare s2 s3 b : bare_head s2 s3 (trim_head s2 s3 b).
Proof.
  unfold bare_head. enough (H : forall n b, (length b <= n)%nat -> trim_head s2 s3 (trim_head s2 s3 b) = trim_head s2 s3 b) by eauto.
  clear b. induction n as [|n IH]; intros b Hn; [destruct b; [done|cbn in Hn; lia]|].
  destruct b as [|c r]; [done|]. cbn in *. destruct (space1 c) eqn:H1; [apply IH; lia|].
  destruct r as [|c1 r1]; cbn in *; [by rewrite H1|]. destruct (s2 c c1) eqn:H2; [apply IH; lia|].
  destruct r1 as [|c2 r2]; cbn in *; [by rewrite H1, H2|]. destruct (s3 c c1 c2) eqn:H3; [apply IH; lia|].
  cbn. by rewrite H1, H2, H3.
Qed.

Lemma trim_head_length s2 s3 b : (length (trim_head s2 s3 b) <= length b)%nat.
Proof. destruct (trim_head_suffix s2 s3 b) as [p Hp]. rewrite Hp at 2. rewrite length_app. lia. Qed.

(** A prefix of bytes with no space at the head has none. *)
Lemma bare_head_prefix s2 s3 p q : bare_head s2 s3 (p ++ q) -> bare_head s2 s3 p.
Proof.
  unfold bare_head. destruct p as [|c r]; [done|]. cbn. intros H.
  assert (Hlen : forall l k, (length l < length (c :: r ++ q))%nat -> trim_head s2 s3 l = k -> k <> c :: r ++ q).
  { intros l k Hl <- E. pose proof (trim_head_length s2 s3 l). rewrite E in *. lia. }
  destruct (space1 c); [by eapply Hlen in H; [|cbn; lia]|].
  destruct r as [|c1 r1]; [done|]. cbn in *. destruct (s2 c c1); [by eapply Hlen in H; [|cbn; lia]|].
  destruct r1 as [|c2 r2]; [done|]. cbn in *. destruct (s3 c c1 c2); [by eapply Hlen in H; [|cbn; lia]|]. done.
Qed.

(** strings.TrimSpace takes away all there is to take away. *)
Lemma TrimSpace_idemp b : TrimSpace (TrimSpace b) = TrimSpace b.
Proof.
  unfold TrimSpace at 2 3. set (l := trim_left b).
  assert (Hl : trim_left (trim_right l) = trim_right l).
  { unfold trim_left. unfold trim_right.
    set (t := trim_head _ _ (rev l)). destruct (trim_head_suffix (fun c1 c => space2 c c1) (fun c2 c1 c => space3 c c1 c2) (rev l)) as [p Hp].
    fold t in Hp. assert (E : l = rev t ++ rev p) by (rewrite <- rev_app_distr, <- Hp; by rewrite rev_involutive).
    apply (bare_head_prefix _ _ _ (rev p)). rewrite <- E. apply trim_head_bare. }
  unfold TrimSpace. rewrite Hl. unfold trim_right. rewrite rev_involutive.
  f_equal. apply trim_head_bare.
Qed.

Lemma trim_head_forall (Q : ascii -> Prop) s2 s3 b : Forall Q b -> Forall Q (trim_head s2 s3 b).
Proof.
  intros H. destruct (trim_head_suffix s2 s3 b) as [p Hp]. rewrite Hp in H. by apply Forall_app in H as [_ H].
Qed.

Lemma TrimSpace_no_comma b : no_comma b -> no_comma (TrimSpace b).
Proof.
  intros H. unfold TrimSpace, trim_right. apply Forall_rev, trim_head_forall, Forall_rev. by apply trim_head_forall.
Qed.

(** *** Durations *)

Lemma Atoi_range s v : Atoi s = Ok v -> - 2 ^ 63 <= v < 2 ^ 63.
Proof.
  unfold Atoi. destruct (bytes_of s) as [|c b]; [done|].
  assert (Hmag : forall b v, (match b with [] => Err err_syntax | _ => parse_digits u64_max 0 b end) = Ok v -> 0 <= v).
  { intros [|c' b'] w; [done|]. intros H. eapply parse_digits_range in H; [lia|..]; unfold u64_max, u64_size; lia. }
  destruct (Ascii.eqb c "-"); unfold rbind.
  - destruct (match b with [] => _ | _ => _ end) as [w|] eqn:E; [|done]. apply Hmag in E.
    destruct (Z.ltb_spec (2 ^ 63) w); [done|]. intros [= <-]. lia.
  - destruct (match (if Ascii.eqb c "+" then b else c :: b) with [] => _ | _ => _ end) as [w|] eqn:E; [|done].
    apply Hmag in E. destruct (Z.leb_spec (2 ^ 63) w); [done|]. intros [= <-]. lia.
Qed.

Lemma duration_parts_range fuel orig : forall d b v,
  0 <= d <= 2 ^ 63 -> duration_parts fuel orig d b = Ok v -> 0 <= v <= 2 ^ 63.
Proof.
  induction fuel as [|fuel IH]; intros d b v Hd; destruct b as [|c r]; cbn [duration_parts];
    try done; try (by intros [= <-]).
  destruct (duration_part orig (c :: r)) as [[p rest]|]; cbn [rbind fst snd]; [|done].
  destruct (Z.ltb_spec (2 ^ 63) (uint64 (d + p))); [done|].
  apply IH. pose proof (uint64_range (d + p)) as [? _]. lia.
Qed.

(** A duration is a 64-bit number of nanoseconds. *)
Lemma ParseDuration_range s v : ParseDuration s = Ok v -> - 2 ^ 63 <= v < 2 ^ 63.
Proof.
  unfold ParseDuration. destruct (match bytes_of s with [] => _ | _ => _ end) as [neg b].
  case_bool_decide; [intros [= <-]; lia|]. case_bool_decide; [done|].
  destruct (duration_parts _ _ 0 b) as [d|] eqn:E; cbn; [|done]. apply duration_parts_range in E; [|lia].
  destruct neg; [intros [= <-]; apply int64_range|].
  destruct (Z.ltb_spec (2 ^ 63 - 1) d); [done|]. intros [= <-]. lia.
Qed.

(** The fuel is enough: each part takes at least one byte. *)
Lemma leadingInt_length b : forall x v r, leadingInt x b = Some (v, r) -> (length r <= length b)%nat.
Proof.
  induction b as [|c b IH]; intros x v r; cbn; [by intros [= <- <-]|].
  destruct (digit_val c); [|by intros [= <- <-]]. repeat case_match; try done. intros Hr%IH. lia.
Qed.

Lemma leadingFraction_length b : forall x s o, (length (leadingFraction x s o b).2 <= length b)%nat.
Proof.
  induction b as [|c b IH]; intros x s o; cbn; [done|]. destruct (digit_val c); [|done].
  repeat case_match; etransitivity; try apply IH; lia.
Qed.

Lemma span_unit_app b : (span_unit b).1 ++ (span_unit b).2 = b.
Proof.
  induction b as [|c b IH]; cbn [span_unit]; [done|]. case_match; [done|].
  destruct (span_unit b) as [u r]. cbn in *. by f_equal.
Qed.

Lemma duration_part_length orig b v r :
  duration_part orig b = Ok (v, r) -> (length r < length b)%nat.
Proof.
  unfold duration_part. destruct b as [|c b0]; [done|]. set (b := c :: b0). clearbody b.
  case_match; [done|]. destruct (leadingInt 0 b) as [[x b1]|] eqn:Hx; [|done]. apply leadingInt_length in Hx.
  destruct (match b1 with [] => _ | _ => _ end) as [[[f sc] b2] post] eqn:Hf.
  assert (Hb2 : (length b2 <= length b1)%nat).
  { destruct b1 as [|c1 r1]; [by simplify_eq|]. case_match; [|by simplify_eq].
    pose proof (leadingFraction_length r1 0 (float_of 1) false) as Hl.
    destruct (leadingFraction 0 (float_of 1) false r1) as [[? ?] ?]. simplify_eq. cbn in *. lia. }
  destruct (negb _ && negb _); [done|]. pose proof (span_unit_app b2) as Hu. destruct (span_unit b2) as [u b3]. cbn in Hu.
  destruct u as [|c2 u]; [done|]. apply (f_equal length) in Hu. cbn in Hu. rewrite length_app in Hu.
  destruct (unit_map (c2 :: u)); [|done]. repeat (destruct (_ <? _); cbn [andb]; try done); intros [= _ <-]; lia.
Qed.

Lemma duration_parts_fuel orig : forall n m d b,
  (length b <= n)%nat -> (length b <= m)%nat -> duration_parts n orig d b = duration_parts m orig d b.
Proof.
  induction n as [|n IH]; intros m d b Hn Hm; destruct b as [|c r]; cbn [length] in *; try lia; try by destruct m.
  destruct m as [|m]; [lia|]. cbn [duration_parts].
  destruct (duration_part orig (c :: r)) as [[p rest]|] eqn:E; cbn [rbind fst snd]; [|done].
  apply duration_part_length in E. cbn [length] in E. case_match; [done|]. apply IH; lia.
Qed.

(** *** Whole numbers with a unit *)

Lemma digit_val_nonneg c d : digit_val c = Some d -> 0 <= d.
Proof.
  unfold digit_val. destruct (Z.leb_spec 48 (byte_val c)); cbn; [|done]. case_match; [|done]. intros [= <-]. lia.
Qed.

Lemma leadingInt_digits b : forall x v rest,
  0 <= x -> parse_digits (2 ^ 63) x b = Ok v ->
  (match rest with [] => True | c :: _ => digit_val c = None end) ->
  leadingInt x (b ++ rest) = Some (v, rest).
Proof.
  induction b as [|c b IH]; intros x v rest Hx Hp Hr; cbn [parse_digits app leadingInt] in *.
  - simplify_eq. destruct rest as [|c rest]; cbn; [done|]. by rewrite Hr.
  - destruct (digit_val c) as [d|] eqn:Hd; [|done].
    pose proof (digit_val_nonneg _ _ Hd).
    destruct (2 ^ 63 <? x * 10 + d) eqn:E; [done|]. apply Z.ltb_ge in E.
    destruct (Z.ltb_spec (2 ^ 63 / 10) x); [change (2 ^ 63 / 10) with 922337203685477580 in *; lia|].
    apply IH; [lia | done..].
Qed.

Lemma span_unit_all u : Forall (fun c => Ascii.eqb c "." = false /\ digit_val c = None) u -> span_unit u = (u, []).
Proof.
  induction 1 as [|c u [Hc Hd] _ IH]; cbn [span_unit]; [done|].
  rewrite Hc, Hd, bool_decide_eq_false_2 by (by intros [? ?]). cbn. by rewrite IH.
Qed.

Lemma duration_part_whole orig n u k :
  unit_map u = Some k -> 0 < k -> u <> [] ->
  Forall (fun c => Ascii.eqb c "." = false /\ digit_val c = None) u ->
  0 <= n -> n * k < 2 ^ 63 ->
  duration_part orig (format_digits 20 n [] ++ u) = Ok (n * k, []).
Proof.
  intros Hu Hk Hne Hall Hn Hnk.
  assert (Hp : parse_digits (2 ^ 63) 0 (format_digits 20 n []) = Ok n) by (rewrite parse_format_digits; [done | nia | nia]).
  pose proof (format_digits_nonempty 20 n [] ltac:(lia)) as Hd. destruct (format_digits 20 n []) as [|c b]; [done|].
  assert (Hc : is_Some (digit_val c)).
  { cbn in Hp. by destruct (digit_val c). }
  assert (Hl : leadingInt 0 ((c :: b) ++ u) = Some (n, u)).
  { apply leadingInt_digits; [lia | done |]. destruct u; [done|]. by apply Forall_cons in Hall as [[_ ?] _]. }
  unfold duration_part. cbn [app] in *. rewrite (bool_decide_eq_true_2 _ Hc), orb_true_r. cbn [negb].
  rewrite Hl. rewrite (proj2 (Nat.eqb_neq (length (c :: b ++ u)) (length u))) by (cbn; rewrite length_app; lia).
  destruct u as [|c1 u]; [done|]. assert (Ascii.eqb c1 "." = false) as -> by (by apply Forall_cons in Hall as [[? _] _]).
  cbn [negb andb]. rewrite (span_unit_all _ Hall), Hu. destruct (Z.ltb_spec (2 ^ 63 / k) n) as [Hlt|]; [|done].
  exfalso. assert (n <= 2 ^ 63 / k) by (apply Z.div_le_lower_bound; lia). lia.
Qed.

(** A whole number and a unit, as an operator writes a duration, denotes their
    product. *)
Lemma ParseDuration_whole n u k :
  unit_map u = Some k -> 0 < k -> u <> [] ->
  Forall (fun c => Ascii.eqb c "." = false /\ digit_val c = None) u ->
  0 <= n -> n * k < 2 ^ 63 ->
  ParseDuration (string_of (format_digits 20 n [] ++ u)) = Ok (n * k).
Proof.
  intros Hu Hk Hne Hall Hn Hnk. unfold ParseDuration. rewrite bytes_string_of.
  pose proof (duration_part_whole (format_digits 20 n [] ++ u) n u k Hu Hk Hne Hall Hn Hnk) as Hpart.
  assert (Hp : parse_digits (2 ^ 63) 0 (format_digits 20 n []) = Ok n) by (rewrite parse_format_digits; [done | nia | nia]).
  pose proof (format_digits_nonempty 20 n [] ltac:(lia)) as Hd. destruct (format_digits 20 n []) as [|c b]; [done|].
  assert (Hc : is_Some (digit_val c)) by (cbn in Hp; by destruct (digit_val c)). cbn [app] in *.
  assert (Hsign : Ascii.eqb c "-" = false /\ Ascii.eqb c "+" = false).
  { split; destruct (Ascii.eqb_spec c "-"), (Ascii.eqb_spec c "+"); subst; try done; by destruct Hc. }
  destruct Hsign as [-> ->]. rewrite (bool_decide_eq_false_2 (c :: b ++ u = _)).
  2: { intros [= _ E]. apply app_eq_nil in E as [_ ?]. done. }
  rewrite bool_decide_eq_false_2 by done. cbn [length duration_parts]. rewrite Hpart. cbn [rbind fst snd].
  assert (0 <= n * k) by nia. rewrite Z.add_0_l, uint64_id by (unfold is_u64, u64_size; lia).
  rewrite (proj2 (Z.ltb_ge (2 ^ 63) (n * k))) by lia.
  assert (forall f o, duration_parts f o (n * k) [] = Ok (n * k)) as -> by (by intros []).
  cbn [rbind]. by rewrite (proj2 (Z.ltb_ge (2 ^ 63 - 1) (n * k))) by lia.
Qed.
