(* ===== verification/Json.v ===== *)
(** * encoding/json, as far as cluster/meta.go and health/handler.go use it

    [quote] is json.Marshal of a string (with the default HTML escaping),
    [parse] the decoder's reading of a document into a tree, with the
    replacement of malformed UTF-8 and of unpaired surrogates by U+FFFD. *)

From S2P Require Import Prelude GoStd.
From Stdlib Require Import Ascii.

Inductive json :=
| JNull
| JBool (b : bool)
| JNum (lit : list ascii)
| JStr (s : list ascii)
| JArr (l : list json)
| JObj (fields : list (list ascii * json)).

(** ** Encoding *)

Definition hex_char (d : Z) : ascii :=
  if d <? 10 then byte_of (48 + d) else byte_of (87 + d).

Definition bs : ascii := "092".
Definition dq : ascii := "034".

Definition replacement : list ascii := [byte_of 239; byte_of 191; byte_of 189].

Definition u_escape (lo : ascii) (v : Z) : list ascii :=
  [bs; lo; "0"%char; "0"%char; hex_char (v / 16); hex_char (v mod 16)].

(** appendString on one byte below 0x80. *)
Definition escape_byte (c : ascii) : list ascii :=
  let v := byte_val c in
  if v =? 34 then [bs; dq]
  else if v =? 92 then [bs; bs]
  else if v =? 8 then [bs; "b"%char]
  else if v =? 12 then [bs; "f"%char]
  else if v =? 10 then [bs; "n"%char]
  else if v =? 13 then [bs; "r"%char]
  else if v =? 9 then [bs; "t"%char]
  else if (v <? 32) || (v =? 60) || (v =? 62) || (v =? 38) then u_escape "u" v
  else [c].

(** The two line separators that are valid JSON and not valid JavaScript. *)
Definition is_line_sep (c c1 c2 : ascii) : bool :=
  (byte_val c =? 226) && (byte_val c1 =? 128) &&
  ((byte_val c2 =? 168) || (byte_val c2 =? 169)).

Fixpoint quote_body (b : list ascii) : list ascii :=
  match b with
  | [] => []
  | c :: r =>
      if byte_val c <? 128 then escape_byte c ++ quote_body r
      else match rune_size b, r with
           | 2%nat, c1 :: r' => c :: c1 :: quote_body r'
           | 3%nat, c1 :: c2 :: r' =>
               (if is_line_sep c c1 c2
                then [bs; "u"%char; "2"%char; "0"%char; "2"%char; hex_char (byte_val c2 - 160)]
                else [c; c1; c2]) ++ quote_body r'
           | 4%nat, c1 :: c2 :: c3 :: r' => c :: c1 :: c2 :: c3 :: quote_body r'
           | _, _ => [bs; "u"; "f"; "f"; "f"; "d"]%char ++ quote_body r
           end
  end.

Definition quote (b : list ascii) : list ascii := dq :: quote_body b ++ [dq].

(** ** Decoding *)

Definition is_ws (c : ascii) : bool :=
  (byte_val c =? 32) || (byte_val c =? 9) || (byte_val c =? 10) || (byte_val c =? 13).

Fixpoint skip_ws (b : list ascii) : list ascii :=
  match b with
  | c :: r => if is_ws c then skip_ws r else b
  | [] => []
  end.

Definition hex_val (c : ascii) : option Z :=
  if in_range 48 57 c then Some (byte_val c - 48)
  else if in_range 97 102 c then Some (byte_val c - 87)
  else if in_range 65 70 c then Some (byte_val c - 55)
  else None.

Definition hex4 (a b c d : ascii) : option Z :=
  match hex_val a, hex_val b, hex_val c, hex_val d with
  | Some a, Some b, Some c, Some d => Some (((a * 16 + b) * 16 + c) * 16 + d)
  | _, _, _, _ => None
  end.

(** The byte an escape other than [\u] stands for. *)
Definition unescape (c : ascii) : option ascii :=
  let v := byte_val c in
  if (v =? 34) || (v =? 92) || (v =? 47) then Some c
  else if v =? 98 then Some (byte_of 8)
  else if v =? 102 then Some (byte_of 12)
  else if v =? 110 then Some (byte_of 10)
  else if v =? 114 then Some (byte_of 13)
  else if v =? 116 then Some (byte_of 9)
  else None.

Definition is_surrogate (r : Z) : bool := (55296 <=? r) && (r <=? 57343).

(** The rune of a surrogate pair, when the two halves form one. *)
Definition pair_rune (r1 r2 : Z) : option Z :=
  if (55296 <=? r1) && (r1 <=? 56319) && (56320 <=? r2) && (r2 <=? 57343)
  then Some ((r1 - 55296) * 1024 + (r2 - 56320) + 65536) else None.

Definition cons_opt (p : list ascii) (o : option (list ascii * list ascii)) :
    option (list ascii * list ascii) :=
  match o with Some (s, rest) => Some (p ++ s, rest) | None => None end.

(** A string literal after its opening quote: its bytes and what follows. *)
Fixpoint parse_string (b : list ascii) : option (list ascii * list ascii) :=
  match b with
  | [] => None
  | c :: r =>
      let v := byte_val c in
      if v =? 34 then Some ([], r)
      else if v <? 32 then None
      else if v =? 92 then
        match r with
        | e :: r1 =>
            if byte_val e =? 117 then
              match r1 with
              | h1 :: h2 :: h3 :: h4 :: r5 =>
                  match hex4 h1 h2 h3 h4 with
                  | None => None
                  | Some u =>
                      if is_surrogate u then
                        match r5 with
                        | b1 :: u1 :: g1 :: g2 :: g3 :: g4 :: r6 =>
                            if (byte_val b1 =? 92) && (byte_val u1 =? 117) then
                              match hex4 g1 g2 g3 g4 with
                              | None => None
                              | Some u2 =>
                                  match pair_rune u u2 with
                                  | Some ru => cons_opt (encode_rune ru) (parse_string r6)
                                  | None => cons_opt replacement (parse_string r5)
                                  end
                              end
                            else cons_opt replacement (parse_string r5)
                        | _ => cons_opt replacement (parse_string r5)
                        end
                      else cons_opt (encode_rune u) (parse_string r5)
                  end
              | _ => None
              end
            else match unescape e with
                 | Some x => cons_opt [x] (parse_string r1)
                 | None => None
                 end
        | [] => None
        end
      else if v <? 128 then cons_opt [c] (parse_string r)
      else match rune_size b, r with
           | 2%nat, c1 :: r' => cons_opt [c; c1] (parse_string r')
           | 3%nat, c1 :: c2 :: r' => cons_opt [c; c1; c2] (parse_string r')
           | 4%nat, c1 :: c2 :: c3 :: r' => cons_opt [c; c1; c2; c3] (parse_string r')
           | _, _ => cons_opt replacement (parse_string r)
           end
  end.

Definition is_digit (c : ascii) : bool := in_range 48 57 c.

Fixpoint span_digits (b : list ascii) : list ascii * list ascii :=
  match b with
  | c :: r => if is_digit c then let '(d, rest) := span_digits r in (c :: d, rest) else ([], b)
  | [] => ([], [])
  end.

(** -?(0|[1-9][0-9]* )(\.[0-9]+)?([eE][+-]?[0-9]+)? *)
Definition parse_number (b : list ascii) : option (list ascii * list ascii) :=
  let '(sign, b) :=
    match b with c :: r => if byte_val c =? 45 then ([c], r) else ([], b) | [] => ([], []) end in
  match (match b with
         | c :: r => if byte_val c =? 48 then Some ([c], r)
                     else if is_digit c then Some (span_digits b) else None
         | [] => None
         end) with
  | None => None
  | Some (int, b) =>
      let frac :=
        match b with
        | c :: r =>
            if byte_val c =? 46 then
              match span_digits r with ([], _) => None | (d, rest) => Some (c :: d, rest) end
            else Some ([], b)
        | [] => Some ([], [])
        end in
      match frac with
      | None => None
      | Some (frac, b) =>
          match b with
          | c :: r =>
              if (byte_val c =? 101) || (byte_val c =? 69) then
                let '(es, r) :=
                  match r with
                  | s :: r' => if (byte_val s =? 43) || (byte_val s =? 45) then ([s], r') else ([], r)
                  | [] => ([], [])
                  end in
                match span_digits r with
                | ([], _) => None
                | (d, rest) => Some (sign ++ int ++ frac ++ c :: es ++ d, rest)
                end
              else Some (sign ++ int ++ frac, b)
          | [] => Some (sign ++ int ++ frac, [])
          end
      end
  end.

Fixpoint strip (p b : list ascii) : option (list ascii) :=
  match p, b with
  | [], _ => Some b
  | x :: p', y :: b' => if Ascii.eqb x y then strip p' b' else None
  | _, [] => None
  end.

(** One value, members of an object after its brace or a comma, elements of an
    array after its bracket or a comma.  Every call consumes a byte, so the
    length of the input is enough fuel. *)
Fixpoint parse_value (fuel : nat) (b : list ascii) : option (json * list ascii) :=
  match fuel with
  | O => None
  | S n =>
      let b := skip_ws b in
      match b with
      | [] => None
      | c :: r =>
          if byte_val c =? 123 then
            match skip_ws r with
            | c' :: r' =>
                if byte_val c' =? 125 then Some (JObj [], r')
                else match parse_members n r with
                     | Some (fs, rest) => Some (JObj fs, rest)
                     | None => None
                     end
            | [] => None
            end
          else if byte_val c =? 91 then
            match skip_ws r with
            | c' :: r' =>
                if byte_val c' =? 93 then Some (JArr [], r')
                else match parse_elements n r with
                     | Some (vs, rest) => Some (JArr vs, rest)
                     | None => None
                     end
            | [] => None
            end
          else if byte_val c =? 34 then
            match parse_string r with
            | Some (s, rest) => Some (JStr s, rest)
            | None => None
            end
          else match strip (bytes_of "true") b, strip (bytes_of "false") b, strip (bytes_of "null") b with
               | Some rest, _, _ => Some (JBool true, rest)
               | _, Some rest, _ => Some (JBool false, rest)
               | _, _, Some rest => Some (JNull, rest)
               | None, None, None =>
                   match parse_number b with
                   | Some (lit, rest) => Some (JNum lit, rest)
                   | None => None
                   end
               end
      end
  end
with parse_members (fuel : nat) (b : list ascii) : option (list (list ascii * json) * list ascii) :=
  match fuel with
  | O => None
  | S n =>
      match skip_ws b with
      | c :: r =>
          if byte_val c =? 34 then
            match parse_string r with
            | Some (key, rest) =>
                match skip_ws rest with
                | c1 :: rest =>
                    if byte_val c1 =? 58 then
                      match parse_value n rest with
                      | Some (v, rest) =>
                          match skip_ws rest with
                          | c2 :: rest =>
                              if byte_val c2 =? 125 then Some ([(key, v)], rest)
                              else if byte_val c2 =? 44 then
                                match parse_members n rest with
                                | Some (fs, rest) => Some ((key, v) :: fs, rest)
                                | None => None
                                end
                              else None
                          | [] => None
                          end
                      | None => None
                      end
                    else None
                | [] => None
                end
            | None => None
            end
          else None
      | [] => None
      end
  end
with parse_elements (fuel : nat) (b : list ascii) : option (list json * list ascii) :=
  match fuel with
  | O => None
  | S n =>
      match parse_value n b with
      | Some (v, rest) =>
          match skip_ws rest with
          | c :: rest =>
              if byte_val c =? 93 then Some ([v], rest)
              else if byte_val c =? 44 then
                match parse_elements n rest with
                | Some (vs, rest) => Some (v :: vs, rest)
                | None => None
                end
              else None
          | [] => None
          end
      | None => None
      end
  end.

(** A whole document: one value and nothing but white space after it. *)
Definition parse (b : list ascii) : option json :=
  match parse_value (S (length b)) b with
  | Some (v, rest) => match skip_ws rest with [] => Some v | _ => None end
  | None => None
  end.

(** ** Round trip of string literals *)

(** utf8.Valid *)
Fixpoint valid_utf8 (b : list ascii) : bool :=
  match b with
  | [] => true
  | c :: r =>
      match rune_size b, r with
      | 1%nat, _ => valid_utf8 r
      | 2%nat, c1 :: r' => valid_utf8 r'
      | 3%nat, c1 :: c2 :: r' => valid_utf8 r'
      | 4%nat, c1 :: c2 :: c3 :: r' => valid_utf8 r'
      | _, _ => false
      end
  end.

Lemma parse_escape_byte c rest :
  (byte_val c <? 128) = true ->
  parse_string (escape_byte c ++ rest) = cons_opt [c] (parse_string rest).
Proof.
  intros H. destruct c as [[] [] [] [] [] [] [] []];
    first [discriminate H | reflexivity].
Qed.

Lemma rune_size_1 c r : rune_size (c :: r) = 1%nat -> (byte_val c <? 128) = true.
Proof.
  unfold rune_size, in_range. intros H. repeat case_match; zbool; try done; try lia.
Qed.

Lemma rune_size_2 c c1 r r' : rune_size (c :: c1 :: r) = 2%nat ->
  128 <= byte_val c /\ rune_size (c :: c1 :: r') = 2%nat.
Proof. unfold rune_size, in_range. intros H. repeat case_match; zbool; try done; try lia. Qed.

Lemma rune_size_3 c c1 c2 r r' : rune_size (c :: c1 :: c2 :: r) = 3%nat ->
  128 <= byte_val c /\ rune_size (c :: c1 :: c2 :: r') = 3%nat.
Proof. unfold rune_size, in_range. intros H. repeat case_match; zbool; try done; try lia. Qed.

Lemma rune_size_4 c c1 c2 c3 r r' : rune_size (c :: c1 :: c2 :: c3 :: r) = 4%nat ->
  128 <= byte_val c /\ rune_size (c :: c1 :: c2 :: c3 :: r') = 4%nat.
Proof. unfold rune_size, in_range. intros H. repeat case_match; zbool; try done; try lia. Qed.

Lemma parse_string_high c r :
  128 <= byte_val c ->
  parse_string (c :: r) =
    match rune_size (c :: r), r with
    | 2%nat, c1 :: r' => cons_opt [c; c1] (parse_string r')
    | 3%nat, c1 :: c2 :: r' => cons_opt [c; c1; c2] (parse_string r')
    | 4%nat, c1 :: c2 :: c3 :: r' => cons_opt [c; c1; c2; c3] (parse_string r')
    | _, _ => cons_opt replacement (parse_string r)
    end.
Proof.
  intros H. cbn [parse_string].
  rewrite (proj2 (Z.eqb_neq (byte_val c) 34)), (proj2 (Z.ltb_ge (byte_val c) 32)),
    (proj2 (Z.eqb_neq (byte_val c) 92)), (proj2 (Z.ltb_ge (byte_val c) 128)) by lia.
  done.
Qed.

Lemma byte_val_inj c d : byte_val c = byte_val d -> c = d.
Proof.
  unfold byte_val. intros H%Nat2Z.inj.
  by rewrite <- (ascii_nat_embedding c), <- (ascii_nat_embedding d), H.
Qed.

Lemma parse_line_sep c c1 c2 rest :
  is_line_sep c c1 c2 = true ->
  parse_string ([bs; "u"; "2"; "0"; "2"; hex_char (byte_val c2 - 160)]%char ++ rest) =
  cons_opt [c; c1; c2] (parse_string rest).
Proof.
  unfold is_line_sep. intros H. zbool.
  rewrite (byte_val_inj c (byte_of 226)), (byte_val_inj c1 (byte_of 128)) by done.
  apply orb_true_iff in H0 as [H0|H0]; zbool;
    [rewrite (byte_val_inj c2 (byte_of 168)) by done | rewrite (byte_val_inj c2 (byte_of 169)) by done];
    reflexivity.
Qed.

(** A well-formed string is read back from its literal. *)
Lemma parse_quote_body b rest :
  valid_utf8 b = true -> parse_string (quote_body b ++ dq :: rest) = Some (b, rest).
Proof.
  remember (length b) as n eqn:Hn. revert b Hn.
  induction n as [n IH] using lt_wf_ind. intros b -> Hv.
  destruct b as [|c r]; [reflexivity|].
  cbn [valid_utf8] in Hv. cbn [quote_body].
  destruct (rune_size (c :: r)) as [|[|[|[|[|k]]]]] eqn:Hr; try done.
  - rewrite (rune_size_1 c r Hr), <- app_assoc, parse_escape_byte by (by eapply rune_size_1).
    rewrite (IH (length r)); cbn; auto with lia.
  - destruct r as [|c1 r']; [done|]. destruct (rune_size_2 c c1 r' (quote_body r' ++ dq :: rest) Hr) as [Hc Hr'].
    rewrite (proj2 (Z.ltb_ge (byte_val c) 128)) by lia. cbn [app].
    rewrite parse_string_high by done. rewrite Hr'.
    rewrite (IH (length r')); cbn; auto with lia.
  - destruct r as [|c1 [|c2 r']]; [done..|].
    destruct (rune_size_3 c c1 c2 r' (quote_body r' ++ dq :: rest) Hr) as [Hc Hr'].
    rewrite (proj2 (Z.ltb_ge (byte_val c) 128)) by lia.
    destruct (is_line_sep c c1 c2) eqn:Hsep.
    + rewrite <- app_assoc, (parse_line_sep c c1 c2) by done. rewrite (IH (length r')); cbn; auto with lia.
    + cbn [app]. rewrite parse_string_high by done. rewrite Hr'.
      rewrite (IH (length r')); cbn; auto with lia.
  - destruct r as [|c1 [|c2 [|c3 r']]]; [done..|].
    destruct (rune_size_4 c c1 c2 c3 r' (quote_body r' ++ dq :: rest) Hr) as [Hc Hr'].
    rewrite (proj2 (Z.ltb_ge (byte_val c) 128)) by lia. cbn [app].
    rewrite parse_string_high by done. rewrite Hr'.
    rewrite (IH (length r')); cbn; auto with lia.
Qed.

(** ** Documents with one string field *)

Lemma quote_app b rest : quote b ++ rest = dq :: quote_body b ++ dq :: rest.
Proof. unfold quote. cbn [app]. by rewrite <- app_assoc. Qed.

Lemma parse_value_quote n b rest :
  valid_utf8 b = true -> parse_value (S n) (quote b ++ rest) = Some (JStr b, rest).
Proof.
  intros Hv. rewrite quote_app. pose proof (parse_quote_body b rest Hv) as Hp.
  revert Hp. generalize (quote_body b ++ dq :: rest). intros q Hp.
  cbn [parse_value]. change (skip_ws (dq :: q)) with (dq :: q). cbv iota beta.
  change (byte_val dq =? 123) with false. change (byte_val dq =? 91) with false.
  change (byte_val dq =? 34) with true. cbv iota. by rewrite Hp.
Qed.

Lemma parse_member_quote n k v rest :
  valid_utf8 k = true -> valid_utf8 v = true ->
  parse_members (S (S n)) (quote k ++ byte_of 58 :: quote v ++ byte_of 125 :: rest) =
  Some ([(k, JStr v)], rest).
Proof.
  intros Hk Hv. rewrite quote_app.
  pose proof (parse_quote_body k (byte_of 58 :: quote v ++ byte_of 125 :: rest) Hk) as Hp.
  pose proof (parse_value_quote n v (byte_of 125 :: rest) Hv) as Hpv.
  revert Hp Hpv. generalize (quote v ++ byte_of 125 :: rest). intros q.
  generalize (quote_body k ++ dq :: byte_of 58 :: q). intros q' Hp Hpv.
  remember (S n) as m eqn:Hm.
  cbn [parse_members]. change (skip_ws (dq :: q')) with (dq :: q'). cbv iota beta.
  change (byte_val dq =? 34) with true. cbv iota. rewrite Hp. cbv iota beta.
  change (skip_ws (byte_of 58 :: q)) with (byte_of 58 :: q). cbv iota beta.
  change (byte_val (byte_of 58) =? 58) with true. cbv iota. rewrite Hpv. reflexivity.
Qed.

(** The document [{"k":"v"}] is read back as an object with that one field. *)
Lemma parse_singleton k v :
  valid_utf8 k = true -> valid_utf8 v = true ->
  parse (byte_of 123 :: quote k ++ byte_of 58 :: quote v ++ [byte_of 125]) = Some (JObj [(k, JStr v)]).
Proof.
  intros Hk Hv. unfold parse.
  assert (Hl : exists n, length (byte_of 123 :: quote k ++ byte_of 58 :: quote v ++ [byte_of 125]) =
    S (S n)) by (cbn; rewrite length_app; cbn; rewrite Nat.add_succ_r; eauto).
  destruct Hl as [n ->].
  pose proof (parse_member_quote n k v [] Hk Hv) as Hm.
  revert Hm. rewrite quote_app.
  generalize (quote_body k ++ dq :: byte_of 58 :: quote v ++ [byte_of 125]). intros q Hm.
  remember (S (S n)) as m eqn:Hmn. cbn [parse_value].
  change (skip_ws (byte_of 123 :: dq :: q)) with (byte_of 123 :: dq :: q). cbv iota beta.
  change (byte_val (byte_of 123) =? 123) with true. cbv iota.
  change (skip_ws (dq :: q)) with (dq :: q). cbv iota beta.
  change (byte_val dq =? 125) with false. cbv iota. rewrite Hm. reflexivity.
Qed.
