(* ===== verification/JsonPrint.v ===== *)
(** * encoding/json: printing documents, and reading them back

    [print] is what json.Encoder writes for a tree of values, without white
    space; [parse] reads it back. *)

From S2P Require Import Prelude GoStd GoText Json.
From Stdlib Require Import Ascii.

Definition comma : ascii := byte_of 44.
Definition colon : ascii := byte_of 58.

Fixpoint print (j : json) : list ascii :=
  match j with
  | JNull => bytes_of "null"
  | JBool true => bytes_of "true"
  | JBool false => bytes_of "false"
  | JNum lit => lit
  | JStr s => quote s
  | JArr l => byte_of 91 :: join_comma (map print l) ++ [byte_of 93]
  | JObj fs =>
      byte_of 123 :: join_comma (map (fun f => quote (fst f) ++ colon :: print (snd f)) fs) ++ [byte_of 125]
  end.

(** Induction on trees, through the lists of elements and of members. *)
Section json_ind.
Context (Q : json -> Prop).
Hypothesis Hnull : Q JNull.
Hypothesis Hbool : forall b, Q (JBool b).
Hypothesis Hnum : forall lit, Q (JNum lit).
Hypothesis Hstr : forall s, Q (JStr s).
Hypothesis Harr : forall l, Forall Q l -> Q (JArr l).
Hypothesis Hobj : forall fs, Forall (fun f => Q (snd f)) fs -> Q (JObj fs).

Fixpoint json_tree_ind (j : json) : Q j :=
  match j with
  | JNull => Hnull
  | JBool b => Hbool b
  | JNum lit => Hnum lit
  | JStr s => Hstr s
  | JArr l =>
      Harr l ((fix go (l : list json) : Forall Q l :=
        match l with
        | [] => List.Forall_nil _
        | x :: l' => List.Forall_cons _ _ _ (json_tree_ind x) (go l')
        end) l)
  | JObj fs =>
      Hobj fs ((fix go (l : list (list ascii * json)) : Forall (fun f => Q (snd f)) l :=
        match l with
        | [] => List.Forall_nil _
        | x :: l' => List.Forall_cons _ _ _ (json_tree_ind (snd x)) (go l')
        end) fs)
  end.
End json_ind.

(** Trees whose strings are UTF-8 and whose numbers are unsigned 64-bit integers. *)
Fixpoint json_ok (j : json) : Prop :=
  match j with
  | JNull | JBool _ => True
  | JNum lit => exists n, is_u64 n /\ lit = bytes_of (FormatUint n)
  | JStr s => valid_utf8 s = true
  | JArr l => foldr (fun x acc => json_ok x /\ acc) True l
  | JObj fs => foldr (fun f acc => (valid_utf8 (fst f) = true /\ json_ok (snd f)) /\ acc) True fs
  end.

(** What may follow a value: the end, white space, a comma or a closing bracket. *)
Definition ends_value (rest : list ascii) : Prop :=
  match rest with
  | [] => True
  | c :: _ => c = comma \/ c = byte_of 93 \/ c = byte_of 125 \/ c = byte_of 10
  end.

(** ** Numbers *)

(** A literal: digits without a leading zero. *)
Definition lit_ok (l : list ascii) : Prop :=
  l = [byte_of 48] \/ (exists c r, l = c :: r /\ (byte_val c =? 48) = false) /\ Forall (fun c => is_digit c = true) l.

Lemma digit_char_digit d : 0 <= d < 10 -> is_digit (digit_char d) = true /\ (byte_val (digit_char d) =? 48) = (d =? 0).
Proof.
  intros H. assert (d = 0 \/ d = 1 \/ d = 2 \/ d = 3 \/ d = 4 \/ d = 5 \/ d = 6 \/ d = 7 \/ d = 8 \/ d = 9) by lia.
  naive_solver.
Qed.

Lemma format_digits_lit fuel : forall n acc,
  0 < n < 10 ^ Z.of_nat fuel -> Forall (fun c => is_digit c = true) acc ->
  (exists c r, format_digits fuel n acc = c :: r /\ (byte_val c =? 48) = false) /\
  Forall (fun c => is_digit c = true) (format_digits fuel n acc).
Proof.
  induction fuel as [|f IH]; intros n acc Hn Hacc; cbn [format_digits]; [cbn in Hn; lia|].
  assert (Hm : 0 <= n mod 10 < 10) by (apply Z.mod_pos_bound; lia).
  destruct (digit_char_digit (n mod 10) Hm) as [Hd Hz]. destruct (Z.ltb_spec n 10).
  - split; [|by constructor]. do 2 eexists. split; [done|]. rewrite Hz, Z.mod_small by lia. apply Z.eqb_neq. lia.
  - apply IH; [|by constructor]. split; [apply Z.div_str_pos; lia|].
    apply Z.div_lt_upper_bound; [lia|]. rewrite Nat2Z.inj_succ, Z.pow_succ_r in Hn by lia. lia.
Qed.

Lemma FormatUint_lit n : is_u64 n -> lit_ok (bytes_of (FormatUint n)).
Proof.
  intros [H0 H1]. unfold FormatUint. rewrite bytes_string_of. destruct (decide (n = 0)) as [->|Hn]; [by left|].
  right. apply format_digits_lit; [|constructor]. unfold u64_size in *. lia.
Qed.

Lemma span_digits_app l rest :
  Forall (fun c => is_digit c = true) l ->
  (match rest with [] => True | c :: _ => is_digit c = false end) -> span_digits (l ++ rest) = (l, rest).
Proof.
  induction 1 as [|c l Hc _ IH]; intros Hr; cbn [app span_digits].
  - destruct rest as [|c rest]; [done|]. cbn [span_digits]. by rewrite Hr.
  - by rewrite Hc, IH.
Qed.

Lemma ends_value_no_digit rest :
  ends_value rest -> match rest with [] => True | c :: _ => is_digit c = false end.
Proof. destruct rest as [|c rest]; [done|]. by intros [-> | [-> | [-> | ->]]]. Qed.

(** After the integer part, a delimiter ends the number. *)
Lemma parse_number_lit l rest : lit_ok l -> ends_value rest -> parse_number (l ++ rest) = Some (l, rest).
Proof.
  intros Hl Hr. pose proof (ends_value_no_digit _ Hr) as Hnd.
  assert (Hend : forall int : list ascii,
    (match (match rest with
            | c :: r => if byte_val c =? 46 then match span_digits r with ([], _) => None | (d, rest) => Some (c :: d, rest) end
                        else Some ([], rest)
            | [] => Some ([], []) end) with
     | None => None
     | Some (frac, b) =>
         match b with
         | c :: r =>
             if (byte_val c =? 101) || (byte_val c =? 69) then
               let '(es, r) := match r with
                 | s :: r' => if (byte_val s =? 43) || (byte_val s =? 45) then ([s], r') else ([], r)
                 | [] => ([], []) end in
               match span_digits r with ([], _) => None | (d, rest) => Some ([] ++ int ++ frac ++ c :: es ++ d, rest) end
             else Some ([] ++ int ++ frac, b)
         | [] => Some ([] ++ int ++ frac, [])
         end
     end) = Some (int, rest)).
  { intros int. destruct rest as [|c r]; [by rewrite app_nil_r|].
    assert (byte_val c =? 46 = false /\ (byte_val c =? 101) || (byte_val c =? 69) = false) as [-> H2].
    { by destruct Hr as [-> | [-> | [-> | ->]]]. }
    rewrite H2. cbn. by rewrite app_nil_r. }
  destruct Hl as [->|[(c & r & -> & Hc) Hd]].
  - unfold parse_number. cbn [app]. change (byte_val (byte_of 48) =? 45) with false. cbv iota beta.
    change (byte_val (byte_of 48) =? 48) with true. cbv iota beta. apply Hend.
  - unfold parse_number. cbn [app]. apply Forall_cons in Hd as Hd'. destruct Hd' as [Hc' _].
    assert (byte_val c =? 45 = false) as ->.
    { unfold is_digit, in_range in Hc'. apply andb_true_iff in Hc' as [?%Z.leb_le _]. apply Z.eqb_neq. lia. }
    cbv iota beta. rewrite Hc, Hc'.
    pose proof (span_digits_app (c :: r) rest Hd Hnd) as E. cbn [app] in E. rewrite E. cbv iota beta. apply Hend.
Qed.

(** ** Values *)

Definition starts_value (b : list ascii) : Prop :=
  exists c r, b = c :: r /\ is_ws c = false /\ (byte_val c =? 93) = false /\ (byte_val c =? 125) = false.

Lemma digit_starts c r :
  is_digit c = true -> starts_value (c :: r) /\
  (byte_val c =? 123) = false /\ (byte_val c =? 91) = false /\ (byte_val c =? 34) = false /\
  Ascii.eqb "t" c = false /\ Ascii.eqb "f" c = false /\ Ascii.eqb "n" c = false.
Proof.
  unfold is_digit, in_range. rewrite andb_true_iff, !Z.leb_le. intros [H1 H2].
  assert (Hne : forall x, byte_val x < 48 \/ 57 < byte_val x -> Ascii.eqb x c = false).
  { intros x Hx. apply Ascii.eqb_neq. intros ->. lia. }
  unfold starts_value, is_ws. split_and!; try (apply Z.eqb_neq; lia); try (apply Hne; vm_compute; auto).
  exists c, r. split_and!; [done| |apply Z.eqb_neq; lia..].
  by rewrite !(proj2 (Z.eqb_neq (byte_val c) _)) by lia.
Qed.

Lemma lit_head l : lit_ok l -> exists c r, l = c :: r /\ is_digit c = true.
Proof.
  intros [->|[(c & r & -> & _) H]]; [by do 2 eexists|]. apply Forall_cons in H as [H _]. eauto.
Qed.

Lemma print_starts j : json_ok j -> forall rest, starts_value (print j ++ rest).
Proof.
  assert (Hc : forall c r, (is_ws c, byte_val c =? 93, byte_val c =? 125) = (false, false, false) -> starts_value (c :: r)).
  { intros c r [= H1 H2 H3]. by exists c, r. }
  destruct j as [|[]|lit|s|l|fs]; intros Hok rest; try (by apply Hc).
  destruct Hok as (n & Hn & ->). destruct (lit_head _ (FormatUint_lit n Hn)) as (c & r & -> & Hd).
  by apply digit_starts.
Qed.

Lemma skip_ws_starts b : starts_value b -> skip_ws b = b.
Proof. intros (c & r & -> & H & _). cbn. by rewrite H. Qed.

Lemma strip_other x p c r : Ascii.eqb x c = false -> strip (bytes_of (String x p)) (c :: r) = None.
Proof. intros H. unfold bytes_of. cbn [String.list_ascii_of_string strip]. by rewrite H. Qed.

Lemma parse_value_lit n lit rest :
  lit_ok lit -> ends_value rest -> parse_value (S n) (lit ++ rest) = Some (JNum lit, rest).
Proof.
  intros Hl Hr. pose proof (parse_number_lit _ _ Hl Hr) as Hp.
  destruct (lit_head _ Hl) as (c & r & -> & Hd). cbn [app] in *.
  destruct (digit_starts c (r ++ rest) Hd) as (Hs & E1 & E2 & E3 & E4 & E5 & E6).
  cbn [parse_value]. rewrite (skip_ws_starts _ Hs). cbv iota beta. rewrite E1, E2, E3.
  change (bytes_of "true") with (bytes_of (String "t" "rue")). change (bytes_of "false") with (bytes_of (String "f" "alse")).
  change (bytes_of "null") with (bytes_of (String "n" "ull")).
  rewrite (strip_other "t" "rue") by done.
  rewrite (strip_other "f" "alse") by done.
  rewrite (strip_other "n" "ull") by done.
  by rewrite Hp.
Qed.

(** The array and the object around their contents. *)
Lemma parse_array n b l rest :
  starts_value b -> parse_elements n b = Some (l, rest) -> parse_value (S n) (byte_of 91 :: b) = Some (JArr l, rest).
Proof.
  intros Hb Hp. cbn [parse_value]. change (skip_ws (byte_of 91 :: b)) with (byte_of 91 :: b). cbv iota beta.
  change (byte_val (byte_of 91) =? 123) with false. change (byte_val (byte_of 91) =? 91) with true. cbv iota.
  rewrite (skip_ws_starts _ Hb). destruct Hb as (c & r & -> & _ & H & _). cbv iota beta. by rewrite H, Hp.
Qed.

Lemma parse_object n b fs rest :
  starts_value b -> parse_members n b = Some (fs, rest) -> parse_value (S n) (byte_of 123 :: b) = Some (JObj fs, rest).
Proof.
  intros Hb Hp. cbn [parse_value]. change (skip_ws (byte_of 123 :: b)) with (byte_of 123 :: b). cbv iota beta.
  change (byte_val (byte_of 123) =? 123) with true. cbv iota.
  rewrite (skip_ws_starts _ Hb). destruct Hb as (c & r & -> & _ & _ & H). cbv iota beta. by rewrite H, Hp.
Qed.

(** An element or a member, and what comes after it. *)
Lemma parse_elements_step n b v rest :
  parse_value n b = Some (v, rest) ->
  parse_elements (S n) b =
  match skip_ws rest with
  | c :: rest =>
      if byte_val c =? 93 then Some ([v], rest)
      else if byte_val c =? 44 then
        match parse_elements n rest with Some (vs, rest) => Some (v :: vs, rest) | None => None end
      else None
  | [] => None
  end.
Proof. intros H. cbn [parse_elements]. by rewrite H. Qed.

Lemma parse_members_step n k b v rest :
  valid_utf8 k = true -> parse_value n b = Some (v, rest) ->
  parse_members (S n) (quote k ++ colon :: b) =
  match skip_ws rest with
  | c2 :: rest =>
      if byte_val c2 =? 125 then Some ([(k, v)], rest)
      else if byte_val c2 =? 44 then
        match parse_members n rest with Some (fs, rest) => Some ((k, v) :: fs, rest) | None => None end
      else None
  | [] => None
  end.
Proof.
  intros Hk Hv. rewrite quote_app. pose proof (parse_quote_body k (colon :: b) Hk) as Hp.
  revert Hp. generalize (quote_body k ++ dq :: colon :: b). intros q Hp.
  cbn [parse_members]. change (skip_ws (dq :: q)) with (dq :: q). cbv iota beta.
  change (byte_val dq =? 34) with true. cbv iota. rewrite Hp. cbv iota beta.
  change (skip_ws (colon :: b)) with (colon :: b). cbv iota beta.
  change (byte_val colon =? 58) with true. cbv iota. by rewrite Hv.
Qed.

(** ** The round trip *)

(** The value is read back from its text, whatever comes after. *)
Definition reads_back (j : json) : Prop :=
  json_ok j -> forall fuel rest,
    (length (print j) <= fuel)%nat -> ends_value rest -> parse_value fuel (print j ++ rest) = Some (j, rest).

Lemma print_nonempty j : json_ok j -> (0 < length (print j))%nat.
Proof.
  intros Hj. destruct (print_starts j Hj []) as (c & r & E & _). rewrite app_nil_r in E. rewrite E. cbn. lia.
Qed.

Lemma ends_close_arr rest : ends_value (byte_of 93 :: rest).
Proof. cbn. auto. Qed.

Lemma ends_close_obj rest : ends_value (byte_of 125 :: rest).
Proof. cbn. auto. Qed.

Lemma ends_comma rest : ends_value (comma :: rest).
Proof. cbn. auto. Qed.

Lemma elements_read_back l : forall fuel rest,
  Forall reads_back l -> Forall json_ok l -> l <> [] ->
  (length (join_comma (map print l)) < fuel)%nat ->
  parse_elements fuel (join_comma (map print l) ++ byte_of 93 :: rest) = Some (l, rest).
Proof.
  induction l as [|j l IH]; intros fuel rest Hr Hok Hne Hf; [done|].
  apply Forall_cons in Hr as [Hj Hr]. apply Forall_cons in Hok as [Hoj Hok]. destruct fuel as [|fuel]; [lia|].
  destruct l as [|j' l]; cbn [map join_comma] in *.
  - rewrite (parse_elements_step fuel _ j (byte_of 93 :: rest)); [done|].
    apply Hj; [done | lia | apply ends_close_arr].
  - rewrite length_app in Hf. cbn [length] in Hf. rewrite <- app_assoc. cbn [app].
    rewrite (parse_elements_step fuel _ j (comma :: join_comma (map print (j' :: l)) ++ byte_of 93 :: rest)).
    + change (skip_ws (comma :: ?x)) with (comma :: x). cbv iota beta.
      change (byte_val comma =? 93) with false. change (byte_val comma =? 44) with true. cbv iota.
      rewrite IH; [done | done | done | done |]. cbn [map join_comma]. lia.
    + apply Hj; [done | lia | apply ends_comma].
Qed.

Definition print_member (f : list ascii * json) : list ascii := quote (fst f) ++ colon :: print (snd f).

Lemma members_read_back fs : forall fuel rest,
  Forall (fun f => reads_back (snd f)) fs ->
  Forall (fun f => valid_utf8 (fst f) = true /\ json_ok (snd f)) fs -> fs <> [] ->
  (length (join_comma (map print_member fs)) < fuel)%nat ->
  parse_members fuel (join_comma (map print_member fs) ++ byte_of 125 :: rest) = Some (fs, rest).
Proof.
  induction fs as [|[k j] fs IH]; intros fuel rest Hr Hok Hne Hf; [done|].
  apply Forall_cons in Hr as [Hj Hr]. apply Forall_cons in Hok as [[Hk Hoj] Hok]. cbn [fst snd] in *.
  assert (Hl : forall x, (length x <= length (print_member (k, j) ++ x))%nat) by (intros; rewrite length_app; lia).
  assert (Hm : (length (print j) < length (print_member (k, j)))%nat).
  { unfold print_member. cbn [fst snd]. rewrite length_app. cbn. lia. }
  destruct fuel as [|fuel]; [lia|]. destruct fs as [|f' fs]; cbn [map join_comma] in *.
  - unfold print_member at 1. cbn [fst snd]. rewrite <- app_assoc. cbn [app].
    rewrite (parse_members_step fuel k _ j (byte_of 125 :: rest)); [done | done |].
    apply Hj; [done | lia | apply ends_close_obj].
  - rewrite length_app in Hf. cbn [length] in Hf. unfold print_member at 1. cbn [fst snd]. rewrite <- !app_assoc. cbn [app].
    rewrite (parse_members_step fuel k _ j (comma :: join_comma (map print_member (f' :: fs)) ++ byte_of 125 :: rest));
      [|done|].
    + change (skip_ws (comma :: ?x)) with (comma :: x). cbv iota beta.
      change (byte_val comma =? 125) with false. change (byte_val comma =? 44) with true. cbv iota.
      rewrite IH; [done | done | done | done |]. cbn [map join_comma]. lia.
    + apply Hj; [done | lia | apply ends_comma].
Qed.

Lemma json_ok_arr l : json_ok (JArr l) -> Forall json_ok l.
Proof. induction l as [|j l IH]; cbn; [done|]. intros [? ?]. constructor; auto. Qed.

Lemma json_ok_obj fs :
  json_ok (JObj fs) -> Forall (fun f => valid_utf8 (fst f) = true /\ json_ok (snd f)) fs.
Proof. induction fs as [|f fs IH]; cbn; [done|]. intros [? ?]. constructor; auto. Qed.

Lemma value_reads_back j : reads_back j.
Proof.
  induction j as [|b|lit|s|l IH|fs IH] using json_tree_ind; intros Hok fuel rest Hf Hr;
    (destruct fuel as [|fuel]; [pose proof (print_nonempty _ Hok); lia|]).
  - reflexivity.
  - by destruct b.
  - destruct Hok as (n & Hn & ->). by apply parse_value_lit, Hr; apply FormatUint_lit.
  - by apply parse_value_quote.
  - destruct l as [|j l]; [reflexivity|]. apply json_ok_arr in Hok. cbn [print] in *.
    rewrite <- app_comm_cons, <- app_assoc. cbn [length app] in *. rewrite length_app in Hf. cbn [length] in Hf.
    apply parse_array; [|apply elements_read_back; [done|done|done|lia]].
    apply Forall_cons in Hok as [Hj _]. cbn [map join_comma].
    destruct (map print l); [by apply print_starts|]. rewrite <- app_assoc. by apply print_starts.
  - destruct fs as [|[k j] fs]; [reflexivity|]. apply json_ok_obj in Hok. cbn [print] in *. fold print_member in *.
    rewrite <- app_comm_cons, <- app_assoc. cbn [length app] in *. rewrite length_app in Hf. cbn [length] in Hf.
    apply parse_object; [|apply members_read_back; [done|done|done|lia]].
    cbn [map join_comma]. assert (Hs : forall x, starts_value (print_member (k, j) ++ x)) by (intros; by eexists _, _).
    destruct (map print_member fs); [apply Hs|]. rewrite <- app_assoc. apply Hs.
Qed.

(** A document as the encoder writes it, a value and a newline, is read back. *)
Theorem parse_print j : json_ok j -> parse (print j ++ [byte_of 10]) = Some j.
Proof.
  intros Hj. unfold parse. rewrite (value_reads_back j Hj).
  - reflexivity.
  - rewrite length_app. cbn. lia.
  - cbn. auto.
Qed.
