(* ===== verification/Cluster.v ===== *)
(** * cluster/: the membership registry a node keeps

    [EventHandler] is memberlist's event delegate: it records the members and
    forwards joins and leaves on a channel of 16 places, dropping the event
    when the channel is full.  memberlist itself is not modelled: its
    notifications are the inputs of the operations. *)

From S2P Require Import Prelude GoStd Json.
From Stdlib Require Import Ascii.

(** ** cluster/meta.go *)

Record NodeMeta := mkMeta { meta_GRPCAddr : string }.

Definition meta_key : string := "grpc_addr".

Definition encodeNodeMeta (m : NodeMeta) : result (list ascii) :=
  Ok (byte_of 123 :: quote (bytes_of meta_key) ++ byte_of 58 ::
      quote (bytes_of (meta_GRPCAddr m)) ++ [byte_of 125]).

Definition to_lower (c : ascii) : ascii :=
  if in_range 65 90 c then byte_of (byte_val c + 32) else c.

(** Field names match exactly or up to case; no letter of [grpc_addr] has a
    case variant outside ASCII. *)
Definition key_matches (k : list ascii) : bool :=
  bool_decide (map to_lower k = bytes_of meta_key).

Definition err_json : error := EFmt "json: cannot unmarshal" [].

(** The assignment of one member of the document to the struct. *)
Definition assign_field (acc : result NodeMeta) (f : list ascii * json) : result NodeMeta :=
  if key_matches (fst f) then
    match snd f, acc with
    | JStr s, Ok _ => Ok (mkMeta (string_of s))
    | JNull, Ok m => Ok m
    | _, _ => Err err_json
    end
  else acc.

Definition unmarshalNodeMeta (b : list ascii) : result NodeMeta :=
  match parse b with
  | Some JNull => Ok (mkMeta EmptyString)
  | Some (JObj fs) => fold_left assign_field fs (Ok (mkMeta EmptyString))
  | _ => Err err_json
  end.

Definition decodeNodeMeta (b : list ascii) : result NodeMeta :=
  match unmarshalNodeMeta b with
  | Ok m => Ok m
  | Err e => Err (EWrap "decode node meta" [] e)
  end.

(** ** cluster/event.go *)

Record Member := mkMember { ID : Z; GRPCAddr : string }.

#[export] Instance Member_eq_dec : EqDecision Member.
Proof. solve_decision. Defined.

Inductive EventType := EventJoin | EventLeave.

#[export] Instance EventType_eq_dec : EqDecision EventType.
Proof. solve_decision. Defined.

Record ClusterEvent := mkEvent { Type_ : EventType; MemberID : Z }.

#[export] Instance ClusterEvent_eq_dec : EqDecision ClusterEvent.
Proof. solve_decision. Defined.

Record EventHandler := mkHandler {
  members : gmap Z Member;
  eventC : list ClusterEvent;
}.

Definition eventC_cap : nat := 16.

Definition NewEventHandler : EventHandler := mkHandler ∅ [].

(** memberlist.Node, the two fields the handler reads. *)
Record Node := mkNode { Name : string; Meta : list ascii }.

(** [select { case c <- v: default: }] on a buffered channel. *)
Definition try_send {A} (cap : nat) (v : A) (c : list A) : list A :=
  if (length c <? cap)%nat then c ++ [v] else c.

Definition NotifyJoin (node : Node) (h : EventHandler) : EventHandler :=
  match ParseUint (Name node) with
  | Err _ => h
  | Ok id =>
      match decodeNodeMeta (Meta node) with
      | Err _ => h
      | Ok meta =>
          mkHandler (<[id := mkMember id (meta_GRPCAddr meta)]> (members h))
            (try_send eventC_cap (mkEvent EventJoin id) (eventC h))
      end
  end.

Definition NotifyLeave (node : Node) (h : EventHandler) : EventHandler :=
  match ParseUint (Name node) with
  | Err _ => h
  | Ok id =>
      mkHandler (delete id (members h))
        (try_send eventC_cap (mkEvent EventLeave id) (eventC h))
  end.

Definition NotifyUpdate (node : Node) (h : EventHandler) : EventHandler :=
  match ParseUint (Name node) with
  | Err _ => h
  | Ok id =>
      match decodeNodeMeta (Meta node) with
      | Err _ => h
      | Ok meta => mkHandler (<[id := mkMember id (meta_GRPCAddr meta)]> (members h)) (eventC h)
      end
  end.

(** maps.Clone: the snapshot is a value, independent of later updates. *)
Definition Members (h : EventHandler) : gmap Z Member := members h.

(** ** cluster/cluster.go *)

Definition MemberAddr (id : Z) (h : EventHandler) : option string :=
  match Members h !! id with
  | Some m => Some (GRPCAddr m)
  | None => None
  end.

(** metaDelegate.NodeMeta: metadata above memberlist's limit is not published. *)
Definition delegate_NodeMeta (meta : list ascii) (limit : Z) : list ascii :=
  if limit <? Z.of_nat (length meta) then [] else meta.

(** What a node with this id and address publishes to its peers, as [New] sets
    memberlist up: the decimal id as name, the encoded metadata. *)
Definition published_node (limit : Z) (id : Z) (addr : string) : result Node :=
  match encodeNodeMeta (mkMeta addr) with
  | Err e => Err (EWrap "cluster: encode node meta" [] e)
  | Ok meta => Ok (mkNode (FormatUint id) (delegate_NodeMeta meta limit))
  end.

(** ** Histories of notifications *)

Inductive notification :=
| NJoin (n : Node)
| NLeave (n : Node)
| NUpdate (n : Node).

Definition notify (h : EventHandler) (n : notification) : EventHandler :=
  match n with
  | NJoin n => NotifyJoin n h
  | NLeave n => NotifyLeave n h
  | NUpdate n => NotifyUpdate n h
  end.

(** What one notification says about a node id: nothing, its address, or that it
    is gone. *)
Definition says (id : Z) (n : notification) : option (option string) :=
  let known name := match ParseUint name with Ok i => i =? id | Err _ => false end in
  let addr n :=
    if known (Name n) then
      match decodeNodeMeta (Meta n) with Ok m => Some (Some (meta_GRPCAddr m)) | Err _ => None end
    else None in
  match n with
  | NJoin n | NUpdate n => addr n
  | NLeave n => if known (Name n) then Some None else None
  end.

(** The abstract registry: the last notification about the id decides. *)
Definition last_says (id : Z) (ns : list notification) : option string :=
  fold_left (fun acc n => match says id n with Some v => v | None => acc end) ns None.

Record handler_wf (h : EventHandler) : Prop := {
  hwf_ids : forall id m, members h !! id = Some m -> ID m = id /\ is_u64 id;
  hwf_cap : (length (eventC h) <= eventC_cap)%nat;
}.

(** ** Lemmas *)

Lemma try_send_length {A} cap (v : A) c :
  (length c <= cap)%nat -> (length (try_send cap v c) <= cap)%nat.
Proof.
  unfold try_send. intros H. destruct (Nat.ltb_spec (length c) cap); [|done].
  rewrite length_app. cbn. lia.
Qed.

Lemma handler_wf_new : handler_wf NewEventHandler.
Proof. split; cbn; [intros id m H; by rewrite lookup_empty in H | lia]. Qed.

Lemma insert_member_wf id addr h q :
  is_u64 id -> handler_wf h -> (length q <= eventC_cap)%nat ->
  handler_wf (mkHandler (<[id := mkMember id addr]> (members h)) q).
Proof.
  intros Hid [Hh _] Hq. split; [|done]. cbn. intros i m.
  rewrite lookup_insert. case_decide; [naive_solver | apply Hh].
Qed.

Lemma notify_wf h n : handler_wf h -> handler_wf (notify h n).
Proof.
  intros Hh. pose proof (hwf_cap h Hh) as Hcap.
  destruct n as [n|n|n]; cbn; unfold NotifyJoin, NotifyLeave, NotifyUpdate;
    destruct (ParseUint (Name n)) as [id|] eqn:Hp; try done;
    apply ParseUint_range in Hp.
  - case_match; [|done]. apply insert_member_wf; auto using try_send_length.
  - split; cbn; [|auto using try_send_length]. intros i m.
    rewrite lookup_delete. case_decide; [done | apply Hh].
  - case_match; [|done]. by apply insert_member_wf.
Qed.

Lemma notify_addr h n id :
  GRPCAddr <$> members (notify h n) !! id =
  match says id n with Some v => v | None => GRPCAddr <$> members h !! id end.
Proof.
  destruct n as [n|n|n]; cbn; unfold NotifyJoin, NotifyLeave, NotifyUpdate;
    destruct (ParseUint (Name n)) as [i|] eqn:Hp; cbn; try done;
    destruct (Z.eqb_spec i id) as [->|Hne]; repeat case_match; cbn;
    rewrite ?lookup_insert_eq, ?lookup_delete_eq, ?lookup_insert_ne, ?lookup_delete_ne by done;
    done.
Qed.

(** C31: after any history of memberlist notifications the registry holds exactly the
    members whose last notification was a join or an update, each under its own id
    and with the address that notification carried, whether or not the events fit
    the channel; the channel never exceeds its 16 places. *)
Theorem registry_refines_history (ns : list notification) :
  let h := fold_left notify ns NewEventHandler in
  handler_wf h /\ forall id, MemberAddr id h = last_says id ns.
Proof.
  cbn.
  assert (Hgen : forall h acc, handler_wf h ->
    (forall id, GRPCAddr <$> members h !! id = acc id) ->
    handler_wf (fold_left notify ns h) /\
    forall id, GRPCAddr <$> members (fold_left notify ns h) !! id =
      fold_left (fun a n => match says id n with Some v => v | None => a end) ns (acc id)).
  { induction ns as [|n ns IH]; intros h acc Hh Hacc; cbn; [done|].
    apply (IH (notify h n) (fun id => match says id n with Some v => v | None => acc id end)).
    - by apply notify_wf.
    - intros id. rewrite notify_addr, Hacc. done. }
  destruct (Hgen NewEventHandler (fun _ => None)) as [Hwf Hacc]; [apply handler_wf_new| |].
  { intros id. cbn. by rewrite lookup_empty. }
  split; [done|]. intros id. unfold MemberAddr, Members, last_says. rewrite <- Hacc.
  by destruct (_ !! id).
Qed.

(** A full channel drops the event of a leave (and of a join) while the
    membership changes all the same. *)
Lemma notify_leave_dropped id h :
  is_u64 id -> length (eventC h) = eventC_cap ->
  NotifyLeave (mkNode (FormatUint id) []) h = mkHandler (delete id (members h)) (eventC h).
Proof.
  intros Hid Hfull. unfold NotifyLeave. cbn [Name]. rewrite ParseUint_FormatUint by done.
  unfold try_send. by rewrite Hfull.
Qed.

(** ** Round trip of the metadata *)

Lemma decode_encode_meta addr b :
  valid_utf8 (bytes_of addr) = true -> encodeNodeMeta (mkMeta addr) = Ok b ->
  decodeNodeMeta b = Ok (mkMeta addr).
Proof.
  unfold encodeNodeMeta, decodeNodeMeta, unmarshalNodeMeta. cbn [meta_GRPCAddr].
  intros Hv Hb.
  match type of Hb with Ok ?x = _ => assert (b = x) as -> by congruence end.
  rewrite parse_singleton by done. cbn [fold_left]. unfold assign_field. cbn [fst snd].
  change (key_matches (bytes_of meta_key)) with true. cbv iota. by rewrite string_bytes_of.
Qed.

(** A node whose metadata is above the limit publishes none, and its peers ignore
    its join. *)
Lemma oversized_meta_ignored limit id addr meta h n :
  is_u64 id -> encodeNodeMeta (mkMeta addr) = Ok meta -> limit < Z.of_nat (length meta) ->
  published_node limit id addr = Ok n -> NotifyJoin n h = h.
Proof.
  intros Hid Hm Hlen. unfold published_node. rewrite Hm. intros [= <-].
  unfold NotifyJoin. cbn [Name Meta]. rewrite ParseUint_FormatUint by done.
  unfold delegate_NodeMeta. by rewrite (proj2 (Z.ltb_lt _ _)) by done.
Qed.

(** C35: what a node publishes about itself is what its peers record.  For a node id and an
    address in valid UTF-8: if the encoded metadata fits memberlist's limit, the join
    notification adds exactly the member with that id and address; if it does not fit,
    the node publishes no metadata and its peers ignore the join. *)
Theorem published_node_joins (limit id : Z) (addr : string) (h : EventHandler) :
  is_u64 id -> valid_utf8 (bytes_of addr) = true ->
  exists meta n, encodeNodeMeta (mkMeta addr) = Ok meta /\ published_node limit id addr = Ok n /\
    (Z.of_nat (length meta) <= limit ->
       members (NotifyJoin n h) = <[id := mkMember id addr]> (members h) /\
       MemberAddr id (NotifyJoin n h) = Some addr) /\
    (limit < Z.of_nat (length meta) -> NotifyJoin n h = h).
Proof.
  intros Hid Hv. assert (exists meta, encodeNodeMeta (mkMeta addr) = Ok meta) as [meta Hm] by (by eexists).
  unfold published_node. rewrite Hm. exists meta; eexists. split; [done|]. split; [done|]. split.
  - intros Hlen. unfold NotifyJoin, MemberAddr, Members. cbn [Name Meta].
    rewrite ParseUint_FormatUint by done. unfold delegate_NodeMeta.
    rewrite (proj2 (Z.ltb_ge _ _)) by done. rewrite (decode_encode_meta addr meta) by done.
    cbn [members meta_GRPCAddr]. rewrite lookup_insert_eq. done.
  - intros Hlen. eapply oversized_meta_ignored; [done | exact Hm | exact Hlen|]. unfold published_node. by rewrite Hm.
Qed.

Lemma published_node_joins_witness :
  exists meta n, encodeNodeMeta (mkMeta "10.0.0.3:50051") = Ok meta /\ published_node 512 3 "10.0.0.3:50051" = Ok n /\
    (Z.of_nat (length meta) <= 512 ->
       members (NotifyJoin n NewEventHandler) = <[3 := mkMember 3 "10.0.0.3:50051"]> (members NewEventHandler) /\
       MemberAddr 3 (NotifyJoin n NewEventHandler) = Some "10.0.0.3:50051"%string) /\
    (512 < Z.of_nat (length meta) -> NotifyJoin n NewEventHandler = NewEventHandler).
Proof.
  apply (published_node_joins 512 3 "10.0.0.3:50051" NewEventHandler).
  - unfold is_u64, u64_size. lia.
  - reflexivity.
Defined.

(** Its metadata fits. *)
Example demo_joins :
  rmap (fun n => MemberAddr 3 (NotifyJoin n NewEventHandler)) (published_node 512 3 "10.0.0.3:50051")
  = Ok (Some "10.0.0.3:50051"%string).
Proof. vm_compute. reflexivity. Qed.
