(* ===== verification/ElectionState.v ===== *)
(** * election/state.go: the election register of a node

    [State] is the record a node guards with a mutex; every method of the
    source is one atomic operation on it. *)

From S2P Require Import Prelude.

Inductive Phase :=
| PhaseIdle
| PhaseElecting
| PhaseWaitingCoordinator
| PhaseLeader.

#[export] Instance Phase_eq_dec : EqDecision Phase.
Proof. solve_decision. Defined.

Record State := mkState {
  leaderID : Z;
  term : Z;
  phase : Phase;
}.

#[export] Instance State_eq_dec : EqDecision State.
Proof. solve_decision. Defined.

Definition NewState : State := mkState 0 0 PhaseIdle.

Definition IsLeader (selfID : Z) (s : State) : bool := leaderID s =? selfID.

Definition CurrentLeader (s : State) : Z := leaderID s.

Definition Term (s : State) : Z := term s.

Definition GetPhase (s : State) : Phase := phase s.

Definition UpdateTerm (t : Z) (s : State) : State :=
  if term s <? t then mkState 0 t PhaseIdle else s.

(** The increment of the term is [uint64] arithmetic: it wraps. *)
Definition BeginElection (s : State) : (Z * bool) * State :=
  match phase s with
  | PhaseElecting | PhaseWaitingCoordinator => ((0, false), s)
  | _ =>
      let t := uint64 (term s + 1) in
      ((t, true), mkState 0 t PhaseElecting)
  end.

Definition EnterWaitingCoordinator (t : Z) (s : State) : bool * State :=
  if negb (term s =? t) then (false, s)
  else if negb (bool_decide (phase s = PhaseElecting)) then (false, s)
  else (true, mkState (leaderID s) (term s) PhaseWaitingCoordinator).

Definition SetLeader (l t : Z) (s : State) : bool * State :=
  if t <? term s then (false, s)
  else if (t =? term s) && negb (leaderID s =? 0) && (l <? leaderID s) then (false, s)
  else (true, mkState l t PhaseLeader).

Definition ClearLeaderIfMatches (l : Z) (s : State) : bool * State :=
  if negb (leaderID s =? l) then (false, s)
  else (true, mkState 0 (term s)
                (if bool_decide (phase s = PhaseLeader) then PhaseIdle else phase s)).

Definition ResetElection (t : Z) (s : State) : bool * State :=
  if negb (term s =? t) then (false, s)
  else match phase s with
       | PhaseElecting | PhaseWaitingCoordinator =>
           (true, mkState (leaderID s) (term s) PhaseIdle)
       | _ => (false, s)
       end.

Definition InElection (s : State) : bool :=
  bool_decide (phase s = PhaseElecting) || bool_decide (phase s = PhaseWaitingCoordinator).

(** ** The operations as a command type

    A sequence of operations on the register is a list of commands; this is
    the view the mutex gives of the goroutines that share it. *)

Inductive state_op :=
| OpUpdateTerm (t : Z)
| OpBeginElection
| OpEnterWaiting (t : Z)
| OpSetLeader (l t : Z)
| OpClearLeader (l : Z)
| OpResetElection (t : Z).

Definition apply_op (o : state_op) (s : State) : State :=
  match o with
  | OpUpdateTerm t => UpdateTerm t s
  | OpBeginElection => snd (BeginElection s)
  | OpEnterWaiting t => snd (EnterWaitingCoordinator t s)
  | OpSetLeader l t => snd (SetLeader l t s)
  | OpClearLeader l => snd (ClearLeaderIfMatches l s)
  | OpResetElection t => snd (ResetElection t s)
  end.

Definition apply_ops (os : list state_op) (s : State) : State :=
  fold_left (fun s o => apply_op o s) os s.

(** Operands are [uint64] values and no announcement names node 0 (the
    configuration refuses a node id of 0). *)
Definition op_wf (o : state_op) : Prop :=
  match o with
  | OpUpdateTerm t | OpEnterWaiting t | OpResetElection t => is_u64 t
  | OpBeginElection | OpClearLeader _ => True
  | OpSetLeader l t => is_u64 l /\ l <> 0 /\ is_u64 t
  end.

(** The register is well formed: a leader is known exactly in phase
    [PhaseLeader]. *)
Record state_wf (s : State) : Prop := {
  swf_leader : leaderID s <> 0 <-> phase s = PhaseLeader;
  swf_leader_u64 : is_u64 (leaderID s);
  swf_term_u64 : is_u64 (term s);
}.

(** The lexicographic order of views: first the term, then the leader. *)
Definition view_le (s s' : State) : Prop :=
  term s < term s' \/ (term s = term s' /\ leaderID s <= leaderID s').

(** Deliver a list of leader announcements [(leader, term)] in order. *)
Definition deliver (anns : list (Z * Z)) (s : State) : State :=
  fold_left (fun s a => snd (SetLeader (fst a) (snd a) s)) anns s.

(** The order of announcements that [SetLeader] implements. *)
Definition ann_le (a b : Z * Z) : Prop :=
  snd a < snd b \/ (snd a = snd b /\ fst a <= fst b).

(** ** Tactics for the register: split a state by its phase and an operation by
    its branches *)

Ltac unfold_ops :=
  unfold apply_op, UpdateTerm, BeginElection, EnterWaitingCoordinator, SetLeader,
    ClearLeaderIfMatches, ResetElection, IsLeader, InElection, view_le, ann_le in *.

Ltac state_cases s :=
  destruct s as [? ? []]; unfold_ops; cbn in *;
  repeat (case_match; cbn in *); zbool; simplify_eq/=.

Lemma state_wf_new : state_wf NewState.
Proof. split; simpl; [naive_solver | |]; unfold is_u64, u64_size; lia. Qed.

Lemma apply_op_wf o s : op_wf o -> state_wf s -> state_wf (apply_op o s).
Proof.
  intros Ho [Hl Hlu Htu].
  destruct o; cbn in Ho; state_cases s; split; cbn;
    first [done | naive_solver | apply uint64_range | unfold is_u64, u64_size in *; naive_solver lia].
Qed.

(** Every sequence of operations on the election register keeps it well
    formed: a leader is recorded exactly in phase [PhaseLeader], and leader and
    term stay [uint64] values. *)
Theorem register_invariant (os : list state_op) :
  Forall op_wf os -> state_wf (apply_ops os NewState).
Proof.
  intros Hos. pose proof state_wf_new as H.
  unfold apply_ops. revert H. generalize NewState.
  induction Hos as [|o os Ho _ IH]; simpl; [done|].
  intros s Hs. apply IH, apply_op_wf; done.
Qed.

Definition register_invariant_ops : list state_op :=
  [OpBeginElection; OpEnterWaiting 1; OpSetLeader 3 1; OpUpdateTerm 4; OpBeginElection;
   OpResetElection 5; OpSetLeader 2 7; OpClearLeader 2].

Lemma register_invariant_witness :
  state_wf (apply_ops register_invariant_ops NewState) /\
  apply_ops register_invariant_ops NewState = mkState 0 7 PhaseIdle.
Proof.
  split; [apply (register_invariant register_invariant_ops) | vm_compute; reflexivity].
  repeat constructor; unfold is_u64, u64_size; cbn; lia.
Defined.

(** No election starts at the largest term along the run. *)
Fixpoint terms_below_max (os : list state_op) (s : State) : Prop :=
  match os with
  | [] => True
  | o :: os' => term s < u64_max /\ terms_below_max os' (apply_op o s)
  end.

Definition is_clear (o : state_op) : bool :=
  match o with OpClearLeader _ => true | _ => false end.

Lemma view_le_refl s : view_le s s.
Proof. unfold view_le. lia. Qed.

Lemma view_le_trans s1 s2 s3 : view_le s1 s2 -> view_le s2 s3 -> view_le s1 s3.
Proof. unfold view_le. lia. Qed.

#[export] Instance view_le_preorder : PreOrder view_le.
Proof. split; [exact view_le_refl | exact view_le_trans]. Qed.

#[export] Hint Resolve view_le_refl apply_op_wf state_wf_new : pibully.

(** One operation moves the view up, except that clearing a lost leader keeps
    the term and forgets the leader. *)
Lemma apply_op_view o s :
  op_wf o -> state_wf s -> term s < u64_max ->
  term s <= term (apply_op o s) /\ (is_clear o = false -> view_le s (apply_op o s)).
Proof.
  intros Ho [Hl Hlu Htu] Hmax. unfold is_u64, u64_max in *.
  destruct o; cbn in Ho; state_cases s; unfold uint64, is_u64 in *; try lia;
    rewrite ?Z.mod_small by lia; split; intros; try done; lia.
Qed.

(** Along a run below the largest term. *)
Lemma apply_ops_view (os : list state_op) (s : State) :
  Forall op_wf os -> state_wf s -> terms_below_max os s ->
  term s <= term (apply_ops os s) /\
  (forallb (fun o => negb (is_clear o)) os = true -> view_le s (apply_ops os s)).
Proof.
  unfold apply_ops.
  intros Hos. revert s. induction Hos as [|o os Ho _ IH]; intros s Hs Hb; simpl in *.
  { split; [lia | intros _; reflexivity]. }
  destruct Hb as [Hmax Hb].
  destruct (apply_op_view o s Ho Hs Hmax) as [Ht Hv].
  destruct (IH (apply_op o s)) as [Ht' Hv']; auto with pibully.
  split; [lia|]. rewrite andb_true_iff, negb_true_iff. intros [Hc Hcs].
  etransitivity; eauto.
Qed.

(** C22: along any run that stays below the largest term, the term of a node never
    decreases, and as long as no lost leader is cleared its view (term, leader)
    only moves up in the lexicographic order. *)
Theorem register_monotone (os : list state_op) (s : State) :
  Forall op_wf os -> state_wf s -> terms_below_max os s ->
  term s <= term (apply_ops os s) /\
  (forallb (fun o => negb (is_clear o)) os = true -> view_le s (apply_ops os s)).
Proof. apply apply_ops_view. Qed.

Lemma register_monotone_witness :
  view_le (mkState 3 1 PhaseLeader) (apply_ops [OpUpdateTerm 2; OpSetLeader 1 2] (mkState 3 1 PhaseLeader)).
Proof.
  apply (register_monotone [OpUpdateTerm 2; OpSetLeader 1 2] (mkState 3 1 PhaseLeader));
    [| | | reflexivity].
  - repeat constructor; unfold is_u64, u64_size; lia.
  - split; cbn; [naive_solver | |]; unfold is_u64, u64_size; lia.
  - cbn. unfold u64_max, u64_size. lia.
Defined.

(** The term counter is 64 bits wide: at the largest term an election starts over
    at term 0, and a node that still holds the largest term rejects every
    announcement of that election. *)
Lemma begin_election_wraps l p :
  p = PhaseIdle \/ p = PhaseLeader ->
  BeginElection (mkState l u64_max p) = ((0, true), mkState 0 0 PhaseElecting).
Proof. intros [-> | ->]; reflexivity. Qed.

(** ** Announcements form a join semilattice *)

Lemma set_leader_comm a b s :
  0 <= fst a -> 0 <= fst b -> 0 <= leaderID s ->
  snd (SetLeader (fst b) (snd b) (snd (SetLeader (fst a) (snd a) s))) =
  snd (SetLeader (fst a) (snd a) (snd (SetLeader (fst b) (snd b) s))).
Proof.
  destruct a as [la ta], b as [lb tb]; intros Ha Hb Hs; cbn in *.
  destruct s as [l t p]; unfold SetLeader; cbn in *.
  repeat (case_match; cbn in *); zbool; f_equal; try lia; try done; naive_solver lia.
Qed.

Lemma set_leader_nonneg l t s :
  0 <= l -> 0 <= leaderID s -> 0 <= leaderID (snd (SetLeader l t s)).
Proof. unfold SetLeader. repeat case_match; cbn; lia. Qed.

Lemma deliver_cons a anns s :
  deliver (a :: anns) s = deliver anns (snd (SetLeader (fst a) (snd a) s)).
Proof. reflexivity. Qed.

(** The order in which announcements arrive does not matter. *)
Lemma deliver_permutation anns anns' s :
  anns ≡ₚ anns' -> Forall (fun a => 0 <= fst a) anns -> 0 <= leaderID s ->
  deliver anns s = deliver anns' s.
Proof.
  intros Hp. revert s. induction Hp as [|a l l' _ IH|a b l|l l' l'' Hp1 IH1 _ IH2];
    intros s Hf Hs; rewrite ?Forall_cons in Hf.
  - done.
  - rewrite !deliver_cons. apply IH; [naive_solver | apply set_leader_nonneg; naive_solver].
  - rewrite !deliver_cons, set_leader_comm by naive_solver. done.
  - rewrite IH1 by done. apply IH2; [|done]. by rewrite <- Hp1.
Qed.

(** Delivered last, the largest announcement that is not below the current view
    is accepted. *)
Lemma set_leader_top l t s :
  term s < t \/ (term s = t /\ leaderID s <= l) -> SetLeader l t s = (true, mkState l t PhaseLeader).
Proof. intros H. unfold SetLeader. repeat case_match; zbool; try done; lia. Qed.

(** Announcements below a bound keep the view below it. *)
Lemma deliver_below l t anns s :
  Forall (fun a => ann_le a (l, t)) anns -> view_le s (mkState l t PhaseLeader) ->
  view_le (deliver anns s) (mkState l t PhaseLeader).
Proof.
  intros Hf. revert s. induction Hf as [|a anns Ha _ IH]; intros s Hs; [done|].
  rewrite deliver_cons. apply IH. destruct a as [la ta].
  unfold SetLeader, ann_le, view_le in *; cbn in *. repeat case_match; cbn; zbool; lia.
Qed.

(** C16: nodes agree on the leader. Two nodes in any states that receive the same
    announcements, each in its own order, end in the same state: phase
    [PhaseLeader] with the greatest announcement's leader and term, provided that
    announcement is not below either node's current view. *)
Theorem announcements_converge (anns1 anns2 : list (Z * Z)) (l t : Z) (s1 s2 : State) :
  anns1 ≡ₚ anns2 -> (l, t) ∈ anns1 ->
  Forall (fun a => 0 <= fst a) anns1 ->
  Forall (fun a => ann_le a (l, t)) anns1 ->
  0 <= leaderID s1 -> 0 <= leaderID s2 ->
  view_le s1 (mkState l t PhaseLeader) -> view_le s2 (mkState l t PhaseLeader) ->
  deliver anns1 s1 = mkState l t PhaseLeader /\ deliver anns2 s2 = mkState l t PhaseLeader.
Proof.
  intros Hp Hin Hpos Hle Hs1 Hs2 Hv1 Hv2.
  assert (Hone : forall s, 0 <= leaderID s -> view_le s (mkState l t PhaseLeader) ->
            deliver anns1 s = mkState l t PhaseLeader).
  { intros s Hs Hv. apply elem_of_Permutation in Hin as [rest Hrest].
    rewrite (deliver_permutation anns1 (rest ++ [(l, t)])) by
      (try done; rewrite Hrest; apply Permutation_cons_append).
    unfold deliver. rewrite fold_left_app. fold (deliver rest s). cbn.
    rewrite Hrest, Forall_cons in Hle. destruct Hle as [_ Hle].
    pose proof (deliver_below l t rest s Hle Hv) as Hb. unfold view_le in Hb; cbn in Hb.
    rewrite set_leader_top by lia. done. }
  split; [by apply Hone|].
  rewrite <- (deliver_permutation anns1 anns2) by done. by apply Hone.
Qed.

Lemma announcements_converge_witness :
  deliver [(3, 2); (1, 2); (2, 1)] (mkState 1 2 PhaseLeader) = mkState 3 2 PhaseLeader /\
  deliver [(2, 1); (1, 2); (3, 2)] (mkState 0 2 PhaseElecting) = mkState 3 2 PhaseLeader.
Proof.
  apply (announcements_converge [(3, 2); (1, 2); (2, 1)] [(2, 1); (1, 2); (3, 2)] 3 2);
    [apply (Permutation_rev [(3, 2); (1, 2); (2, 1)]) | | | | | | |];
    unfold view_le, ann_le; cbn; try lia.
  - set_solver.
  - repeat constructor; cbn; lia.
  - repeat constructor; cbn; lia.
Defined.
