(* ===== verification/Health.v ===== *)
(** * health/handler.go: the health endpoint

    [ServeHTTP] reads the election register four times and the members once,
    each time under the lock of its owner, and answers with a JSON document.
    The register may change between the reads. *)

From S2P Require Import Prelude GoStd GoText Json JsonPrint Cluster ElectionState.
From Stdlib Require Import Ascii.

Inductive NodeStatus :=
| StatusNoLeader
| StatusElectionInProgress
| StatusWaitingCoordinator
| StatusLeaderElected.

Definition status_name (s : NodeStatus) : string :=
  match s with
  | StatusNoLeader => "no_leader"
  | StatusElectionInProgress => "election_in_progress"
  | StatusWaitingCoordinator => "waiting_for_coordinator"
  | StatusLeaderElected => "leader_elected"
  end.

Record response := mkResponse {
  r_NodeID : Z;
  r_IsLeader : bool;
  r_LeaderID : Z;
  r_Term : Z;
  r_Status : NodeStatus;
  r_Members : gmap Z string;
}.

(** What the handler writes: the status code, the content type and the body. *)
Record http_reply := mkReply { code : Z; contentType : string; body : list ascii }.

(** The order in which encoding/json writes the keys of a map: as strings. *)
Definition key_leb (a b : Z * string) : bool := String.leb (FormatUint (fst a)) (FormatUint (fst b)).

Definition response_json (r : response) : json :=
  let num n := JNum (bytes_of (FormatUint n)) in
  JObj [(bytes_of "node_id", num (r_NodeID r));
        (bytes_of "is_leader", JBool (r_IsLeader r));
        (bytes_of "leader_id", num (r_LeaderID r));
        (bytes_of "term", num (r_Term r));
        (bytes_of "status", JStr (bytes_of (status_name (r_Status r))));
        (bytes_of "members", JObj ((fun p => (bytes_of (FormatUint (fst p)), JStr (bytes_of (snd p))))
           <$> sort_by key_leb (map_to_list (r_Members r))))].

(** The register at the four reads of the handler. *)
Record reads := mkReads { atLeader : State; atPhase : State; atIsLeader : State; atTerm : State }.

Definition status_of (p : Phase) : NodeStatus :=
  match p with
  | PhaseElecting => StatusElectionInProgress
  | PhaseWaitingCoordinator => StatusWaitingCoordinator
  | PhaseLeader => StatusLeaderElected
  | PhaseIdle => StatusNoLeader
  end.

Definition health_response (selfID : Z) (s : reads) (h : EventHandler) : response :=
  let leaderID := CurrentLeader (atLeader s) in
  let status := status_of (GetPhase (atPhase s)) in
  let memberAddrs := GRPCAddr <$> Members h in
  mkResponse selfID (IsLeader selfID (atIsLeader s)) leaderID (Term (atTerm s)) status memberAddrs.

Definition ServeHTTP (selfID : Z) (s : reads) (h : EventHandler) : http_reply :=
  mkReply 200 "application/json" (print (response_json (health_response selfID s h)) ++ [byte_of 10]).

(** ** Reading the answer *)

Definition field (k : string) (fs : list (list ascii * json)) : option json :=
  snd <$> find (fun f => bool_decide (fst f = bytes_of k)) fs.

Definition as_uint (j : json) : option Z :=
  match j with
  | JNum lit => match ParseUint (string_of lit) with Ok n => Some n | Err _ => None end
  | _ => None
  end.

Definition as_status (j : json) : option NodeStatus :=
  match j with
  | JStr s => find (fun x => bool_decide (s = bytes_of (status_name x)))
      [StatusNoLeader; StatusElectionInProgress; StatusWaitingCoordinator; StatusLeaderElected]
  | _ => None
  end.

Definition as_member (f : list ascii * json) : option (Z * string) :=
  match ParseUint (string_of (fst f)), snd f with
  | Ok id, JStr a => Some (id, string_of a)
  | _, _ => None
  end.

Definition as_members (j : json) : option (gmap Z string) :=
  match j with JObj fs => list_to_map <$> mapM as_member fs | _ => None end.

(** The answer as a client of the endpoint decodes it. *)
Definition decode_response (b : list ascii) : option response :=
  match parse b with
  | Some (JObj fs) =>
      node ← field "node_id" fs ≫= as_uint;
      lead ← field "is_leader" fs ≫= (fun j => match j with JBool x => Some x | _ => None end);
      leader ← field "leader_id" fs ≫= as_uint;
      trm ← field "term" fs ≫= as_uint;
      st ← field "status" fs ≫= as_status;
      ms ← field "members" fs ≫= as_members;
      Some (mkResponse node lead leader trm st ms)
  | _ => None
  end.

Record response_ok (r : response) : Prop := {
  ro_node : is_u64 (r_NodeID r);
  ro_leader : is_u64 (r_LeaderID r);
  ro_term : is_u64 (r_Term r);
  ro_members : map_Forall (fun id a => is_u64 id /\ valid_utf8 (bytes_of a) = true) (r_Members r);
}.

Lemma ascii_valid b : Forall (fun c => in_range 0 127 c = true) b -> valid_utf8 b = true.
Proof. induction 1 as [|c b Hc _ IH]; [done|]. cbn. by rewrite Hc. Qed.

Lemma FormatUint_valid n : is_u64 n -> valid_utf8 (bytes_of (FormatUint n)) = true.
Proof.
  intros Hn. apply ascii_valid. destruct (FormatUint_lit n Hn) as [->|[_ H]]; [by repeat constructor|].
  eapply Forall_impl; [exact H|]. intros c. unfold is_digit, in_range.
  rewrite !andb_true_iff, !Z.leb_le. lia.
Qed.

Lemma members_json_ok (l : list (Z * string)) :
  Forall (fun p => is_u64 (fst p) /\ valid_utf8 (bytes_of (snd p)) = true) l ->
  json_ok (JObj ((fun p => (bytes_of (FormatUint (fst p)), JStr (bytes_of (snd p)))) <$> l)).
Proof.
  induction 1 as [|[id a] l [Hid Ha] _ IH]; [done|]. cbn in *. split; [|exact IH]. split; [by apply FormatUint_valid | done].
Qed.

Lemma sorted_members_ok r :
  response_ok r ->
  Forall (fun p => is_u64 (fst p) /\ valid_utf8 (bytes_of (snd p)) = true) (sort_by key_leb (map_to_list (r_Members r))).
Proof.
  intros [_ _ _ Hm]. apply Forall_forall. intros [id a] H. apply elem_of_sort_by, elem_of_map_to_list in H.
  exact (Hm _ _ H).
Qed.

Lemma num_json_ok n : is_u64 n -> json_ok (JNum (bytes_of (FormatUint n))).
Proof. intros Hn. by exists n. Qed.

Lemma status_json_ok st : json_ok (JStr (bytes_of (status_name st))).
Proof. by destruct st. Qed.

Lemma response_json_ok r : response_ok r -> json_ok (response_json r).
Proof.
  intros Hr. pose proof (members_json_ok _ (sorted_members_ok r Hr)) as Hm. destruct Hr as [Hn Hl Ht _].
  unfold response_json. set (mj := JObj (_ <$> _)) in *. clearbody mj.
  exact (conj (conj eq_refl (num_json_ok _ Hn)) (conj (conj eq_refl I) (conj (conj eq_refl (num_json_ok _ Hl))
    (conj (conj eq_refl (num_json_ok _ Ht)) (conj (conj eq_refl (status_json_ok _)) (conj (conj eq_refl Hm) I)))))).
Qed.

Lemma as_member_format id a : is_u64 id -> as_member (bytes_of (FormatUint id), JStr (bytes_of a)) = Some (id, a).
Proof. intros Hid. unfold as_member. cbn [fst snd]. by rewrite !string_bytes_of, ParseUint_FormatUint. Qed.

Lemma as_members_sorted (m : gmap Z string) :
  map_Forall (fun id _ => is_u64 id) m ->
  as_members (JObj ((fun p => (bytes_of (FormatUint (fst p)), JStr (bytes_of (snd p))))
    <$> sort_by key_leb (map_to_list m))) = Some m.
Proof.
  intros Hm. unfold as_members. set (l := sort_by key_leb (map_to_list m)).
  assert (Hp : l ≡ₚ map_to_list m) by apply sort_by_Permutation.
  assert (Hl : Forall (fun p => is_u64 (fst p)) l).
  { apply Forall_forall. intros [id a] H. rewrite Hp in H. apply elem_of_map_to_list in H. exact (Hm _ _ H). }
  assert (mapM as_member ((fun p => (bytes_of (FormatUint (fst p)), JStr (bytes_of (snd p)))) <$> l) = Some l) as ->.
  { apply mapM_Some, Forall2_fmap_l. clear Hp. induction Hl as [|[id a] l Hid _ IH]; constructor; [|done].
    by apply as_member_format. }
  cbn [fmap option_fmap option_map]. f_equal. rewrite <- (list_to_map_to_list m). symmetry. apply list_to_map_proper; [|by symmetry].
  apply NoDup_fst_map_to_list.
Qed.

Lemma as_uint_format n : is_u64 n -> as_uint (JNum (bytes_of (FormatUint n))) = Some n.
Proof. intros Hn. unfold as_uint. by rewrite string_bytes_of, ParseUint_FormatUint. Qed.

Lemma as_status_name s : as_status (JStr (bytes_of (status_name s))) = Some s.
Proof. by destruct s. Qed.

Lemma decode_print r : response_ok r -> decode_response (print (response_json r) ++ [byte_of 10]) = Some r.
Proof.
  intros Hr. unfold decode_response. rewrite (parse_print _ (response_json_ok r Hr)).
  destruct Hr as [Hn Hl Ht Hm]. destruct r as [node lead leader trm st ms]. cbn [r_NodeID r_LeaderID r_Term r_Members] in *.
  unfold response_json. cbn [r_NodeID r_IsLeader r_LeaderID r_Term r_Status r_Members].
  set (mj := JObj (_ <$> _)). assert (Hms : as_members mj = Some ms).
  { apply as_members_sorted. intros id a Ha. by destruct (Hm id a Ha). }
  clearbody mj. set (fs := [_; _; _; _; _; _]).
  change (field "node_id" fs) with (Some (JNum (bytes_of (FormatUint node)))).
  change (field "is_leader" fs) with (Some (JBool lead)).
  change (field "leader_id" fs) with (Some (JNum (bytes_of (FormatUint leader)))).
  change (field "term" fs) with (Some (JNum (bytes_of (FormatUint trm)))).
  change (field "status" fs) with (Some (JStr (bytes_of (status_name st)))).
  change (field "members" fs) with (Some mj).
  cbn [mbind option_bind]. by rewrite !as_uint_format, as_status_name, Hms by done.
Qed.

(** ** What the answer says *)

(** The reads of a request during which other goroutines run operations on the
    register. *)
Definition reads_along (s : State) (os1 os2 os3 : list state_op) : reads :=
  let s1 := apply_ops os1 s in
  let s2 := apply_ops os2 s1 in
  mkReads s s1 s2 (apply_ops os3 s2).

Lemma apply_ops_app os1 os2 s : apply_ops (os1 ++ os2) s = apply_ops os2 (apply_ops os1 s).
Proof. unfold apply_ops. apply fold_left_app. Qed.

Lemma apply_ops_wf os s : Forall op_wf os -> state_wf s -> state_wf (apply_ops os s).
Proof.
  intros Hos. revert s. induction Hos as [|o os Ho _ IH]; intros s Hs; cbn; [done|]. by apply IH, apply_op_wf.
Qed.

(** C33: the answer of the health endpoint reaches its client as it is: for a
    well-formed register at each read and members with UTF-8 addresses, the body
    is valid JSON that decodes to the node's id, leader, term, status and members
    as the handler read them. *)
Theorem health_answer_roundtrip (selfID : Z) (s : State) (os1 os2 os3 : list state_op) (h : EventHandler) :
  is_u64 selfID -> state_wf s -> Forall op_wf (os1 ++ os2 ++ os3) ->
  map_Forall (fun id m => is_u64 id /\ valid_utf8 (bytes_of (GRPCAddr m)) = true) (members h) ->
  let rs := reads_along s os1 os2 os3 in
  code (ServeHTTP selfID rs h) = 200 /\
  decode_response (body (ServeHTTP selfID rs h)) = Some (health_response selfID rs h).
Proof.
  intros Hid Hs [Ho1 [Ho2 Ho3]%Forall_app]%Forall_app Hm rs. split; [done|]. apply decode_print.
  pose proof (apply_ops_wf os1 s Ho1 Hs) as Hs1. pose proof (apply_ops_wf os2 _ Ho2 Hs1) as Hs2.
  pose proof (apply_ops_wf os3 _ Ho3 Hs2) as Hs3. split; cbn; [done | apply Hs | apply Hs3 |].
  intros id a Ha. unfold Members in Ha. rewrite lookup_fmap in Ha. apply fmap_Some in Ha as (m & Hl & ->).
  exact (Hm id m Hl).
Qed.

(** C34: the answer never reports an older term than the one of the leader it names, and
    when no operation on the register falls between its reads it is consistent:
    a leader is named exactly with the status leader_elected, and the node claims
    to lead exactly when it names itself. *)
Theorem health_answer_consistent (selfID : Z) (s : State) (os1 os2 os3 : list state_op) (h : EventHandler) :
  selfID <> 0 -> state_wf s -> Forall op_wf (os1 ++ os2 ++ os3) -> terms_below_max (os1 ++ os2 ++ os3) s ->
  let r := health_response selfID (reads_along s os1 os2 os3) h in
  term s <= r_Term r /\
  (os1 ++ os2 ++ os3 = [] ->
     (r_LeaderID r <> 0 <-> r_Status r = StatusLeaderElected) /\
     (r_IsLeader r = true <-> r_LeaderID r = selfID /\ r_Status r = StatusLeaderElected) /\
     r_Term r = term s).
Proof.
  intros Hid Hs Ho Hb r. split.
  - unfold r. cbn. unfold Term. rewrite <- !apply_ops_app. by apply apply_ops_view.
  - intros [-> [-> ->]%app_eq_nil]%app_eq_nil. unfold r. cbn. unfold CurrentLeader, GetPhase, Term, IsLeader.
    destruct Hs as [Hl _ _]. rewrite Z.eqb_eq.
    assert (Hst : status_of (phase s) = StatusLeaderElected <-> phase s = PhaseLeader) by (destruct (phase s); cbn; naive_solver).
    rewrite Hst, <- Hl. split_and!; [done | naive_solver | done].
Qed.

Definition health_members : EventHandler :=
  NotifyJoin (mkNode "2" (bytes_of "{}")) (NotifyJoin (mkNode "10" (match encodeNodeMeta (mkMeta "n10:50051") with Ok b => b | Err _ => [] end)) NewEventHandler).

Lemma health_state_ok : state_wf (mkState 10 3 PhaseLeader).
Proof. split; cbn; [naive_solver | |]; unfold is_u64, u64_size; lia. Qed.

Lemma health_answer_roundtrip_witness :
  decode_response (body (ServeHTTP 2 (reads_along (mkState 10 3 PhaseLeader) [OpUpdateTerm 4] [] []) health_members)) =
  Some (mkResponse 2 false 10 4 StatusNoLeader {[2 := EmptyString; 10 := "n10:50051"%string]}).
Proof.
  etransitivity;
    [apply (health_answer_roundtrip 2 (mkState 10 3 PhaseLeader) [OpUpdateTerm 4] [] [] health_members)
    |vm_compute; reflexivity].
  - unfold is_u64, u64_size. lia.
  - exact health_state_ok.
  - repeat constructor; unfold u64_size; lia.
  - assert (members health_members = {[2 := mkMember 2 EmptyString; 10 := mkMember 10 "n10:50051"]}) as -> by (vm_compute; reflexivity).
    apply map_Forall_insert_2; [|apply map_Forall_singleton]; (split; [unfold is_u64, u64_size; lia | reflexivity]).
Defined.

Lemma health_answer_consistent_witness :
  let r := health_response 2 (reads_along (mkState 10 3 PhaseLeader) [] [] []) health_members in
  r_LeaderID r <> 0 /\ r_Status r = StatusLeaderElected.
Proof.
  destruct (health_answer_consistent 2 (mkState 10 3 PhaseLeader) [] [] [] health_members) as [_ H].
  - lia.
  - exact health_state_ok.
  - constructor.
  - exact I.
  - destruct (H eq_refl) as [Hl _]. cbn. split; [discriminate | reflexivity].
Defined.

(** An announcement between two reads: the answer names node 2 as the leader of a term
    node 3 leads, and no register ever said so. *)
Example health_answer_torn :
  let r := health_response 2 (reads_along (mkState 2 1 PhaseLeader) [OpSetLeader 3 5] [] []) NewEventHandler in
  (r_LeaderID r, r_Term r, r_IsLeader r, r_Status r) = (2, 5, false, StatusLeaderElected).
Proof. reflexivity. Qed.
