(* ===== verification/ElectionEngine.v ===== *)
(** * election/engine.go: the election engine of a node

    A node runs many goroutines that share the election register, the request
    channel [electC] (1 place) and the internal channel [internalC] (8 places).
    A [goroutine] is a program point with its local variables; [gstep] runs it
    to its next access of shared state.  What a goroutine receives from outside
    (a membership snapshot, the outcome of an RPC, a timer) is the [input] of
    the step, the RPCs it issues are its [output]s.  [estep] picks one
    goroutine, so that a run of the engine is an interleaving of its
    goroutines at the granularity of the mutex and the channel operations. *)

From S2P Require Import Prelude Cluster ElectionState.

(** ** Data *)

(** config.ElectionConfig; a time.Duration is an int64 number of nanoseconds. *)
Record ElectionConfig := mkElectionConfig {
  ElectionTimeout : Z;
  AnnounceRetryInterval : Z;
  SendRetryInterval : Z;
}.

Inductive internalEventType := internalCoordinator | internalRetry.

#[export] Instance internalEventType_eq_dec : EqDecision internalEventType.
Proof. solve_decision. Defined.

Record internalEvent := mkInternal {
  typ : internalEventType;
  ev_term : Z;
  ev_leaderID : Z;
  ev_nodeID : Z;
}.

(** The messages of the election service. *)
Record ElectionRequest := mkElectionRequest { FromId : Z; ReqTerm : Z; ReqAddr : string }.

Record ElectionResponse := mkElectionResponse { RespOk : bool; RespTerm : Z }.

Record CoordinatorRequest := mkCoordinatorRequest { LeaderId : Z; CoordTerm : Z }.

#[export] Instance ElectionRequest_eq_dec : EqDecision ElectionRequest.
Proof. solve_decision. Defined.

#[export] Instance CoordinatorRequest_eq_dec : EqDecision CoordinatorRequest.
Proof. solve_decision. Defined.

(** ** The retry loops *)

(** The next pause of the sender of [StartElection]. *)
Definition send_next (cfg : ElectionConfig) (interval : Z) : Z :=
  if interval <? ElectionTimeout cfg then
    let i := int64 (interval * 2) in
    if ElectionTimeout cfg <? i then ElectionTimeout cfg else i
  else interval.

(** The next pause of the senders of [AnnounceLeader]. *)
Definition announce_next (cfg : ElectionConfig) (interval : Z) : Z :=
  let i := int64 (interval * 2) in
  if ElectionTimeout cfg <? i then ElectionTimeout cfg else i.

(** One turn of the loop that sends [StartElection] to a member: the call
    returned a response, or failed and then either the pause ended or the
    deadline passed. *)
Inductive attempt :=
| AResp (ok : bool)
| ARetry
| ADone.

(** The value the sender puts into [resultC]; None while it is still running. *)
Fixpoint send_loop (cfg : ElectionConfig) (interval : Z) (l : list attempt) : option bool :=
  match l with
  | [] => None
  | AResp ok :: _ => Some ok
  | ARetry :: l' => send_loop cfg (send_next cfg interval) l'
  | ADone :: _ => Some false
  end.

(** What the collecting loop of [sendToHigher] receives next: the result of a
    member's sender, or the end of the deadline. *)
Inductive arrival :=
| FromMember (id : Z)
| DeadlineHit.

#[export] Instance arrival_eq_dec : EqDecision arrival.
Proof. solve_decision. Defined.

Fixpoint collect (n : nat) (pending : list Z) (results : Z -> option bool)
    (arr : list arrival) : option bool :=
  match n with
  | O => Some false
  | S n' =>
      match arr with
      | [] => None
      | DeadlineHit :: _ => Some false
      | FromMember id :: arr' =>
          if bool_decide (id ∈ pending) then
            match results id with
            | None => None
            | Some true => Some true
            | Some false => collect n' (filter (fun x => x <> id) pending) results arr'
            end
          else None
      end
  end.

Definition sendToHigher (cfg : ElectionConfig) (higher : list Member)
    (attempts : Z -> list attempt) (arr : list arrival) : option bool :=
  collect (length higher) (ID <$> higher)
    (fun id => send_loop cfg (SendRetryInterval cfg) (attempts id)) arr.

(** ** Goroutines *)

Inductive goroutine :=
(* run, and handleNodeLost between its accesses of the register *)
| Run
| Lost (id : Z)
| LostClear (id : Z)
| LostPhase (id : Z)
| LostTerm (id : Z)
| LostSignal (t id : Z)
(* startElection *)
| Elect
| ElectMembers (t : Z)
| ElectSend (t : Z) (higher : list Member)
| ElectEnter (t : Z)
(* waitForCoordinator *)
| WaitCoord (t : Z)
| WaitRead (t : Z) (ev : internalEvent)
| WaitCheck (t : Z) (ev : internalEvent) (leader : Z)
| WaitReset (t : Z) (restart : bool)
(* declareLeader and its announcers *)
| DeclareSelf (t : Z)
| DeclareMembers (t : Z)
| Announce (m : Member) (t interval : Z)
| AnnounceWait (m : Member) (t interval : Z)
(* OnStartElection, and the announcer it starts on the leader *)
| OnStart (req : ElectionRequest)
| OnStartCheck (fromID : Z) (addr : string)
| OnStartPush (fromID : Z)
| OnStartReply
| Reannounce (addr : string) (interval : Z)
| ReannounceWait (addr : string) (interval : Z)
(* OnAnnounceLeader *)
| OnAnnounce (l t : Z)
| OnAnnounceSignal (l t : Z).

Inductive input :=
| Go
| InMembers (ms : gmap Z Member)
| InSend (attempts : Z -> list attempt) (arr : list arrival)
| InEvent (ev : ClusterEvent)
| InElect
| InInternal
| InTimer
| InDone
| InRpc (ok : bool).

Inductive output :=
| OutElect (addr : string) (req : ElectionRequest)
| OutCoord (addr : string) (req : CoordinatorRequest)
| OutElectReply (resp : ElectionResponse)
| OutCoordReply.

Record engine := mkEngine {
  selfID : Z;
  selfAddr : string;
  cfg : ElectionConfig;
  state : State;
  electC : list Z;
  internalC : list internalEvent;
  routines : list goroutine;
}.

Definition electC_cap : nat := 1.

Definition internalC_cap : nat := 8.

(** NewEngine, and Start's two goroutines. *)
Definition NewEngine (c : ElectionConfig) (self : Z) (addr : string) : engine :=
  mkEngine self addr c NewState [] [] [].

Definition with_routines (gs : list goroutine) (e : engine) : engine :=
  mkEngine (selfID e) (selfAddr e) (cfg e) (state e) (electC e) (internalC e) gs.

Definition with_state (s : State) (e : engine) : engine :=
  mkEngine (selfID e) (selfAddr e) (cfg e) s (electC e) (internalC e) (routines e).

Definition with_electC (c : list Z) (e : engine) : engine :=
  mkEngine (selfID e) (selfAddr e) (cfg e) (state e) c (internalC e) (routines e).

Definition with_internalC (c : list internalEvent) (e : engine) : engine :=
  mkEngine (selfID e) (selfAddr e) (cfg e) (state e) (electC e) c (routines e).

Definition Start (e : engine) : engine :=
  with_routines (Run :: Elect :: routines e) e.

(** ** Steps *)

(** handleNodeJoined: whether a join makes the node start an election, given the
    leader it knows. *)
Definition handleNodeJoined (self joinedID leader : Z) : bool :=
  if joinedID =? self then false
  else if leader =? 0 then true
  else leader <? joinedID.

(** The members above the node, as startElection collects them. *)
Definition higher_members (self : Z) (ms : gmap Z Member) : list Member :=
  filter (fun m => self < ID m) (snd <$> map_to_list ms).

(** The result of a step: the engine with its shared parts updated, the
    goroutines that replace the one that moved, and the RPCs issued. *)
Definition outcome : Type := (engine * list goroutine * list output)%type.

(** run and handleNodeLost. *)
Definition run_step (e : engine) (g : goroutine) (inp : input) : option outcome :=
  match g, inp with
  | Run, InEvent (mkEvent EventJoin id) =>
      if handleNodeJoined (selfID e) id (CurrentLeader (state e))
      then Some (e, [Run; Elect], []) else Some (e, [Run], [])
  | Run, InEvent (mkEvent EventLeave id) => Some (e, [Lost id], [])
  | Run, InElect =>
      match electC e with
      | _ :: c => Some (with_electC c e, [Run; Elect], [])
      | [] => None
      end
  | Run, InDone => Some (e, [], [])
  | Lost id, Go =>
      if CurrentLeader (state e) =? id then Some (e, [LostClear id], [])
      else Some (e, [LostPhase id], [])
  | LostClear id, Go =>
      Some (with_state (snd (ClearLeaderIfMatches id (state e))) e, [Run; Elect], [])
  | LostPhase id, Go =>
      if bool_decide (GetPhase (state e) = PhaseWaitingCoordinator) && (selfID e <? id)
      then Some (e, [LostTerm id], []) else Some (e, [Run], [])
  | LostTerm id, Go => Some (e, [LostSignal (Term (state e)) id], [])
  | LostSignal t id, Go =>
      Some (with_internalC
              (try_send internalC_cap (mkInternal internalRetry t 0 id) (internalC e)) e,
            [Run], [])
  | _, _ => None
  end.

(** startElection up to the wait for the coordinator. *)
Definition elect_step (e : engine) (g : goroutine) (inp : input) : option outcome :=
  match g, inp with
  | Elect, Go =>
      let '((t, ok), s) := BeginElection (state e) in
      if ok then Some (with_state s e, [ElectMembers t], []) else Some (e, [], [])
  | ElectMembers t, InMembers ms =>
      let higher := higher_members (selfID e) ms in
      match higher with
      | [] => Some (e, [DeclareSelf t], [])
      | _ =>
          let req := mkElectionRequest (selfID e) t (selfAddr e) in
          Some (e, [ElectSend t higher], (fun m => OutElect (GRPCAddr m) req) <$> higher)
      end
  | ElectSend t higher, InSend attempts arr =>
      match sendToHigher (cfg e) higher attempts arr with
      | Some true => Some (e, [ElectEnter t], [])
      | Some false => Some (e, [DeclareSelf t], [])
      | None => None
      end
  | ElectEnter t, Go =>
      let '(ok, s) := EnterWaitingCoordinator t (state e) in
      Some (with_state s e, if ok then [WaitCoord t] else [], [])
  | _, _ => None
  end.

(** waitForCoordinator. *)
Definition wait_step (e : engine) (g : goroutine) (inp : input) : option outcome :=
  match g, inp with
  | WaitCoord t, InInternal =>
      match internalC e with
      | [] => None
      | ev :: c =>
          let e' := with_internalC c e in
          if ev_term ev <? t then Some (e', [WaitCoord t], [])
          else match typ ev with
               | internalCoordinator => Some (e', [WaitRead t ev], [])
               | internalRetry => Some (e', [WaitReset t true], [])
               end
      end
  | WaitCoord t, InTimer => Some (e, [WaitReset t true], [])
  | WaitCoord t, InDone => Some (e, [WaitReset t false], [])
  | WaitRead t ev, Go => Some (e, [WaitCheck t ev (CurrentLeader (state e))], [])
  | WaitCheck t ev leader, Go =>
      if (leader =? 0) || (Term (state e) <? ev_term ev)
      then Some (e, [WaitReset t true], []) else Some (e, [], [])
  | WaitReset t restart, Go =>
      Some (with_state (snd (ResetElection t (state e))) e, if restart then [Elect] else [], [])
  | _, _ => None
  end.

(** declareLeader and the goroutines that announce the leader. *)
Definition declare_step (e : engine) (g : goroutine) (inp : input) : option outcome :=
  match g, inp with
  | DeclareSelf t, Go =>
      let '(ok, s) := SetLeader (selfID e) t (state e) in
      Some (with_state s e, if ok then [DeclareMembers t] else [], [])
  | DeclareMembers t, InMembers ms =>
      Some (e, (fun m => Announce m t (AnnounceRetryInterval (cfg e))) <$> (snd <$> map_to_list ms), [])
  | Announce m t i, InRpc ok =>
      Some (e, if ok then [] else [AnnounceWait m t i],
            [OutCoord (GRPCAddr m) (mkCoordinatorRequest (selfID e) t)])
  | AnnounceWait m t i, InTimer => Some (e, [Announce m t (announce_next (cfg e) i)], [])
  | AnnounceWait m t i, InDone => Some (e, [], [])
  | _, _ => None
  end.

(** OnStartElection: the server replies after the handler; a leader announces
    itself to the sender, another node requests an election of its own. *)
Definition on_start_step (e : engine) (g : goroutine) (inp : input) : option outcome :=
  match g, inp with
  | OnStart req, Go =>
      Some (with_state (UpdateTerm (ReqTerm req) (state e)) e,
            [OnStartCheck (FromId req) (ReqAddr req)], [])
  | OnStartCheck fromID addr, Go =>
      if IsLeader (selfID e) (state e)
      then Some (e, [Reannounce addr (AnnounceRetryInterval (cfg e)); OnStartReply], [])
      else Some (e, [OnStartPush fromID], [])
  | OnStartPush fromID, Go =>
      Some (with_electC (try_send electC_cap fromID (electC e)) e, [OnStartReply], [])
  | OnStartReply, Go =>
      Some (e, [], [OutElectReply (mkElectionResponse true (Term (state e)))])
  | Reannounce addr i, InRpc ok =>
      Some (e, if ok then [] else [ReannounceWait addr i],
            [OutCoord addr (mkCoordinatorRequest (selfID e) (Term (state e)))])
  | ReannounceWait addr i, InTimer => Some (e, [Reannounce addr (announce_next (cfg e) i)], [])
  | ReannounceWait addr i, InDone => Some (e, [], [])
  | _, _ => None
  end.

(** OnAnnounceLeader: the send on [internalC] blocks while the channel is full. *)
Definition on_announce_step (e : engine) (g : goroutine) (inp : input) : option outcome :=
  match g, inp with
  | OnAnnounce l t, Go =>
      let '(ok, s) := SetLeader l t (state e) in
      if ok then Some (with_state s e, [OnAnnounceSignal l t], [])
      else Some (e, [], [OutCoordReply])
  | OnAnnounceSignal l t, Go =>
      if (length (internalC e) <? internalC_cap)%nat
      then Some (with_internalC (internalC e ++ [mkInternal internalCoordinator t l 0]) e,
                 [], [OutCoordReply])
      else None
  | _, _ => None
  end.

Definition gstep (e : engine) (g : goroutine) (inp : input) : option outcome :=
  match g with
  | Run | Lost _ | LostClear _ | LostPhase _ | LostTerm _ | LostSignal _ _ => run_step e g inp
  | Elect | ElectMembers _ | ElectSend _ _ | ElectEnter _ => elect_step e g inp
  | WaitCoord _ | WaitRead _ _ | WaitCheck _ _ _ | WaitReset _ _ => wait_step e g inp
  | DeclareSelf _ | DeclareMembers _ | Announce _ _ _ | AnnounceWait _ _ _ => declare_step e g inp
  | OnStart _ | OnStartCheck _ _ | OnStartPush _ | OnStartReply
  | Reannounce _ _ | ReannounceWait _ _ => on_start_step e g inp
  | OnAnnounce _ _ | OnAnnounceSignal _ _ => on_announce_step e g inp
  end.

(** One step of the engine: goroutine number [k] moves. *)
Definition estep (e : engine) (k : nat) (inp : input) : option (engine * list output) :=
  match routines e !! k with
  | None => None
  | Some g =>
      match gstep e g inp with
      | None => None
      | Some (e', gs, outs) => Some (with_routines (gs ++ delete k (routines e)) e', outs)
      end
  end.

(** The RPC server starts a handler. *)
Definition recv_elect (req : ElectionRequest) (e : engine) : engine :=
  with_routines (OnStart req :: routines e) e.

Definition recv_coord (req : CoordinatorRequest) (e : engine) : engine :=
  with_routines (OnAnnounce (LeaderId req) (CoordTerm req) :: routines e) e.

(** Everything that can happen to one node, with every behaviour of its
    environment allowed. *)
Inductive node_step : engine -> engine -> Prop :=
| ns_local e k inp e' outs : estep e k inp = Some (e', outs) -> node_step e e'
| ns_elect e req : is_u64 (ReqTerm req) -> node_step e (recv_elect req e)
| ns_coord e req :
    is_u64 (LeaderId req) -> LeaderId req <> 0 -> is_u64 (CoordTerm req) ->
    node_step e (recv_coord req e).

(** ** Invariants of one node *)

(** The register operation a program point performs, if any. *)
Definition op_of (self : Z) (g : goroutine) : option state_op :=
  match g with
  | LostClear id => Some (OpClearLeader id)
  | Elect => Some OpBeginElection
  | ElectEnter t => Some (OpEnterWaiting t)
  | WaitReset t _ => Some (OpResetElection t)
  | DeclareSelf t => Some (OpSetLeader self t)
  | OnStart req => Some (OpUpdateTerm (ReqTerm req))
  | OnAnnounce l t => Some (OpSetLeader l t)
  | _ => None
  end.

(** The election a goroutine works for: its term. *)
Definition session (g : goroutine) : option Z :=
  match g with
  | ElectMembers t | ElectSend t _ | ElectEnter t | DeclareSelf t
  | WaitCoord t | WaitRead t _ | WaitCheck t _ _ | WaitReset t _ => Some t
  | _ => None
  end.

(** The goroutine will leave phase [PhaseElecting] of this term. *)
Definition electing_pc (g : goroutine) : option Z :=
  match g with
  | ElectMembers t | ElectSend t _ | ElectEnter t | DeclareSelf t => Some t
  | _ => None
  end.

(** The goroutine will leave phase [PhaseWaitingCoordinator] of this term: one
    that has read a leader is about to return instead. *)
Definition waiting_pc (g : goroutine) : option Z :=
  match g with
  | WaitCoord t | WaitRead t _ | WaitReset t _ => Some t
  | WaitCheck t _ leader => if leader =? 0 then Some t else None
  | _ => None
  end.

(** An election in progress is driven by some goroutine. *)
Definition driven (s : State) (gs : list goroutine) : Prop :=
  match phase s with
  | PhaseElecting => exists g, g ∈ gs /\ electing_pc g = Some (term s)
  | PhaseWaitingCoordinator => exists g, g ∈ gs /\ waiting_pc g = Some (term s)
  | _ => True
  end.

(** Terms in flight are [uint64] values, announced leaders are node ids. *)
Definition g_wf (g : goroutine) : Prop :=
  (forall t, session g = Some t -> is_u64 t) /\
  match g with
  | OnStart req => is_u64 (ReqTerm req)
  | OnAnnounce l t | OnAnnounceSignal l t => is_u64 l /\ l <> 0 /\ is_u64 t
  | _ => True
  end.

Record node_inv (e : engine) : Prop := {
  ni_self : is_u64 (selfID e) /\ selfID e <> 0;
  ni_state : state_wf (state e);
  ni_routines : Forall g_wf (routines e);
  ni_driven : driven (state e) (routines e);
  ni_electC : (length (electC e) <= electC_cap)%nat;
  ni_internalC : (length (internalC e) <= internalC_cap)%nat;
}.

(** Nothing but the register, the channels and the goroutines changes. *)
Definition same_node (e e' : engine) : Prop :=
  selfID e' = selfID e /\ selfAddr e' = selfAddr e /\ cfg e' = cfg e.

Ltac gstep_cases H :=
  unfold gstep, run_step, elect_step, wait_step, declare_step, on_start_step, on_announce_step in H;
  repeat (case_match; simplify_eq/=).

(** Every step of a goroutine is one operation of the register, or leaves it
    alone. *)
Lemma gstep_state e g inp e' gs outs :
  gstep e g inp = Some (e', gs, outs) ->
  same_node e e' /\
  state e' = match op_of (selfID e) g with
             | Some o => apply_op o (state e)
             | None => state e
             end.
Proof.
  intros H. gstep_cases H; try (split; [done|]; cbn;
    repeat match goal with
    | H : BeginElection _ = _ |- _ => rewrite H
    | H : EnterWaitingCoordinator _ _ = _ |- _ => rewrite H
    | H : SetLeader _ _ _ = _ |- _ => rewrite H
    end; try done).
  - unfold BeginElection in *. repeat case_match; simplify_eq/=; done.
  - unfold SetLeader in *. repeat case_match; simplify_eq/=; done.
Qed.

Lemma op_of_wf self g o :
  is_u64 self -> self <> 0 -> g_wf g -> op_of self g = Some o -> op_wf o.
Proof.
  intros Hs Hs0 [Ht Hg] Ho. destruct g; simplify_eq/=; naive_solver.
Qed.

(** The goroutines a step leaves behind are well formed. *)
Lemma gstep_routines_wf e g inp e' gs outs :
  gstep e g inp = Some (e', gs, outs) -> state_wf (state e) -> g_wf g -> Forall g_wf gs.
Proof.
  intros H Hs [Ht Hg]. gstep_cases H;
    repeat (apply Forall_cons_2 || apply Forall_nil_2); try (split; cbn in *; naive_solver).
  - split; [|done]. intros t' [= <-]. unfold BeginElection in *.
    repeat case_match; simplify_eq/=; apply uint64_range.
  - apply Forall_fmap, Forall_forall. intros m _. split; cbn; [naive_solver|done].
Qed.

(** A driver of the current election either keeps driving it, or ends it. *)
Lemma gstep_driven e g inp e' gs outs rest :
  gstep e g inp = Some (e', gs, outs) -> state_wf (state e) ->
  driven (state e) (g :: rest) -> driven (state e') (gs ++ rest).
Proof.
  intros H [Hl _ _] Hd. unfold driven in *.
  destruct (state e) as [l t p] eqn:Hst.
  gstep_cases H; unfold_ops; unfold CurrentLeader, Term, GetPhase in *; rewrite ?Hst in *; cbn in *;
    repeat (case_match; cbn in *); simplify_eq/=; zbool; try done; try set_solver.
  all: destruct Hd as (g & [->|Hin]%elem_of_cons & Hg); [|by eauto using list_elem_of_further];
    cbn in Hg; repeat case_match; zbool; simplify_eq/=; try lia.
  - assert (l = 0) as -> by (destruct (decide (l = 0)); naive_solver).
    eexists; split; [apply elem_of_cons; by left | done].
  - eexists; split; [apply elem_of_cons; by left | done].
Qed.

Lemma gstep_channels e g inp e' gs outs :
  gstep e g inp = Some (e', gs, outs) ->
  (length (electC e) <= electC_cap)%nat -> (length (internalC e) <= internalC_cap)%nat ->
  (length (electC e') <= electC_cap)%nat /\ (length (internalC e') <= internalC_cap)%nat.
Proof.
  intros H He Hi. gstep_cases H; split; auto using try_send_length;
    repeat match goal with H : electC _ = _ |- _ => rewrite H in * | H : internalC _ = _ |- _ => rewrite H in * end;
    cbn in *; try lia.
  match goal with H : (_ <=? _)%nat = true |- _ => apply Nat.leb_le in H end.
  rewrite length_app. unfold internalC_cap in *. cbn. lia.
Qed.

Lemma estep_inv e k inp e' outs :
  estep e k inp = Some (e', outs) ->
  exists g e1 gs, routines e ≡ₚ g :: delete k (routines e) /\ gstep e g inp = Some (e1, gs, outs) /\
    e' = with_routines (gs ++ delete k (routines e)) e1.
Proof.
  unfold estep. intros H. destruct (routines e !! k) as [g|] eqn:Hg; [|done].
  destruct (gstep e g inp) as [[[e1 gs] o]|] eqn:Hs; simplify_eq/=.
  exists g, e1, gs. split; [by apply delete_Permutation | done].
Qed.

#[export] Instance driven_proper s : Proper (Permutation ==> iff) (driven s).
Proof.
  intros gs gs' Hp. unfold driven. destruct (phase s); try done; by setoid_rewrite Hp.
Qed.

Lemma node_step_inv e e' : node_step e e' -> node_inv e -> node_inv e'.
Proof.
  intros Hn [[Hs Hs0] Hst Hr Hd Hec Hic]. destruct Hn as [e k inp e' outs H | e req Ht | e req Hl Hl0 Ht].
  - apply estep_inv in H as (g & e1 & gs & Hp & Hg & ->).
    destruct (gstep_state _ _ _ _ _ _ Hg) as [(Hse & _) Hst'].
    destruct (gstep_channels _ _ _ _ _ _ Hg Hec Hic) as [Hec' Hic'].
    rewrite Hp in Hr, Hd. rewrite Forall_cons in Hr. destruct Hr as [Hgw Hr].
    split; cbn; rewrite ?Hse; try done.
    + rewrite Hst'. destruct (op_of (selfID e) g) eqn:Ho; [|done].
      apply apply_op_wf; [|done]. by eapply op_of_wf.
    + apply Forall_app; split; [by eapply gstep_routines_wf | done].
    + by eapply gstep_driven.
  - split; cbn; try done; [constructor; [split; cbn; naive_solver|done]|].
    unfold driven in *. repeat case_match; set_solver.
  - split; cbn; try done; [constructor; [split; cbn; naive_solver|done]|].
    unfold driven in *. repeat case_match; set_solver.
Qed.

Lemma node_inv_start c self addr :
  is_u64 self -> self <> 0 -> node_inv (Start (NewEngine c self addr)).
Proof.
  intros Hs Hs0. split; cbn; auto with pibully; [|unfold electC_cap; lia|unfold internalC_cap; lia].
  repeat constructor; cbn; naive_solver.
Qed.

Lemma node_inv_reachable c self addr e :
  is_u64 self -> self <> 0 -> rtc node_step (Start (NewEngine c self addr)) e -> node_inv e.
Proof.
  intros Hs Hs0. apply (rtc_ind_r node_inv); [by apply node_inv_start|].
  intros y z _ Hyz. by apply node_step_inv.
Qed.

(** C9: in every interleaving of a node's goroutines, whatever messages and
    membership events arrive and whatever the RPCs return, the register stays well
    formed, an election in progress always has a goroutine that works for its term
    and will end its phase (no election is left behind that would block every later
    one), and the channels stay within their capacity. *)
Theorem engine_invariant (c : ElectionConfig) (self : Z) (addr : string) (e : engine) :
  is_u64 self -> self <> 0 -> rtc node_step (Start (NewEngine c self addr)) e ->
  state_wf (state e) /\ driven (state e) (routines e) /\
  (length (electC e) <= electC_cap)%nat /\ (length (internalC e) <= internalC_cap)%nat.
Proof.
  intros Hs Hs0 Hr. destruct (node_inv_reachable _ _ _ _ Hs Hs0 Hr). done.
Qed.

(** ** Running a node on a list of events *)

Inductive node_event :=
| EvStep (k : nat) (inp : input)
| EvElect (req : ElectionRequest)
| EvCoord (req : CoordinatorRequest).

Fixpoint exec (evs : list node_event) (e : engine) : option engine :=
  match evs with
  | [] => Some e
  | EvStep k inp :: evs' =>
      match estep e k inp with
      | Some (e', _) => exec evs' e'
      | None => None
      end
  | EvElect req :: evs' => exec evs' (recv_elect req e)
  | EvCoord req :: evs' => exec evs' (recv_coord req e)
  end.

Definition event_wf (ev : node_event) : Prop :=
  match ev with
  | EvStep _ _ => True
  | EvElect req => is_u64 (ReqTerm req)
  | EvCoord req => is_u64 (LeaderId req) /\ LeaderId req <> 0 /\ is_u64 (CoordTerm req)
  end.

Lemma exec_rtc evs e e' : Forall event_wf evs -> exec evs e = Some e' -> rtc node_step e e'.
Proof.
  intros Hw. revert e. induction Hw as [|[k inp|req|req] evs Hev _ IH]; intros e H; cbn in *.
  - simplify_eq. apply rtc_refl.
  - destruct (estep e k inp) as [[e1 o]|] eqn:Hs; [|done].
    eapply rtc_l; [by eapply ns_local | by apply IH].
  - eapply rtc_l; [by apply ns_elect | by apply IH].
  - destruct Hev as (? & ? & ?). eapply rtc_l; [by apply ns_coord | by apply IH].
Qed.

Definition demo_cfg : ElectionConfig := mkElectionConfig 5000000000 200000000 100000000.

Definition demo_members : gmap Z Member :=
  {[1 := mkMember 1 "n1"; 2 := mkMember 2 "n2"; 3 := mkMember 3 "n3"]}.

(** Node 2 elects, hears from node 3, waits, and accepts node 3's announcement. *)
Definition demo_events : list node_event :=
  [EvStep 1 Go; EvStep 0 (InMembers demo_members);
   EvStep 0 (InSend (fun _ => [ARetry; AResp true]) [FromMember 3]);
   EvStep 0 Go; EvCoord (mkCoordinatorRequest 3 1); EvStep 0 Go; EvStep 0 Go].

Definition demo_start : engine := Start (NewEngine demo_cfg 2 "n2").

Definition demo_end : engine :=
  mkEngine 2 "n2" demo_cfg (mkState 3 1 PhaseLeader) [] [mkInternal internalCoordinator 1 3 0]
    [WaitCoord 1; Run].

Lemma demo_events_wf : Forall event_wf demo_events.
Proof. repeat constructor; unfold is_u64, u64_size; cbn; lia. Qed.

Lemma demo_exec : exec demo_events demo_start = Some demo_end.
Proof. vm_compute. reflexivity. Qed.

Lemma engine_invariant_witness :
  rtc node_step (Start (NewEngine demo_cfg 2 "n2")) demo_end /\ driven (state demo_end) (routines demo_end).
Proof.
  assert (Hr : rtc node_step (Start (NewEngine demo_cfg 2 "n2")) demo_end)
    by exact (exec_rtc demo_events demo_start demo_end demo_events_wf demo_exec).
  split; [exact Hr|].
  apply (engine_invariant demo_cfg 2 "n2" demo_end); [unfold is_u64, u64_size; lia | lia | exact Hr].
Defined.

(** ** Elections come to an end *)

Definition in_progress (s : State) : Prop :=
  phase s = PhaseElecting \/ phase s = PhaseWaitingCoordinator.

(** The goroutine works for the election in progress. *)
Definition drives (s : State) (g : goroutine) : Prop :=
  match phase s with
  | PhaseElecting => electing_pc g = Some (term s)
  | PhaseWaitingCoordinator => waiting_pc g = Some (term s)
  | _ => False
  end.

(** How far the goroutine is from the end of its election. *)
Definition rank (g : goroutine) : nat :=
  match g with
  | ElectMembers _ => 7
  | ElectSend _ _ => 6
  | ElectEnter _ => 5
  | WaitCoord _ => 4
  | WaitRead _ _ => 3
  | WaitCheck _ _ _ => 2
  | WaitReset _ _ | DeclareSelf _ => 1
  | _ => 0
  end.

Lemma driven_drives s gs : in_progress s -> driven s gs -> exists k g, gs !! k = Some g /\ drives s g.
Proof.
  intros Hp. unfold driven, drives. destruct Hp as [-> | ->]; intros (g & [k Hk]%list_elem_of_lookup & Hg); eauto.
Qed.

(** A driver is never blocked: the snapshot, the deadline or the timer comes. *)
Lemma driver_enabled e g : drives (state e) g -> exists inp, is_Some (gstep e g inp).
Proof.
  unfold drives. intros Hd.
  assert (Hg : is_Some (session g)) by (destruct (phase (state e)), g; cbn in *; try done; eexists; reflexivity).
  destruct g; cbn in Hg; try (exfalso; by destruct Hg).
  - exists (InMembers ∅). cbn. by eexists.
  - exists (InSend (fun _ => []) [DeadlineHit]). cbn. unfold sendToHigher. destruct (length higher); cbn; by eexists.
  - exists Go. cbn. destruct (EnterWaitingCoordinator t (state e)). by eexists.
  - exists InTimer. cbn. by eexists.
  - exists Go. cbn. by eexists.
  - exists Go. cbn. destruct (_ || _); by eexists.
  - exists Go. cbn. by eexists.
  - exists Go. cbn. destruct (SetLeader (selfID e) t (state e)). by eexists.
Qed.

(** Whatever the driver receives, its step ends the election, or brings it nearer to its
    end, or drops a stale event from the channel. *)
Lemma driver_step e g inp e' gs outs :
  gstep e g inp = Some (e', gs, outs) -> state_wf (state e) -> drives (state e) g ->
  ~ in_progress (state e') \/
  exists g', gs = [g'] /\ drives (state e') g' /\
    ((rank g' < rank g)%nat \/ g' = g /\ (length (internalC e') < length (internalC e))%nat).
Proof.
  intros H [Hl _ _] Hd. unfold in_progress, drives in *. destruct (state e) as [l t p] eqn:Hst.
  gstep_cases H; unfold_ops; unfold CurrentLeader, Term, GetPhase in *; rewrite ?Hst in *; cbn in *;
    repeat (case_match; cbn in *); simplify_eq/=; zbool; try done; try (by left; intros []); try lia.
  all: try (right; eexists; split; [reflexivity|]; cbn; split; [done | first [left; lia | right; split; [done|]]]).
  - exfalso. naive_solver.
  - lia.
  - right. assert (l = 0) as -> by (destruct (decide (l = 0)); naive_solver).
    eexists. split; [reflexivity|]. cbn. split; [done | left; lia].
Qed.

(** C10: elections end.  In every reachable state of a node with an election in progress
    some goroutine drives it, can move (its deadline or timer comes if nothing else
    does), and every step it takes, whatever it receives, ends the election's phase or
    continues it with a goroutine that is strictly nearer to its end, in at most seven
    steps and the events in the internal channel: the only step that stays at the same
    place drops a stale event from that channel. *)
Theorem elections_end (c : ElectionConfig) (self : Z) (addr : string) (e : engine) :
  is_u64 self -> self <> 0 -> rtc node_step (Start (NewEngine c self addr)) e -> in_progress (state e) ->
  exists k g, routines e !! k = Some g /\ drives (state e) g /\ (rank g <= 7)%nat /\
    (exists inp, is_Some (estep e k inp)) /\
    forall inp e' outs, estep e k inp = Some (e', outs) ->
      ~ in_progress (state e') \/
      exists g', routines e' !! 0%nat = Some g' /\ drives (state e') g' /\
        ((rank g' < rank g)%nat \/ g' = g /\ (length (internalC e') < length (internalC e))%nat).
Proof.
  intros Hs Hs0 Hr Hp. destruct (node_inv_reachable _ _ _ _ Hs Hs0 Hr) as [_ Hwf _ Hdr _ _].
  destruct (driven_drives _ _ Hp Hdr) as (k & g & Hk & Hg). exists k, g. unfold estep. rewrite Hk.
  split; [done|]. split; [done|]. split; [destruct g; cbn; lia|]. split.
  - destruct (driver_enabled e g Hg) as (inp & [[[e1 gs] outs] Hx]). exists inp. rewrite Hx. by eexists.
  - intros inp e' outs H. destruct (gstep e g inp) as [[[e1 gs] o]|] eqn:Hx; [|done]. simplify_eq.
    destruct (driver_step _ _ _ _ _ _ Hx Hwf Hg) as [Hn|(g' & -> & Hd' & Hr')]; [by left|].
    right. exists g'. done.
Qed.

(** Node 2 has just begun its election. *)
Definition demo_electing : engine :=
  mkEngine 2 "n2" demo_cfg (mkState 0 1 PhaseElecting) [] [] [ElectMembers 1; Run].

Lemma elections_end_witness :
  exists k g, routines demo_electing !! k = Some g /\ drives (state demo_electing) g /\ (rank g <= 7)%nat /\
    (exists inp, is_Some (estep demo_electing k inp)) /\
    forall inp e' outs, estep demo_electing k inp = Some (e', outs) ->
      ~ in_progress (state e') \/
      exists g', routines e' !! 0%nat = Some g' /\ drives (state e') g' /\
        ((rank g' < rank g)%nat \/ g' = g /\ (length (internalC e') < length (internalC demo_electing))%nat).
Proof.
  apply (elections_end demo_cfg 2 "n2" demo_electing); [unfold is_u64, u64_size; lia | lia | | by left].
  apply (exec_rtc [EvStep 1 Go]); [repeat constructor | vm_compute; reflexivity].
Defined.

(** ** sendToHigher *)

Lemma send_loop_true cfg i l : send_loop cfg i l = Some true -> AResp true ∈ l.
Proof.
  revert i. induction l as [|[[]| |] l IH]; intros i H; cbn in *; try done.
  - apply list_elem_of_here.
  - apply list_elem_of_further. by eapply IH.
Qed.

Lemma length_filter_ne (id : Z) (l : list Z) :
  NoDup l -> id ∈ l -> length (filter (fun x => x <> id) l) = pred (length l).
Proof.
  induction 1 as [|x l Hx Hl IH]; intros Hin; [by apply elem_of_nil in Hin|].
  rewrite filter_cons. case_decide as Hd; cbn.
  - apply elem_of_cons in Hin as [->|Hin]; [done|]. rewrite IH by done.
    destruct l; [by apply elem_of_nil in Hin | done].
  - subst x. f_equal.
    clear IH Hin. induction l as [|y l IH]; [done|]. rewrite filter_cons.
    apply not_elem_of_cons in Hx as [Hne Hx]. rewrite decide_True by done.
    cbn. f_equal. apply IH; [done|]. by apply NoDup_cons in Hl as [_ ?].
Qed.

Lemma collect_true n pending results arr :
  collect n pending results arr = Some true -> exists id, id ∈ pending /\ results id = Some true.
Proof.
  revert pending arr. induction n as [|n IH]; intros pending arr H; cbn in H; [done|].
  repeat case_match; simplify_eq.
  - match goal with H : bool_decide _ = true |- _ => apply bool_decide_eq_true in H end. eauto.
  - apply IH in H as (i & Hi & Hr). apply list_elem_of_filter in Hi as [_ Hi]. eauto.
Qed.

Lemma collect_false n pending results arr :
  NoDup pending -> n = length pending -> collect n pending results arr = Some false ->
  DeadlineHit ∈ arr \/ forall id, id ∈ pending -> results id = Some false.
Proof.
  revert pending arr. induction n as [|n IH]; intros pending arr Hnd Hn H; cbn in H.
  { right. intros id Hid. destruct pending; [by apply elem_of_nil in Hid | done]. }
  repeat case_match; simplify_eq.
  - match goal with H : bool_decide _ = true |- _ => apply bool_decide_eq_true in H end.
    apply IH in H as [H|H].
    + left. by apply list_elem_of_further.
    + right. intros i Hi. destruct (decide (i = id)) as [->|Hne]; [done|].
      apply H, list_elem_of_filter. done.
    + by apply NoDup_filter.
    + by rewrite length_filter_ne, <- Hn.
  - left. apply list_elem_of_here.
Qed.

(** C28: the bully rule of startElection. Asking the higher members ends with "yes"
    only if some higher member answered the election request with ok; it ends with
    "no", upon which the node declares itself leader, only if the election timeout
    passed or the request to every higher member failed for good. *)
Theorem sendToHigher_spec (c : ElectionConfig) (higher : list Member)
    (attempts : Z -> list attempt) (arr : list arrival) :
  NoDup (ID <$> higher) ->
  (sendToHigher c higher attempts arr = Some true ->
     exists m, m ∈ higher /\ AResp true ∈ attempts (ID m)) /\
  (sendToHigher c higher attempts arr = Some false ->
     DeadlineHit ∈ arr \/
     forall m, m ∈ higher -> send_loop c (SendRetryInterval c) (attempts (ID m)) = Some false).
Proof.
  intros Hnd. unfold sendToHigher. split; intros H.
  - apply collect_true in H as (id & Hid & Hr). apply list_elem_of_fmap in Hid as (m & -> & Hm).
    exists m. split; [done|]. by eapply send_loop_true.
  - apply collect_false in H as [H|H]; [by left| |done|by rewrite length_fmap].
    right. intros m Hm. apply H, list_elem_of_fmap. eauto.
Qed.

Lemma sendToHigher_spec_witness :
  sendToHigher demo_cfg [mkMember 2 "n2"; mkMember 3 "n3"]
    (fun id => if id =? 3 then [ARetry; AResp true] else [ARetry; ADone]) [FromMember 2; FromMember 3] = Some true /\
  exists m, m ∈ [mkMember 2 "n2"; mkMember 3 "n3"] /\
    AResp true ∈ (if ID m =? 3 then [ARetry; AResp true] else [ARetry; ADone]).
Proof.
  split; [vm_compute; reflexivity|].
  apply (sendToHigher_spec demo_cfg [mkMember 2 "n2"; mkMember 3 "n3"]
    (fun id => if id =? 3 then [ARetry; AResp true] else [ARetry; ADone]) [FromMember 2; FromMember 3]).
  - cbn. repeat constructor; set_solver.
  - vm_compute. reflexivity.
Defined.

(** ** The announcers are bounded *)

(** The pause before the next call of an announcer. *)
Definition pause_of (g : goroutine) : Z :=
  match g with
  | Announce _ _ i | AnnounceWait _ _ i | Reannounce _ i | ReannounceWait _ i => i
  | _ => 0
  end.

(** An announcer in time: [calls k] is what its [k]-th call returns and how long it
    takes, [es k] the engine as the other goroutines left it by then, [deadline] the
    end of the context with timeout that the announcer runs under.  After a failed call
    the announcer gets the timer if the pause is over before the deadline, else the end
    of the context; [tie k] says which when both come at the same time.  The result is
    the list of its calls; None when the fuel runs out. *)
Fixpoint announcer (es : nat -> engine) (fuel : nat) (now deadline : Z) (tie : nat -> bool) (calls : nat -> bool * Z)
    (k : nat) (g : goroutine) : option (list output) :=
  match fuel with
  | O => None
  | S f =>
      match gstep (es k) g (InRpc (fst (calls k))) with
      | Some (_, [], outs) => Some outs
      | Some (_, [w], outs) =>
          let ready := now + snd (calls k) + pause_of w in
          let inp := if (ready <? deadline) || ((ready =? deadline) && tie k) then InTimer else InDone in
          match gstep (es k) w inp with
          | Some (_, [], _) => Some outs
          | Some (_, [g'], _) => app outs <$> announcer es f ready deadline tie calls (S k) g'
          | _ => None
          end
      | _ => None
      end
  end.

Lemma announce_next_bounds c i :
  0 < i <= ElectionTimeout c -> ElectionTimeout c < 2 ^ 62 ->
  i <= announce_next c i <= ElectionTimeout c.
Proof.
  intros Hi Ht. unfold announce_next, int64.
  rewrite Z.mod_small by (unfold u64_size; lia).
  rewrite (proj2 (Z.ltb_lt (i * 2) (2 ^ 63))) by lia. case_match; zbool; lia.
Qed.

(** A call of an announcer to [addr] with pause [i], and the wait after it. *)
Inductive announces (addr : string) (i : Z) : goroutine -> goroutine -> Prop :=
| an_declare m t : GRPCAddr m = addr -> announces addr i (Announce m t i) (AnnounceWait m t i)
| an_reannounce : announces addr i (Reannounce addr i) (ReannounceWait addr i).

(** One turn of either loop. *)
Lemma announces_turn addr i g w e :
  announces addr i g w ->
  pause_of w = i /\
  (exists req, LeaderId req = selfID e /\
     forall ok, gstep e g (InRpc ok) = Some (e, if ok then [] else [w], [OutCoord addr req])) /\
  (exists g' w', gstep e w InTimer = Some (e, [g'], []) /\ announces addr (announce_next (cfg e) i) g' w') /\
  gstep e w InDone = Some (e, [], []).
Proof.
  destruct 1 as [m t <-|]; (split; [done|]; split; [|split; [|done]]).
  - by exists (mkCoordinatorRequest (selfID e) t).
  - do 2 eexists. split; [done | by constructor].
  - by exists (mkCoordinatorRequest (selfID e) (Term (state e))).
  - do 2 eexists. split; [done | by constructor].
Qed.

(** The call is an announcement of the node itself to [addr]. *)
Definition announces_self (addr : string) (self : Z) (o : output) : Prop :=
  exists req, o = OutCoord addr req /\ LeaderId req = self.

Lemma announcer_total c self addr base es tie calls :
  0 < base -> ElectionTimeout c < 2 ^ 62 -> (forall k, 0 <= snd (calls k)) ->
  (forall k, cfg (es k) = c /\ selfID (es k) = self) ->
  forall fuel k now deadline i g w, announces addr i g w -> base <= i -> (0 < fuel)%nat ->
    deadline - now <= ElectionTimeout c -> deadline - now < base * Z.of_nat fuel ->
    exists outs, announcer es fuel now deadline tie calls k g = Some outs /\
      Forall (announces_self addr self) outs /\ (1 <= length outs <= fuel)%nat.
Proof.
  intros Hb Ht Hd Hes. induction fuel as [|f IH]; intros k now deadline i g w Hg Hi Hf Hto Hrem; [lia|].
  destruct (Hes k) as [Hc Hself]. destruct (announces_turn addr i g w (es k) Hg) as (Hpw & (req & Hreq & Hcall) & (g' & w' & Hgo & Hg') & Hend).
  rewrite Hc in Hg'. pose proof (Hd k) as Hdk. cbn [announcer]. rewrite Hcall.
  assert (Hone : Forall (announces_self addr self) [OutCoord addr req]).
  { repeat constructor. exists req. split; [done | congruence]. }
  destruct (calls k) as [ok d]. cbn [fst snd] in *.
  destruct ok; [eexists; split; [done|]; split; [done | cbn; lia]|]. cbn [app]. rewrite Hpw.
  destruct ((now + d + i <? deadline) || _) eqn:Hready.
  - rewrite Hgo. assert (Hle : now + d + i <= deadline).
    { apply orb_true_iff in Hready as [?%Z.ltb_lt|[?%Z.eqb_eq _]%andb_true_iff]; lia. }
    pose proof (announce_next_bounds c i ltac:(lia) Ht) as Hn.
    destruct (IH (S k) (now + d + i) deadline (announce_next c i) g' w') as (outs & Ho & Hall & Hlen); [done|lia|nia|lia|nia|].
    rewrite Ho. exists (OutCoord addr req :: outs). split; [done|]. split; [|cbn; lia].
    constructor; [by apply Forall_cons in Hone as [? _] | done].
  - rewrite Hend. eexists. split; [done|]. split; [done | cbn; lia].
Qed.

(** The goroutines that announce: declareLeader starts one per member of the snapshot,
    OnStartElection one on a leader. *)
Definition starts_announcer (e : engine) (g : goroutine) : Prop :=
  exists g0 inp e' gs outs, gstep e g0 inp = Some (e', gs, outs) /\ g ∈ gs /\
    ((exists t ms, g0 = DeclareMembers t /\ inp = InMembers ms) \/
     (exists fromID addr, g0 = OnStartCheck fromID addr /\ g <> OnStartReply /\ IsLeader (selfID e) (state e) = true)).

Lemma started_announces e g :
  starts_announcer e g -> exists addr w, announces addr (AnnounceRetryInterval (cfg e)) g w.
Proof.
  intros (g0 & inp & e' & gs & outs & Hstep & Hin & [(t & ms & -> & ->)|(fromID & addr & -> & Hne & Hl)]).
  - cbn in Hstep. simplify_eq. apply list_elem_of_fmap in Hin as (m & -> & _). do 2 eexists. by constructor.
  - destruct inp; try done. cbn in Hstep. rewrite Hl in Hstep. simplify_eq.
    apply elem_of_cons in Hin as [->|?%list_elem_of_singleton]; [|done]. do 2 eexists. constructor.
Qed.

(** C29: the announcers of declareLeader and OnStartElection terminate.  With a retry pause
    above zero and an election timeout below 2^62 ns (146 years), neither of which
    config.Load checks, an announcer ends whatever its calls return, however long they
    take, whatever the other goroutines do to the engine meanwhile and whichever event
    wins a tie: after at least one and at most 1 + timeout / pause calls, each an
    announcement of the node itself to one and the same address. *)
Theorem announce_loop_terminates (e : engine) (g : goroutine) (es : nat -> engine) (now : Z) (tie : nat -> bool)
    (calls : nat -> bool * Z) :
  starts_announcer e g -> (forall k, same_node e (es k)) ->
  0 < AnnounceRetryInterval (cfg e) -> ElectionTimeout (cfg e) < 2 ^ 62 -> (forall k, 0 <= snd (calls k)) ->
  let bound := (Z.to_nat (ElectionTimeout (cfg e) / AnnounceRetryInterval (cfg e)) + 1)%nat in
  exists addr outs,
    announcer es bound now (now + ElectionTimeout (cfg e)) tie calls 0 g = Some outs /\
    Forall (announces_self addr (selfID e)) outs /\ (1 <= length outs <= bound)%nat.
Proof.
  intros Hg Hes Hb Ht Hd bound. destruct (started_announces e g Hg) as (addr & w & Ha). exists addr.
  eapply (announcer_total (cfg e) (selfID e) addr (AnnounceRetryInterval (cfg e))); [done..| |exact Ha|lia|unfold bound; lia|lia|].
  - intros k. destruct (Hes k) as (? & _ & ?). done.
  - unfold bound. set (x := ElectionTimeout (cfg e)). set (i := AnnounceRetryInterval (cfg e)) in *.
    pose proof (Z.mul_succ_div_gt x i Hb).
    destruct (Z_lt_le_dec x 0); [assert (Z.to_nat (x / i) = 0%nat) as -> by (pose proof (Z.div_lt_upper_bound x i 0); lia); lia|].
    assert (0 <= x / i) by (by apply Z.div_pos). nia.
Qed.

Definition demo_calls (k : nat) : bool * Z := (false, 1000000).

(** Node 3 leads and announces itself to node 2, which does not answer: with the default
    configuration it tries five times. *)
Definition demo_leader : engine :=
  mkEngine 3 "n3" demo_cfg (mkState 3 1 PhaseLeader) [] [] [].

Definition demo_announce : goroutine := Announce (mkMember 2 "n2") 1 200000000.

Lemma announce_loop_terminates_witness :
  exists addr outs,
    announcer (fun _ => demo_leader) 26 0 5000000000 (fun _ => true) demo_calls 0 demo_announce = Some outs /\
    Forall (announces_self addr 3) outs /\ (1 <= length outs <= 26)%nat.
Proof.
  apply (announce_loop_terminates demo_leader demo_announce (fun _ => demo_leader) 0 (fun _ => true) demo_calls).
  - exists (DeclareMembers 1), (InMembers {[2 := mkMember 2 "n2"]}). do 3 eexists. split; [vm_compute; reflexivity|].
    split; [left|]. left. do 2 eexists. split; reflexivity.
  - intros k. repeat split.
  - cbn. lia.
  - cbn. lia.
  - intros k. cbn. lia.
Defined.

Example demo_announces :
  length <$> announcer (fun _ => demo_leader) 26 0 5000000000 (fun _ => true) demo_calls 0 demo_announce = Some 5%nat.
Proof. vm_compute. reflexivity. Qed.

(** ** Elections of a node never share a term *)

(** A step taken while the term counter has not reached its last value. *)
Definition node_step_below (e e' : engine) : Prop :=
  node_step e e' /\ term (state e) < u64_max.

(** A step opens a new session only by beginning an election, and otherwise at
    most continues the session of the goroutine that moved. *)
Lemma gstep_sessions e g inp e' gs outs :
  gstep e g inp = Some (e', gs, outs) ->
  omap session gs = [] \/
  omap session gs = omap session [g] \/
  (session g = None /\ omap session gs = [uint64 (term (state e) + 1)] /\
   term (state e') = uint64 (term (state e) + 1)).
Proof.
  intros H. gstep_cases H; auto.
  - right. right. split; [done|]. unfold BeginElection in *. repeat case_match; simplify_eq/=; done.
  - left. induction (map_to_list ms) as [|m l IH]; [done|]. done.
Qed.

Definition sessions_ok (e : engine) : Prop :=
  NoDup (omap session (routines e)) /\
  Forall (fun t => t <= term (state e)) (omap session (routines e)).

Lemma gstep_term_mono e g inp e' gs outs :
  gstep e g inp = Some (e', gs, outs) -> node_inv e -> g_wf g -> term (state e) < u64_max ->
  term (state e) <= term (state e').
Proof.
  intros H [[Hs Hs0] Hst _ _ _ _] Hg Hm. destruct (gstep_state _ _ _ _ _ _ H) as [_ ->].
  destruct (op_of (selfID e) g) as [o|] eqn:Ho; [|lia].
  apply apply_op_view; [|done..]. by eapply op_of_wf.
Qed.

Lemma sessions_ok_step e e' :
  node_step_below e e' -> node_inv e -> sessions_ok e -> sessions_ok e'.
Proof.
  intros [Hn Hm] Hinv [Hnd Hle]. destruct Hn as [e k inp e' outs H | |]; [|by split..].
  apply estep_inv in H as (g & e1 & gs & Hp & Hg & ->).
  pose proof (ni_routines _ Hinv) as Hr. rewrite Hp, Forall_cons in Hr.
  pose proof (gstep_term_mono _ _ _ _ _ _ Hg Hinv (proj1 Hr) Hm) as Hmono.
  pose proof (swf_term_u64 _ (ni_state _ Hinv)) as Hu.
  assert (Hp' : omap session (routines e) ≡ₚ omap session [g] ++ omap session (delete k (routines e))).
  { rewrite <- omap_app. by rewrite Hp at 1. }
  rewrite Hp', Forall_app in Hle. rewrite Hp' in Hnd. destruct Hle as [Hle1 Hle2].
  assert (Hle2' : Forall (fun t => t <= term (state e1)) (omap session (delete k (routines e)))).
  { eapply Forall_impl; [exact Hle2|]. cbn. lia. }
  unfold sessions_ok. cbn. rewrite omap_app.
  destruct (gstep_sessions _ _ _ _ _ _ Hg) as [-> | [-> | (Hs & -> & Ht)]].
  - cbn. split; [|done]. by apply NoDup_app in Hnd as (_ & _ & ?).
  - split; [done|]. apply Forall_app. split; [|done].
    eapply Forall_impl; [exact Hle1|]. cbn. lia.
  - rewrite Ht. unfold is_u64, u64_max in *. rewrite uint64_id in * by (unfold is_u64; lia).
    cbn in Hnd. rewrite Hs in Hnd. split.
    + cbn. apply NoDup_cons. split; [|done]. intros Hin.
      rewrite Forall_forall in Hle2. specialize (Hle2 _ Hin). lia.
    + constructor; [lia|]. by rewrite Ht in Hle2'.
Qed.

(** C30: the elections of one node never share a term: as long as the term counter
    does not run over, the goroutines that are somewhere inside an election work for
    pairwise different terms, none above the node's current term. *)
Theorem election_terms_distinct (c : ElectionConfig) (self : Z) (addr : string) (e : engine) :
  is_u64 self -> self <> 0 -> rtc node_step_below (Start (NewEngine c self addr)) e ->
  NoDup (omap session (routines e)) /\
  Forall (fun t => t <= term (state e)) (omap session (routines e)).
Proof.
  intros Hs Hs0 Hr. enough (node_inv e /\ sessions_ok e) by naive_solver.
  revert e Hr. apply rtc_ind_r.
  - split; [by apply node_inv_start|]. split; cbn; constructor.
  - intros e e' _ Hstep [Hinv Hok]. split; [|by eapply sessions_ok_step].
    eapply node_step_inv; [apply Hstep | done].
Qed.

(** The run stays below the last term. *)
Fixpoint exec_below (evs : list node_event) (e : engine) : bool :=
  (term (state e) <? u64_max) &&
  match evs with
  | [] => true
  | EvStep k inp :: evs' =>
      match estep e k inp with
      | Some (e', _) => exec_below evs' e'
      | None => true
      end
  | EvElect req :: evs' => exec_below evs' (recv_elect req e)
  | EvCoord req :: evs' => exec_below evs' (recv_coord req e)
  end.

Lemma exec_rtc_below evs e e' :
  Forall event_wf evs -> exec_below evs e = true -> exec evs e = Some e' -> rtc node_step_below e e'.
Proof.
  intros Hw. revert e. induction Hw as [|[k inp|req|req] evs Hev _ IH]; intros e Hb H; cbn in *; zbool.
  - simplify_eq. apply rtc_refl.
  - destruct (estep e k inp) as [[e1 o]|] eqn:Hs; [|done].
    eapply rtc_l; [split; [by eapply ns_local | done] | by apply IH].
  - eapply rtc_l; [split; [by apply ns_elect | done] | by apply IH].
  - destruct Hev as (? & ? & ?). eapply rtc_l; [split; [by apply ns_coord | done] | by apply IH].
Qed.

Lemma election_terms_distinct_witness :
  NoDup (omap session (routines demo_end)) /\
  Forall (fun t => t <= term (state demo_end)) (omap session (routines demo_end)).
Proof.
  apply (election_terms_distinct demo_cfg 2 "n2" demo_end); [unfold is_u64, u64_size; lia | lia |].
  apply (exec_rtc_below demo_events demo_start demo_end demo_events_wf);
    [vm_compute; reflexivity | exact demo_exec].
Defined.

(** ** Two behaviours of the code that its authors may not intend *)

(** A follower whose election is over receives nine announcements. *)
Definition flood_events : list node_event :=
  [EvStep 1 Go; EvStep 0 (InMembers demo_members);
   EvCoord (mkCoordinatorRequest 3 1); EvStep 0 Go; EvStep 0 Go;
   EvStep 0 (InSend (fun _ => [AResp true]) [FromMember 3]); EvStep 0 Go] ++
  concat (replicate 7 [EvCoord (mkCoordinatorRequest 3 1); EvStep 0 Go; EvStep 0 Go]) ++
  [EvCoord (mkCoordinatorRequest 3 1); EvStep 0 Go].

Definition blocked_engine : engine :=
  mkEngine 2 "n2" demo_cfg (mkState 3 1 PhaseLeader) []
    (replicate 8 (mkInternal internalCoordinator 1 3 0)) [OnAnnounceSignal 3 1; Run].

Lemma blocked_engine_reach : rtc node_step demo_start blocked_engine.
Proof.
  apply (exec_rtc flood_events); [|vm_compute; reflexivity].
  repeat constructor; unfold is_u64, u64_size; cbn; lia.
Qed.

(** Announcements can block their handler for good: a reachable state of a
    follower that accepted nine announcements and waits for none has a full internal
    channel, a handler of OnAnnounceLeader that no input lets move, and no goroutine
    that would ever receive from the channel. *)
Theorem announce_handler_blocks :
  exists e, rtc node_step demo_start e /\
    OnAnnounceSignal 3 1 ∈ routines e /\
    (forall inp, gstep e (OnAnnounceSignal 3 1) inp = None) /\
    (forall g, g ∈ routines e -> session g = None).
Proof.
  exists blocked_engine. split; [|split; [|split]].
  - exact blocked_engine_reach.
  - apply list_elem_of_here.
  - intros [] ; reflexivity.
  - intros g Hg. cbn in Hg. set_solver.
Qed.

(** Node 2 leads term 1, is asked for an election by node 1, and before its
    re-announcement is sent learns that node 3 leads term 5. *)
Definition stale_events : list node_event :=
  [EvStep 1 Go; EvStep 0 (InMembers {[2 := mkMember 2 "n2"]}); EvStep 0 Go;
   EvElect (mkElectionRequest 1 1 "n1"); EvStep 0 Go; EvStep 0 Go;
   EvCoord (mkCoordinatorRequest 3 5); EvStep 0 Go].

(** A deposed leader can announce itself for a term it did not win: in a
    reachable state node 2 records node 3 as the leader of term 5, and its pending
    re-announcement nevertheless tells node 1 that node 2 leads term 5. *)
Theorem stale_reannouncement :
  exists e k e', rtc node_step demo_start e /\
    state e = mkState 3 5 PhaseLeader /\ selfID e = 2 /\
    estep e k (InRpc true) = Some (e', [OutCoord "n1" (mkCoordinatorRequest 2 5)]).
Proof.
  destruct (exec stale_events demo_start) as [e|] eqn:He; [|vm_compute in He; discriminate].
  exists e, 1%nat, (with_routines (delete 1%nat (routines e)) e).
  split; [|vm_compute in He; simplify_eq; done].
  apply (exec_rtc stale_events); [|done].
  repeat constructor; unfold is_u64, u64_size; cbn; lia.
Qed.
