(* ===== verification/ElectionNetwork.v ===== *)
(** * The cluster of election engines

    The nodes of a cluster exchange the election RPCs over a network that may
    delay, reorder and duplicate messages, and nodes may crash and stay down.
    The assumptions of the README are made explicit in [env_ok]: the failure
    detector does not report a live node as gone, and a live node answers an
    election request within the election timeout.  The set of nodes is fixed: a
    node that joined later with the highest id would declare itself the leader
    before the old leader has heard of it. *)

From S2P Require Import Prelude Cluster ElectionState ElectionEngine.

Inductive packet :=
| PElect (addr : string) (req : ElectionRequest)
| PCoord (addr : string) (req : CoordinatorRequest).

#[export] Instance packet_eq_dec : EqDecision packet.
Proof. solve_decision. Defined.

(** The requests among the outputs of a step; the transport of replies is part
    of the inputs of the caller's next step. *)
Definition packet_of (o : output) : option packet :=
  match o with
  | OutElect addr req => Some (PElect addr req)
  | OutCoord addr req => Some (PCoord addr req)
  | _ => None
  end.

Record world := mkWorld {
  nodes : gmap Z engine;
  alive : gset Z;
  net : list packet;
}.

(** What a step of goroutine [k] of a node may receive from its environment: a
    membership snapshot, under the ids of its members, lists at least the live nodes
    above the node itself; a live member answers an election request before the
    deadline. *)
Definition env_ok (w : world) (e : engine) (k : nat) (inp : input) : Prop :=
  match inp with
  | InMembers ms =>
      (forall j m, ms !! j = Some m -> ID m = j) /\
      (forall j, j ∈ alive w -> selfID e < j -> is_Some (ms !! j))
  | InSend attempts arr =>
      forall t higher m, routines e !! k = Some (ElectSend t higher) ->
        m ∈ higher -> ID m ∈ alive w ->
        DeadlineHit ∉ arr /\
        send_loop (cfg e) (SendRetryInterval (cfg e)) (attempts (ID m)) <> Some false
  | _ => True
  end.

Section cluster.

(** Name resolution: the node that listens at an address. *)
Variable node_at : string -> option Z.

Inductive wstep : world -> world -> Prop :=
| w_local w i e k inp e' outs :
    i ∈ alive w -> nodes w !! i = Some e ->
    estep e k inp = Some (e', outs) -> env_ok w e k inp ->
    wstep w (mkWorld (<[i := e']> (nodes w)) (alive w) (omap packet_of outs ++ net w))
| w_elect w i e addr req :
    PElect addr req ∈ net w -> node_at addr = Some i ->
    i ∈ alive w -> nodes w !! i = Some e ->
    wstep w (mkWorld (<[i := recv_elect req e]> (nodes w)) (alive w) (net w))
| w_coord w i e addr req :
    PCoord addr req ∈ net w -> node_at addr = Some i ->
    i ∈ alive w -> nodes w !! i = Some e ->
    wstep w (mkWorld (<[i := recv_coord req e]> (nodes w)) (alive w) (net w))
| w_crash w i :
    wstep w (mkWorld (nodes w) (alive w ∖ {[i]}) (net w)).

(** Every node has just been started and nothing is in flight. *)
Definition initial (w : world) : Prop :=
  net w = [] /\
  forall i e, nodes w !! i = Some e -> i <> 0 /\ exists c addr, e = Start (NewEngine c i addr).

(** No live node is above [l]. *)
Definition top (w : world) (l : Z) : Prop := forall j, j ∈ alive w -> j <= l.

(** What a program point of node [i] has established about the live nodes. *)
Definition g_top (w : world) (i : Z) (g : goroutine) : Prop :=
  match g with
  | ElectSend t higher =>
      NoDup (ID <$> higher) /\ forall j, j ∈ alive w -> i < j -> exists m, m ∈ higher /\ ID m = j
  | DeclareSelf _ | DeclareMembers _ | Announce _ _ _ | AnnounceWait _ _ _
  | Reannounce _ _ | ReannounceWait _ _ => top w i
  | OnAnnounce l _ | OnAnnounceSignal l _ => top w l
  | _ => True
  end.

Definition packet_top (w : world) (p : packet) : Prop :=
  match p with PCoord _ req => top w (LeaderId req) | PElect _ _ => True end.

Definition state_top (w : world) (s : State) : Prop :=
  leaderID s <> 0 -> top w (leaderID s).

Record node_top (w : world) (i : Z) (e : engine) : Prop := {
  nt_self : selfID e = i /\ i <> 0;
  nt_state : state_top w (state e);
  nt_routines : Forall (g_top w i) (routines e);
}.

Record world_inv (w : world) : Prop := {
  wi_nodes : forall i e, nodes w !! i = Some e -> node_top w i e;
  wi_net : Forall (packet_top w) (net w);
}.

(** ** The invariant *)

(** What a register operation needs to keep the recorded leader on top. *)
Lemma apply_op_top w o s :
  state_top w s -> (forall l t, o = OpSetLeader l t -> top w l) -> state_top w (apply_op o s).
Proof.
  unfold state_top. intros Hs Ho Hne. destruct o as [| | |l t| |]; state_cases s; try naive_solver.
  all: by apply (Ho l t).
Qed.

Lemma higher_members_spec self ms j m :
  (forall j m, ms !! j = Some m -> ID m = j) ->
  ms !! j = Some m -> self < j -> m ∈ higher_members self ms /\ ID m = j.
Proof.
  intros Hid Hm Hlt. pose proof (Hid _ _ Hm) as HID. split; [|done].
  unfold higher_members. apply list_elem_of_filter. split; [lia|].
  apply list_elem_of_fmap. exists (j, m). split; [done|]. by apply elem_of_map_to_list.
Qed.

Lemma higher_members_NoDup self ms :
  (forall j m, ms !! j = Some m -> ID m = j) -> NoDup (ID <$> higher_members self ms).
Proof.
  intros Hid. unfold higher_members.
  assert (Hs : (ID <$> (snd <$> map_to_list ms)) = (fst <$> map_to_list ms)).
  { rewrite <- list_fmap_compose. apply list_fmap_ext. intros k [j m] Hk. cbn.
    apply Hid, elem_of_map_to_list, list_elem_of_lookup. eauto. }
  assert (Hnd : NoDup (ID <$> (snd <$> map_to_list ms))) by (rewrite Hs; apply NoDup_fst_map_to_list).
  revert Hnd. generalize (snd <$> map_to_list ms). intros l.
  induction l as [|m l IH]; [constructor|]. rewrite fmap_cons, NoDup_cons. intros [Hm Hl].
  rewrite filter_cons. case_decide; [|by apply IH].
  rewrite fmap_cons. apply NoDup_cons. split; [|by apply IH]. intros Hin. apply Hm.
  apply list_elem_of_fmap in Hin as (m' & Heq & Hin). apply list_elem_of_filter in Hin as [_ Hin].
  apply list_elem_of_fmap. eauto.
Qed.

(** When no higher member answered, no live node is above. *)
Lemma send_false_top w i e k t higher attempts arr :
  env_ok w e k (InSend attempts arr) -> routines e !! k = Some (ElectSend t higher) ->
  g_top w i (ElectSend t higher) ->
  sendToHigher (cfg e) higher attempts arr = Some false -> top w i.
Proof.
  cbn. intros Henv Hk [Hnd Hcov] Hf j Hj. apply Z.nlt_ge. intros Hlt.
  destruct (Hcov j Hj Hlt) as (m & Hm & <-). destruct (Henv t higher m Hk Hm Hj) as [Hd Hs].
  unfold sendToHigher in Hf. apply collect_false in Hf as [Hf|Hf]; [done| |done|by rewrite length_fmap].
  apply Hs, Hf, list_elem_of_fmap. eauto.
Qed.

Lemma gstep_top w i e k g inp e' gs outs :
  routines e !! k = Some g -> gstep e g inp = Some (e', gs, outs) ->
  env_ok w e k inp -> selfID e = i -> i <> 0 -> state_top w (state e) -> g_top w i g ->
  state_top w (state e') /\ Forall (g_top w i) gs /\ Forall (packet_top w) (omap packet_of outs).
Proof.
  intros Hk H Henv Hself Hi Hst Hg. split.
  { destruct (gstep_state _ _ _ _ _ _ H) as [_ ->].
    destruct (op_of (selfID e) g) as [o|] eqn:Ho; [|done]. apply apply_op_top; [done|].
    intros l t ->. destruct g; simplify_eq/=; done. }
  gstep_cases H; (split; [repeat (apply Forall_cons_2 || apply Forall_nil_2); try done
                         |repeat (apply Forall_cons_2 || apply Forall_nil_2); try done]).
  - intros j Hj. apply Z.nlt_ge. intros Hlt. destruct Henv as [Hid Hall].
    destruct (Hall j Hj Hlt) as [m Hm]. destruct (higher_members_spec _ _ _ _ Hid Hm Hlt) as [Hin _].
    rewrite H0 in Hin. by apply elem_of_nil in Hin.
  - destruct Henv as [Hid Hall]. rewrite <- H0. split; [by apply higher_members_NoDup|].
    intros j Hj Hlt. destruct (Hall j Hj Hlt) as [m' Hm]. exists m'. by apply higher_members_spec.
  - clear. induction l; cbn; [constructor|by constructor].
  - by eapply send_false_top.
  - apply Forall_fmap, Forall_forall. intros m _. done.
  - unfold IsLeader in *. zbool. cbn. rewrite <- H0. apply Hst. by rewrite H0.
Qed.

Lemma top_crash w i l ns nt : top w l -> top (mkWorld ns (alive w ∖ {[i]}) nt) l.
Proof. intros H j Hj. apply H. cbn in Hj. set_solver. Qed.

(** The facts about live nodes survive crashes: fewer nodes are alive. *)
Lemma node_top_shrink w w' i e :
  alive w' ⊆ alive w -> node_top w i e -> node_top w' i e.
Proof.
  intros Hsub [Hs Hst Hr].
  assert (Ht : forall l, top w l -> top w' l) by (intros l H j Hj; apply H; set_solver).
  split; [done | intros Hne; by apply Ht, Hst |].
  eapply Forall_impl; [exact Hr|]. intros g. destruct g; cbn; auto.
  intros [Hnd Hc]. split; [done|]. intros j Hj. apply Hc. set_solver.
Qed.

Lemma packet_top_shrink w w' p : alive w' ⊆ alive w -> packet_top w p -> packet_top w' p.
Proof. intros Hsub. destruct p; cbn; [done|]. intros H j Hj. apply H. set_solver. Qed.

(** Replacing one node by a node with the invariant, and adding packets with it. *)
Lemma world_inv_update w i e ps :
  world_inv w -> node_top w i e -> Forall (packet_top w) ps ->
  world_inv (mkWorld (<[i := e]> (nodes w)) (alive w) (ps ++ net w)).
Proof.
  intros [Hn Hp] He Hps. split; cbn.
  - intros j ej Hj. apply node_top_shrink with w; [done|].
    rewrite lookup_insert in Hj. case_decide; naive_solver.
  - apply Forall_app. split; eapply Forall_impl; try done; intros p; by apply packet_top_shrink.
Qed.

Lemma wstep_inv w w' : wstep w w' -> world_inv w -> world_inv w'.
Proof.
  intros Hstep Hinv. destruct Hstep as [w i e k inp e' outs Hi He Hs Henv
    | w i e addr req Hp Ha Hi He | w i e addr req Hp Ha Hi He | w i].
  - destruct (wi_nodes _ Hinv i e He) as [[Hself Hi0] Hst Hr].
    unfold estep in Hs. destruct (routines e !! k) as [g|] eqn:Hk; [|done].
    destruct (gstep e g inp) as [[[e1 gs] o]|] eqn:Hg; simplify_eq/=.
    pose proof (proj1 (Forall_lookup _ _) Hr k g Hk) as Hgt.
    destruct (gstep_top _ _ _ _ _ _ _ _ _ Hk Hg Henv eq_refl Hi0 Hst Hgt) as (Hst' & Hgs & Hps).
    apply world_inv_update; [done| |done].
    destruct (gstep_state _ _ _ _ _ _ Hg) as [(Hse & _) _].
    split; cbn; [by rewrite Hse|done|]. apply Forall_app. split; [done|]. by apply Forall_delete.
  - apply (world_inv_update w i _ []); [done| |done].
    destruct (wi_nodes _ Hinv i e He) as [Hs Hst Hr]. split; [exact Hs | exact Hst | constructor; [exact I | exact Hr]].
  - apply (world_inv_update w i _ []); [done| |done].
    destruct (wi_nodes _ Hinv i e He) as [Hs Hst Hr]. split; [exact Hs | exact Hst |].
    constructor; [|exact Hr]. exact (proj1 (Forall_forall _ _) (wi_net _ Hinv) _ Hp).
  - split; cbn.
    + intros j e Hj. apply node_top_shrink with w; [set_solver | by apply Hinv].
    + eapply Forall_impl; [apply Hinv|]. intros p. apply packet_top_shrink. set_solver.
Qed.

Lemma world_inv_initial w : initial w -> world_inv w.
Proof.
  intros [Hnet Hn]. split; [|rewrite Hnet; constructor].
  intros i e He. destruct (Hn i e He) as (Hi & c & addr & ->).
  split; [done | intros Hne; by destruct Hne | repeat constructor].
Qed.

Lemma world_inv_reachable w0 w : initial w0 -> rtc wstep w0 w -> world_inv w.
Proof.
  intros Hi. apply (rtc_ind_r world_inv); [by apply world_inv_initial|].
  intros y z _ Hyz. by apply wstep_inv.
Qed.

(** ** Running a cluster on a list of events *)

Inductive world_event :=
| WStep (i : Z) (k : nat) (inp : input)
| WElect (i : Z) (addr : string) (req : ElectionRequest)
| WCoord (i : Z) (addr : string) (req : CoordinatorRequest)
| WCrash (i : Z).

Definition env_okb (w : world) (e : engine) (k : nat) (inp : input) : bool :=
  match inp with
  | InMembers ms =>
      bool_decide (map_Forall (fun j m => ID m = j) ms) && bool_decide (alive w ⊆ dom ms)
  | InSend attempts arr =>
      match routines e !! k with
      | Some (ElectSend t higher) =>
          forallb (fun m => negb (bool_decide (ID m ∈ alive w)) ||
            (negb (bool_decide (DeadlineHit ∈ arr)) &&
             negb (bool_decide (send_loop (cfg e) (SendRetryInterval (cfg e)) (attempts (ID m)) = Some false))))
            higher
      | _ => true
      end
  | _ => true
  end.

Definition on_node (w : world) (i : Z) (f : engine -> option (engine * list output)) : option world :=
  if bool_decide (i ∈ alive w) then
    match nodes w !! i with
    | Some e =>
        match f e with
        | Some (e', outs) => Some (mkWorld (<[i := e']> (nodes w)) (alive w) (omap packet_of outs ++ net w))
        | None => None
        end
    | None => None
    end
  else None.

(** One event; None when it cannot happen. *)
Definition wexec1 (ev : world_event) (w : world) : option world :=
  match ev with
  | WStep i k inp => on_node w i (fun e => if env_okb w e k inp then estep e k inp else None)
  | WElect i addr req =>
      if bool_decide (PElect addr req ∈ net w) && bool_decide (node_at addr = Some i)
      then on_node w i (fun e => Some (recv_elect req e, [])) else None
  | WCoord i addr req =>
      if bool_decide (PCoord addr req ∈ net w) && bool_decide (node_at addr = Some i)
      then on_node w i (fun e => Some (recv_coord req e, [])) else None
  | WCrash i => Some (mkWorld (nodes w) (alive w ∖ {[i]}) (net w))
  end.

Fixpoint wexec (evs : list world_event) (w : world) : option world :=
  match evs with
  | [] => Some w
  | ev :: evs' => match wexec1 ev w with Some w' => wexec evs' w' | None => None end
  end.

Lemma env_okb_spec w e k inp : env_okb w e k inp = true -> env_ok w e k inp.
Proof.
  destruct inp as [|ms|attempts arr| | | | | |]; cbn; try done.
  - intros H. zbool. apply bool_decide_eq_true in H, H0. split; [exact H|].
    intros j Hj _. apply elem_of_dom. by apply H0.
  - intros H t higher m Hk Hm Ha. rewrite Hk in H.
    rewrite forallb_forall in H. specialize (H m (proj1 (list_elem_of_In _ _) Hm)).
    apply orb_true_iff in H as [H|H]; zbool.
    + apply bool_decide_eq_false in H. done.
    + apply bool_decide_eq_false in H, H0. done.
Qed.

Lemma wexec1_step ev w w' : wexec1 ev w = Some w' -> wstep w w'.
Proof.
  destruct ev as [i k inp|i addr req|i addr req|i]; cbn; unfold on_node; intros H;
    repeat case_match; simplify_eq/=; zbool;
    repeat match goal with H : bool_decide _ = true |- _ => apply bool_decide_eq_true in H end.
  - eapply w_local; eauto using env_okb_spec.
  - by eapply w_elect.
  - by eapply w_coord.
  - apply w_crash.
Qed.

Lemma wexec_rtc evs w w' : wexec evs w = Some w' -> rtc wstep w w'.
Proof.
  revert w. induction evs as [|ev evs IH]; intros w H; cbn in *; [simplify_eq; apply rtc_refl|].
  destruct (wexec1 ev w) as [w1|] eqn:H1; [|done].
  eapply rtc_l; [by eapply wexec1_step | by apply IH].
Qed.

(** C3: safety of the election. In a cluster of nodes that start together, may crash and
    then stay down (none joins later), with membership snapshots that list the live
    nodes above the node that reads them and a network that carries election requests
    to live nodes in time (and may otherwise delay, reorder or duplicate every
    message), no two live nodes ever believe at the same time that
    they are the leader, and the one that does has the highest id alive. *)
Theorem at_most_one_leader (w0 w : world) (i j : Z) (ei ej : engine) :
  initial w0 -> rtc wstep w0 w ->
  i ∈ alive w -> j ∈ alive w ->
  nodes w !! i = Some ei -> nodes w !! j = Some ej ->
  IsLeader (selfID ei) (state ei) = true -> IsLeader (selfID ej) (state ej) = true ->
  i = j /\ forall k, k ∈ alive w -> k <= i.
Proof.
  intros Hw0 Hr Hi Hj Hei Hej Hli Hlj.
  pose proof (world_inv_reachable _ _ Hw0 Hr) as Hinv.
  destruct (wi_nodes _ Hinv i ei Hei) as [[Hsi Hi0] Hti _].
  destruct (wi_nodes _ Hinv j ej Hej) as [[Hsj Hj0] Htj _].
  unfold IsLeader in *. zbool. unfold state_top in *. rewrite Hli, Hsi in Hti. rewrite Hlj, Hsj in Htj.
  specialize (Hti Hi0). specialize (Htj Hj0). split; [|exact Hti].
  pose proof (Hti j Hj). pose proof (Htj i Hi). lia.
Qed.

(** C13: agreement. Under the same assumptions, whatever leader a node records, no
    live node is above it; so the nodes that record a live leader all record the
    same one, the highest live node. *)
Theorem recorded_leader_is_highest (w0 w : world) (i j : Z) (ei ej : engine) :
  initial w0 -> rtc wstep w0 w ->
  nodes w !! i = Some ei -> nodes w !! j = Some ej ->
  leaderID (state ei) <> 0 ->
  (forall k, k ∈ alive w -> k <= leaderID (state ei)) /\
  (leaderID (state ei) ∈ alive w -> leaderID (state ej) ∈ alive w -> leaderID (state ej) <> 0 ->
   leaderID (state ei) = leaderID (state ej)).
Proof.
  intros Hw0 Hr Hei Hej Hl. pose proof (world_inv_reachable _ _ Hw0 Hr) as Hinv.
  pose proof (nt_state _ _ _ (wi_nodes _ Hinv i ei Hei) Hl) as Hti. split; [exact Hti|].
  intros Hia Hja Hlj. pose proof (nt_state _ _ _ (wi_nodes _ Hinv j ej Hej) Hlj) as Htj.
  pose proof (Hti _ Hja). pose proof (Htj _ Hia). lia.
Qed.

End cluster.

(** ** A cluster of three nodes whose highest node is down *)

Definition demo_node_at (addr : string) : option Z :=
  if bool_decide (addr = "n1"%string) then Some 1
  else if bool_decide (addr = "n2"%string) then Some 2
  else if bool_decide (addr = "n3"%string) then Some 3 else None.

Definition demo_world : world :=
  mkWorld {[1 := Start (NewEngine demo_cfg 1 "n1"); 2 := Start (NewEngine demo_cfg 2 "n2");
            3 := Start (NewEngine demo_cfg 3 "n3")]} {[1; 2; 3]} [].

(** Node 3 crashes; node 1 asks node 2; node 2 finds node 3 silent, declares itself
    and announces itself to node 1. *)
Definition demo_world_events : list world_event :=
  [WCrash 3;
   WStep 1 1 Go; WStep 1 0 (InMembers demo_members); WElect 2 "n2" (mkElectionRequest 1 1 "n1");
   WStep 2 0 Go; WStep 2 0 Go; WStep 2 0 Go;
   WStep 1 0 (InSend (fun id => if id =? 2 then [AResp true] else [ADone]) [FromMember 2]); WStep 1 0 Go;
   WStep 2 0 Go; WStep 2 0 InElect; WStep 2 1 Go; WStep 2 0 (InMembers demo_members);
   WStep 2 0 (InSend (fun _ => [ARetry; ADone]) [FromMember 3]); WStep 2 0 Go;
   WStep 2 0 (InMembers demo_members); WStep 2 2 (InRpc true); WCoord 1 "n1" (mkCoordinatorRequest 2 2);
   WStep 1 0 Go].

Definition demo_world_end : world :=
  match wexec demo_node_at demo_world_events demo_world with Some w => w | None => demo_world end.

Definition demo_engine (i : Z) : engine :=
  match nodes demo_world_end !! i with Some e => e | None => demo_start end.

Lemma demo_world_initial : initial demo_world.
Proof.
  split; [done|]. intros i e. cbn.
  rewrite !lookup_insert, lookup_singleton. repeat case_decide; intros [= <-]; subst; split; eauto; lia.
Qed.

Lemma demo_world_run : rtc (wstep demo_node_at) demo_world demo_world_end.
Proof. apply (wexec_rtc _ demo_world_events). vm_compute. reflexivity. Qed.

Lemma at_most_one_leader_witness :
  IsLeader 2 (state (demo_engine 2)) = true /\ 2 = 2 /\ forall k, k ∈ alive demo_world_end -> k <= 2.
Proof.
  split; [vm_compute; reflexivity|].
  apply (at_most_one_leader demo_node_at demo_world demo_world_end 2 2 (demo_engine 2) (demo_engine 2)
    demo_world_initial demo_world_run);
    first [vm_compute; reflexivity | apply (bool_decide_unpack _); vm_compute; reflexivity].
Defined.

Lemma recorded_leader_is_highest_witness :
  leaderID (state (demo_engine 1)) = leaderID (state (demo_engine 2)).
Proof.
  apply (recorded_leader_is_highest demo_node_at demo_world demo_world_end 1 2 (demo_engine 1) (demo_engine 2)
    demo_world_initial demo_world_run);
    first [vm_compute; reflexivity | vm_compute; discriminate
          | apply (bool_decide_unpack _); vm_compute; reflexivity].
Defined.
