(* ===== verification/TaskStore.v ===== *)
(** * task/: the task store on PostgreSQL

    The three tables of migrations/000001_init.up.sql are a record [db]; each
    query file under task/sql is a function on it, each method of
    [PostgresStore] a program in the transaction monad [tx] that runs those
    queries in the order of the source.  What comes from outside is explicit:
    the time NOW() of the transaction, the ids uuidv7() returns, the rows
    other transactions hold locks on, and a fault for each call to the
    database.  pgx's conversion of column values is the class [PgxScan]. *)

From S2P Require Import Prelude Cluster.

(** ** task/model.go, task/task.go and the schema *)

Inductive TaskState :=
| StateQueued
| StateScheduling
| StateAssigned
| StateRunning
| StateFailed
| StateWorkerLost
| StateCompleted.

#[export] Instance TaskState_eq_dec : EqDecision TaskState.
Proof. solve_decision. Defined.

Record Task := mkTask {
  TaskID : Z;
  Executable : string;
  InputURI : string;
  OutputURI : string;
  Args : list string;
  MaxRetries : Z;
  CreatedAt : Z;
}.

Record Lease := mkLease { LeaseTask : Z; LeaseWorker : Z; ExpiresAt : Z }.

(** Rows of the tables; a uuid is the 128-bit number PostgreSQL orders it by, a
    timestamp a number of microseconds. *)
Record task_row := mkTaskRow {
  t_executable : string;
  t_input_uri : option string;
  t_output_uri : option string;
  t_args : list string;
  t_max_retries : Z;
  t_created_at : Z;
}.

Record status_row := mkStatusRow {
  s_id : Z;
  s_task_id : Z;
  s_status : TaskState;
  s_assigned_to : option Z;
  s_error : option string;
  s_created_at : Z;
}.

Record lease_row := mkLeaseRow {
  l_worker_id : Z;
  l_expires_at : Z;
  l_created_at : Z;
  l_updated_at : Z;
}.

(** [statuses] is the append-only history, newest row first. *)
Record db := mkDb {
  tasks : gmap Z task_row;
  statuses : list status_row;
  leases : gmap Z lease_row;
}.

(** ** Transactions *)

(** What happens to one call to the database: it works, it fails without effect,
    or it takes effect and the reply is lost. *)
Inductive fault := NoFault | Fail | FailAfter.

Record txenv := mkTxEnv {
  tx_now : Z;
  tx_uuid : nat -> Z;
  tx_faults : list fault;
  tx_locked : gset Z;
}.

(** The transaction's view of the database, the number of ids drawn, the faults
    to come and, once committed, what was committed. *)
Record txst := mkTxSt {
  cur : db;
  drawn : nat;
  pending : list fault;
  committed : option db;
}.

(** A transaction body as the source writes it: round trips to the server, what
    they read and write, the ids the server draws, and the commit.  [TxCall] and
    [TxCommit] go on with whether the call worked. *)
Inductive tx (A : Type) : Type :=
| TxDone (r : result A)
| TxCall (k : bool -> tx A)
| TxRead (k : txenv -> db -> tx A)
| TxPut (f : txenv -> db -> db) (k : tx A)
| TxNewId (k : Z -> tx A)
| TxCommit (k : bool -> tx A).
Arguments TxDone {A} r.
Arguments TxCall {A} k.
Arguments TxRead {A} k.
Arguments TxPut {A} f k.
Arguments TxNewId {A} k.
Arguments TxCommit {A} k.

Definition next_fault (st : txst) : fault * txst :=
  match pending st with
  | [] => (NoFault, st)
  | f :: fs => (f, mkTxSt (cur st) (drawn st) fs (committed st))
  end.

Definition tx_write (f : db -> db) (st : txst) : txst :=
  mkTxSt (f (cur st)) (drawn st) (pending st) (committed st).

Definition tx_draw (st : txst) : txst :=
  mkTxSt (cur st) (S (drawn st)) (pending st) (committed st).

Definition tx_record (st : txst) : txst :=
  mkTxSt (cur st) (drawn st) (pending st) (Some (cur st)).

(** The body run from beginning to end with nothing in between.  A commit can
    take effect and its reply be lost. *)
Fixpoint run_tx {A} (m : tx A) (env : txenv) (st : txst) : result A * txst :=
  match m with
  | TxDone r => (r, st)
  | TxCall k =>
      match next_fault st with
      | (NoFault, st') => run_tx (k true) env st'
      | (_, st') => run_tx (k false) env st'
      end
  | TxRead k => run_tx (k env (cur st)) env st
  | TxPut f k => run_tx k env (tx_write (f env) st)
  | TxNewId k => run_tx (k (tx_uuid env (drawn st))) env (tx_draw st)
  | TxCommit k =>
      match next_fault st with
      | (NoFault, st') => run_tx (k true) env (tx_record st')
      | (Fail, st') => run_tx (k false) env st'
      | (FailAfter, st') => run_tx (k false) env (tx_record st')
      end
  end.
Coercion run_tx : tx >-> Funclass.

Definition tx_ret {A} (a : A) : tx A := TxDone (Ok a).

Definition tx_err {A} (e : error) : tx A := TxDone (Err e).

Fixpoint tx_bind {A B} (m : tx A) (f : A -> tx B) : tx B :=
  match m with
  | TxDone (Ok a) => f a
  | TxDone (Err e) => TxDone (Err e)
  | TxCall k => TxCall (fun ok => tx_bind (k ok) f)
  | TxRead k => TxRead (fun env d => tx_bind (k env d) f)
  | TxPut g k => TxPut g (tx_bind k f)
  | TxNewId k => TxNewId (fun id => tx_bind (k id) f)
  | TxCommit k => TxCommit (fun ok => tx_bind (k ok) f)
  end.

(** [if err != nil { return fmt.Errorf("ctx: %w", err) }] *)
Fixpoint tx_wrap {A} (fmt : string) (args : list farg) (m : tx A) : tx A :=
  match m with
  | TxDone (Ok a) => TxDone (Ok a)
  | TxDone (Err e) => TxDone (Err (EWrap fmt args e))
  | TxCall k => TxCall (fun ok => tx_wrap fmt args (k ok))
  | TxRead k => TxRead (fun env d => tx_wrap fmt args (k env d))
  | TxPut g k => TxPut g (tx_wrap fmt args k)
  | TxNewId k => TxNewId (fun id => tx_wrap fmt args (k id))
  | TxCommit k => TxCommit (fun ok => tx_wrap fmt args (k ok))
  end.

Lemma run_tx_bind {A B} (m : tx A) (f : A -> tx B) env st :
  run_tx (tx_bind m f) env st =
  match run_tx m env st with
  | (Ok a, st') => run_tx (f a) env st'
  | (Err e, st') => (Err e, st')
  end.
Proof.
  revert st. induction m as [[]|k IH|k IH|g m IH|k IH|k IH]; intros st; cbn; try apply IH; try done;
  destruct (next_fault st) as [[] ?]; apply IH.
Qed.

Lemma run_tx_wrap {A} fmt args (m : tx A) env st :
  run_tx (tx_wrap fmt args m) env st =
  match run_tx m env st with
  | (Ok a, st') => (Ok a, st')
  | (Err e, st') => (Err (EWrap fmt args e), st')
  end.
Proof.
  revert st. induction m as [[]|k IH|k IH|g m IH|k IH|k IH]; intros st; cbn; try apply IH; try done;
  destruct (next_fault st) as [[] ?]; apply IH.
Qed.

Declare Scope tx_scope.
Delimit Scope tx_scope with tx.
Bind Scope tx_scope with tx.
Notation "'let*' x := m 'in' k" := (tx_bind m (fun x => k))
  (at level 200, x name, m at level 100, k at level 200, right associativity) : tx_scope.
Notation "m ;;* k" := (tx_bind m (fun _ => k)) (at level 100, right associativity) : tx_scope.
#[global] Open Scope tx_scope.

Definition err_db : error := EFmt "database error" [].

(** The error of a call that did not work. *)
Definition or_db_error (ok : bool) : tx unit := if ok then tx_ret tt else tx_err err_db.

(** A round trip to the server inside the transaction. *)
Definition tx_call : tx unit := TxCall or_db_error.

Definition tx_get {A} (q : txenv -> db -> A) : tx A := TxRead (fun env d => tx_ret (q env d)).

Definition tx_put (f : txenv -> db -> db) : tx unit := TxPut f (tx_ret tt).

(** uuidv7() *)
Definition tx_new_id : tx Z := TxNewId tx_ret.

(** tx.Commit *)
Definition tx_commit : tx unit := TxCommit or_db_error.

Fixpoint tx_iter {A} (f : A -> tx unit) (l : list A) : tx unit :=
  match l with
  | [] => tx_ret tt
  | a :: l' => f a ;;* tx_iter f l'
  end.

(** pool.Begin, the body, and the deferred Rollback: what was not committed is
    undone. *)
Definition begin_tx {A} (name : string) (body : tx A) : tx A :=
  tx_wrap (name ++ ": begin transaction") [] tx_call ;;* body.

Definition with_tx {A} (name : string) (body : tx A) (env : txenv) (d : db) : result A * db :=
  let '(r, st) := begin_tx name body env (mkTxSt d 0 (tx_faults env) None) in
  (r, match committed st with Some d' => d' | None => d end).

(** pool.Exec and pool.Query outside a transaction: one statement that commits by
    itself. *)
Definition with_pool {A} (stmt : txenv -> db -> A * db) (env : txenv) (d : db) : result A * db :=
  match tx_faults env with
  | Fail :: _ => (Err err_db, d)
  | FailAfter :: _ => (Err err_db, snd (stmt env d))
  | _ => (Ok (fst (stmt env d)), snd (stmt env d))
  end.

(** ** pgx: conversion of column values to Go values *)

Class PgxScan := {
  scan_text : option string -> result string;
  scan_uint64 : Z -> result Z;
}.

(** The documented behaviour: NULL does not fit a string, a negative number does
    not fit an unsigned integer. *)
Class PgxScanLaws (P : PgxScan) := {
  scan_text_some s : scan_text (Some s) = Ok s;
  scan_text_null : is_ok (scan_text None) = false;
  scan_uint64_nonneg z : 0 <= z -> scan_uint64 z = Ok z;
  scan_uint64_neg z : z < 0 -> is_ok (scan_uint64 z) = false;
}.

(** ** The queries of task/sql *)

(** ORDER BY created_at DESC, id DESC: the row that comes first. *)
Definition newer (a b : status_row) : bool :=
  (s_created_at b <? s_created_at a) ||
  ((s_created_at a =? s_created_at b) && (s_id b <? s_id a)).

Definition rows_of (t : Z) (d : db) : list status_row :=
  filter (fun r => s_task_id r = t) (statuses d).

Definition pick_newest (rs : list status_row) : option status_row :=
  fold_left (fun acc r =>
    match acc with
    | None => Some r
    | Some b => if newer r b then Some r else acc
    end) rs None.

(** latest_status.sql, and the [latest] of the two queries that join with it. *)
Definition latest_status (t : Z) (d : db) : option TaskState :=
  s_status <$> pick_newest (rows_of t d).

(** count_failed.sql: COUNT of the FAILED rows, and max_retries. *)
Definition failed_count (t : Z) (d : db) : Z :=
  Z.of_nat (length (filter (fun r => s_status r = StateFailed) (rows_of t d))).

Definition count_failed (t : Z) (d : db) : option (Z * Z) :=
  match tasks d !! t with
  | Some r => Some (failed_count t d, t_max_retries r)
  | None => None
  end.

(** claim_queued.sql *)
Definition claimable (d : db) (p : Z * task_row) : bool :=
  match latest_status (fst p) d with
  | Some s =>
      (bool_decide (s = StateQueued) || bool_decide (s = StateWorkerLost)) &&
      (failed_count (fst p) d <? t_max_retries (snd p))
  | None => false
  end.

Definition claim_leb (a b : Z * task_row) : bool :=
  (t_created_at (snd a) <? t_created_at (snd b)) ||
  ((t_created_at (snd a) =? t_created_at (snd b)) && (fst a <=? fst b)).

Definition claim_queued (limit : Z) (env : txenv) (d : db) : list (Z * task_row) :=
  take (Z.to_nat limit)
    (filter (fun p => fst p ∉ tx_locked env)
      (sort_by claim_leb
        (filter (fun p => claimable d p = true) (map_to_list (tasks d))))).

(** insert_status.sql: the row gets a fresh id and the transaction's time; the
    task must exist and the id must be new. *)
Definition insert_status (id t : Z) (s : TaskState) (assigned : option Z) (err : option string)
    (env : txenv) (d : db) : db :=
  mkDb (tasks d) (mkStatusRow id t s assigned err (tx_now env) :: statuses d) (leases d).

(** upsert_lease.sql *)
Definition upsert_lease (t w secs : Z) (env : txenv) (d : db) : db :=
  let created := match leases d !! t with Some l => l_created_at l | None => tx_now env end in
  mkDb (tasks d) (statuses d)
    (<[t := mkLeaseRow w (tx_now env + secs * 1000000) created (tx_now env)]> (leases d)).

(** renew_lease.sql: the number of rows affected and the new table. *)
Definition renew_lease (t w secs : Z) (env : txenv) (d : db) : Z * db :=
  match leases d !! t with
  | Some l =>
      if l_worker_id l =? w then
        (1, mkDb (tasks d) (statuses d)
              (<[t := mkLeaseRow w (tx_now env + secs * 1000000) (l_created_at l) (tx_now env)]> (leases d)))
      else (0, d)
  | None => (0, d)
  end.

(** delete_lease.sql *)
Definition delete_lease (t w : Z) (d : db) : db :=
  match leases d !! t with
  | Some l =>
      if l_worker_id l =? w then mkDb (tasks d) (statuses d) (delete t (leases d)) else d
  | None => d
  end.

(** check_lease_owner.sql *)
Definition check_lease_owner (t w : Z) (d : db) : bool :=
  match leases d !! t with Some l => l_worker_id l =? w | None => false end.

(** select_expired_leases.sql *)
Definition lease_leb (a b : Z * lease_row) : bool :=
  (l_expires_at (snd a) <? l_expires_at (snd b)) ||
  ((l_expires_at (snd a) =? l_expires_at (snd b)) && (fst a <=? fst b)).

Definition select_expired_leases (env : txenv) (d : db) : list (Z * Z) :=
  (fun p => (fst p, l_worker_id (snd p))) <$>
    filter (fun p => fst p ∉ tx_locked env)
      (sort_by lease_leb
        (filter (fun p => l_expires_at (snd p) < tx_now env) (map_to_list (leases d)))).

(** select_active_leases.sql *)
Definition select_active_leases (env : txenv) (d : db) : list (Z * Z) :=
  (fun p => (fst p, l_worker_id (snd p))) <$>
    filter (fun p => fst p ∉ tx_locked env) (map_to_list (leases d)).

(** select_stale_scheduling.sql *)
Definition select_stale_scheduling (env : txenv) (d : db) : list Z :=
  filter (fun t => latest_status t d = Some StateScheduling /\ leases d !! t = None /\ t ∉ tx_locked env)
    (fst <$> map_to_list (tasks d)).

(** ** task/store.go *)

Definition state_name (s : TaskState) : string :=
  match s with
  | StateQueued => "QUEUED"
  | StateScheduling => "SCHEDULING"
  | StateAssigned => "ASSIGNED"
  | StateRunning => "RUNNING"
  | StateFailed => "FAILED"
  | StateWorkerLost => "WORKER_LOST"
  | StateCompleted => "COMPLETED"
  end.

(** PostgresStore, the field that matters here (nanoseconds). *)
Record PostgresStore := mkPostgresStore { leaseDuration : Z }.

(** int64(s.leaseDuration / time.Second) *)
Definition lease_secs (s : PostgresStore) : Z := Z.quot (leaseDuration s) 1000000000.

Definition err_foreign_key : error := EFmt "violates foreign key constraint" [].

Definition err_duplicate_key : error := EFmt "duplicate key value violates unique constraint" [].

Definition err_no_rows : error := EFmt "no rows in result set" [].

Definition insertStatus (t : Z) (s : TaskState) (assignedTo : option Z) (errMsg : string) : tx unit :=
  let errVal := if bool_decide (errMsg = EmptyString) then None else Some errMsg in
  tx_wrap "insert status (%s -> %s)" [FInt t; FStr (state_name s)] (
    tx_call ;;*
    let* id := tx_new_id in
    let* known := tx_get (fun _ d => bool_decide (is_Some (tasks d !! t))) in
    let* dup := tx_get (fun _ d => bool_decide (id ∈ s_id <$> statuses d)) in
    if negb known then tx_err err_foreign_key
    else if dup then tx_err err_duplicate_key
    else tx_put (insert_status id t s (int64 <$> assignedTo) errVal)).

Definition latestStatus (t : Z) : tx TaskState :=
  tx_wrap "latest status" [] (
    tx_call ;;*
    let* s := tx_get (fun _ d => latest_status t d) in
    match s with Some s => tx_ret s | None => tx_err err_no_rows end).

Definition ensureLeaseOwner (t w : Z) : tx unit :=
  tx_wrap "check lease owner" [] tx_call ;;*
  let* ok := tx_get (fun _ d => check_lease_owner t (int64 w) d) in
  if negb ok then tx_err (EFmt "task %s is not leased to worker %d" [FInt t; FInt w]) else tx_ret tt.

Definition ensureLatestStatusIn (t : Z) (allowed : list TaskState) : tx unit :=
  let* status := latestStatus t in
  if negb (bool_decide (status ∈ allowed))
  then tx_err (EFmt "task %s has invalid latest status %s" [FInt t; FStr (state_name status)])
  else tx_ret tt.

(** tx.Exec of a statement that changes rows. *)
Definition tx_exec (f : txenv -> db -> db) : tx unit := tx_call ;;* tx_put f.

Section store.
Context {P : PgxScan}.

(** rows.Scan of a claimed row into a Task. *)
Definition scan_task (p : Z * task_row) : result Task :=
  rbind (scan_text (t_input_uri (snd p))) (fun input =>
  rbind (scan_text (t_output_uri (snd p))) (fun output =>
  Ok (mkTask (fst p) (t_executable (snd p)) input output (t_args (snd p))
        (t_max_retries (snd p)) (t_created_at (snd p))))).

(** The loop over rows.Next. *)
Fixpoint scan_rows {R A} (scan : R -> result A) (rows : list R) : result (list A) :=
  match rows with
  | [] => Ok []
  | r :: rows' => rbind (scan r) (fun a => rmap (cons a) (scan_rows scan rows'))
  end.

Definition tx_of_result {A} (r : result A) : tx A :=
  match r with Ok a => tx_ret a | Err e => tx_err e end.

Definition ClaimQueued_tx (schedulerID batchSize : Z) : tx (list Task) :=
  let* rows := tx_wrap "claim queued: query" [] (
    tx_call ;;*
    if batchSize <? 0 then tx_err (EFmt "LIMIT must not be negative" [])
    else tx_get (claim_queued batchSize)) in
  let* ts := tx_wrap "claim queued: scan" [] (tx_of_result (scan_rows scan_task rows)) in
  tx_wrap "claim queued: rows" [] tx_call ;;*
  match ts with
  | [] => tx_ret []
  | _ =>
      tx_iter (fun t => tx_wrap "claim queued: mark scheduling %s" [FInt (TaskID t)]
        (insertStatus (TaskID t) StateScheduling (Some schedulerID) EmptyString)) ts ;;*
      tx_wrap "claim queued: commit" [] tx_commit ;;*
      tx_ret ts
  end.

Definition ClaimQueued (schedulerID batchSize : Z) : txenv -> db -> result (list Task) * db :=
  with_tx "claim queued" (ClaimQueued_tx schedulerID batchSize).

Definition ActiveLeases : txenv -> db -> result (list Lease) * db :=
  with_pool (fun _ d =>
    ((fun p => mkLease (fst p) (uint64 (l_worker_id (snd p))) (l_expires_at (snd p)))
       <$> map_to_list (leases d), d)).

Definition RenewLease (s : PostgresStore) (t w : Z) (env : txenv) (d : db) : result unit * db :=
  match with_pool (renew_lease t (int64 w) (lease_secs s)) env d with
  | (Err e, d') => (Err (EWrap "renew lease" [] e), d')
  | (Ok n, d') =>
      if n =? 0
      then (Err (EFmt "renew lease: task %s is not leased to worker %d" [FInt t; FInt w]), d')
      else (Ok tt, d')
  end.

Definition MarkAssigned_tx (s : PostgresStore) (t w : Z) : tx unit :=
  let* status := tx_wrap "mark assigned" [] (latestStatus t) in
  if negb (bool_decide (status = StateScheduling))
  then tx_err (EFmt "mark assigned: invalid latest status %s for task %s"
         [FStr (state_name status); FInt t])
  else
    tx_wrap "mark assigned" [] (insertStatus t StateAssigned (Some w) EmptyString) ;;*
    tx_wrap "mark assigned: upsert lease" [] (tx_exec (upsert_lease t (int64 w) (lease_secs s))) ;;*
    tx_wrap "mark assigned: commit" [] tx_commit.

Definition MarkAssigned (s : PostgresStore) (t w : Z) : txenv -> db -> result unit * db :=
  with_tx "mark assigned" (MarkAssigned_tx s t w).

Definition MarkRunning_tx (t w : Z) : tx unit :=
  tx_wrap "mark running" [] (ensureLeaseOwner t w) ;;*
  tx_wrap "mark running" [] (ensureLatestStatusIn t [StateAssigned; StateRunning]) ;;*
  tx_wrap "mark running" [] (insertStatus t StateRunning (Some w) EmptyString) ;;*
  tx_wrap "mark running: commit" [] tx_commit.

Definition MarkRunning (t w : Z) : txenv -> db -> result unit * db :=
  with_tx "mark running" (MarkRunning_tx t w).

Definition MarkCompleted_tx (t w : Z) : tx unit :=
  tx_wrap "mark completed" [] (ensureLeaseOwner t w) ;;*
  tx_wrap "mark completed" [] (ensureLatestStatusIn t [StateRunning]) ;;*
  tx_wrap "mark completed" [] (insertStatus t StateCompleted (Some w) EmptyString) ;;*
  tx_wrap "mark completed: delete lease" [] (tx_exec (fun _ => delete_lease t (int64 w))) ;;*
  tx_wrap "mark completed: commit" [] tx_commit.

Definition MarkCompleted (t w : Z) : txenv -> db -> result unit * db :=
  with_tx "mark completed" (MarkCompleted_tx t w).

Definition MarkFailed_tx (t w : Z) (errMsg : string) : tx unit :=
  tx_wrap "mark failed" [] (ensureLeaseOwner t w) ;;*
  tx_wrap "mark failed" [] (ensureLatestStatusIn t [StateAssigned; StateRunning]) ;;*
  tx_wrap "mark failed" [] (insertStatus t StateFailed (Some w) errMsg) ;;*
  tx_wrap "mark failed: delete lease" [] (tx_exec (fun _ => delete_lease t (int64 w))) ;;*
  let* counts := tx_wrap "mark failed: count retries" [] (
    tx_call ;;*
    let* c := tx_get (fun _ d => count_failed t d) in
    match c with Some c => tx_ret c | None => tx_err err_no_rows end) in
  (if fst counts <? snd counts
   then tx_wrap "mark failed: requeue" [] (insertStatus t StateQueued None EmptyString)
   else tx_ret tt) ;;*
  tx_wrap "mark failed: commit" [] tx_commit.

Definition MarkFailed (t w : Z) (errMsg : string) : txenv -> db -> result unit * db :=
  with_tx "mark failed" (MarkFailed_tx t w errMsg).

Definition MarkWorkerLost_tx (t w : Z) (errMsg : string) : tx unit :=
  tx_wrap "mark worker lost" [] (ensureLatestStatusIn t [StateAssigned; StateRunning]) ;;*
  tx_wrap "mark worker lost" [] (insertStatus t StateWorkerLost (Some w) errMsg) ;;*
  tx_wrap "mark worker lost: delete lease" [] (tx_exec (fun _ => delete_lease t (int64 w))) ;;*
  tx_wrap "mark worker lost: requeue" [] (insertStatus t StateQueued None EmptyString) ;;*
  tx_wrap "mark worker lost: commit" [] tx_commit.

Definition MarkWorkerLost (t w : Z) (errMsg : string) : txenv -> db -> result unit * db :=
  with_tx "mark worker lost" (MarkWorkerLost_tx t w errMsg).

(** The body of the two loops that take leases away from workers. *)
Definition recover_lease (name : string) (msg : string) (l : Z * Z) : tx unit :=
  tx_wrap (name ++ ": mark worker lost %s") [FInt (fst l)]
    (insertStatus (fst l) StateWorkerLost (Some (snd l)) msg) ;;*
  tx_wrap (name ++ ": delete lease %s") [FInt (fst l)]
    (tx_exec (fun _ => delete_lease (fst l) (int64 (snd l)))) ;;*
  tx_wrap (name ++ ": requeue %s") [FInt (fst l)]
    (insertStatus (fst l) StateQueued None EmptyString).

Definition RecoverExpiredLeases_tx : tx Z :=
  tx_wrap "recover expired leases: query" [] tx_call ;;*
  let* rows := tx_get select_expired_leases in
  let* ls := tx_wrap "recover expired leases: scan" []
    (tx_of_result (scan_rows (fun r => rmap (pair (fst r)) (scan_uint64 (snd r))) rows)) in
  tx_wrap "recover expired leases: rows" [] tx_call ;;*
  match ls with
  | [] => tx_ret 0
  | _ =>
      tx_iter (recover_lease "recover expired leases" "lease expired") ls ;;*
      tx_wrap "recover expired leases: commit" [] tx_commit ;;*
      tx_ret (Z.of_nat (length ls))
  end.

Definition RecoverExpiredLeases : txenv -> db -> result Z * db :=
  with_tx "recover expired leases" RecoverExpiredLeases_tx.

Definition RecoverDeadWorkerLeases_tx (alive : gmap Z Member) : tx Z :=
  tx_wrap "recover dead worker leases: query" [] tx_call ;;*
  let* rows := tx_get select_active_leases in
  let dead := filter (fun l => alive !! snd l = None)
    ((fun r => (fst r, uint64 (snd r))) <$> rows) in
  tx_wrap "recover dead worker leases: rows" [] tx_call ;;*
  match dead with
  | [] => tx_ret 0
  | _ =>
      tx_iter (recover_lease "recover dead worker leases"
        "worker not alive during leader recovery") dead ;;*
      tx_wrap "recover dead worker leases: commit" [] tx_commit ;;*
      tx_ret (Z.of_nat (length dead))
  end.

Definition RecoverDeadWorkerLeases (alive : gmap Z Member) : txenv -> db -> result Z * db :=
  with_tx "recover dead worker leases" (RecoverDeadWorkerLeases_tx alive).

Definition RecoverStaleScheduling_tx : tx Z :=
  tx_wrap "recover stale scheduling: query" [] tx_call ;;*
  let* ts := tx_get select_stale_scheduling in
  tx_wrap "recover stale scheduling: rows" [] tx_call ;;*
  match ts with
  | [] => tx_ret 0
  | _ =>
      tx_iter (fun t => tx_wrap "recover stale scheduling: requeue %s" [FInt t]
        (insertStatus t StateQueued None "recovered stale scheduling")) ts ;;*
      tx_wrap "recover stale scheduling: commit" [] tx_commit ;;*
      tx_ret (Z.of_nat (length ts))
  end.

Definition RecoverStaleScheduling : txenv -> db -> result Z * db :=
  with_tx "recover stale scheduling" RecoverStaleScheduling_tx.

End store.
