(* ===== verification/StoreIface.v ===== *)
(** * The interface of the task store

    task.Store as the scheduler and the servers see it: the methods over an
    unspecified world, so that the clients are written against the interface
    and the PostgreSQL store is one of its instances. *)

From S2P Require Import Prelude Cluster TaskStore.

Class Store (W : Type) := {
  store_ClaimQueued : Z -> Z -> W -> result (list Task) * W;
  store_ActiveLeases : W -> result (list Lease) * W;
  store_RenewLease : Z -> Z -> W -> result unit * W;
  store_MarkAssigned : Z -> Z -> W -> result unit * W;
  store_MarkRunning : Z -> Z -> W -> result unit * W;
  store_MarkCompleted : Z -> Z -> W -> result unit * W;
  store_MarkFailed : Z -> Z -> string -> W -> result unit * W;
  store_MarkWorkerLost : Z -> Z -> string -> W -> result unit * W;
  store_RecoverExpiredLeases : W -> result Z * W;
  store_RecoverDeadWorkerLeases : gmap Z Member -> W -> result Z * W;
  store_RecoverStaleScheduling : W -> result Z * W;
}.

(** google/uuid: the text form of a task id. *)
Class Uuid := { uuid_String : Z -> string; uuid_Parse : string -> result Z }.

Class UuidLaws (U : Uuid) := {
  uuid_parse_string t : 0 <= t < 2 ^ 128 -> uuid_Parse (uuid_String t) = Ok t;
}.

(** How a method of the store runs in a world. *)
Class RunsStore (W : Type) := { run_store : forall A, (txenv -> db -> result A * db) -> W -> result A * W }.

(** *postgresStore, given that. *)
Definition postgres_store {W} `{RunsStore W} `{PgxScan} (st : PostgresStore) : Store W := {|
  store_ClaimQueued self batch := run_store _ (ClaimQueued self batch);
  store_ActiveLeases := run_store _ ActiveLeases;
  store_RenewLease t w := run_store _ (RenewLease st t w);
  store_MarkAssigned t w := run_store _ (MarkAssigned st t w);
  store_MarkRunning t w := run_store _ (MarkRunning t w);
  store_MarkCompleted t w := run_store _ (MarkCompleted t w);
  store_MarkFailed t w msg := run_store _ (MarkFailed t w msg);
  store_MarkWorkerLost t w msg := run_store _ (MarkWorkerLost t w msg);
  store_RecoverExpiredLeases := run_store _ RecoverExpiredLeases;
  store_RecoverDeadWorkerLeases alive := run_store _ (RecoverDeadWorkerLeases alive);
  store_RecoverStaleScheduling := run_store _ RecoverStaleScheduling;
|}.
