(* ===== verification/TaskTx.v ===== *)
(** * What the methods of the task store do

    A small program logic for the transaction monad: [runs] for the part of a
    method before its commit, [finishes] for a whole method.  Each method gets
    an effect, a relation between the database before and after, and one lemma
    that says the method either applies its whole effect or nothing. *)

From S2P Require Import Prelude Cluster TaskStore.

Section logic.
Context (env : txenv).

(** From database [d] with [n] ids drawn the program either fails without having
    committed, or returns with [Q], whatever faults occur. *)
Definition runs {A} (m : tx A) (d : db) (n : nat) (Q : A -> db -> nat -> Prop) : Prop :=
  forall fs,
    match m env (mkTxSt d n fs None) with
    | (Ok a, st) => committed st = None /\ Q a (cur st) (drawn st)
    | (Err _, st) => committed st = None
    end.

(** The program returns with [R], or fails having committed nothing or a database
    that satisfies [C]. *)
Definition finishes {A} (m : tx A) (d : db) (n : nat)
    (R : A -> option db -> Prop) (C : db -> Prop) : Prop :=
  forall fs,
    match m env (mkTxSt d n fs None) with
    | (Ok a, st) => R a (committed st)
    | (Err _, st) => forall d', committed st = Some d' -> C d'
    end.

Lemma st_eta st : committed st = None -> st = mkTxSt (cur st) (drawn st) (pending st) None.
Proof. destruct st; cbn. by intros ->. Qed.

Lemma runs_ret {A} (a : A) d n (Q : A -> db -> nat -> Prop) : Q a d n -> runs (tx_ret a) d n Q.
Proof. intros H fs. cbn. done. Qed.

Lemma runs_err {A} e d n (Q : A -> db -> nat -> Prop) : runs (tx_err e) d n Q.
Proof. intros fs. done. Qed.

Lemma runs_bind {A B} (m : tx A) (f : A -> tx B) d n Q1 Q :
  runs m d n Q1 -> (forall a d' n', Q1 a d' n' -> runs (f a) d' n' Q) -> runs (tx_bind m f) d n Q.
Proof.
  intros Hm Hf fs. specialize (Hm fs). rewrite run_tx_bind.
  destruct (m env (mkTxSt d n fs None)) as [[a|e] st]; [|done].
  destruct Hm as [Hc HQ]. rewrite (st_eta st Hc). by apply Hf.
Qed.

Lemma runs_wrap {A} fmt args (m : tx A) d n Q : runs m d n Q -> runs (tx_wrap fmt args m) d n Q.
Proof.
  intros Hm fs. specialize (Hm fs). rewrite run_tx_wrap.
  by destruct (m env (mkTxSt d n fs None)) as [[a|e] st].
Qed.

Lemma runs_call d n (Q : unit -> db -> nat -> Prop) : Q tt d n -> runs tx_call d n Q.
Proof. intros H fs. unfold tx_call, next_fault. cbn. by destruct fs as [|[] fs]. Qed.

Lemma runs_get {A} (q : txenv -> db -> A) d n (Q : A -> db -> nat -> Prop) :
  Q (q env d) d n -> runs (tx_get q) d n Q.
Proof. intros H fs. done. Qed.

Lemma runs_put f d n (Q : unit -> db -> nat -> Prop) : Q tt (f env d) n -> runs (tx_put f) d n Q.
Proof. intros H fs. done. Qed.

Lemma runs_new_id d n (Q : Z -> db -> nat -> Prop) : Q (tx_uuid env n) d (S n) -> runs tx_new_id d n Q.
Proof. intros H fs. done. Qed.

Lemma runs_mono {A} (m : tx A) d n Q1 Q :
  runs m d n Q1 -> (forall a d' n', Q1 a d' n' -> Q a d' n') -> runs m d n Q.
Proof.
  intros Hm HQ fs. specialize (Hm fs). destruct (m env (mkTxSt d n fs None)) as [[a|e] st]; [|done].
  destruct Hm. split; [done|]. by apply HQ.
Qed.

Lemma runs_of_result {A} (r : result A) d n :
  runs (tx_of_result r) d n (fun a d' n' => r = Ok a /\ d' = d /\ n' = n).
Proof. destruct r; [by apply runs_ret | apply runs_err]. Qed.

Lemma finishes_ret {A} (a : A) d n (R : A -> option db -> Prop) C :
  R a None -> finishes (tx_ret a) d n R C.
Proof. intros H fs. done. Qed.

Lemma finishes_bind {A B} (m : tx A) (f : A -> tx B) d n Q1 R C :
  runs m d n Q1 -> (forall a d' n', Q1 a d' n' -> finishes (f a) d' n' R C) ->
  finishes (tx_bind m f) d n R C.
Proof.
  intros Hm Hf fs. specialize (Hm fs). rewrite run_tx_bind.
  destruct (m env (mkTxSt d n fs None)) as [[a|e] st]; [|intros d' Hd'; congruence].
  destruct Hm as [Hc HQ]. rewrite (st_eta st Hc). by apply Hf.
Qed.

Lemma finishes_err {A} e d n (R : A -> option db -> Prop) C : finishes (tx_err e) d n R C.
Proof. intros fs. done. Qed.

Lemma finishes_commit fmt args d n (R : unit -> option db -> Prop) (C : db -> Prop) :
  R tt (Some d) -> C d -> finishes (tx_wrap fmt args tx_commit) d n R C.
Proof.
  intros HR HC fs. cbn. unfold next_fault. cbn.
  destruct fs as [|[] fs]; cbn; naive_solver.
Qed.

(** The commit followed by the return of a value. *)
Lemma finishes_commit_ret {A} fmt args (a : A) d n (R : A -> option db -> Prop) (C : db -> Prop) :
  R a (Some d) -> C d -> finishes (tx_wrap fmt args tx_commit ;;* tx_ret a) d n R C.
Proof.
  intros HR HC fs. cbn. unfold next_fault. cbn.
  destruct fs as [|[] fs]; cbn; naive_solver.
Qed.

(** All or nothing: on success the effect [E] took place; on failure nothing
    changed, or the effect took place and only the reply was lost. *)
Definition all_or_nothing {A} (d : db) (E : A -> db -> Prop) (res : result A * db) : Prop :=
  match res with
  | (Ok a, d') => E a d'
  | (Err _, d') => d' = d \/ exists a, E a d'
  end.

Lemma with_tx_spec {A} name (body : tx A) d (E : A -> db -> Prop) :
  finishes body d 0
    (fun a c => E a (match c with Some d' => d' | None => d end)) (fun d' => exists a, E a d') ->
  all_or_nothing d E (with_tx name body env d).
Proof.
  intros H. unfold with_tx, begin_tx.
  pose proof (finishes_bind (tx_wrap (name ++ ": begin transaction") [] tx_call) (fun _ => body) d 0
    (fun _ d' n' => d' = d /\ n' = 0%nat) _ _
    (runs_wrap _ _ _ _ _ _ (runs_call _ _ _ (conj eq_refl eq_refl)))
    ltac:(intros ? ? ? [-> ->]; exact H)) as Hf.
  specialize (Hf (tx_faults env)).
  destruct (run_tx _ env _) as [[a|e] st]; cbn; [done|].
  destruct (committed st) as [d'|]; [right; by apply Hf | by left].
Qed.

End logic.

#[export] Hint Resolve runs_ret runs_err runs_wrap runs_call runs_get runs_put runs_new_id
  finishes_ret finishes_err finishes_commit finishes_commit_ret : pibully.

(** ** The checks and the insertion of a status *)

(** The database after inserting a status with the [n]-th id of the transaction. *)
Definition add_status (env : txenv) (n : nat) (t : Z) (s : TaskState) (w : option Z) (msg : string)
    (d : db) : db :=
  insert_status (tx_uuid env n) t s (int64 <$> w)
    (if bool_decide (msg = EmptyString) then None else Some msg) env d.

Lemma runs_insertStatus env t s w msg d n :
  runs env (insertStatus t s w msg) d n
    (fun _ d' n' => is_Some (tasks d !! t) /\ d' = add_status env n t s w msg d /\ n' = S n).
Proof.
  unfold insertStatus. apply runs_wrap.
  eapply runs_bind; [by apply (runs_call _ d n (fun _ d' n' => d' = d /\ n' = n))|].
  intros _ d' n' [-> ->].
  eapply runs_bind; [by apply (runs_new_id _ d n (fun i d' n' => i = tx_uuid env n /\ d' = d /\ n' = S n))|].
  intros i d' n' (-> & -> & ->).
  eapply runs_bind; [by apply (runs_get _ _ d (S n) (fun b d' n' => b = bool_decide (is_Some (tasks d !! t)) /\ d' = d /\ n' = S n))|].
  intros b d' n' (-> & -> & ->).
  eapply runs_bind; [by apply (runs_get _ _ d (S n) (fun b d' n' => d' = d /\ n' = S n))|].
  intros b' d' n' (-> & ->).
  destruct (bool_decide (is_Some (tasks d !! t))) eqn:Hb; cbn; [|apply runs_err].
  destruct b'; [apply runs_err|]. apply runs_put. by apply bool_decide_eq_true in Hb.
Qed.

Lemma runs_latestStatus env t d n :
  runs env (latestStatus t) d n (fun s d' n' => latest_status t d = Some s /\ d' = d /\ n' = n).
Proof.
  unfold latestStatus. apply runs_wrap.
  eapply runs_bind; [by apply (runs_call _ d n (fun _ d' n' => d' = d /\ n' = n))|].
  intros _ d' n' [-> ->].
  eapply runs_bind; [by apply (runs_get _ _ d n (fun o d' n' => o = latest_status t d /\ d' = d /\ n' = n))|].
  intros o d' n' (-> & -> & ->). destruct (latest_status t d); [by apply runs_ret | apply runs_err].
Qed.

Lemma runs_ensureLeaseOwner env t w d n :
  runs env (ensureLeaseOwner t w) d n
    (fun _ d' n' => check_lease_owner t (int64 w) d = true /\ d' = d /\ n' = n).
Proof.
  unfold ensureLeaseOwner.
  eapply runs_bind; [apply runs_wrap; by apply (runs_call _ d n (fun _ d' n' => d' = d /\ n' = n))|].
  intros _ d' n' [-> ->].
  eapply runs_bind; [by apply (runs_get _ _ d n (fun b d' n' => b = check_lease_owner t (int64 w) d /\ d' = d /\ n' = n))|].
  intros b d' n' (-> & -> & ->). destruct (check_lease_owner t (int64 w) d); [by apply runs_ret | apply runs_err].
Qed.

Lemma runs_ensureLatestStatusIn env t allowed d n :
  runs env (ensureLatestStatusIn t allowed) d n
    (fun _ d' n' => (exists s, latest_status t d = Some s /\ s ∈ allowed) /\ d' = d /\ n' = n).
Proof.
  unfold ensureLatestStatusIn. eapply runs_bind; [apply runs_latestStatus|].
  intros s d' n' (Hs & -> & ->). destruct (bool_decide (s ∈ allowed)) eqn:Hb; [|apply runs_err].
  apply bool_decide_eq_true in Hb. apply runs_ret. eauto.
Qed.

Lemma runs_exec env f d n : runs env (tx_exec f) d n (fun _ d' n' => d' = f env d /\ n' = n).
Proof.
  unfold tx_exec. eapply runs_bind; [by apply (runs_call _ d n (fun _ d' n' => d' = d /\ n' = n))|].
  intros _ d' n' [-> ->]. by apply runs_put.
Qed.

Lemma runs_call_eq env d n : runs env tx_call d n (fun _ d' n' => d' = d /\ n' = n).
Proof. by apply runs_call. Qed.

Lemma runs_ret_eq {A} env (a : A) d n : runs env (tx_ret a) d n (fun _ d' n' => d' = d /\ n' = n).
Proof. by apply runs_ret. Qed.

Lemma runs_get_eq {A} env (q : txenv -> db -> A) d n :
  runs env (tx_get q) d n (fun a d' n' => a = q env d /\ d' = d /\ n' = n).
Proof. by apply runs_get. Qed.

(** One step of a method: run the next call, then go on from its result. *)
Ltac tx_next :=
  eapply finishes_bind;
  [ repeat lazymatch goal with |- runs _ (tx_wrap _ _ _) _ _ _ => apply runs_wrap end;
    first [ apply runs_call_eq | apply runs_get_eq | apply runs_insertStatus | apply runs_latestStatus
          | apply runs_ensureLeaseOwner | apply runs_ensureLatestStatusIn | apply runs_exec
          | apply runs_of_result ]
  | cbv beta; intros; repeat match goal with H : _ /\ _ |- _ => destruct H end; subst ].

(** ** The effects of the methods on one task *)

Record MarkAssigned_effect (s : PostgresStore) (t w : Z) (env : txenv) (d d' : db) : Prop := {
  mae_pre : latest_status t d = Some StateScheduling;
  mae_task : is_Some (tasks d !! t);
  mae_post : d' = upsert_lease t (int64 w) (lease_secs s) env
                    (add_status env 0 t StateAssigned (Some w) EmptyString d);
}.

Lemma MarkAssigned_spec s t w env d :
  all_or_nothing d (fun _ => MarkAssigned_effect s t w env d) (MarkAssigned s t w env d).
Proof.
  apply with_tx_spec. tx_next. case_match; [apply finishes_err|].
  match goal with H : negb _ = false |- _ => apply negb_false_iff, bool_decide_eq_true in H; subst end.
  tx_next. tx_next. apply finishes_commit; [|exists tt]; by split.
Qed.

Definition active_status (s : TaskState) : Prop := s = StateAssigned \/ s = StateRunning.

Record MarkRunning_effect (t w : Z) (env : txenv) (d d' : db) : Prop := {
  mre_owner : check_lease_owner t (int64 w) d = true;
  mre_pre : exists s, latest_status t d = Some s /\ active_status s;
  mre_task : is_Some (tasks d !! t);
  mre_post : d' = add_status env 0 t StateRunning (Some w) EmptyString d;
}.

Lemma active_status_elem s : s ∈ [StateAssigned; StateRunning] -> active_status s.
Proof. unfold active_status. set_solver. Qed.

Lemma MarkRunning_spec t w env d :
  all_or_nothing d (fun _ => MarkRunning_effect t w env d) (MarkRunning t w env d).
Proof.
  apply with_tx_spec. do 3 tx_next.
  apply finishes_commit; [|exists tt]; split; naive_solver eauto using active_status_elem.
Qed.

Record MarkCompleted_effect (t w : Z) (env : txenv) (d d' : db) : Prop := {
  mce_owner : check_lease_owner t (int64 w) d = true;
  mce_pre : latest_status t d = Some StateRunning;
  mce_task : is_Some (tasks d !! t);
  mce_post : d' = delete_lease t (int64 w) (add_status env 0 t StateCompleted (Some w) EmptyString d);
}.

Lemma MarkCompleted_spec t w env d :
  all_or_nothing d (fun _ => MarkCompleted_effect t w env d) (MarkCompleted t w env d).
Proof.
  apply with_tx_spec. do 4 tx_next.
  match goal with H : exists s, _ |- _ => destruct H as (s & Hs & ->%list_elem_of_singleton) end.
  apply finishes_commit; [|exists tt]; by split.
Qed.

(** The failed task goes back to the queue while its retries last. *)
Definition fail_task (env : txenv) (t w : Z) (msg : string) (d : db) : db :=
  let d1 := delete_lease t (int64 w) (add_status env 0 t StateFailed (Some w) msg d) in
  match count_failed t d1 with
  | Some (failed, maxRetries) =>
      if failed <? maxRetries then add_status env 1 t StateQueued None EmptyString d1 else d1
  | None => d1
  end.

Record MarkFailed_effect (t w : Z) (msg : string) (env : txenv) (d d' : db) : Prop := {
  mfe_owner : check_lease_owner t (int64 w) d = true;
  mfe_pre : exists s, latest_status t d = Some s /\ active_status s;
  mfe_task : is_Some (tasks d !! t);
  mfe_post : d' = fail_task env t w msg d;
}.

Lemma runs_count_failed env t d n :
  runs env (tx_call ;;*
            let* c := tx_get (fun _ d => count_failed t d) in
            match c with Some c => tx_ret c | None => tx_err err_no_rows end) d n
    (fun c d' n' => count_failed t d = Some c /\ d' = d /\ n' = n).
Proof.
  eapply runs_bind; [apply runs_call_eq|]. intros ? ? ? [-> ->].
  eapply runs_bind; [apply runs_get_eq|]. intros ? ? ? (-> & -> & ->).
  destruct (count_failed t d); [by apply runs_ret | apply runs_err].
Qed.

Lemma MarkFailed_spec t w msg env d :
  all_or_nothing d (fun _ => MarkFailed_effect t w msg env d) (MarkFailed t w msg env d).
Proof.
  apply with_tx_spec. do 4 tx_next.
  match goal with H : exists s, _ |- _ => destruct H as (s & Hs & Hact%active_status_elem) end.
  eapply finishes_bind; [apply runs_wrap, runs_count_failed|].
  intros [failed maxr] ? ? (Hc & -> & ->). cbn [fst snd].
  assert (Heff : MarkFailed_effect t w msg env d (fail_task env t w msg d)) by (split; eauto).
  unfold fail_task in Heff. cbv zeta in Heff. rewrite Hc in Heff. destruct (failed <? maxr).
  - tx_next. apply finishes_commit; [|exists tt]; done.
  - eapply finishes_bind; [apply runs_ret_eq|].
    intros ? ? ? [-> ->]. apply finishes_commit; [|exists tt]; done.
Qed.

(** A lease is taken from a worker and its task queued again. *)
Definition lose_task (env : txenv) (n : nat) (t w : Z) (msg : string) (d : db) : db :=
  add_status env (S n) t StateQueued None EmptyString
    (delete_lease t (int64 w) (add_status env n t StateWorkerLost (Some w) msg d)).

Record MarkWorkerLost_effect (t w : Z) (msg : string) (env : txenv) (d d' : db) : Prop := {
  mle_pre : exists s, latest_status t d = Some s /\ active_status s;
  mle_task : is_Some (tasks d !! t);
  mle_post : d' = lose_task env 0 t w msg d;
}.

Lemma MarkWorkerLost_spec t w msg env d :
  all_or_nothing d (fun _ => MarkWorkerLost_effect t w msg env d) (MarkWorkerLost t w msg env d).
Proof.
  apply with_tx_spec. do 4 tx_next.
  apply finishes_commit; [|exists tt]; split; naive_solver eauto using active_status_elem.
Qed.

(** ** The effects of the methods on many tasks *)

Fixpoint add_each (env : txenv) (n : nat) (ts : list Z) (s : TaskState) (w : option Z) (msg : string)
    (d : db) : db :=
  match ts with
  | [] => d
  | t :: ts' => add_each env (S n) ts' s w msg (add_status env n t s w msg d)
  end.

Fixpoint lose_each (env : txenv) (n : nat) (ls : list (Z * Z)) (msg : string) (d : db) : db :=
  match ls with
  | [] => d
  | l :: ls' => lose_each env (S (S n)) ls' msg (lose_task env n (fst l) (snd l) msg d)
  end.

Lemma tasks_add_status env n t s w msg d : tasks (add_status env n t s w msg d) = tasks d.
Proof. done. Qed.

Lemma tasks_delete_lease t w d : tasks (delete_lease t w d) = tasks d.
Proof. unfold delete_lease. by repeat case_match. Qed.

Lemma tasks_lose_task env n t w msg d : tasks (lose_task env n t w msg d) = tasks d.
Proof. unfold lose_task. by rewrite tasks_add_status, tasks_delete_lease. Qed.

Lemma runs_add_each {A} env (f : A -> Z) fmt args s w msg l d n :
  runs env (tx_iter (fun a => tx_wrap fmt (args a) (insertStatus (f a) s w msg)) l) d n
    (fun _ d' n' => Forall (fun a => is_Some (tasks d !! f a)) l /\
                    d' = add_each env n (f <$> l) s w msg d).
Proof.
  revert d n. induction l as [|a l IH]; intros d n; cbn [tx_iter]; [by apply runs_ret|].
  eapply runs_bind; [apply runs_wrap, runs_insertStatus|]. intros ? ? ? (Hk & -> & ->).
  eapply runs_mono; [apply IH|]. cbn. intros ? ? ? [Hf ->]. split; [by constructor | done].
Qed.

Lemma runs_lose_each env name msg l d n :
  runs env (tx_iter (recover_lease name msg) l) d n
    (fun _ d' n' => Forall (fun a => is_Some (tasks d !! fst a)) l /\ d' = lose_each env n l msg d).
Proof.
  revert d n. induction l as [|[t w] l IH]; intros d n; cbn [tx_iter]; [by apply runs_ret|].
  eapply (runs_bind _ _ _ _ _ (fun _ d' n' => is_Some (tasks d !! t) /\ d' = lose_task env n t w msg d /\ n' = S (S n))).
  - unfold recover_lease. cbn [fst snd].
    eapply runs_bind; [apply runs_wrap, runs_insertStatus|]. intros ? ? ? (Hk & -> & ->).
    eapply runs_bind; [apply runs_wrap, runs_exec|]. intros ? ? ? (-> & ->).
    apply runs_wrap. eapply runs_mono; [apply runs_insertStatus|]. by intros ? ? ? (_ & -> & ->).
  - intros _ d' n' (Hk & -> & ->). eapply runs_mono; [apply IH|].
    cbv beta. rewrite tasks_lose_task. intros ? ? ? [Hf ->]. split; [by constructor | done].
Qed.

Section many.
Context {P : PgxScan}.

Record ClaimQueued_effect (sched batch : Z) (env : txenv) (d : db) (ts : list Task) (d' : db) : Prop := {
  cqe_limit : 0 <= batch;
  cqe_rows : scan_rows scan_task (claim_queued batch env d) = Ok ts;
  cqe_post : d' = add_each env 0 (TaskID <$> ts) StateScheduling (Some sched) EmptyString d;
}.

Lemma ClaimQueued_spec sched batch env d :
  all_or_nothing d (ClaimQueued_effect sched batch env d) (ClaimQueued sched batch env d).
Proof.
  apply with_tx_spec.
  eapply (finishes_bind _ _ _ _ _ (fun rows d' n' => 0 <= batch /\ rows = claim_queued batch env d /\ d' = d /\ n' = 0%nat)).
  { apply runs_wrap. eapply runs_bind; [apply runs_call_eq|]. intros ? ? ? [-> ->].
    destruct (Z.ltb_spec batch 0); [apply runs_err|]. apply runs_get. auto. }
  intros rows d' n' (Hb & -> & -> & ->). tx_next. tx_next.
  match goal with H : scan_rows _ _ = Ok ?x |- _ => rename x into rows end.
  destruct rows as [|t ts]; [apply finishes_ret; by split|].
  eapply finishes_bind; [apply (runs_add_each env TaskID _ (fun t => [FInt (TaskID t)]))|].
  cbv beta. intros ? ? ? [Hf ->]. apply finishes_commit_ret; [|exists (t :: ts)]; by split.
Qed.

Record recovered (name_rows : list (Z * Z)) (msg : string) (env : txenv) (d : db) (k : Z) (d' : db) : Prop := {
  rec_count : k = Z.of_nat (length name_rows);
  rec_post : d' = lose_each env 0 name_rows msg d;
}.

(** The expired leases as the method reads them, with unsigned worker ids. *)
Definition expired_rows (env : txenv) (d : db) : result (list (Z * Z)) :=
  scan_rows (fun r => rmap (pair (fst r)) (scan_uint64 (snd r))) (select_expired_leases env d).

Definition RecoverExpiredLeases_effect (env : txenv) (d : db) (k : Z) (d' : db) : Prop :=
  exists ls, expired_rows env d = Ok ls /\ recovered ls "lease expired" env d k d'.

Lemma RecoverExpiredLeases_spec env d :
  all_or_nothing d (RecoverExpiredLeases_effect env d) (RecoverExpiredLeases env d).
Proof.
  apply with_tx_spec. do 4 tx_next.
  match goal with H : scan_rows _ _ = Ok ?x |- _ => rename x into rows end.
  destruct rows as [|l ls]; [apply finishes_ret; exists []; by repeat split|].
  eapply finishes_bind; [apply runs_lose_each|]. intros ? ? ? [Hf ->].
  apply finishes_commit_ret; [|eexists]; exists (l :: ls); by repeat split.
Qed.

(** The leases of workers that are not in the given members. *)
Definition dead_rows (alive : gmap Z Member) (env : txenv) (d : db) : list (Z * Z) :=
  filter (fun l => alive !! snd l = None)
    ((fun r => (fst r, uint64 (snd r))) <$> select_active_leases env d).

Lemma RecoverDeadWorkerLeases_spec alive env d :
  all_or_nothing d
    (recovered (dead_rows alive env d) "worker not alive during leader recovery" env d)
    (RecoverDeadWorkerLeases alive env d).
Proof.
  apply with_tx_spec. do 3 tx_next. fold (dead_rows alive env d).
  destruct (dead_rows alive env d) as [|l ls] eqn:Hdead; [apply finishes_ret; by split|].
  eapply finishes_bind; [apply runs_lose_each|]. intros ? ? ? [Hf ->].
  apply finishes_commit_ret; [|eexists]; by split.
Qed.

Record RecoverStaleScheduling_effect (env : txenv) (d : db) (k : Z) (d' : db) : Prop := {
  rse_count : k = Z.of_nat (length (select_stale_scheduling env d));
  rse_post : d' = add_each env 0 (select_stale_scheduling env d) StateQueued None
                    "recovered stale scheduling" d;
}.

Lemma RecoverStaleScheduling_spec env d :
  all_or_nothing d (RecoverStaleScheduling_effect env d) (RecoverStaleScheduling env d).
Proof.
  apply with_tx_spec. do 3 tx_next.
  destruct (select_stale_scheduling env d) as [|t ts] eqn:Hs;
    [apply finishes_ret; split; by rewrite Hs|].
  eapply finishes_bind; [apply (runs_add_each env (fun t => t) _ (fun t => [FInt t]))|].
  cbv beta. rewrite list_fmap_id. intros ? ? ? [Hf ->].
  apply finishes_commit_ret; [|eexists]; split; by rewrite Hs.
Qed.

(** RenewLease is a single statement: it extends the lease of the task exactly when
    the worker owns it, whatever its expiry. *)
Record RenewLease_effect (s : PostgresStore) (t w : Z) (env : txenv) (d d' : db) : Prop := {
  rle_owner : check_lease_owner t (int64 w) d = true;
  rle_post : exists l, leases d !! t = Some l /\
    d' = mkDb (tasks d) (statuses d)
           (<[t := mkLeaseRow (int64 w) (tx_now env + lease_secs s * 1000000) (l_created_at l) (tx_now env)]>
              (leases d));
}.

Lemma RenewLease_spec s t w env d :
  all_or_nothing d (fun _ => RenewLease_effect s t w env d) (RenewLease s t w env d).
Proof.
  unfold RenewLease, with_pool, renew_lease.
  destruct (leases d !! t) as [l|] eqn:Hl; [destruct (Z.eqb_spec (l_worker_id l) (int64 w)) as [Hw|Hw]|].
  - assert (Heff : RenewLease_effect s t w env d
      (mkDb (tasks d) (statuses d) (<[t := mkLeaseRow (int64 w) (tx_now env + lease_secs s * 1000000)
        (l_created_at l) (tx_now env)]> (leases d)))).
    { split; [|by eauto]. unfold check_lease_owner. rewrite Hl. by apply Z.eqb_eq. }
    destruct (tx_faults env) as [|[] fs]; cbn; auto. right. by exists tt.
  - destruct (tx_faults env) as [|[] fs]; cbn; auto.
  - destruct (tx_faults env) as [|[] fs]; cbn; auto.
Qed.

Lemma ActiveLeases_spec env d :
  snd (ActiveLeases env d) = d /\
  forall ls, fst (ActiveLeases env d) = Ok ls ->
    ls = (fun p => mkLease (fst p) (uint64 (l_worker_id (snd p))) (l_expires_at (snd p)))
           <$> map_to_list (leases d).
Proof.
  unfold ActiveLeases, with_pool. destruct (tx_faults env) as [|[] fs]; cbn; split; try done; congruence.
Qed.

End many.
