(* ===== verification/TaskLifecycle.v ===== *)
(** * The life of a task

    The abstract specification of the store: a task is a small record (status,
    lease holder, failures, retry limit) that moves by [astep].  The invariant
    [store_inv] of the tables, and the lemmas from which the refinement of
    TaskRefine.v is assembled. *)

From S2P Require Import Prelude Cluster TaskStore TaskTx.

(** ** The abstract task *)

Record atask := mkATask {
  a_status : TaskState;
  a_owner : option Z;
  a_failed : Z;
  a_max : Z;
}.

(** Whom MarkWorkerLost may name.  The method does not compare the worker it is given
    with the lease: [AnyWorker] is the method as it is, called with any arguments.
    [HolderOnly] restricts its callers: they name no other worker than the holder of
    the lease, as the scheduler does. *)
Inductive callers := AnyWorker | HolderOnly.

#[export] Instance callers_eq_dec : EqDecision callers.
Proof. solve_decision. Defined.

(** A worker other than the holder was declared lost: the task is back in the queue and
    still has the lease. *)
Definition strays (c : callers) (s : TaskState) : Prop :=
  c = AnyWorker /\ (s = StateQueued \/ s = StateScheduling).

Definition may_own (c : callers) (o : option Z) : Prop := o = None \/ c = AnyWorker.

Inductive astep (c : callers) : atask -> atask -> Prop :=
| a_claim o f m :
    may_own c o -> f < m -> astep c (mkATask StateQueued o f m) (mkATask StateScheduling o f m)
| a_assign o w f m :
    may_own c o -> astep c (mkATask StateScheduling o f m) (mkATask StateAssigned (Some w) f m)
| a_run s w f m :
    active_status s -> astep c (mkATask s (Some w) f m) (mkATask StateRunning (Some w) f m)
| a_complete w f m :
    astep c (mkATask StateRunning (Some w) f m) (mkATask StateCompleted None f m)
| a_retry s w f m :
    active_status s -> f + 1 < m -> astep c (mkATask s (Some w) f m) (mkATask StateQueued None (f + 1) m)
| a_give_up s w f m :
    active_status s -> m <= f + 1 -> astep c (mkATask s (Some w) f m) (mkATask StateFailed None (f + 1) m)
| a_lost s w f m :
    active_status s \/ strays c s -> astep c (mkATask s (Some w) f m) (mkATask StateQueued None f m)
| a_misnamed s w f m :
    active_status s -> c = AnyWorker -> astep c (mkATask s (Some w) f m) (mkATask StateQueued (Some w) f m)
| a_stale f m :
    astep c (mkATask StateScheduling None f m) (mkATask StateQueued None f m).

(** A task has a lease while a worker was assigned it or runs it, and only then unless it
    strayed; a task that is scheduled or worked on has a retry left, and failures
    never exceed the limit. *)
Record ainv (c : callers) (a : atask) : Prop := {
  ai_active : active_status (a_status a) -> is_Some (a_owner a);
  ai_leased : is_Some (a_owner a) -> active_status (a_status a) \/ strays c (a_status a);
  ai_lost : a_status a <> StateWorkerLost;
  ai_budget : a_status a = StateScheduling \/ active_status (a_status a) -> a_failed a < a_max a;
  ai_failed : 0 <= a_failed a <= Z.max 0 (a_max a);
  ai_exhausted : a_status a = StateFailed -> a_failed a = a_max a;
}.
Arguments ai_active {c} a _ _.
Arguments ai_leased {c} a _ _.
Arguments ai_lost {c} a _ _.

Lemma astep_inv c a a' : astep c a a' -> ainv c a -> ainv c a'.
Proof.
  intros Hs [Ho Hle Hl Hb Hf He].
  assert (Hlt : active_status (a_status a) -> a_failed a < a_max a) by auto.
  clear Hl He. destruct Hs; cbn in *; specialize (Hlt ltac:(first [assumption | by left | by right]))
    || clear Hlt; split; cbn; unfold active_status, strays, may_own in *;
    try lia; try naive_solver lia.
  by eexists.
Qed.

(** With callers that name the holder, leases and work go together. *)
Lemma ai_owner a : ainv HolderOnly a -> is_Some (a_owner a) <-> active_status (a_status a).
Proof. intros [Ho Hl _ _ _ _]. split; [|done]. intros [?|[[=] _]]%Hl; done. Qed.

(** Terminal states: a completed task, and one whose retries are used up. *)
Lemma astep_terminal c a a' :
  astep c a a' -> a_status a <> StateCompleted /\ a_status a <> StateFailed.
Proof. destruct 1; cbn; unfold active_status, strays in *; naive_solver. Qed.

(** ** The statuses a task goes through *)

(** The arrows of the three paths drawn under "Task Lifecycle" in docs/design.md. *)
Definition documented (s s' : TaskState) : bool :=
  match s, s' with
  | StateQueued, StateScheduling
  | StateScheduling, StateAssigned
  | StateAssigned, StateRunning
  | StateRunning, StateCompleted
  | StateRunning, StateFailed
  | StateRunning, StateWorkerLost
  | StateFailed, StateQueued
  | StateWorkerLost, StateQueued => true
  | _, _ => false
  end.

(** Arrows of the code that are not drawn there: a stale claim is queued again, a worker
    reports the start twice, a task fails or loses its worker before it runs. *)
Definition undocumented (s s' : TaskState) : bool :=
  match s, s' with
  | StateScheduling, StateQueued
  | StateRunning, StateRunning
  | StateAssigned, StateFailed
  | StateAssigned, StateWorkerLost => true
  | _, _ => false
  end.

(** The lease of a strayed task runs out. *)
Definition stray_loss (s s' : TaskState) : bool :=
  match s, s' with
  | (StateQueued | StateScheduling), StateWorkerLost => true
  | _, _ => false
  end.

Definition allowed (c : callers) (s s' : TaskState) : bool :=
  documented s s' || undocumented s s' || (bool_decide (c = AnyWorker) && stray_loss s s').

(** A history, newest status first, that starts at QUEUED and follows the graph. *)
Fixpoint lifecycle_path (c : callers) (h : list TaskState) : bool :=
  match h with
  | [] => true
  | s :: h' =>
      lifecycle_path c h' &&
      match h' with
      | [] => bool_decide (s = StateQueued)
      | s0 :: _ => allowed c s0 s
      end
  end.

(** ** What the tables say about a task *)

Definition history (t : Z) (d : db) : list TaskState := s_status <$> rows_of t d.

Definition owner_of (t : Z) (d : db) : option Z := l_worker_id <$> leases d !! t.

Definition abs (d : db) (t : Z) : option atask :=
  match tasks d !! t, latest_status t d with
  | Some r, Some s => Some (mkATask s (owner_of t d) (failed_count t d) (t_max_retries r))
  | _, _ => None
  end.

(** Newest row first, strictly ordered by (created_at, id). *)
Definition chronological (d : db) : Prop :=
  StronglySorted (leb_rel newer) (statuses d).

(** The transaction started no earlier than every recorded status, and uuidv7()
    yields increasing ids above the recorded ones, from the [n]-th on. *)
Record ready (env : txenv) (n : nat) (d : db) : Prop := {
  rd_uuid : forall k, tx_uuid env k < tx_uuid env (S k);
  rd_rows : Forall (fun r => s_created_at r <= tx_now env /\ s_id r < tx_uuid env n) (statuses d);
}.

Record table_inv (c : callers) (d : db) : Prop := {
  si_chron : chronological d;
  si_rows : Forall (fun r => is_Some (tasks d !! s_task_id r)) (statuses d);
  si_leases : forall t l, leases d !! t = Some l ->
    is_Some (abs d t) /\ - 2 ^ 63 <= l_worker_id l < 2 ^ 63;
  si_tasks : forall t a, abs d t = Some a -> ainv c a;
  si_path : forall t, lifecycle_path c (history t d) = true;
}.
Arguments si_chron {c} d _.
Arguments si_rows {c} d _.
Arguments si_leases {c} d _ _ _ _.
Arguments si_tasks {c} d _ _ _ _.
Arguments si_path {c} d _ _.

(** The invariant of tables whose users declare only lease holders lost. *)
Notation store_inv := (table_inv HolderOnly).

(** Two databases that agree on every task but [t]. *)
Record same_except (t : Z) (d d' : db) : Prop := {
  se_tasks : tasks d' = tasks d;
  se_rows : forall t', t' <> t -> rows_of t' d' = rows_of t' d;
  se_leases : forall t', t' <> t -> leases d' !! t' = leases d !! t';
}.

Lemma same_except_refl t d : same_except t d d.
Proof. by split. Qed.

Lemma same_except_trans t d1 d2 d3 :
  same_except t d1 d2 -> same_except t d2 d3 -> same_except t d1 d3.
Proof.
  intros [H1 H2 H3] [H4 H5 H6]. split; [congruence| |]; intros t' Ht';
    [rewrite H5, H2 | rewrite H6, H3]; done.
Qed.

#[export] Instance same_except_preorder t : PreOrder (same_except t).
Proof. split; [exact (same_except_refl t) | exact (same_except_trans t)]. Qed.

Lemma rows_of_add env n t s w msg d t' :
  rows_of t' (add_status env n t s w msg d) =
  if bool_decide (t = t')
  then mkStatusRow (tx_uuid env n) t s (int64 <$> w)
         (if bool_decide (msg = EmptyString) then None else Some msg) (tx_now env) :: rows_of t' d
  else rows_of t' d.
Proof.
  unfold rows_of, add_status, insert_status. cbn [statuses]. rewrite filter_cons. cbn [s_task_id].
  destruct (decide (t = t')) as [Heq|Hne].
  - by rewrite (bool_decide_eq_true_2 (t = t')).
  - by rewrite (bool_decide_eq_false_2 (t = t')).
Qed.

Lemma rows_of_delete t w d t' : rows_of t' (delete_lease t w d) = rows_of t' d.
Proof. unfold delete_lease. by repeat case_match. Qed.

Lemma same_except_add env n t s w msg d : same_except t d (add_status env n t s w msg d).
Proof.
  split; [done| |done]. intros t' Ht'. rewrite rows_of_add. by rewrite bool_decide_eq_false_2.
Qed.

Lemma same_except_delete t w d : same_except t d (delete_lease t w d).
Proof.
  unfold delete_lease. repeat case_match; [|apply same_except_refl..]. split; [done..|]. cbn.
  intros t' Ht'. by rewrite lookup_delete_ne.
Qed.

Lemma same_except_upsert t w secs env d : same_except t d (upsert_lease t w secs env d).
Proof. split; [done..|]. cbn. intros t' Ht'. by rewrite lookup_insert_ne. Qed.

#[export] Hint Resolve same_except_refl same_except_add same_except_delete same_except_upsert : pibully.

(** The task's rows and lease are the same in both databases. *)
Record kept (t : Z) (d d' : db) : Prop := {
  kp_rows : rows_of t d' = rows_of t d;
  kp_lease : leases d' !! t = leases d !! t;
}.

#[export] Instance kept_preorder t : PreOrder (kept t).
Proof. split; [by split|]. intros d1 d2 d3 [] []. split; congruence. Qed.

Lemma kept_other t t' d d' : same_except t' d d' -> t <> t' -> kept t d d'.
Proof. intros [_ Hr Hl] Hne. split; auto. Qed.

Lemma same_except_abs t d d' t' : same_except t d d' -> t' <> t -> abs d' t' = abs d t'.
Proof.
  intros [H1 H2 H3] Ht'. unfold abs, owner_of, latest_status, failed_count.
  by rewrite H1, H2, H3.
Qed.

Lemma same_except_history t d d' t' : same_except t d d' -> t' <> t -> history t' d' = history t' d.
Proof. intros [_ H2 _] Ht'. unfold history. by rewrite H2. Qed.

(** ** Insertion of a status *)

Lemma newer_ready env n t s w msg d r :
  ready env n d -> r ∈ statuses d ->
  newer (mkStatusRow (tx_uuid env n) t s w msg (tx_now env)) r = true.
Proof.
  intros [_ Hr] Hin. rewrite Forall_forall in Hr. destruct (Hr r Hin) as [Hc Hi].
  unfold newer. cbn. destruct (Z.ltb_spec (s_created_at r) (tx_now env)); [done|]. cbn.
  apply andb_true_iff. split; [apply Z.eqb_eq; lia | by apply Z.ltb_lt].
Qed.

Lemma newer_asym a b : newer a b = true -> newer b a = false.
Proof.
  unfold newer.
  rewrite orb_true_iff, orb_false_iff, andb_true_iff, andb_false_iff, !Z.ltb_lt, !Z.ltb_ge, Z.eqb_eq, Z.eqb_neq.
  lia.
Qed.

Lemma pick_newest_from b rs :
  Forall (fun r => newer b r = true) rs ->
  fold_left (fun acc r => match acc with None => Some r | Some b => if newer r b then Some r else acc end)
    rs (Some b) = Some b.
Proof.
  induction 1 as [|r rs Hr _ IH]; [done|]. cbn. by rewrite newer_asym.
Qed.

Lemma chron_add env n t s w msg d :
  ready env n d -> chronological d -> chronological (add_status env n t s w msg d).
Proof.
  intros Hr Hc. unfold chronological, add_status, insert_status. cbn [statuses].
  constructor; [done|]. apply Forall_forall. intros r Hin. by eapply newer_ready.
Qed.

Lemma ready_add env n t s w msg d :
  ready env n d -> ready env (S n) (add_status env n t s w msg d).
Proof.
  intros [Hu Hr]. split; [done|]. constructor; cbn; [split; [lia | apply Hu]|].
  eapply Forall_impl; [exact Hr|]. cbn. intros r [H1 H2]. pose proof (Hu n). lia.
Qed.

Lemma statuses_delete t w d : statuses (delete_lease t w d) = statuses d.
Proof. unfold delete_lease. by repeat case_match. Qed.

Lemma ready_delete env n t w d : ready env n d -> ready env n (delete_lease t w d).
Proof. intros [Hu Hr]. split; [done|]. by rewrite statuses_delete. Qed.

Lemma chron_delete t w d : chronological d -> chronological (delete_lease t w d).
Proof. unfold chronological. by rewrite statuses_delete. Qed.

#[export] Hint Resolve chron_add ready_add ready_delete chron_delete : pibully.

(** In a chronological table the latest status is the head of the history. *)
Lemma latest_head t d : chronological d -> latest_status t d = head (history t d).
Proof.
  unfold chronological, latest_status, history, rows_of. intros Hs.
  apply (StronglySorted_filter _ (fun r => s_task_id r = t)) in Hs as Hf.
  destruct Hf as [|r rs _ Hr]; [done|]. unfold pick_newest. cbn [fold_left fmap list_fmap head].
  rewrite pick_newest_from; done.
Qed.

Lemma history_add env n t s w msg d :
  history t (add_status env n t s w msg d) = s :: history t d.
Proof. unfold history. rewrite rows_of_add. by rewrite (bool_decide_eq_true_2 (t = t)). Qed.

Lemma latest_add env n t s w msg d :
  ready env n d -> chronological d -> latest_status t (add_status env n t s w msg d) = Some s.
Proof. intros Hr Hc. rewrite latest_head by auto with pibully. by rewrite history_add. Qed.

Lemma latest_delete t t' w d : latest_status t' (delete_lease t w d) = latest_status t' d.
Proof. unfold latest_status. by rewrite rows_of_delete. Qed.

Lemma failed_delete t t' w d : failed_count t' (delete_lease t w d) = failed_count t' d.
Proof. unfold failed_count. by rewrite rows_of_delete. Qed.

Lemma history_delete t t' w d : history t' (delete_lease t w d) = history t' d.
Proof. unfold history. by rewrite rows_of_delete. Qed.

Lemma failed_add env n t s w msg d :
  failed_count t (add_status env n t s w msg d) =
  failed_count t d + (if bool_decide (s = StateFailed) then 1 else 0).
Proof.
  unfold failed_count. rewrite rows_of_add, (bool_decide_eq_true_2 (t = t)) by done.
  rewrite filter_cons. cbn [s_status]. destruct (decide (s = StateFailed)) as [Heq|Hne].
  - rewrite (bool_decide_eq_true_2 (s = StateFailed)) by done. cbn [length]. lia.
  - rewrite (bool_decide_eq_false_2 (s = StateFailed)) by done. lia.
Qed.

Lemma owner_add env n t t' s w msg d : owner_of t' (add_status env n t s w msg d) = owner_of t' d.
Proof. done. Qed.

Lemma owner_delete t w d :
  owner_of t (delete_lease t w d) = if bool_decide (owner_of t d = Some w) then None else owner_of t d.
Proof.
  unfold owner_of, delete_lease. destruct (leases d !! t) as [l|] eqn:Hl; cbn; [|by rewrite Hl].
  destruct (Z.eqb_spec (l_worker_id l) w) as [->|Hne]; cbn.
  - rewrite lookup_delete_eq, bool_decide_eq_true_2 by done. done.
  - rewrite Hl, bool_decide_eq_false_2 by naive_solver. done.
Qed.

Lemma delete_other t w d : owner_of t d <> Some w -> delete_lease t w d = d.
Proof.
  unfold owner_of, delete_lease. destruct (leases d !! t) as [l|]; [|done]. cbn. intros Hne.
  destruct (Z.eqb_spec (l_worker_id l) w); [by subst | done].
Qed.

Lemma check_owner t w d : check_lease_owner t w d = true <-> owner_of t d = Some w.
Proof.
  unfold check_lease_owner, owner_of. destruct (leases d !! t) as [l|]; cbn; [|done].
  rewrite Z.eqb_eq. naive_solver.
Qed.

(** The abstract task after inserting a status for it. *)
Lemma abs_add env n t s w msg d r :
  ready env n d -> chronological d -> tasks d !! t = Some r ->
  abs (add_status env n t s w msg d) t =
  Some (mkATask s (owner_of t d) (failed_count t d + (if bool_decide (s = StateFailed) then 1 else 0))
          (t_max_retries r)).
Proof.
  intros Hr Hc Ht. unfold abs. rewrite tasks_add_status, Ht, latest_add, failed_add, owner_add by done. done.
Qed.

Lemma abs_some d t a :
  abs d t = Some a ->
  exists r, tasks d !! t = Some r /\ latest_status t d = Some (a_status a) /\ owner_of t d = a_owner a /\
    failed_count t d = a_failed a /\ t_max_retries r = a_max a.
Proof. unfold abs. intros H. repeat case_match; simplify_eq/=. eauto 10. Qed.

(** What has to be shown of a change to one task. *)
Lemma table_inv_update c t d d' a a' :
  table_inv c d -> same_except t d d' -> chronological d' ->
  Forall (fun r => is_Some (tasks d' !! s_task_id r)) (statuses d') ->
  abs d t = Some a -> abs d' t = Some a' -> astep c a a' ->
  (forall l, leases d' !! t = Some l -> - 2 ^ 63 <= l_worker_id l < 2 ^ 63) ->
  lifecycle_path c (history t d') = true -> table_inv c d'.
Proof.
  intros Hinv Hse Hc Hrows Ha Ha' Hstep Hlease Hpath.
  split; try done.
  - intros t' l Hl. destruct (decide (t' = t)) as [->|Hne].
    + split; [rewrite Ha'; by eexists | by apply Hlease].
    + rewrite (same_except_abs t d d') by done. apply Hinv. by rewrite <- (se_leases _ _ _ Hse).
  - intros t' x Hx. destruct (decide (t' = t)) as [->|Hne].
    + simplify_eq. eapply astep_inv; [done|]. by eapply Hinv.
    + rewrite (same_except_abs t d d') in Hx by done. by eapply Hinv.
  - intros t'. destruct (decide (t' = t)) as [->|Hne]; [done|].
    rewrite (same_except_history t d d') by done. apply Hinv.
Qed.

Lemma path_add c s0 s h :
  lifecycle_path c (s0 :: h) = true -> allowed c s0 s = true -> lifecycle_path c (s :: s0 :: h) = true.
Proof. intros Hp Ha. cbn [lifecycle_path] in *. by rewrite Hp, Ha. Qed.

Lemma history_latest t d s :
  chronological d -> latest_status t d = Some s -> exists h, history t d = s :: h.
Proof. intros Hc. rewrite latest_head by done. destruct (history t d); naive_solver. Qed.
