(* ===== verification/TaskRefine.v ===== *)
(** * The task store refines the abstract tasks

    For every method: from a database with the invariant it yields a database
    with the invariant, and each task stays as it is or takes one [astep].  The
    properties of all reachable databases follow by rule induction. *)

From S2P Require Import Prelude Cluster TaskStore TaskTx TaskLifecycle.

(** ** Changes to one task *)

(** The database changed at task [t] only, by one abstract step. *)
Record moves (c : callers) (t : Z) (d d' : db) : Prop := {
  mv_same : same_except t d d';
  mv_step : exists a a', abs d t = Some a /\ abs d' t = Some a' /\ astep c a a';
}.
Arguments mv_same {c} t d d' _.

(** The database changed at the tasks of the list, one after the other. *)
Inductive moves_each (c : callers) : list Z -> db -> db -> Prop :=
| me_nil d : moves_each c [] d d
| me_cons t ts d d1 d2 :
    moves c t d d1 -> table_inv c d1 -> moves_each c ts d1 d2 -> moves_each c (t :: ts) d d2.

(** The status [s] can be added to task [t]. *)
Definition can_add (c : callers) (s : TaskState) (d : db) (t : Z) : Prop :=
  exists s0 o f m, abs d t = Some (mkATask s0 o f m) /\
    astep c (mkATask s0 o f m) (mkATask s o f m) /\ allowed c s0 s = true.

Section refine.
Context {c : callers}.

(** A task with a latest status, seen abstractly. *)
Lemma abs_of_latest d t s r :
  tasks d !! t = Some r -> latest_status t d = Some s ->
  abs d t = Some (mkATask s (owner_of t d) (failed_count t d) (t_max_retries r)).
Proof. intros Ht Hl. unfold abs. by rewrite Ht, Hl. Qed.

Lemma latest_task d t s :
  table_inv c d -> latest_status t d = Some s -> is_Some (tasks d !! t).
Proof.
  intros Hinv Hl. destruct (history_latest _ _ _ (si_chron _ Hinv) Hl) as [h Hh].
  unfold history in Hh. destruct (rows_of t d) as [|r rs] eqn:Hr; [done|].
  assert (Hin : r ∈ rows_of t d) by (rewrite Hr; by left).
  apply list_elem_of_filter in Hin as [<- Hin].
  by apply (proj1 (Forall_forall _ _) (si_rows _ Hinv)).
Qed.

Lemma abs_latest d t s :
  table_inv c d -> latest_status t d = Some s ->
  exists o f m, abs d t = Some (mkATask s o f m) /\ owner_of t d = o.
Proof.
  intros Hinv Hl. destruct (latest_task _ _ _ Hinv Hl) as [r Hr].
  do 3 eexists. split; [by apply abs_of_latest | done].
Qed.

(** The abstract task after a status is added, and after its lease is deleted. *)
Lemma abs_add_step env n t s w msg d a :
  ready env n d -> chronological d -> abs d t = Some a ->
  abs (add_status env n t s w msg d) t =
  Some (mkATask s (a_owner a) (a_failed a + (if bool_decide (s = StateFailed) then 1 else 0)) (a_max a)).
Proof.
  intros Hr Hc (r & Ht & _ & Ho & Hf & Hm)%abs_some.
  rewrite (abs_add _ _ _ _ _ _ _ r) by done. by rewrite Ho, Hf, Hm.
Qed.

Lemma abs_delete_step t w d a :
  abs d t = Some a -> a_owner a = Some w ->
  abs (delete_lease t w d) t = Some (mkATask (a_status a) None (a_failed a) (a_max a)).
Proof.
  intros (r & Ht & Hl & Ho & Hf & Hm)%abs_some Hw. unfold abs.
  rewrite tasks_delete_lease, Ht, latest_delete, Hl, owner_delete, failed_delete, Hf, Hm, Ho, Hw.
  by rewrite bool_decide_eq_true_2.
Qed.

(** Without the failures and owner of the new record spelled out. *)
Lemma abs_add_plain env n t s w msg d a :
  ready env n d -> chronological d -> abs d t = Some a -> s <> StateFailed ->
  abs (add_status env n t s w msg d) t = Some (mkATask s (a_owner a) (a_failed a) (a_max a)).
Proof.
  intros Hr Hc Ha Hs. rewrite (abs_add_step _ _ _ _ _ _ _ a), bool_decide_eq_false_2 by done.
  by rewrite Z.add_0_r.
Qed.

(** ** What is shared by all changes of one task *)

(** The parts of the invariant that do not depend on the abstract step: rows in order,
    rows of known tasks, leases within the column's range. *)
Record tables_ok (d : db) : Prop := {
  to_chron : chronological d;
  to_rows : Forall (fun r => is_Some (tasks d !! s_task_id r)) (statuses d);
  to_leases : map_Forall (fun _ l => - 2 ^ 63 <= l_worker_id l < 2 ^ 63) (leases d);
}.

Lemma tables_ok_inv d : table_inv c d -> tables_ok d.
Proof. intros H. split; [apply H..|]. intros t l Hl. eapply (proj2 (si_leases _ H _ _ Hl)). Qed.

Lemma tables_ok_add env n t s w msg d :
  ready env n d -> is_Some (tasks d !! t) -> tables_ok d -> tables_ok (add_status env n t s w msg d).
Proof. intros Hr Ht [Hc Hrows Hl]. split; [by apply chron_add | by constructor | done]. Qed.

Lemma tables_ok_delete t w d : tables_ok d -> tables_ok (delete_lease t w d).
Proof.
  intros [Hc Hr Hl]. split; [by apply chron_delete | by rewrite tasks_delete_lease, statuses_delete|].
  unfold delete_lease. repeat case_match; try done. cbn. by apply map_Forall_delete.
Qed.

Lemma tables_ok_upsert t w secs env d :
  - 2 ^ 63 <= w < 2 ^ 63 -> tables_ok d -> tables_ok (upsert_lease t w secs env d).
Proof. intros Hw [Hc Hr Hl]. split; [done..|]. cbn. by apply map_Forall_insert_2. Qed.

#[local] Hint Resolve tables_ok_inv tables_ok_add tables_ok_delete tables_ok_upsert : pibully.

Lemma moved t d d' a a' :
  table_inv c d -> same_except t d d' -> tables_ok d' -> abs d t = Some a -> abs d' t = Some a' ->
  astep c a a' -> lifecycle_path c (history t d') = true -> table_inv c d' /\ moves c t d d'.
Proof.
  intros Hinv Hse [Hc Hr Hl] Ha Ha' Hst Hp. split; [|split; eauto].
  eapply table_inv_update; eauto.
Qed.

(** The history grows by one status. *)
Lemma path_latest t d s s' :
  table_inv c d -> latest_status t d = Some s -> allowed c s s' = true ->
  lifecycle_path c (s' :: history t d) = true.
Proof.
  intros Hinv Hl Ha. destruct (history_latest _ _ _ (si_chron _ Hinv) Hl) as [h Hh].
  pose proof (si_path _ Hinv t) as Hp. rewrite Hh in *. by apply path_add.
Qed.

Lemma active_inv d t s o f m :
  table_inv c d -> abs d t = Some (mkATask s o f m) -> ainv c (mkATask s o f m).
Proof. intros Hinv Ha. by eapply si_tasks. Qed.

Lemma inv_may_own d t s o f m :
  table_inv c d -> abs d t = Some (mkATask s o f m) -> s = StateQueued \/ s = StateScheduling -> may_own c o.
Proof.
  intros Hinv Ha Hs. destruct o as [w|]; [|by left].
  destruct (ai_leased _ (active_inv _ _ _ _ _ _ Hinv Ha) ltac:(by eexists)) as [[]|[]]; cbn in *; [naive_solver..|].
  by right.
Qed.

(** ** The methods on one task *)

(** A status is added and nothing else: claim, start, requeue of a stale claim. *)
Lemma add_ok env n t s0 s w msg d o f m :
  table_inv c d -> ready env n d -> abs d t = Some (mkATask s0 o f m) -> s <> StateFailed ->
  astep c (mkATask s0 o f m) (mkATask s o f m) -> allowed c s0 s = true ->
  table_inv c (add_status env n t s w msg d) /\ moves c t d (add_status env n t s w msg d).
Proof.
  intros Hinv Hr Ha Hs Hst Hal. pose proof (abs_some _ _ _ Ha) as (r & Ht & Hl & _).
  eapply moved; [done| |by auto with pibully| | |exact Hst|]; auto with pibully.
  - by rewrite (abs_add_plain _ _ _ _ _ _ _ _ Hr (si_chron _ Hinv) Ha).
  - rewrite history_add. by eapply path_latest.
Qed.

Lemma MarkAssigned_ok s t w env d d' :
  table_inv c d -> ready env 0 d -> MarkAssigned_effect s t w env d d' -> table_inv c d' /\ moves c t d d'.
Proof.
  intros Hinv Hr [Hl Ht ->]. destruct (abs_latest _ _ _ Hinv Hl) as (o & f & m & Ha & _).
  pose proof (inv_may_own _ _ _ _ _ _ Hinv Ha ltac:(by right)) as Hmay.
  set (d1 := add_status env 0 t StateAssigned (Some w) EmptyString d).
  pose proof (abs_add_plain env 0 t StateAssigned (Some w) EmptyString d _ Hr (si_chron _ Hinv) Ha ltac:(done)) as Ha1.
  eapply (moved t d _ _ (mkATask StateAssigned (Some (int64 w)) f m)); [done| | |exact Ha| |by constructor|].
  - etransitivity; [apply same_except_add | apply same_except_upsert].
  - apply tables_ok_upsert; [apply int64_range|]. apply tables_ok_add; auto with pibully.
  - apply abs_some in Ha1 as (r & Ht1 & Hl1 & _ & Hf1 & Hm1). cbn [a_status a_failed a_max] in *.
    rewrite (abs_of_latest _ _ StateAssigned r) by done.
    change (failed_count t (upsert_lease t (int64 w) (lease_secs s) env d1)) with (failed_count t d1).
    unfold owner_of. cbn [leases upsert_lease]. rewrite lookup_insert_eq. cbn. unfold d1. by rewrite Hf1, Hm1.
  - change (history t (upsert_lease t (int64 w) (lease_secs s) env d1)) with (history t d1).
    unfold d1. rewrite history_add. by eapply path_latest.
Qed.

(** The task is worked on by [w]. *)
Definition leased_to (t w : Z) (d : db) : Prop := owner_of t d = Some (int64 w).

Lemma abs_leased d t s w :
  table_inv c d -> latest_status t d = Some s -> leased_to t w d ->
  exists f m, abs d t = Some (mkATask s (Some (int64 w)) f m).
Proof.
  intros Hinv Hl Ho. destruct (abs_latest _ _ _ Hinv Hl) as (o & f & m & Ha & <-).
  unfold leased_to in Ho. rewrite Ho in Ha. eauto.
Qed.

Lemma active_allowed s s' :
  active_status s -> s' = StateRunning \/ s' = StateFailed \/ s' = StateWorkerLost -> allowed c s s' = true.
Proof. intros [-> | ->] [-> | [-> | ->]]; done. Qed.

Lemma losable_allowed s : active_status s \/ strays c s -> allowed c s StateWorkerLost = true.
Proof. intros [?|[-> [-> | ->]]]; [by apply active_allowed; auto | done..]. Qed.

Lemma active_not_failed s : active_status s -> s <> StateFailed.
Proof. unfold active_status. naive_solver. Qed.

Lemma MarkRunning_ok t w env d d' :
  table_inv c d -> ready env 0 d -> MarkRunning_effect t w env d d' -> table_inv c d' /\ moves c t d d'.
Proof.
  intros Hinv Hr [Hown%check_owner (s & Hl & Hs) Ht ->].
  destruct (abs_leased _ _ _ _ Hinv Hl Hown) as (f & m & Ha).
  eapply add_ok; [done..|by constructor|]. apply active_allowed; auto.
Qed.

(** A status that ends the work of [w], and the deletion of its lease. *)
Definition end_work (env : txenv) (n : nat) (t w : Z) (s : TaskState) (msg : string) (d : db) : db :=
  delete_lease t (int64 w) (add_status env n t s (Some w) msg d).

Lemma end_work_abs env n t w s0 s msg d f m :
  chronological d -> ready env n d -> abs d t = Some (mkATask s0 (Some (int64 w)) f m) ->
  abs (end_work env n t w s msg d) t =
  Some (mkATask s None (f + (if bool_decide (s = StateFailed) then 1 else 0)) m).
Proof.
  intros Hc Hr Ha. unfold end_work.
  pose proof (abs_add_step env n t s (Some w) msg d _ Hr Hc Ha) as Ha1.
  by rewrite (abs_delete_step _ _ _ _ Ha1).
Qed.

Lemma end_work_tables env n t w s msg d :
  table_inv c d -> ready env n d -> is_Some (tasks d !! t) ->
  tables_ok (end_work env n t w s msg d) /\ ready env (S n) (end_work env n t w s msg d) /\
  same_except t d (end_work env n t w s msg d) /\ is_Some (tasks (end_work env n t w s msg d) !! t).
Proof.
  intros Hinv Hr Ht. unfold end_work. split_and!.
  - apply tables_ok_delete, tables_ok_add; auto with pibully.
  - by apply ready_delete, ready_add.
  - etransitivity; [apply same_except_add | apply same_except_delete].
  - by rewrite tasks_delete_lease.
Qed.

Lemma end_work_history env n t w s msg d : history t (end_work env n t w s msg d) = s :: history t d.
Proof. unfold end_work. by rewrite history_delete, history_add. Qed.

Lemma MarkCompleted_ok t w env d d' :
  table_inv c d -> ready env 0 d -> MarkCompleted_effect t w env d d' -> table_inv c d' /\ moves c t d d'.
Proof.
  intros Hinv Hr [Hown%check_owner Hl Ht ->]. change (table_inv c (end_work env 0 t w StateCompleted EmptyString d) /\
    moves c t d (end_work env 0 t w StateCompleted EmptyString d)).
  destruct (abs_leased _ _ _ _ Hinv Hl Hown) as (f & m & Ha).
  destruct (end_work_tables env 0 t w StateCompleted EmptyString d Hinv Hr Ht) as (Hto & _ & Hse & _).
  eapply moved; [done..|by eapply end_work_abs; [apply Hinv|..]| |].
  - rewrite bool_decide_eq_false_2, Z.add_0_r by done. constructor.
  - rewrite end_work_history. by eapply path_latest.
Qed.

(** Ended work followed by the return to the queue. *)
Lemma requeue_ok env n t w s0 s msg d f m :
  table_inv c d -> ready env n d -> abs d t = Some (mkATask s0 (Some (int64 w)) f m) ->
  allowed c s0 s = true -> s = StateFailed \/ s = StateWorkerLost ->
  astep c (mkATask s0 (Some (int64 w)) f m)
    (mkATask StateQueued None (f + (if bool_decide (s = StateFailed) then 1 else 0)) m) ->
  let d' := add_status env (S n) t StateQueued None EmptyString (end_work env n t w s msg d) in
  table_inv c d' /\ moves c t d d'.
Proof.
  intros Hinv Hr Ha Hal Hs Hst d'. pose proof (abs_some _ _ _ Ha) as (r & Ht & Hl & _).
  destruct (end_work_tables env n t w s msg d Hinv Hr ltac:(by eexists)) as (Hto & Hr1 & Hse & Ht1).
  pose proof (end_work_abs env n t w s0 s msg d f m (si_chron _ Hinv) Hr Ha) as Ha1.
  eapply moved; [done| | |exact Ha| |exact Hst|].
  - etransitivity; [exact Hse | apply same_except_add].
  - by apply tables_ok_add.
  - exact (abs_add_plain _ _ _ StateQueued None _ _ _ Hr1 (to_chron _ Hto) Ha1 ltac:(done)).
  - unfold d'. rewrite history_add, end_work_history. apply path_add.
    + by eapply path_latest.
    + by destruct Hs as [-> | ->].
Qed.

Lemma MarkFailed_ok t w msg env d d' :
  table_inv c d -> ready env 0 d -> MarkFailed_effect t w msg env d d' -> table_inv c d' /\ moves c t d d'.
Proof.
  intros Hinv Hr [Hown%check_owner (s & Hl & Hs) Ht ->]. unfold fail_task. cbv zeta.
  fold (end_work env 0 t w StateFailed msg d).
  destruct (abs_leased _ _ _ _ Hinv Hl Hown) as (f & m & Ha).
  destruct (end_work_tables env 0 t w StateFailed msg d Hinv Hr Ht) as (Hto & _ & Hse & _).
  pose proof (end_work_abs env 0 t w s StateFailed msg d f m (si_chron _ Hinv) Hr Ha) as Ha1.
  assert (Hal : allowed c s StateFailed = true) by (apply active_allowed; auto).
  pose proof (abs_some _ _ _ Ha1) as (r & Ht1 & _ & _ & Hf & Hm). cbn [a_failed a_max] in *.
  unfold count_failed. rewrite Ht1, Hf, Hm.
  rewrite bool_decide_eq_true_2 in * by done. destruct (Z.ltb_spec (f + 1) m) as [Hlt|Hge].
  - eapply requeue_ok; eauto. rewrite bool_decide_eq_true_2 by done. by constructor.
  - eapply moved; [done..|exact Ha1|by constructor|]. rewrite end_work_history. by eapply path_latest.
Qed.

Lemma lose_task_ok env n t w msg d s :
  table_inv c d -> ready env n d -> latest_status t d = Some s -> leased_to t w d ->
  table_inv c (lose_task env n t w msg d) /\ moves c t d (lose_task env n t w msg d).
Proof.
  intros Hinv Hr Hl Hown. destruct (abs_leased _ _ _ _ Hinv Hl Hown) as (f & m & Ha).
  assert (Hs : active_status s \/ strays c s).
  { apply (ai_leased _ (active_inv _ _ _ _ _ _ Hinv Ha)). by eexists. }
  eapply (requeue_ok env n t w s StateWorkerLost); eauto using losable_allowed.
  rewrite bool_decide_eq_false_2, Z.add_0_r by done. by constructor.
Qed.

(** A worker that does not hold the lease is declared lost: the task is queued again and
    keeps the lease. *)
Lemma misnamed_ok env n t w msg d s :
  c = AnyWorker -> table_inv c d -> ready env n d -> latest_status t d = Some s -> active_status s ->
  ~ leased_to t w d ->
  table_inv c (lose_task env n t w msg d) /\ moves c t d (lose_task env n t w msg d).
Proof.
  intros Hc Hinv Hr Hl Hs Hno. destruct (abs_latest _ _ _ Hinv Hl) as (o & f & m & Ha & Ho).
  destruct (ai_active _ (active_inv _ _ _ _ _ _ Hinv Ha) Hs) as [w0 Hw0]. cbn in Hw0. subst o.
  assert (Hsame : delete_lease t (int64 w) (add_status env n t StateWorkerLost (Some w) msg d)
    = add_status env n t StateWorkerLost (Some w) msg d).
  { apply delete_other. by rewrite owner_add. }
  unfold lose_task. rewrite Hsame.
  pose proof (abs_add_plain env n t StateWorkerLost (Some w) msg d _ Hr (si_chron _ Hinv) Ha ltac:(done)) as Ha1.
  pose proof (abs_some _ _ _ Ha) as (r & Ht & _).
  assert (Hto : tables_ok (add_status env n t StateWorkerLost (Some w) msg d)) by auto with pibully.
  eapply moved; [done| | |exact Ha| | |].
  - etransitivity; apply same_except_add.
  - apply tables_ok_add; [by apply ready_add | by eexists | done].
  - exact (abs_add_plain _ _ _ StateQueued None _ _ _ (ready_add _ _ _ _ _ _ _ Hr) (to_chron _ Hto) Ha1 ltac:(done)).
  - rewrite Hw0. by apply a_misnamed.
  - rewrite !history_add. apply path_add; [|done]. eapply path_latest; [done..|]. by apply losable_allowed; left.
Qed.

(** ** The methods on many tasks *)

Lemma moves_each_inv ts d d' : moves_each c ts d d' -> table_inv c d -> table_inv c d'.
Proof. induction 1; auto. Qed.

Lemma moves_each_other ts d d' t : moves_each c ts d d' -> t ∉ ts -> abs d' t = abs d t /\ history t d' = history t d.
Proof.
  induction 1 as [|t0 ts d d1 d2 [Hse _] _ _ IH]; [done|]. intros [Hne Hni]%not_elem_of_cons.
  destruct (IH Hni) as [-> ->]. split; [by eapply same_except_abs | by eapply same_except_history].
Qed.

Lemma moves_each_in ts d d' t :
  moves_each c ts d d' -> NoDup ts -> t ∈ ts ->
  exists a a', abs d t = Some a /\ abs d' t = Some a' /\ astep c a a'.
Proof.
  induction 1 as [|t0 ts d d1 d2 Hm _ Hms IH]; [by intros _ ?%elem_of_nil|].
  intros [Hni Hnd]%NoDup_cons [->|Hin]%elem_of_cons.
  - destruct Hm as [_ (a & a' & Ha & Ha' & Hst)]. exists a, a'. split; [done|]. split; [|done].
    by rewrite (proj1 (moves_each_other _ _ _ _ Hms Hni)).
  - destruct (IH Hnd Hin) as (a & a' & Ha & Ha' & Hst). exists a, a'. split; [|done].
    rewrite <- Ha. symmetry. eapply same_except_abs; [apply Hm|]. by intros ->.
Qed.

Lemma moves_each_tasks ts d d' : moves_each c ts d d' -> tasks d' = tasks d.
Proof. induction 1 as [|t ts d d1 d2 [[Ht _ _] _] _ _ IH]; congruence. Qed.

Lemma lease_latest d t w : table_inv c d -> leased_to t w d -> is_Some (latest_status t d).
Proof.
  intros Hinv Ho. unfold leased_to, owner_of in Ho. destruct (leases d !! t) as [l|] eqn:Hl; [|done].
  destruct (si_leases _ Hinv _ _ Hl) as [[a Ha] _]. apply abs_some in Ha as (r & _ & Hs & _). by eexists.
Qed.

Lemma ready_lose env n t w msg d : ready env n d -> ready env (S (S n)) (lose_task env n t w msg d).
Proof. intros Hr. by apply ready_add, ready_delete, ready_add. Qed.

(** Leases of other tasks stay. *)
Lemma leased_others t d d' (ls : list (Z * Z)) :
  same_except t d d' -> t ∉ fst <$> ls ->
  Forall (fun l => leased_to (fst l) (snd l) d) ls -> Forall (fun l => leased_to (fst l) (snd l) d') ls.
Proof.
  intros Hse Hni. rewrite !Forall_forall. intros Hall [t' w'] Hin. unfold leased_to, owner_of.
  cbn [fst snd]. rewrite (se_leases _ _ _ Hse); [by apply (Hall _ Hin)|].
  intros ->. apply Hni. by apply (list_elem_of_fmap_2 fst _ (t, w')).
Qed.

Lemma lose_each_ok env ls msg : forall n d,
  table_inv c d -> ready env n d -> NoDup (fst <$> ls) -> Forall (fun l => leased_to (fst l) (snd l) d) ls ->
  moves_each c (fst <$> ls) d (lose_each env n ls msg d).
Proof.
  induction ls as [|[t w] ls IH]; intros n d Hinv Hr Hnd Hall; cbn; [constructor|].
  apply NoDup_cons in Hnd as [Hni Hnd]. apply Forall_cons in Hall as [Hown Hall].
  destruct (lease_latest _ _ _ Hinv Hown) as [s Hs].
  destruct (lose_task_ok env n t w msg d s Hinv Hr Hs Hown) as [Hinv1 Hm].
  econstructor; [exact Hm | done|]. apply IH; [done | by apply ready_lose | done|].
  eapply leased_others; [apply Hm | done | done].
Qed.

Lemma add_each_ok env ts s w msg : forall n d,
  table_inv c d -> ready env n d -> NoDup ts -> s <> StateFailed -> Forall (can_add c s d) ts ->
  moves_each c ts d (add_each env n ts s w msg d).
Proof.
  induction ts as [|t ts IH]; intros n d Hinv Hr Hnd Hs Hall; cbn; [constructor|].
  apply NoDup_cons in Hnd as [Hni Hnd]. apply Forall_cons in Hall as [(s0 & o & f & m & Ha & Hst & Hal) Hall].
  destruct (add_ok env n t s0 s w msg d o f m) as [Hinv1 Hm]; [done..|].
  econstructor; [exact Hm | done|]. apply IH; [done | by apply ready_add | done | done|].
  rewrite Forall_forall in *. intros t' Hin. unfold can_add.
  rewrite (same_except_abs _ _ _ _ (mv_same _ _ _ Hm)); [by apply Hall|]. by intros ->.
Qed.

Lemma add_each_leases env ts s w msg : forall n d, leases (add_each env n ts s w msg d) = leases d.
Proof. induction ts as [|t ts IH]; intros n d; [done|]. cbn. by rewrite IH. Qed.

Lemma add_each_out env ts s w msg t : forall n d,
  t ∉ ts -> abs (add_each env n ts s w msg d) t = abs d t.
Proof.
  induction ts as [|t0 ts IH]; intros n d Hni; [done|]. apply not_elem_of_cons in Hni as [Hne Hni]. cbn.
  rewrite IH by done. eapply same_except_abs; [apply same_except_add | done].
Qed.

Lemma add_each_in env ts s w msg t : forall n d a,
  ready env n d -> chronological d -> NoDup ts -> s <> StateFailed -> t ∈ ts -> abs d t = Some a ->
  abs (add_each env n ts s w msg d) t = Some (mkATask s (a_owner a) (a_failed a) (a_max a)).
Proof.
  induction ts as [|t0 ts IH]; intros n d a Hr Hc Hnd Hs Hin Ha; [by apply elem_of_nil in Hin|].
  apply NoDup_cons in Hnd as [Hni Hnd]. cbn. destruct (decide (t = t0)) as [->|Hne].
  - rewrite add_each_out by done. by apply abs_add_plain.
  - apply elem_of_cons in Hin as [?|Hin]; [done|]. apply IH; auto with pibully.
    rewrite (same_except_abs t0 d); auto with pibully.
Qed.

(** *** The rows the queries select *)

Lemma NoDup_fst_filter {A B} (P : A * B -> Prop) `{!forall x, Decision (P x)} (l : list (A * B)) :
  NoDup (fst <$> l) -> NoDup (fst <$> filter P l).
Proof. intros Hnd. eapply sublist_NoDup; [exact Hnd|]. apply fmap_sublist, sublist_filter. Qed.

Lemma NoDup_fst_sort {A B} (le : A * B -> A * B -> bool) (l : list (A * B)) :
  NoDup (fst <$> l) -> NoDup (fst <$> sort_by le l).
Proof. by rewrite (sort_by_Permutation le l). Qed.

Lemma claim_queued_elem limit env d p :
  p ∈ claim_queued limit env d ->
  tasks d !! fst p = Some (snd p) /\ claimable d p = true /\ fst p ∉ tx_locked env.
Proof.
  unfold claim_queued. intros [i Hi]%list_elem_of_lookup.
  apply lookup_take_Some in Hi as [Hi%list_elem_of_lookup_2 _].
  apply list_elem_of_filter in Hi as [Hk Hi]. rewrite elem_of_sort_by in Hi.
  apply list_elem_of_filter in Hi as [Hc Hi]. destruct p as [t r].
  by apply elem_of_map_to_list in Hi.
Qed.

Lemma claim_queued_NoDup limit env d : NoDup (fst <$> claim_queued limit env d).
Proof.
  unfold claim_queued. rewrite fmap_take. eapply sublist_NoDup; [|apply sublist_take].
  apply NoDup_fst_filter, NoDup_fst_sort, NoDup_fst_filter, NoDup_fst_map_to_list.
Qed.

Lemma select_expired_elem env d t w :
  (t, w) ∈ select_expired_leases env d <->
  exists l, leases d !! t = Some l /\ l_worker_id l = w /\ l_expires_at l < tx_now env /\ t ∉ tx_locked env.
Proof.
  unfold select_expired_leases. rewrite list_elem_of_fmap. split.
  - intros ([t' l] & [= -> ->] & H). apply list_elem_of_filter in H as [Hk H].
    rewrite elem_of_sort_by in H. apply list_elem_of_filter in H as [He H%elem_of_map_to_list]. eauto.
  - intros (l & Hl & <- & He & Hk). exists (t, l). split; [done|].
    apply list_elem_of_filter. split; [done|]. apply elem_of_sort_by, list_elem_of_filter.
    split; [done|]. by apply elem_of_map_to_list.
Qed.

Lemma select_expired_NoDup env d : NoDup (fst <$> select_expired_leases env d).
Proof.
  unfold select_expired_leases. rewrite <- list_fmap_compose.
  exact (NoDup_fst_filter _ _ (NoDup_fst_sort _ _ (NoDup_fst_filter _ _ (NoDup_fst_map_to_list _)))).
Qed.

Lemma select_active_elem env d t w :
  (t, w) ∈ select_active_leases env d <-> owner_of t d = Some w /\ t ∉ tx_locked env.
Proof.
  unfold select_active_leases, owner_of. rewrite list_elem_of_fmap. split.
  - intros ([t' l] & [= -> ->] & H). apply list_elem_of_filter in H as [Hk H%elem_of_map_to_list].
    by rewrite H.
  - intros [(l & Hl & ->)%fmap_Some Hk]. exists (t, l). split; [done|].
    apply list_elem_of_filter. split; [done|]. by apply elem_of_map_to_list.
Qed.

Lemma select_active_NoDup env d : NoDup (fst <$> select_active_leases env d).
Proof.
  unfold select_active_leases. rewrite <- list_fmap_compose.
  exact (NoDup_fst_filter _ _ (NoDup_fst_map_to_list _)).
Qed.

Lemma select_stale_elem env d t :
  t ∈ select_stale_scheduling env d <->
  is_Some (tasks d !! t) /\ latest_status t d = Some StateScheduling /\ leases d !! t = None /\ t ∉ tx_locked env.
Proof.
  unfold select_stale_scheduling. rewrite list_elem_of_filter, list_elem_of_fmap. split.
  - intros [H ([t' r] & -> & Ht%elem_of_map_to_list)]. split; [by eexists | done].
  - intros [[r Hr] H]. split; [done|]. exists (t, r). split; [done|]. by apply elem_of_map_to_list.
Qed.

Lemma select_stale_NoDup env d : NoDup (select_stale_scheduling env d).
Proof. apply NoDup_filter, NoDup_fst_map_to_list. Qed.

(** The loop over the rows keeps what each row keeps. *)
Lemma scan_rows_fmap {R A B} (scan : R -> result A) (f : R -> B) (g : A -> B) rows xs :
  (forall r a, scan r = Ok a -> g a = f r) -> scan_rows scan rows = Ok xs -> g <$> xs = f <$> rows.
Proof.
  intros Hs. revert xs. induction rows as [|r rows IH]; cbn; intros xs H; [by simplify_eq|].
  destruct (scan r) as [a|] eqn:Hr; [|done]. destruct (scan_rows scan rows) as [as_|]; [|done].
  cbn in H. simplify_eq. cbn. f_equal; [by apply Hs | by apply IH].
Qed.

(** *** The methods *)

Lemma RenewLease_same s t w env d d' :
  RenewLease_effect s t w env d d' ->
  tasks d' = tasks d /\ statuses d' = statuses d /\ forall t', owner_of t' d' = owner_of t' d.
Proof.
  intros [Hown%check_owner (l & Hl & ->)]. split; [done|]. split; [done|]. intros t'. unfold owner_of in *.
  cbn [leases]. destruct (decide (t' = t)) as [->|Hne].
  - by rewrite lookup_insert_eq, Hown.
  - by rewrite lookup_insert_ne.
Qed.

(** Databases with the same tasks, statuses and lease holders. *)
Lemma table_inv_same d d' :
  tasks d' = tasks d -> statuses d' = statuses d -> (forall t, owner_of t d' = owner_of t d) ->
  table_inv c d -> table_inv c d' /\ forall t, abs d' t = abs d t /\ history t d' = history t d.
Proof.
  intros Ht Hs Ho Hinv.
  assert (Hrows : forall t, rows_of t d' = rows_of t d) by (intros t; unfold rows_of; by rewrite Hs).
  assert (Hab : forall t, abs d' t = abs d t).
  { intros t. unfold abs, latest_status, failed_count. by rewrite Ht, Ho, Hrows. }
  split; [|intros t; split; [done | unfold history; by rewrite Hrows]]. split.
  - unfold chronological. rewrite Hs. apply Hinv.
  - rewrite Hs, Ht. apply Hinv.
  - intros t l Hl. rewrite Hab.
    specialize (Ho t). unfold owner_of in Ho. rewrite Hl in Ho. cbn in Ho. symmetry in Ho.
    apply fmap_Some in Ho as (l' & Hl' & ->). by apply (si_leases _ Hinv).
  - intros t a. rewrite Hab. apply Hinv.
  - intros t. unfold history. rewrite Hrows. apply Hinv.
Qed.

Section many.
Context {P : PgxScan}.

Lemma scan_task_id p t : scan_task p = Ok t -> TaskID t = fst p.
Proof.
  unfold scan_task. destruct (scan_text _); [|done]. cbn. destruct (scan_text _); [|done]. cbn.
  by intros [= <-].
Qed.

Lemma claimable_queued d t r :
  table_inv c d -> tasks d !! t = Some r -> claimable d (t, r) = true -> latest_status t d = Some StateQueued.
Proof.
  intros Hinv Hr Hc. unfold claimable in Hc. cbn [fst snd] in Hc.
  destruct (latest_status t d) as [s|] eqn:Hl; [|done].
  apply andb_true_iff in Hc as [[Hs|Hs]%orb_true_iff _]; apply bool_decide_eq_true in Hs as ->; [done|].
  by destruct (ai_lost _ (active_inv _ _ _ _ _ _ Hinv (abs_of_latest _ _ _ _ Hr Hl))).
Qed.

Lemma claimable_can d t r :
  table_inv c d -> tasks d !! t = Some r -> claimable d (t, r) = true -> can_add c StateScheduling d t.
Proof.
  intros Hinv Hr Hc. pose proof (claimable_queued _ _ _ Hinv Hr Hc) as Hl.
  unfold claimable in Hc. cbn [fst snd] in Hc. rewrite Hl in Hc. apply andb_true_iff in Hc as [_ Hf%Z.ltb_lt].
  pose proof (abs_of_latest _ _ _ _ Hr Hl) as Ha. 
  pose proof (inv_may_own _ _ _ _ _ _ Hinv Ha ltac:(by left)) as Hmay.
  do 4 eexists. split; [exact Ha|]. split; [by constructor | done].
Qed.

Lemma ClaimQueued_ok sched batch env d ts d' :
  table_inv c d -> ready env 0 d -> ClaimQueued_effect sched batch env d ts d' ->
  NoDup (TaskID <$> ts) /\ moves_each c (TaskID <$> ts) d d'.
Proof.
  intros Hinv Hr [_ Hrows ->].
  pose proof (scan_rows_fmap _ fst TaskID _ _ scan_task_id Hrows) as Hids.
  rewrite Hids. pose proof (claim_queued_NoDup batch env d) as Hnd. split; [done|].
  apply add_each_ok; [done..|]. apply Forall_fmap, Forall_forall. intros [t r] Hin.
  apply claim_queued_elem in Hin as (Ht & Hc & _). by eapply claimable_can.
Qed.

Lemma RecoverStaleScheduling_ok env d k d' :
  table_inv c d -> ready env 0 d -> RecoverStaleScheduling_effect env d k d' ->
  moves_each c (select_stale_scheduling env d) d d'.
Proof.
  intros Hinv Hr [_ ->]. apply add_each_ok; [done|done|apply select_stale_NoDup|done|].
  apply Forall_forall. intros t ([r Hr'] & Hl & Hle & _)%select_stale_elem.
  pose proof (abs_of_latest _ _ _ _ Hr' Hl) as Ha. unfold owner_of in Ha. rewrite Hle in Ha. cbn in Ha.
  do 4 eexists. split; [exact Ha|]. split; [by constructor | done].
Qed.

Lemma owner_bounds d t w : table_inv c d -> owner_of t d = Some w -> - 2 ^ 63 <= w < 2 ^ 63.
Proof.
  intros Hinv (l & Hl & ->)%fmap_Some. eapply (proj2 (si_leases _ Hinv _ _ Hl)).
Qed.

Lemma RecoverDead_ok alive msg env d k d' :
  table_inv c d -> ready env 0 d -> recovered (dead_rows alive env d) msg env d k d' ->
  NoDup (fst <$> dead_rows alive env d) /\ moves_each c (fst <$> dead_rows alive env d) d d'.
Proof.
  intros Hinv Hr [_ ->].
  assert (Hnd : NoDup (fst <$> dead_rows alive env d)).
  { apply NoDup_fst_filter. rewrite <- list_fmap_compose. apply select_active_NoDup. }
  split; [done|]. apply lose_each_ok; [done..|]. apply Forall_forall. intros [t w] Hin.
  apply list_elem_of_filter in Hin as [_ Hin]. apply list_elem_of_fmap in Hin as ([t' w'] & [= -> ->] & Hin).
  apply select_active_elem in Hin as [Ho _]. unfold leased_to. cbn [fst snd].
  rewrite int64_uint64; [done|]. by eapply owner_bounds.
Qed.

Context {L : PgxScanLaws P}.

(** pgx reads the ids of the expired leases exactly when none is negative. *)
Lemma expired_rows_ok env d ls :
  expired_rows env d = Ok ls <->
  ls = select_expired_leases env d /\ Forall (fun r => 0 <= snd r) ls.
Proof.
  unfold expired_rows. generalize (select_expired_leases env d) as rows. intros rows. revert ls.
  induction rows as [|[t w] rows IH]; intros ls; cbn.
  - split; [by intros [= <-] | by intros [-> _]].
  - destruct (Z_lt_le_dec w 0) as [Hw|Hw].
    + pose proof (scan_uint64_neg w Hw) as Hneg. destruct (scan_uint64 w); [done|]. cbn.
      split; [done|]. intros [-> [? _]%Forall_cons]. cbn in *. lia.
    + rewrite scan_uint64_nonneg by done. cbn.
      destruct (scan_rows _ rows) as [xs|e] eqn:Hx; cbn.
      * destruct (proj1 (IH xs) eq_refl) as [-> Hf]. split; [intros [= <-]; split; [done | by constructor] | by intros [-> _]].
      * split; [done|]. intros [-> [_ Hf]%Forall_cons]. pose proof (proj2 (IH rows) (conj eq_refl Hf)). done.
Qed.

Lemma RecoverExpired_ok env d k d' :
  table_inv c d -> ready env 0 d -> RecoverExpiredLeases_effect env d k d' ->
  moves_each c (fst <$> select_expired_leases env d) d d'.
Proof.
  intros Hinv Hr (ls & [-> Hpos]%expired_rows_ok & [_ ->]). rewrite Forall_forall in Hpos.
  apply lose_each_ok; [done..|apply select_expired_NoDup|]. apply Forall_forall. intros [t w] Hin.
  specialize (Hpos _ Hin). apply select_expired_elem in Hin as (l & Hl & Hw & _).
  assert (Ho : owner_of t d = Some w) by (unfold owner_of; rewrite Hl; by subst).
  unfold leased_to. cbn [fst snd] in *. rewrite int64_id; [done|].
  pose proof (owner_bounds _ _ _ Hinv Ho). lia.
Qed.

End many.

End refine.

#[export] Hint Resolve tables_ok_inv tables_ok_add tables_ok_delete tables_ok_upsert : pibully.
