(* ===== verification/TaskAtomic.v ===== *)
(** * Faults and the task store

    The methods under faults of the database: whatever call fails, a method
    either behaves as without faults, or reports an error and leaves the
    database as it was or as a run without faults leaves it (the commit took
    effect and its reply was lost).  The second part is the behaviour without
    faults: when a method succeeds and with what result. *)

From S2P Require Import Prelude Cluster TaskStore TaskTx TaskLifecycle TaskRefine.

Definition no_faults (env : txenv) : txenv :=
  mkTxEnv (tx_now env) (tx_uuid env) [] (tx_locked env).

(** ** Programs that do not commit, and programs that end with a commit *)

(** Against the run without faults, from the same database: the same outcome, or an
    error with nothing committed. *)
Definition steady {A} (m : tx A) : Prop :=
  forall env d n fs,
    let '(r0, st0) := m (no_faults env) (mkTxSt d n [] None) in
    let '(r, st) := m env (mkTxSt d n fs None) in
    pending st0 = [] /\ committed st0 = None /\ committed st = None /\
    (is_ok r = false \/ r = r0 /\ cur st = cur st0 /\ drawn st = drawn st0).

Definition final {A} (m : tx A) : Prop :=
  forall env d n fs,
    let '(r0, st0) := m (no_faults env) (mkTxSt d n [] None) in
    let '(r, st) := m env (mkTxSt d n fs None) in
    r = r0 /\ committed st = committed st0 \/
    is_ok r = false /\ (committed st = None \/ is_ok r0 = true /\ committed st = committed st0).

Lemma steady_ret {A} (a : A) : steady (tx_ret a).
Proof. intros env d n fs. cbn. auto 10. Qed.

Lemma steady_err {A} e : steady (tx_err (A := A) e).
Proof. intros env d n fs. cbn. auto 10. Qed.

Lemma steady_call : steady tx_call.
Proof. intros env d n [|[] fs]; cbn; auto 10. Qed.

(** A query reads the time and the locks, not the faults. *)
Lemma steady_get {A} (q : txenv -> db -> A) :
  (forall env d, q (no_faults env) d = q env d) -> steady (tx_get q).
Proof. intros Hq env d n fs. cbn. rewrite Hq. auto 10. Qed.

Lemma steady_put f : (forall env d, f (no_faults env) d = f env d) -> steady (tx_put f).
Proof. intros Hf env d n fs. cbn. rewrite Hf. auto 10. Qed.

Lemma steady_new_id : steady tx_new_id.
Proof. intros env d n fs. cbn. auto 10. Qed.

Lemma steady_wrap {A} fmt args (m : tx A) : steady m -> steady (tx_wrap fmt args m).
Proof.
  intros Hm env d n fs. specialize (Hm env d n fs). rewrite !run_tx_wrap.
  destruct (m (no_faults env) _) as [r0 st0]. destruct (m env _) as [r st].
  destruct Hm as (H1 & H2 & H3 & H4).
  destruct r0, r; cbn in *; split_and!; try done; destruct H4 as [?|(? & ? & ?)]; simplify_eq; auto.
Qed.

Lemma steady_bind {A B} (m : tx A) (f : A -> tx B) :
  steady m -> (forall a, steady (f a)) -> steady (tx_bind m f).
Proof.
  intros Hm Hf env d n fs. specialize (Hm env d n fs). rewrite !run_tx_bind.
  destruct (m (no_faults env) _) as [r0 st0]. destruct (m env _) as [r st].
  destruct Hm as (H1 & H2 & H3 & H4).
  assert (Hst0 : st0 = mkTxSt (cur st0) (drawn st0) [] None) by (destruct st0; cbn in *; by subst).
  destruct r as [a|e].
  - destruct H4 as [?|(<- & Hc & Hd)]; [done|].
    rewrite (st_eta st H3), Hst0, Hc, Hd. apply Hf.
  - destruct r0 as [a0|e0].
    + specialize (Hf a0 env (cur st0) (drawn st0) []). rewrite Hst0.
      destruct (f a0 (no_faults env) _) as [r1 st1]. destruct (f a0 env _) as [r2 st2].
      destruct Hf as (? & ? & _ & _). auto 10.
    + split_and!; try done. destruct H4 as [?|(? & ? & ?)]; [by left|]. simplify_eq. auto.
Qed.

Lemma steady_iter {A} (f : A -> tx unit) l : (forall a, steady (f a)) -> steady (tx_iter f l).
Proof.
  intros Hf. induction l as [|a l IH]; cbn; [apply steady_ret|]. by apply steady_bind.
Qed.

Lemma steady_final {A} (m : tx A) : steady m -> final m.
Proof.
  intros Hm env d n fs. specialize (Hm env d n fs).
  destruct (m (no_faults env) _) as [r0 st0]. destruct (m env _) as [r st].
  destruct Hm as (H1 & H2 & H3 & [H4|(-> & Hc & Hd)]); [auto|left]. by rewrite H2, H3.
Qed.

Lemma final_bind {A B} (m : tx A) (f : A -> tx B) :
  steady m -> (forall a, final (f a)) -> final (tx_bind m f).
Proof.
  intros Hm Hf env d n fs. specialize (Hm env d n fs). rewrite !run_tx_bind.
  destruct (m (no_faults env) _) as [r0 st0]. destruct (m env _) as [r st].
  destruct Hm as (H1 & H2 & H3 & H4).
  assert (Hst0 : st0 = mkTxSt (cur st0) (drawn st0) [] None) by (destruct st0; cbn in *; by subst).
  destruct r as [a|e].
  - destruct H4 as [?|(<- & Hc & Hd)]; [done|].
    rewrite (st_eta st H3), Hst0, Hc, Hd. apply Hf.
  - repeat case_match; auto.
Qed.

Lemma final_commit fmt args : final (tx_wrap fmt args tx_commit).
Proof. intros env d n [|[] fs]; cbn; auto 10. Qed.

Lemma final_commit_ret {A} fmt args (a : A) : final (tx_wrap fmt args tx_commit ;;* tx_ret a).
Proof. intros env d n [|[] fs]; cbn; auto 10. Qed.

(** ** The methods *)

(** What a fault can do to a method. *)
Definition atomic {A} (f : txenv -> db -> result A * db) : Prop :=
  forall env d,
    let '(r0, d0) := f (no_faults env) d in
    let '(r, d') := f env d in
    r = r0 /\ d' = d0 \/ is_ok r = false /\ (d' = d \/ is_ok r0 = true /\ d' = d0).

Lemma with_tx_atomic {A} name (body : tx A) : final body -> atomic (with_tx name body).
Proof.
  intros Hb env d. unfold with_tx, begin_tx.
  pose proof (final_bind _ (fun _ : unit => body)
    (steady_wrap (name ++ ": begin transaction") [] _ steady_call) (fun _ => Hb) env d 0%nat (tx_faults env)) as H.
  change (tx_faults (no_faults env)) with (@nil fault).
  destruct (run_tx _ (no_faults env) _) as [r0 st0]. destruct (run_tx _ env _) as [r st].
  destruct H as [[-> ->]|[H1 [->|[H2 ->]]]]; auto.
Qed.

Lemma with_pool_atomic {A} (stmt : txenv -> db -> A * db) :
  (forall env d, stmt (no_faults env) d = stmt env d) -> atomic (with_pool stmt).
Proof.
  intros Hs env d. unfold with_pool. change (tx_faults (no_faults env)) with (@nil fault).
  rewrite Hs. destruct (tx_faults env) as [|[] fs]; cbn; auto.
Qed.

(** Follows the structure of a program down to its calls. *)
Ltac faults_tac :=
  repeat lazymatch goal with
  | |- forall _, _ => intro
  | |- final (let _ := _ in _) => cbv zeta
  | |- steady (tx_bind _ _) => apply steady_bind
  | |- steady (tx_wrap _ _ _) => apply steady_wrap
  | |- steady tx_call => apply steady_call
  | |- steady (tx_ret _) => apply steady_ret
  | |- steady (tx_err _) => apply steady_err
  | |- steady tx_new_id => apply steady_new_id
  | |- steady (tx_get _) => apply steady_get; done
  | |- steady (tx_put _) => apply steady_put; done
  | |- steady (tx_iter _ _) => apply steady_iter
  | |- steady (match ?x with _ => _ end) => destruct x
  | |- final (match ?x with _ => _ end) => destruct x
  | |- final (tx_bind (tx_wrap _ _ tx_commit) _) => apply final_commit_ret
  | |- final (tx_bind _ _) => apply final_bind
  | |- final (tx_wrap _ _ tx_commit) => apply final_commit
  | |- final (tx_ret _) => apply steady_final, steady_ret
  | |- final (tx_err _) => apply steady_final, steady_err
  end.

Lemma steady_insertStatus t s w msg : steady (insertStatus t s w msg).
Proof. unfold insertStatus. faults_tac. Qed.

Lemma steady_latestStatus t : steady (latestStatus t).
Proof. unfold latestStatus. faults_tac. Qed.

Lemma steady_ensureLeaseOwner t w : steady (ensureLeaseOwner t w).
Proof. unfold ensureLeaseOwner. faults_tac. Qed.

Lemma steady_ensureLatestStatusIn t l : steady (ensureLatestStatusIn t l).
Proof. unfold ensureLatestStatusIn. faults_tac; [apply steady_latestStatus|..]. Qed.

Lemma steady_exec f : (forall env d, f (no_faults env) d = f env d) -> steady (tx_exec f).
Proof. intros Hf. unfold tx_exec. apply steady_bind; [apply steady_call|]. intros _. by apply steady_put. Qed.

Lemma steady_of_result {A} (r : result A) : steady (tx_of_result r).
Proof. destruct r; [apply steady_ret | apply steady_err]. Qed.

Ltac method_tac :=
  repeat (faults_tac;
    try first [ apply steady_insertStatus | apply steady_latestStatus | apply steady_ensureLeaseOwner
              | apply steady_ensureLatestStatusIn | apply steady_of_result | by apply steady_exec ]).

Ltac unfold_methods :=
  unfold ClaimQueued_tx, MarkAssigned_tx, MarkRunning_tx, MarkCompleted_tx, MarkFailed_tx, MarkWorkerLost_tx,
    RecoverExpiredLeases_tx, RecoverDeadWorkerLeases_tx, RecoverStaleScheduling_tx.

Lemma steady_recover_lease name msg l : steady (recover_lease name msg l).
Proof. unfold recover_lease. method_tac. Qed.

(** ** The interface Store of task/task.go as one type of calls *)

Inductive store_op :=
| OpClaimQueued (schedulerID batchSize : Z)
| OpActiveLeases
| OpRenewLease (s : PostgresStore) (t w : Z)
| OpMarkAssigned (s : PostgresStore) (t w : Z)
| OpMarkRunning (t w : Z)
| OpMarkCompleted (t w : Z)
| OpMarkFailed (t w : Z) (msg : string)
| OpMarkWorkerLost (t w : Z) (msg : string)
| OpRecoverExpiredLeases
| OpRecoverDeadWorkerLeases (alive : gmap Z Member)
| OpRecoverStaleScheduling.

(** What a call returns besides the error. *)
Inductive store_reply :=
| RUnit
| RCount (n : Z)
| RTasks (ts : list Task)
| RLeases (ls : list Lease).

Definition reply {A} (f : A -> store_reply) (p : result A * db) : result store_reply * db :=
  (rmap f (fst p), snd p).

Section ops.
Context {P : PgxScan}.

Definition run_op (op : store_op) (env : txenv) (d : db) : result store_reply * db :=
  match op with
  | OpClaimQueued s b => reply RTasks (ClaimQueued s b env d)
  | OpActiveLeases => reply RLeases (ActiveLeases env d)
  | OpRenewLease s t w => reply (fun _ => RUnit) (RenewLease s t w env d)
  | OpMarkAssigned s t w => reply (fun _ => RUnit) (MarkAssigned s t w env d)
  | OpMarkRunning t w => reply (fun _ => RUnit) (MarkRunning t w env d)
  | OpMarkCompleted t w => reply (fun _ => RUnit) (MarkCompleted t w env d)
  | OpMarkFailed t w msg => reply (fun _ => RUnit) (MarkFailed t w msg env d)
  | OpMarkWorkerLost t w msg => reply (fun _ => RUnit) (MarkWorkerLost t w msg env d)
  | OpRecoverExpiredLeases => reply RCount (RecoverExpiredLeases env d)
  | OpRecoverDeadWorkerLeases alive => reply RCount (RecoverDeadWorkerLeases alive env d)
  | OpRecoverStaleScheduling => reply RCount (RecoverStaleScheduling env d)
  end.

Lemma is_ok_rmap {A B} (f : A -> B) r : is_ok (rmap f r) = is_ok r.
Proof. by destruct r. Qed.

Lemma reply_atomic {A} (f : A -> store_reply) (m : txenv -> db -> result A * db) :
  atomic m -> atomic (fun env d => reply f (m env d)).
Proof.
  intros Hm env d. specialize (Hm env d). unfold reply.
  destruct (m (no_faults env) d) as [r0 d0]. destruct (m env d) as [r d']. cbn.
  rewrite !is_ok_rmap. destruct Hm as [[-> ->]|Hm]; auto.
Qed.

Lemma RenewLease_atomic s t w : atomic (RenewLease s t w).
Proof.
  intros env d. unfold RenewLease, with_pool. change (tx_faults (no_faults env)) with (@nil fault).
  change (renew_lease t (int64 w) (lease_secs s) (no_faults env)) with (renew_lease t (int64 w) (lease_secs s) env).
  unfold renew_lease. destruct (leases d !! t) as [l|]; [destruct (l_worker_id l =? int64 w)|];
    destruct (tx_faults env) as [|[] fs]; cbn; auto.
Qed.

(** C8: whatever calls to the database fail, every method of the store either does
    exactly what it does without faults, or returns an error and leaves the
    database as it was, or as the run without faults leaves it when only the
    reply to the commit was lost.  No method leaves part of its changes. *)
Theorem store_methods_atomic (op : store_op) : atomic (run_op op).
Proof.
  destruct op; cbv beta iota delta [run_op]; apply reply_atomic;
    first [ apply with_tx_atomic; unfold_methods; method_tac | apply RenewLease_atomic | by apply with_pool_atomic ].
  all: try apply steady_recover_lease.
Qed.

End ops.
