(* ===== verification/TaskReach.v ===== *)
(** * Every state the task tables can reach

    The tables move by calls of the store's methods, with any faults, and by
    the submission of new tasks.  Each call changes each task by at most one
    [astep]; the lifecycle, the leases and the retry budget of every reachable
    database follow. *)

From S2P Require Import Prelude Cluster TaskStore TaskTx TaskLifecycle TaskRefine TaskAtomic.

(** A client enters a task: its row and its first status. *)
Definition submit (t : Z) (r : task_row) (env : txenv) (d : db) : db :=
  add_status env 0 t StateQueued None EmptyString (mkDb (<[t := r]> (tasks d)) (statuses d) (leases d)).

Definition empty_db : db := mkDb ∅ [] ∅.

(** No other worker than [w] holds the lease of [t]. *)
Definition held_by (t w : Z) (d : db) : Prop := owner_of t d = None \/ leased_to t w d.

(** MarkWorkerLost does not check the lease: its caller must not name another worker
    than the one that holds it. *)
Definition op_ok (op : store_op) (d : db) : Prop :=
  match op with
  | OpMarkWorkerLost t w _ => held_by t w d
  | _ => True
  end.

(** Who may call: anyone, or callers that keep to [op_ok]. *)
Definition call_ok (c : callers) (op : store_op) (d : db) : Prop :=
  match c with AnyWorker => True | HolderOnly => op_ok op d end.

(** The tasks an operation can change. *)
Definition touches (c : callers) (op : store_op) (d : db) (t : Z) : Prop :=
  match op with
  | OpClaimQueued _ _ => latest_status t d = Some StateQueued
  | OpMarkAssigned _ t' _ => t = t' /\ latest_status t d = Some StateScheduling
  | OpMarkRunning t' w | OpMarkCompleted t' w | OpMarkFailed t' w _ => t = t' /\ leased_to t w d
  | OpMarkWorkerLost t' w _ => t = t' /\ (leased_to t w d \/ c = AnyWorker)
  | OpRecoverExpiredLeases | OpRecoverDeadWorkerLeases _ => is_Some (owner_of t d)
  | OpRecoverStaleScheduling => latest_status t d = Some StateScheduling
  | OpActiveLeases | OpRenewLease _ _ _ => False
  end.

(** The two databases differ in the dates of leases at most. *)
Record same_view (d d' : db) : Prop := {
  sv_tasks : tasks d' = tasks d;
  sv_statuses : statuses d' = statuses d;
  sv_owners : forall t, owner_of t d' = owner_of t d;
}.

(** What an operation did: the dates of leases, or one step of each task in a list. *)
Inductive op_moves (c : callers) (op : store_op) (d d' : db) : Prop :=
| om_view : same_view d d' -> op_moves c op d d'
| om_each ts : NoDup ts -> Forall (touches c op d) ts -> moves_each c ts d d' -> op_moves c op d d'.

(** No change, or one abstract step. *)
Definition astep_opt (c : callers) (a a' : option atask) : Prop :=
  a' = a \/ exists x x', a = Some x /\ a' = Some x' /\ astep c x x'.

(** What a call guarantees of the database: the invariant, the same tasks, and at most
    one abstract step per task. *)
Record refines (c : callers) (d d' : db) : Prop := {
  rf_inv : table_inv c d';
  rf_tasks : tasks d' = tasks d;
  rf_steps : forall t, astep_opt c (abs d t) (abs d' t);
  rf_same : forall t a, abs d t = Some a -> a_status a = StateCompleted \/ a_status a = StateFailed ->
    history t d' = history t d;
}.

Section shapes.
Context {c : callers}.

Lemma refines_refl d : table_inv c d -> refines c d d.
Proof. intros H. split; unfold astep_opt; auto. Qed.

Lemma refines_each ts d d' : table_inv c d -> NoDup ts -> moves_each c ts d d' -> refines c d d'.
Proof.
  intros Hinv Hnd Hm. split.
  - by eapply moves_each_inv.
  - by eapply moves_each_tasks.
  - intros t. destruct (decide (t ∈ ts)) as [Hin|Hni].
    + right. by eapply moves_each_in.
    + left. by eapply moves_each_other.
  - intros t a Ha Hdone. destruct (decide (t ∈ ts)) as [Hin|Hni]; [|by eapply moves_each_other].
    destruct (moves_each_in _ _ _ _ Hm Hnd Hin) as (x & x' & Hx & _ & Hs%astep_terminal).
    assert (x = a) as -> by congruence. naive_solver.
Qed.

Lemma refines_view d d' : table_inv c d -> same_view d d' -> refines c d d'.
Proof.
  intros Hinv [Ht Hs Ho]. destruct (table_inv_same d d' Ht Hs Ho Hinv) as [Hinv' Hsame].
  split; [done..| |]; intros x; [left; apply Hsame | intros; apply Hsame].
Qed.

Lemma same_view_refl d : same_view d d.
Proof. by split. Qed.

Lemma refines_moves op d d' : table_inv c d -> op_moves c op d d' -> refines c d d'.
Proof. intros Hinv [Hv|ts Hnd _ Hm]; [by apply refines_view | by eapply refines_each]. Qed.

Lemma moves_one op t d d' : touches c op d t -> table_inv c d' /\ moves c t d d' -> op_moves c op d d'.
Proof.
  intros Ht [Hinv Hm]. apply (om_each _ _ _ _ [t]); [apply NoDup_singleton | by constructor|].
  econstructor; [done | done | constructor].
Qed.

Lemma moves_all_or_nothing {A} op d (E : A -> db -> Prop) res :
  (forall a d', E a d' -> op_moves c op d d') -> all_or_nothing d E res -> op_moves c op d (snd res).
Proof.
  intros HE. destruct res as [[a|e] d']; cbn; [by apply HE|].
  intros [->|[a Ha]]; [apply om_view, same_view_refl | by eapply HE].
Qed.

End shapes.

(** ** Reachable databases *)

(** A call of any method with any faults, or the submission of a task. *)
Inductive calls_step `{!PgxScan} (c : callers) : db -> db -> Prop :=
| ss_op op env d : ready env 0 d -> call_ok c op d -> calls_step c d (snd (run_op op env d))
| ss_submit t r env d : ready env 0 d -> tasks d !! t = None -> calls_step c d (submit t r env d).

(** The steps of users that declare only lease holders lost. *)
Notation sstep := (calls_step HolderOnly).

(** Callers that name the holder are callers. *)
Lemma calls_any `{!PgxScan} c d d' : calls_step c d d' -> calls_step AnyWorker d d'.
Proof. destruct 1; by constructor. Qed.

(** *** Every operation *)

Section reach.
Context {c : callers} {P : PgxScan}.

Lemma select_dead_leased alive env d t :
  table_inv c d -> t ∈ fst <$> dead_rows alive env d -> is_Some (owner_of t d).
Proof.
  intros Hinv ([t' w] & -> & Hin)%list_elem_of_fmap. apply list_elem_of_filter in Hin as [_ Hin].
  apply list_elem_of_fmap in Hin as ([t0 w'] & [= -> ->] & [Ho _]%select_active_elem). by eexists.
Qed.

Context {L : PgxScanLaws P}.

(** A worker that [op_ok] lets a caller name holds the lease of an active task. *)
Lemma call_ok_active t w msg d s :
  call_ok HolderOnly (OpMarkWorkerLost t w msg) d -> latest_status t d = Some s -> active_status s ->
  table_inv HolderOnly d -> leased_to t w d.
Proof.
  intros [Hnone|Hown] Hs Ha Hinv; [|done]. destruct (abs_latest _ _ _ Hinv Hs) as (o & f & m & Hab & Ho).
  rewrite Hnone in Ho. subst o. by destruct (ai_active _ (active_inv _ _ _ _ _ _ Hinv Hab) Ha).
Qed.

Lemma run_op_moves op env d :
  table_inv c d -> ready env 0 d -> call_ok c op d -> op_moves c op d (snd (run_op op env d)).
Proof.
  intros Hinv Hr Hop. destruct op; cbn [run_op reply snd].
  - eapply moves_all_or_nothing; [|apply ClaimQueued_spec]. intros ts d' He.
    destruct (ClaimQueued_ok _ _ _ _ _ _ Hinv Hr He) as [Hnd Hm]. destruct He as [_ Hrows _].
    eapply om_each; [done| |done].
    rewrite (scan_rows_fmap _ fst TaskID _ _ scan_task_id Hrows). apply Forall_fmap, Forall_forall.
    intros [t r] (Ht & Hc & _)%claim_queued_elem. by eapply claimable_queued.
  - rewrite (proj1 (ActiveLeases_spec env d)). apply om_view, same_view_refl.
  - eapply moves_all_or_nothing; [|apply RenewLease_spec]. cbv beta.
    intros _ d' (Ht & Hs & Ho)%RenewLease_same. by apply om_view.
  - eapply moves_all_or_nothing; [|apply MarkAssigned_spec]. cbv beta. intros _ d' He.
    eapply moves_one; [split; [done | apply He] | by eapply MarkAssigned_ok].
  - eapply moves_all_or_nothing; [|apply MarkRunning_spec]. cbv beta. intros _ d' He.
    eapply moves_one; [split; [done | apply check_owner, He] | by eapply MarkRunning_ok].
  - eapply moves_all_or_nothing; [|apply MarkCompleted_spec]. cbv beta. intros _ d' He.
    eapply moves_one; [split; [done | apply check_owner, He] | by eapply MarkCompleted_ok].
  - eapply moves_all_or_nothing; [|apply MarkFailed_spec]. cbv beta. intros _ d' He.
    eapply moves_one; [split; [done | apply check_owner, He] | by eapply MarkFailed_ok].
  - eapply moves_all_or_nothing; [|apply MarkWorkerLost_spec]. cbv beta. intros _ d' [(s & Hs & Ha) _ ->].
    destruct (decide (owner_of t d = Some (int64 w))) as [Hown|Hno].
    + eapply moves_one; [split; [done | by left] | by eapply lose_task_ok].
    + assert (c = AnyWorker) as Hc.
      { destruct c; [done|]. destruct (call_ok_active t w msg d s Hop Hs Ha Hinv). done. }
      eapply moves_one; [split; [done | by right] | by eapply misnamed_ok].
  - eapply moves_all_or_nothing; [|apply RecoverExpiredLeases_spec]. intros k d' He.
    eapply om_each; [apply select_expired_NoDup| |by eapply RecoverExpired_ok].
    apply Forall_forall. intros t ([t' w] & -> & (l & Hl & _)%select_expired_elem)%list_elem_of_fmap.
    cbn. unfold owner_of. rewrite Hl. by eexists.
  - eapply moves_all_or_nothing; [|apply RecoverDeadWorkerLeases_spec]. intros k d' He.
    destruct (RecoverDead_ok _ _ _ _ _ _ Hinv Hr He) as [Hnd Hm]. eapply om_each; [done| |done].
    apply Forall_forall. intros t Ht. by eapply select_dead_leased.
  - eapply moves_all_or_nothing; [|apply RecoverStaleScheduling_spec]. intros k d' He.
    eapply om_each; [apply select_stale_NoDup| |by eapply RecoverStaleScheduling_ok].
    apply Forall_forall. by intros t (_ & Hs & _)%select_stale_elem.
Qed.

Lemma run_op_refines op env d :
  table_inv c d -> ready env 0 d -> call_ok c op d -> refines c d (snd (run_op op env d)).
Proof. intros Hinv Hr Hop. eapply refines_moves; [done|]. by apply run_op_moves. Qed.

(** A task the operation does not touch is as it was. *)
Lemma untouched op d d' t :
  table_inv c d -> op_moves c op d d' -> ~ touches c op d t -> abs d' t = abs d t.
Proof.
  intros Hinv [[Ht Hs Ho]|ts _ Hall Hm] Hno.
  - apply (table_inv_same d d' Ht Hs Ho Hinv).
  - eapply moves_each_other; [done|]. rewrite Forall_forall in Hall. auto.
Qed.

(** *** Every step *)

Lemma rows_known d t : table_inv c d -> tasks d !! t = None -> rows_of t d = [].
Proof.
  intros Hinv Ht. destruct (rows_of t d) as [|r rs] eqn:Hr; [done|].
  assert (Hin : r ∈ rows_of t d) by (rewrite Hr; by left).
  apply list_elem_of_filter in Hin as [Hid Hin].
  apply (proj1 (Forall_forall _ _) (si_rows _ Hinv)) in Hin. rewrite Hid, Ht in Hin. by destruct Hin.
Qed.

Lemma lease_known d t : table_inv c d -> tasks d !! t = None -> leases d !! t = None.
Proof.
  intros Hinv Ht. destruct (leases d !! t) as [l|] eqn:Hl; [|done].
  destruct (si_leases _ Hinv _ _ Hl) as [[a (r & Hr & _)%abs_some] _]. congruence.
Qed.

(** The new task is queued, the others are as they were. *)
Lemma submit_abs t r env d :
  table_inv c d -> ready env 0 d -> tasks d !! t = None ->
  abs (submit t r env d) t = Some (mkATask StateQueued None 0 (t_max_retries r)) /\
  history t (submit t r env d) = [StateQueued] /\
  forall t', t' <> t -> abs (submit t r env d) t' = abs d t' /\ history t' (submit t r env d) = history t' d.
Proof.
  intros Hinv Hr Ht. unfold submit. set (d1 := mkDb _ _ _).
  assert (Hr1 : ready env 0 d1) by (destruct Hr; by split).
  assert (Hc1 : chronological d1) by apply Hinv.
  assert (Hrows : rows_of t d1 = []) by (by apply (rows_known d)).
  split_and!.
  - rewrite (abs_add _ _ _ _ _ _ _ r) by (done || apply lookup_insert_eq).
    unfold owner_of. cbn [leases d1]. rewrite (lease_known d) by done.
    unfold failed_count. by rewrite Hrows.
  - rewrite history_add. unfold history. by rewrite Hrows.
  - intros t' Hne. rewrite (same_except_abs t d1), (same_except_history t d1) by auto with pibully.
    split; [|done]. unfold abs, d1. cbn [tasks]. by rewrite lookup_insert_ne.
Qed.

Lemma submit_inv t r env d :
  table_inv c d -> ready env 0 d -> tasks d !! t = None -> table_inv c (submit t r env d).
Proof.
  intros Hinv Hr Ht. destruct (submit_abs t r env d Hinv Hr Ht) as (Ha & Hh & Hother).
  assert (Hr1 : ready env 0 (mkDb (<[t := r]> (tasks d)) (statuses d) (leases d))) by (destruct Hr; by split).
  split.
  - apply chron_add; [done | apply Hinv].
  - cbn. constructor; [cbn; by rewrite lookup_insert_eq|]. eapply Forall_impl; [apply Hinv|]. cbn.
    intros x Hx. destruct (decide (s_task_id x = t)) as [->|Hne]; [by rewrite lookup_insert_eq | by rewrite lookup_insert_ne].
  - cbn. intros t' l Hl. destruct (decide (t' = t)) as [->|Hne]; [by rewrite (lease_known d) in Hl|].
    rewrite (proj1 (Hother t' Hne)). by apply Hinv.
  - intros t' a. destruct (decide (t' = t)) as [->|Hne].
    + rewrite Ha. intros [= <-]. split; unfold active_status; cbn; try done; try lia; try naive_solver.
    + rewrite (proj1 (Hother t' Hne)). apply Hinv.
  - intros t'. destruct (decide (t' = t)) as [->|Hne]; [by rewrite Hh|].
    rewrite (proj2 (Hother t' Hne)). apply Hinv.
Qed.

Lemma empty_inv : table_inv c empty_db.
Proof. split; cbn; try constructor; try done. Qed.

(** Every task has a status. *)
Definition started (d : db) : Prop := forall t, is_Some (tasks d !! t) -> is_Some (abs d t).

Lemma sstep_inv d d' : calls_step c d d' -> table_inv c d -> started d -> table_inv c d' /\ started d'.
Proof.
  intros Hs Hinv Hst. destruct Hs as [op env d Hr Hop | t r env d Hr Ht].
  - destruct (run_op_refines op env d Hinv Hr Hop) as [Hinv' Ht Hsteps _]. split; [done|].
    intros t. rewrite Ht. intros [a Ha]%Hst. destruct (Hsteps t) as [->|(x & x' & _ & -> & _)]; by eexists.
  - split; [by apply submit_inv|]. destruct (submit_abs t r env d Hinv Hr Ht) as (Ha & _ & Hother).
    intros t' Ht'. destruct (decide (t' = t)) as [->|Hne]; [rewrite Ha; by eexists|].
    rewrite (proj1 (Hother t' Hne)). apply Hst. cbn in Ht'. by rewrite lookup_insert_ne in Ht'.
Qed.

Lemma reachable_inv d d' : rtc (calls_step c) d d' -> table_inv c d -> started d -> table_inv c d' /\ started d'.
Proof. induction 1 as [|d d1 d2 Hs _ IH]; [done|]. intros Hinv Hst. destruct (sstep_inv _ _ Hs Hinv Hst). auto. Qed.

Lemma empty_reach d : rtc (calls_step c) empty_db d -> table_inv c d /\ started d.
Proof. intros H. eapply reachable_inv; [exact H | apply empty_inv|]. intros t [r Hr]. done. Qed.

Definition finished (s : TaskState) : Prop := s = StateCompleted \/ s = StateFailed.

Lemma sstep_finished d d' t s :
  calls_step c d d' -> table_inv c d -> latest_status t d = Some s -> finished s -> history t d' = history t d.
Proof.
  intros Hs Hinv Hl Hf. destruct (abs_latest _ _ _ Hinv Hl) as (o & f & m & Ha & _).
  destruct Hs as [op env d Hr Hop | t0 r env d Hr Ht].
  - eapply rf_same; [by apply run_op_refines | exact Ha | exact Hf].
  - destruct (submit_abs t0 r env d Hinv Hr Ht) as (_ & _ & Hother). apply Hother. intros ->.
    destruct (latest_task _ _ _ Hinv Hl). congruence.
Qed.

Lemma reach_finished d d' t s :
  rtc (calls_step c) d d' -> table_inv c d -> started d -> latest_status t d = Some s -> finished s ->
  history t d' = history t d.
Proof.
  induction 1 as [|d d1 d2 Hs _ IH]; [done|]. intros Hinv Hst Hl Hf.
  pose proof (sstep_finished _ _ _ _ Hs Hinv Hl Hf) as Hh.
  destruct (sstep_inv _ _ Hs Hinv Hst) as [Hinv1 Hst1]. rewrite IH; [done..| |done].
  rewrite latest_head, Hh, <- latest_head by apply Hinv1 || apply Hinv. done.
Qed.

(** A finished task has no lease. *)
Lemma finished_unleased d t s :
  table_inv c d -> latest_status t d = Some s -> finished s -> leases d !! t = None.
Proof.
  intros Hinv Hl Hs. destruct (abs_latest _ _ _ Hinv Hl) as (o & f & m & Ha & Ho).
  destruct (leases d !! t) as [l|] eqn:Hle; [|done]. exfalso. unfold owner_of in Ho. rewrite Hle in Ho. cbn in Ho. subst o.
  destruct (ai_leased _ (active_inv _ _ _ _ _ _ Hinv Ha) ltac:(by eexists)) as [Hc|[_ Hc]];
    unfold active_status in Hc; cbn in Hc; destruct Hs; naive_solver.
Qed.

End reach.

(** ** Properties *)

Section properties.
Context {P : PgxScan} {L : PgxScanLaws P}.

(** C2: every call of the store, with any arguments, faults and locked rows, refines the
    abstract tasks: the invariant of the tables is kept, no task appears or
    disappears, and each task is unchanged or moves by one step of [astep].  With
    [AnyWorker] this is said of every call there is: a MarkWorkerLost that names a
    worker other than the lease holder queues the task and leaves its lease, a step
    of its own.  With [HolderOnly], for calls that do not do that ([call_ok]), the
    invariant is the stronger one in which only ASSIGNED and RUNNING tasks have a
    lease. *)
Theorem store_refines_lifecycle (c : callers) (op : store_op) (env : txenv) (d : db) :
  table_inv c d -> ready env 0 d -> call_ok c op d ->
  let d' := snd (run_op op env d) in
  table_inv c d' /\ tasks d' = tasks d /\ forall t, astep_opt c (abs d t) (abs d' t).
Proof. intros Hinv Hr Hop. destruct (run_op_refines op env d Hinv Hr Hop). auto. Qed.

(** C1: in every database reachable by submissions and calls of the store's methods, with
    any arguments and any faults ([AnyWorker]), the statuses of each task form a path
    of [allowed] that starts at QUEUED; a task has a lease while it is ASSIGNED or
    RUNNING and none once it is COMPLETED or FAILED; a task being scheduled or worked
    on has a retry left, no task fails more often than max_retries, and one that
    stays FAILED used them all.  If every MarkWorkerLost so far named the holder of
    the lease ([HolderOnly]), a QUEUED or SCHEDULING task has no lease either, and
    the path has no arrow from these two to WORKER_LOST. *)
Theorem reachable_tasks (c : callers) (d : db) :
  rtc (calls_step c) empty_db d ->
  forall t r, tasks d !! t = Some r ->
  exists s h,
    history t d = s :: h /\ latest_status t d = Some s /\ lifecycle_path c (s :: h) = true /\
    (s = StateAssigned \/ s = StateRunning -> is_Some (leases d !! t)) /\
    (is_Some (leases d !! t) ->
       s = StateAssigned \/ s = StateRunning \/
       c = AnyWorker /\ (s = StateQueued \/ s = StateScheduling)) /\
    (s = StateScheduling \/ s = StateAssigned \/ s = StateRunning -> failed_count t d < t_max_retries r) /\
    failed_count t d <= Z.max 0 (t_max_retries r) /\
    (s = StateFailed -> failed_count t d = t_max_retries r).
Proof.
  intros [Hinv Hst]%empty_reach t r Hr. destruct (Hst t ltac:(by eexists)) as [a Ha].
  pose proof (si_tasks _ Hinv _ _ Ha) as [Hact Ho _ Hb Hf He].
  apply abs_some in Ha as (r' & Hr' & Hl & Hown & Hfc & Hm). assert (r' = r) as -> by congruence.
  destruct (history_latest _ _ _ (si_chron _ Hinv) Hl) as [h Hh].
  assert (Hle : is_Some (leases d !! t) <-> is_Some (a_owner a))
    by (rewrite <- Hown; unfold owner_of; by rewrite fmap_is_Some).
  exists (a_status a), h. rewrite Hfc, Hm, Hle. unfold active_status, strays in *.
  split_and!; [done | done | rewrite <- Hh; apply Hinv | exact Hact | | exact Hb | apply Hf | exact He].
  intros [[?|?]|?]%Ho; auto.
Qed.

(** C11: a task that is COMPLETED, or FAILED with its retries used up, is never touched
    again: whatever calls follow, its history does not grow and it has no lease. *)
Theorem finished_tasks_stay (c : callers) (d d' : db) (t : Z) (s : TaskState) :
  rtc (calls_step c) empty_db d -> rtc (calls_step c) d d' -> latest_status t d = Some s ->
  s = StateCompleted \/ s = StateFailed ->
  history t d' = history t d /\ leases d' !! t = None.
Proof.
  intros [Hinv Hst]%empty_reach Hd' Hl Hs. pose proof (reach_finished _ _ _ _ Hd' Hinv Hst Hl Hs) as Hh.
  split; [done|]. destruct (reachable_inv _ _ Hd' Hinv Hst) as [Hinv' _].
  eapply finished_unleased; [exact Hinv'| |exact Hs].
  rewrite latest_head, Hh, <- latest_head by apply Hinv' || apply Hinv. done.
Qed.

End properties.
