(* ===== verification/TaskFunctional.v ===== *)
(** * The task store without faults

    When each method succeeds, and with what result: the counterpart of
    TaskTx.v, which says what a method has done when it succeeded. *)

From S2P Require Import Prelude Cluster TaskStore TaskTx TaskLifecycle TaskRefine TaskAtomic.

Section yields.
Context (env : txenv).

(** Without faults, the program returns [a] and leaves [d'] and [n'] ids drawn. *)
Definition yields {A} (m : tx A) (d : db) (n : nat) (a : A) (d' : db) (n' : nat) : Prop :=
  m env (mkTxSt d n [] None) = (Ok a, mkTxSt d' n' [] None).

Lemma yields_bind {A B} (m : tx A) (f : A -> tx B) d n a d1 n1 :
  yields m d n a d1 n1 -> tx_bind m f env (mkTxSt d n [] None) = f a env (mkTxSt d1 n1 [] None).
Proof. unfold yields. rewrite run_tx_bind. by intros ->. Qed.

Lemma yields_wrap {A} fmt args (m : tx A) d n a d' n' :
  yields m d n a d' n' -> yields (tx_wrap fmt args m) d n a d' n'.
Proof. unfold yields. rewrite run_tx_wrap. by intros ->. Qed.

Lemma yields_call d n : yields tx_call d n tt d n.
Proof. done. Qed.

Lemma yields_get {A} (q : txenv -> db -> A) d n : yields (tx_get q) d n (q env d) d n.
Proof. done. Qed.

Lemma yields_insertStatus t s w msg d n :
  ready env n d -> is_Some (tasks d !! t) ->
  yields (insertStatus t s w msg) d n tt (add_status env n t s w msg d) (S n).
Proof.
  intros [_ Hr] Ht. unfold insertStatus. apply yields_wrap. unfold yields. cbn.
  rewrite (bool_decide_eq_true_2 (is_Some _)), (bool_decide_eq_false_2 (tx_uuid env n ∈ _)); [done| |done].
  intros (r & Hid & Hin)%list_elem_of_fmap. rewrite Forall_forall in Hr. apply Hr in Hin. lia.
Qed.

Lemma yields_add_each {A} (f : A -> Z) fmt args s w msg l : forall d n,
  ready env n d -> Forall (fun a => is_Some (tasks d !! f a)) l ->
  yields (tx_iter (fun a => tx_wrap fmt (args a) (insertStatus (f a) s w msg)) l) d n tt
    (add_each env n (f <$> l) s w msg d) (n + length l).
Proof.
  induction l as [|a l IH]; intros d n Hr Hall; cbn [tx_iter length fmap list_fmap add_each].
  - by rewrite Nat.add_0_r.
  - apply Forall_cons in Hall as [Ha Hall]. unfold yields.
    erewrite yields_bind by (by apply yields_wrap, yields_insertStatus).
    rewrite Nat.add_succ_r, <- Nat.add_succ_l. apply IH; [by apply ready_add | done].
Qed.

Lemma yields_lose_each name msg l : forall d n,
  ready env n d -> Forall (fun a => is_Some (tasks d !! fst a)) l ->
  yields (tx_iter (recover_lease name msg) l) d n tt (lose_each env n l msg d) (n + 2 * length l).
Proof.
  induction l as [|[t w] l IH]; intros d n Hr Hall; cbn [tx_iter length lose_each fst snd].
  - by rewrite Nat.mul_0_r, Nat.add_0_r.
  - apply Forall_cons in Hall as [Ha Hall]. unfold yields.
    erewrite (yields_bind (recover_lease name msg (t, w)) _ d n tt (lose_task env n t w msg d) (S (S n))).
    + replace (n + 2 * S (length l))%nat with (S (S n) + 2 * length l)%nat by lia.
      apply IH; [by apply ready_lose | by rewrite tasks_lose_task].
    + unfold recover_lease, yields. cbn [fst snd].
      erewrite yields_bind by (by apply yields_wrap, yields_insertStatus).
      erewrite yields_bind by (apply yields_wrap; done).
      apply yields_wrap, yields_insertStatus; [by apply ready_delete, ready_add | by rewrite tasks_delete_lease].
Qed.

(** A method whose body, begun on [d], commits [d']. *)
Lemma with_tx_commits {A} name (body : tx A) d d' a :
  tx_faults env = [] ->
  (exists n fs, body env (mkTxSt d 0 [] None) = (Ok a, mkTxSt d' n fs (Some d'))) ->
  with_tx name body env d = (Ok a, d').
Proof.
  intros Hf (n & fs & Hb). unfold with_tx, begin_tx. rewrite Hf.
  erewrite yields_bind by (apply yields_wrap, yields_call). by rewrite Hb.
Qed.

Lemma with_tx_returns {A} name (body : tx A) d r st :
  tx_faults env = [] -> body env (mkTxSt d 0 [] None) = (r, st) -> committed st = None ->
  with_tx name body env d = (r, d).
Proof.
  intros Hf Hb Hc. unfold with_tx, begin_tx. rewrite Hf.
  erewrite yields_bind by (apply yields_wrap, yields_call). by rewrite Hb, Hc.
Qed.

End yields.

(** ** Claiming *)

#[export] Instance claim_leb_trans : Transitive (leb_rel claim_leb).
Proof.
  intros x y z. unfold leb_rel, claim_leb.
  rewrite !orb_true_iff, !andb_true_iff, !Z.ltb_lt, !Z.eqb_eq, !Z.leb_le. lia.
Qed.

#[export] Instance claim_leb_total : Total (leb_rel claim_leb).
Proof.
  intros x y. unfold leb_rel, claim_leb.
  rewrite !orb_true_iff, !andb_true_iff, !Z.ltb_lt, !Z.eqb_eq, !Z.leb_le. lia.
Qed.

(** The unlocked tasks that can be claimed, oldest first. *)
Definition claim_list (env : txenv) (d : db) : list (Z * task_row) :=
  filter (fun p => fst p ∉ tx_locked env)
    (sort_by claim_leb (filter (fun p => claimable d p = true) (map_to_list (tasks d)))).

Lemma claim_list_elem env d t r :
  (t, r) ∈ claim_list env d <->
  tasks d !! t = Some r /\ claimable d (t, r) = true /\ t ∉ tx_locked env.
Proof.
  unfold claim_list.
  rewrite list_elem_of_filter, elem_of_sort_by, list_elem_of_filter, elem_of_map_to_list. cbn. tauto.
Qed.

Lemma claim_list_sorted env d : StronglySorted (leb_rel claim_leb) (claim_list env d).
Proof. apply StronglySorted_filter, sort_by_sorted; apply _. Qed.

(** What is taken from a sorted list comes before what is left, and nothing is left
    unless the limit is reached. *)
Lemma take_sorted {A} (R : relation A) (n : nat) (l : list A) x :
  StronglySorted R l -> x ∈ l -> x ∉ take n l ->
  length (take n l) = n /\ Forall (fun y => R y x) (take n l).
Proof.
  intros Hs Hin Hni. rewrite <- (take_drop n l) in Hs, Hin.
  apply elem_of_app in Hin as [?|Hin]; [done|]. split.
  - apply length_take_le. destruct (Nat.le_gt_cases n (length l)) as [|Hlt]; [done|].
    rewrite drop_ge in Hin by lia. by apply elem_of_nil in Hin.
  - apply Forall_forall. intros y Hy. by eapply StronglySorted_app_1_elem_of.
Qed.

Section claim.
Context {P : PgxScan}.

(** The Go value of a row. *)
Definition task_of (p : Z * task_row) : Task :=
  mkTask (fst p) (t_executable (snd p)) (default EmptyString (t_input_uri (snd p)))
    (default EmptyString (t_output_uri (snd p))) (t_args (snd p)) (t_max_retries (snd p))
    (t_created_at (snd p)).

Definition has_uris (r : task_row) : Prop := is_Some (t_input_uri r) /\ is_Some (t_output_uri r).

Lemma ClaimQueued_yields sched batch env d ts :
  tx_faults env = [] -> ready env 0 d -> 0 <= batch ->
  scan_rows scan_task (claim_queued batch env d) = Ok ts ->
  ClaimQueued sched batch env d =
    (Ok ts, add_each env 0 (TaskID <$> ts) StateScheduling (Some sched) EmptyString d).
Proof.
  intros Hf Hr Hb Hts.
  assert (Hknown : Forall (fun t => is_Some (tasks d !! TaskID t)) ts).
  { cut (Forall (fun t => is_Some (tasks d !! t)) (TaskID <$> ts)); [intros Hall; exact (proj1 (Forall_fmap _ _ _) Hall)|].
    rewrite (scan_rows_fmap _ fst TaskID _ _ scan_task_id Hts). apply Forall_fmap, Forall_forall.
    intros p (Ht & _)%claim_queued_elem. by eexists. }
  unfold ClaimQueued, ClaimQueued_tx. destruct ts as [|t ts].
  - cbn [fmap list_fmap add_each]. eapply with_tx_returns; [done|..].
    + erewrite yields_bind by (apply yields_wrap; unfold yields; erewrite yields_bind by apply yields_call;
        rewrite (proj2 (Z.ltb_ge batch 0)) by done; apply yields_get).
      rewrite Hts. done.
    + done.
  - eapply with_tx_commits; [done|]. do 2 eexists.
    erewrite yields_bind by (apply yields_wrap; unfold yields; erewrite yields_bind by apply yields_call;
        rewrite (proj2 (Z.ltb_ge batch 0)) by done; apply yields_get).
    rewrite Hts. erewrite yields_bind by (apply yields_wrap; done).
    erewrite yields_bind by (apply yields_wrap, yields_call).
    erewrite yields_bind by (by apply (yields_add_each env TaskID _ (fun t => [FInt (TaskID t)]))).
    done.
Qed.

Context {L : PgxScanLaws P}.

Lemma scan_task_uris p : has_uris (snd p) -> scan_task p = Ok (task_of p).
Proof.
  intros [[i Hi] [o Ho]]. unfold scan_task, task_of. rewrite Hi, Ho, !scan_text_some. done.
Qed.

Lemma scan_tasks_uris rows :
  Forall (fun p => has_uris (snd p)) rows -> scan_rows scan_task rows = Ok (task_of <$> rows).
Proof.
  induction 1 as [|p rows Hp _ IH]; [done|]. cbn [scan_rows]. rewrite scan_task_uris by done.
  cbn. by rewrite IH.
Qed.

Lemma scan_task_null p :
  ~ has_uris (snd p) -> is_ok (scan_task p) = false.
Proof.
  intros Hn. unfold scan_task. destruct (t_input_uri (snd p)) as [i|] eqn:Hi.
  - rewrite scan_text_some. cbn. destruct (t_output_uri (snd p)) as [o|] eqn:Ho.
    + destruct Hn. unfold has_uris. rewrite Hi, Ho. split; by eexists.
    + pose proof scan_text_null as Hnull. by destruct (scan_text None).
  - pose proof scan_text_null as Hnull. by destruct (scan_text None).
Qed.

Lemma scan_rows_fails {R A} (scan : R -> result A) rows r :
  r ∈ rows -> is_ok (scan r) = false -> is_ok (scan_rows scan rows) = false.
Proof.
  intros Hin Hr. induction Hin as [r rows|r r0 rows Hin IH]; cbn.
  - by destruct (scan r).
  - destruct (scan r0); [|done]. cbn. specialize (IH Hr). by destruct (scan_rows scan rows).
Qed.

Lemma latest_moved ts d d' t s :
  moves_each HolderOnly ts d d' -> NoDup ts -> t ∈ ts -> (forall a a', abs d t = Some a -> astep HolderOnly a a' -> a_status a' = s) ->
  latest_status t d' = Some s.
Proof.
  intros Hm Hnd Hin Hs. destruct (moves_each_in _ _ _ _ Hm Hnd Hin) as (a & a' & Ha & Ha' & Hst).
  apply abs_some in Ha' as (r & _ & Hl & _). by rewrite Hl, (Hs a a').
Qed.

Lemma latest_unmoved ts d d' t :
  moves_each HolderOnly ts d d' -> store_inv d -> t ∉ ts -> latest_status t d' = latest_status t d.
Proof.
  intros Hm Hinv Hni. pose proof (moves_each_inv _ _ _ Hm Hinv) as Hinv'.
  rewrite !latest_head by apply Hinv' || apply Hinv. by rewrite (proj2 (moves_each_other _ _ _ _ Hm Hni)).
Qed.

(** A task was created before another, or at the same time with a smaller id. *)
Definition before (x : Task) (t : Z) (r : task_row) : Prop :=
  CreatedAt x < t_created_at r \/ CreatedAt x = t_created_at r /\ TaskID x <= t.

(** What ClaimQueued did when it returned [ts]: at most [batch] different tasks, each
    queued, with a retry left, not locked by another transaction, and now SCHEDULING;
    a task that could have been claimed and was not is left as it was, only because
    the batch is full, and every task of the batch is older. *)
Record claimed_oldest (batch : Z) (env : txenv) (d : db) (ts : list Task) (d' : db) : Prop := {
  co_distinct : NoDup (TaskID <$> ts);
  co_batch : Z.of_nat (length ts) <= batch;
  co_claimed : Forall (fun x => exists r,
    tasks d !! TaskID x = Some r /\ x = task_of (TaskID x, r) /\ TaskID x ∉ tx_locked env /\
    latest_status (TaskID x) d = Some StateQueued /\ failed_count (TaskID x) d < MaxRetries x /\
    latest_status (TaskID x) d' = Some StateScheduling) ts;
  co_left : forall t r, tasks d !! t = Some r -> claimable d (t, r) = true -> t ∉ tx_locked env ->
    t ∉ TaskID <$> ts ->
    Z.of_nat (length ts) = batch /\ latest_status t d' = Some StateQueued /\
    Forall (fun x => before x t r) ts;
}.

Lemma claim_succeeds (sched batch : Z) (env : txenv) (d : db) :
  tx_faults env = [] -> store_inv d -> ready env 0 d -> 0 <= batch ->
  Forall (fun p => has_uris (snd p)) (claim_queued batch env d) ->
  exists ts d', ClaimQueued sched batch env d = (Ok ts, d') /\ claimed_oldest batch env d ts d'.
Proof.
  intros Hf Hinv Hr Hb Hrows.
  set (rows := claim_queued batch env d).
  pose proof (scan_tasks_uris rows Hrows) as Hscan.
  pose proof (ClaimQueued_yields sched batch env d _ Hf Hr Hb Hscan) as Hy.
  destruct (ClaimQueued_ok sched batch env d _ _ Hinv Hr ltac:(by split))
    as [Hnd Hm].
  assert (Hlen : length (task_of <$> rows) = length (take (Z.to_nat batch) (claim_list env d)))
    by apply length_fmap.
  do 2 eexists. split; [exact Hy|]. split; [done | rewrite Hlen, length_take; lia | |].
  - apply Forall_fmap, Forall_forall. intros [t r] Hin. cbn.
    pose proof (claim_queued_elem _ _ _ _ Hin) as (Ht & Hc & Hk). cbn [fst snd] in *.
    exists r. pose proof (claimable_queued _ _ _ Hinv Ht Hc) as Hq.
    split_and!; [done..| |].
    + unfold claimable in Hc. cbn [fst snd] in Hc. rewrite Hq in Hc.
      apply andb_true_iff in Hc as [_ Hc%Z.ltb_lt]. done.
    + eapply latest_moved; [exact Hm | done| |].
      * apply list_elem_of_fmap. exists (task_of (t, r)). split; [done|]. by apply list_elem_of_fmap_2.
      * intros a a' (r' & _ & Hl & _)%abs_some Hst. rewrite Hq in Hl.
        destruct Hst; cbn in Hl; simplify_eq; cbn; try done; unfold active_status, strays in *; naive_solver.
  - intros t r Ht Hc Hk Hni.
    destruct (take_sorted _ (Z.to_nat batch) _ (t, r) (claim_list_sorted env d)) as [Hfull Hall].
    + by apply claim_list_elem.
    + intros Hin. apply Hni. apply list_elem_of_fmap. exists (task_of (t, r)). split; [done|].
      by apply list_elem_of_fmap_2.
    + split; [rewrite Hlen, Hfull; lia|]. split.
      * rewrite (latest_unmoved _ _ _ _ Hm Hinv Hni). by eapply claimable_queued.
      * apply Forall_fmap. eapply Forall_impl; [exact Hall|]. intros [t' r'] Hle.
        unfold leb_rel, claim_leb in Hle. cbn in *. unfold before. cbn.
        rewrite orb_true_iff, andb_true_iff, Z.ltb_lt, Z.eqb_eq, Z.leb_le in Hle. lia.
Qed.

(** A queued task without an input or output URI, which the schema allows, makes
    ClaimQueued fail as long as it is within the oldest batchSize claimable
    tasks: no task of the batch is claimed, and the database does not change. *)
Lemma null_uri_blocks_claims (sched batch : Z) (env : txenv) (d : db) (t : Z) (r : task_row) :
  (t, r) ∈ take (Z.to_nat batch) (claim_list env d) -> ~ has_uris r ->
  is_ok (fst (ClaimQueued sched batch env d)) = false /\ snd (ClaimQueued sched batch env d) = d.
Proof.
  intros Hin Hn.
  assert (Hfail : is_ok (scan_rows scan_task (claim_queued batch env d)) = false)
    by (eapply scan_rows_fails; [exact Hin | by apply scan_task_null]).
  pose proof (ClaimQueued_spec sched batch env d) as Hs.
  destruct (ClaimQueued sched batch env d) as [[ts|e] d']; cbn in *.
  - destruct Hs as [_ Hs _]. by rewrite Hs in Hfail.
  - split; [done|]. destruct Hs as [->|[ts [_ Hs _]]]; [done|]. by rewrite Hs in Hfail.
Qed.

(** C23: ClaimQueued without faults.  When the unlocked claimable tasks it selects, the
    oldest batchSize of them, all have an input and an output URI, it returns them as
    [claimed_oldest] says; when one of them lacks a URI, which the schema allows, it
    fails and changes nothing. *)
Theorem claim_oldest_first (sched batch : Z) (env : txenv) (d : db) :
  tx_faults env = [] -> store_inv d -> ready env 0 d -> 0 <= batch ->
  (Forall (fun p => has_uris (snd p)) (claim_queued batch env d) ->
   exists ts d', ClaimQueued sched batch env d = (Ok ts, d') /\ claimed_oldest batch env d ts d') /\
  (forall t r, (t, r) ∈ claim_queued batch env d -> ~ has_uris r ->
   is_ok (fst (ClaimQueued sched batch env d)) = false /\ snd (ClaimQueued sched batch env d) = d).
Proof.
  intros Hf Hinv Hr Hb. split; [by apply claim_succeeds|].
  intros t r Hin Hn. by eapply null_uri_blocks_claims.
Qed.

End claim.
