(* ===== verification/TaskRecovery.v ===== *)
(** * Recovery and fencing

    What the three recovery methods achieve without faults, and what the lease
    check of the workers' methods excludes with any faults. *)

From S2P Require Import Prelude Cluster TaskStore TaskTx TaskLifecycle TaskRefine TaskAtomic TaskFunctional.

(** ** Leases taken away *)

(** The task is queued again, without a lease and without a failure on its account. *)
Record requeued (t : Z) (d d' : db) : Prop := {
  rq_status : latest_status t d' = Some StateQueued;
  rq_lease : leases d' !! t = None;
  rq_failed : failed_count t d' = failed_count t d;
}.

Lemma owner_None d t : owner_of t d = None -> leases d !! t = None.
Proof. unfold owner_of. by destruct (leases d !! t). Qed.

Lemma requeued_abs t d d' a :
  abs d t = Some a -> abs d' t = Some (mkATask StateQueued None (a_failed a) (a_max a)) -> requeued t d d'.
Proof.
  intros (r & _ & _ & _ & Hf & _)%abs_some (r' & _ & Hl & Ho & Hf' & _)%abs_some.
  split; [done | by apply owner_None | cbn in Hf'; congruence].
Qed.

Lemma lose_task_requeued env n t w msg d :
  store_inv d -> ready env n d -> leased_to t w d -> requeued t d (lose_task env n t w msg d).
Proof.
  intros Hinv Hr Hown. destruct (lease_latest _ _ _ Hinv Hown) as [s Hs].
  destruct (abs_leased _ _ _ _ Hinv Hs Hown) as (f & m & Ha). eapply requeued_abs; [exact Ha|].
  pose proof (abs_some _ _ _ Ha) as (r & Ht & _).
  destruct (end_work_tables env n t w StateWorkerLost msg d Hinv Hr ltac:(by eexists)) as (Hto & Hr1 & _).
  pose proof (end_work_abs env n t w s StateWorkerLost msg d f m (si_chron _ Hinv) Hr Ha) as Ha1.
  unfold lose_task. fold (end_work env n t w StateWorkerLost msg d).
  rewrite (abs_add_plain _ _ _ StateQueued None _ _ _ Hr1 (to_chron _ Hto) Ha1) by done.
  rewrite bool_decide_eq_false_2 by done. cbn. by rewrite Z.add_0_r.
Qed.

Lemma same_except_requeued t t' d0 d d' : same_except t d d' -> t' <> t -> requeued t' d0 d -> requeued t' d0 d'.
Proof.
  intros [Ht Hr Hl] Hne [H1 H2 H3]. split.
  - unfold latest_status in *. by rewrite Hr.
  - by rewrite Hl.
  - unfold failed_count in *. by rewrite Hr.
Qed.

Lemma moves_each_requeued ts t d0 d d' :
  moves_each HolderOnly ts d d' -> t ∉ ts -> requeued t d0 d -> requeued t d0 d'.
Proof.
  induction 1 as [|t0 ts d d1 d2 [Hse _] _ _ IH]; [done|]. intros [Hne Hni]%not_elem_of_cons Hq.
  apply IH; [done|]. by eapply same_except_requeued.
Qed.

Lemma moves_each_leases ts t d d' : moves_each HolderOnly ts d d' -> t ∉ ts -> leases d' !! t = leases d !! t.
Proof.
  induction 1 as [|t0 ts d d1 d2 [Hse _] _ _ IH]; [done|]. intros [Hne Hni]%not_elem_of_cons.
  rewrite IH by done. by apply (se_leases _ _ _ Hse).
Qed.

Lemma requeued_from t d d1 d' : failed_count t d1 = failed_count t d -> requeued t d1 d' -> requeued t d d'.
Proof. intros H [? ? ?]. split; congruence. Qed.

Lemma lose_each_requeued env ls msg : forall n d,
  store_inv d -> ready env n d -> NoDup (fst <$> ls) -> Forall (fun l => leased_to (fst l) (snd l) d) ls ->
  Forall (fun l => requeued (fst l) d (lose_each env n ls msg d)) ls.
Proof.
  induction ls as [|[t w] ls IH]; intros n d Hinv Hr Hnd Hall; cbn [lose_each fst snd]; [constructor|].
  apply NoDup_cons in Hnd as [Hni Hnd]. apply Forall_cons in Hall as [Hown Hall]. cbn [fst snd] in *.
  destruct (lease_latest _ _ _ Hinv Hown) as [s Hs].
  destruct (lose_task_ok env n t w msg d s Hinv Hr Hs Hown) as [Hinv1 [Hse _]].
  pose proof (leased_others _ _ _ _ Hse Hni Hall) as Hall1.
  assert (Hr1 := ready_lose env n t w msg d Hr). constructor; cbn [fst].
  - eapply moves_each_requeued; [by apply lose_each_ok | done|]. by apply lose_task_requeued.
  - specialize (IH _ _ Hinv1 Hr1 Hnd Hall1). rewrite Forall_forall in *. intros [t' w'] Hin.
    eapply requeued_from; [|by apply (IH _ Hin)]. unfold failed_count. rewrite (se_rows _ _ _ Hse); [done|].
    intros Heq. apply Hni. rewrite <- Heq. by apply (list_elem_of_fmap_2 fst _ (t', w')).
Qed.

(** ** The recovery methods without faults *)

Section recovery.
Context {P : PgxScan}.

(** A recovery method that found [ls]: begin, query, scan, the loop and the commit. *)
Lemma lose_each_commits name msg env d ls :
  ready env 0 d -> Forall (fun a => is_Some (tasks d !! fst a)) ls ->
  (tx_iter (recover_lease name msg) ls ;;*
   tx_wrap (name ++ ": commit") [] tx_commit ;;* tx_ret (Z.of_nat (length ls)))
    env (mkTxSt d 0 [] None) =
  (Ok (Z.of_nat (length ls)),
   mkTxSt (lose_each env 0 ls msg d) (2 * length ls) [] (Some (lose_each env 0 ls msg d))).
Proof. intros Hr Hall. erewrite yields_bind by (by apply yields_lose_each). done. Qed.

Lemma RecoverExpired_yields env d ls :
  tx_faults env = [] -> ready env 0 d -> Forall (fun a => is_Some (tasks d !! fst a)) ls ->
  expired_rows env d = Ok ls ->
  RecoverExpiredLeases env d = (Ok (Z.of_nat (length ls)), lose_each env 0 ls "lease expired" d).
Proof.
  intros Hf Hr Hall Hls. unfold expired_rows in Hls. unfold RecoverExpiredLeases, RecoverExpiredLeases_tx. destruct ls as [|l ls].
  - cbn [lose_each]. eapply with_tx_returns; [done|..].
    + erewrite yields_bind by (apply yields_wrap, yields_call). erewrite yields_bind by apply yields_get.
      rewrite Hls. done.
    + done.
  - eapply with_tx_commits; [done|]. do 2 eexists. erewrite yields_bind by (apply yields_wrap, yields_call).
    erewrite yields_bind by apply yields_get. rewrite Hls.
    erewrite yields_bind by (apply yields_wrap; done).
    erewrite yields_bind by (apply yields_wrap, yields_call).
    by apply (lose_each_commits "recover expired leases").
Qed.

Lemma RecoverDead_yields alive env d :
  tx_faults env = [] -> ready env 0 d -> Forall (fun a => is_Some (tasks d !! fst a)) (dead_rows alive env d) ->
  RecoverDeadWorkerLeases alive env d =
    (Ok (Z.of_nat (length (dead_rows alive env d))),
     lose_each env 0 (dead_rows alive env d) "worker not alive during leader recovery" d).
Proof.
  intros Hf Hr Hall. unfold RecoverDeadWorkerLeases, RecoverDeadWorkerLeases_tx. destruct (dead_rows alive env d) as [|l ls] eqn:Hd.
  - cbn [lose_each]. eapply with_tx_returns; [done|..].
    + erewrite yields_bind by (apply yields_wrap, yields_call). erewrite yields_bind by apply yields_get.
      cbv zeta. fold (dead_rows alive env d). rewrite Hd. done.
    + done.
  - eapply with_tx_commits; [done|]. do 2 eexists. erewrite yields_bind by (apply yields_wrap, yields_call).
    erewrite yields_bind by apply yields_get. cbv zeta. fold (dead_rows alive env d). rewrite Hd.
    erewrite yields_bind by (apply yields_wrap, yields_call).
    by apply (lose_each_commits "recover dead worker leases").
Qed.


Lemma lease_task_known d t l : store_inv d -> leases d !! t = Some l -> is_Some (tasks d !! t).
Proof.
  intros Hinv Hl. destruct (si_leases _ Hinv _ _ Hl) as [[a (r & Hr & _)%abs_some] _]. by eexists.
Qed.

Lemma dead_rows_leased alive env d :
  store_inv d ->
  NoDup (fst <$> dead_rows alive env d) /\ Forall (fun l => leased_to (fst l) (snd l) d) (dead_rows alive env d).
Proof.
  intros Hinv. split.
  - apply NoDup_fst_filter. rewrite <- list_fmap_compose. apply select_active_NoDup.
  - apply Forall_forall. intros [t w] Hin. apply list_elem_of_filter in Hin as [_ Hin].
    apply list_elem_of_fmap in Hin as ([t' w'] & [= -> ->] & Hin).
    apply select_active_elem in Hin as [Ho _]. unfold leased_to. cbn [fst snd].
    rewrite int64_uint64; [done|]. by eapply owner_bounds.
Qed.

Lemma dead_rows_elem alive env d t :
  t ∈ fst <$> dead_rows alive env d <->
  exists l, leases d !! t = Some l /\ alive !! uint64 (l_worker_id l) = None /\ t ∉ tx_locked env.
Proof.
  rewrite list_elem_of_fmap. split.
  - intros ([t' w] & -> & Hin). apply list_elem_of_filter in Hin as [Hd Hin].
    apply list_elem_of_fmap in Hin as ([t0 w'] & [= -> ->] & [(l & Hl & ->)%fmap_Some Hk]%select_active_elem).
    eauto.
  - intros (l & Hl & Hd & Hk). exists (t, uint64 (l_worker_id l)). split; [done|].
    apply list_elem_of_filter. split; [done|]. apply list_elem_of_fmap. exists (t, l_worker_id l).
    split; [done|]. apply select_active_elem. unfold owner_of. by rewrite Hl.
Qed.

Lemma leased_known d (ls : list (Z * Z)) :
  store_inv d -> Forall (fun l => leased_to (fst l) (snd l) d) ls -> Forall (fun a => is_Some (tasks d !! fst a)) ls.
Proof.
  intros Hinv Hall. eapply Forall_impl; [exact Hall|]. intros [t w] (l & Hl & _)%fmap_Some. by eapply lease_task_known.
Qed.

Lemma same_except_lose env n t w msg d : same_except t d (lose_task env n t w msg d).
Proof.
  unfold lose_task. etransitivity; [|apply same_except_add]. etransitivity; [|apply same_except_delete].
  apply same_except_add.
Qed.

Lemma kept_lose_each env ls msg t : forall n d, t ∉ fst <$> ls -> kept t d (lose_each env n ls msg d).
Proof.
  induction ls as [|[t' w] ls IH]; intros n d Hni; cbn; [reflexivity|].
  apply not_elem_of_cons in Hni as [Hne Hni]. etransitivity; [|by apply IH].
  eapply kept_other; [apply same_except_lose | done].
Qed.

(** The tasks [ts] were taken from their workers and queued again, every other task has
    the lease and the rows of its history it had. *)
Record recovered_exactly (ts : list Z) (d d' : db) : Prop := {
  re_distinct : NoDup ts;
  re_requeued : forall t, t ∈ ts -> requeued t d d';
  re_others : forall t, t ∉ ts -> kept t d d';
}.

Lemma lose_each_exactly env ls msg d :
  store_inv d -> ready env 0 d -> NoDup (fst <$> ls) -> Forall (fun l => leased_to (fst l) (snd l) d) ls ->
  recovered_exactly (fst <$> ls) d (lose_each env 0 ls msg d).
Proof.
  intros Hinv Hr Hnd Hall. split; [done | |]; intros t; [|by apply kept_lose_each].
  intros (l & -> & Hin)%list_elem_of_fmap.
  exact (proj1 (Forall_forall _ _) (lose_each_requeued env ls msg 0 d Hinv Hr Hnd Hall) _ Hin).
Qed.

(** C26: without faults RecoverDeadWorkerLeases requeues exactly the tasks that are leased to
    a worker not among the given members and whose lease row no other transaction has
    locked, failures unchanged, and returns their number; every other task, with or
    without a lease, keeps its lease and its history. *)
Theorem recover_dead_leases (alive : gmap Z Member) (env : txenv) (d : db) :
  tx_faults env = [] -> store_inv d -> ready env 0 d ->
  exists ts d', RecoverDeadWorkerLeases alive env d = (Ok (Z.of_nat (length ts)), d') /\
    recovered_exactly ts d d' /\
    forall t, t ∈ ts <->
      exists l, leases d !! t = Some l /\ alive !! uint64 (l_worker_id l) = None /\ t ∉ tx_locked env.
Proof.
  intros Hf Hinv Hr. destruct (dead_rows_leased alive env d Hinv) as [Hnd Hall].
  exists (fst <$> dead_rows alive env d). eexists. rewrite length_fmap.
  split; [apply RecoverDead_yields; [done..|by apply leased_known]|].
  split; [by apply lose_each_exactly|]. intros t. apply dead_rows_elem.
Qed.


Context {L : PgxScanLaws P}.

Lemma expired_rows_elem env d t :
  t ∈ fst <$> select_expired_leases env d <->
  exists l, leases d !! t = Some l /\ l_expires_at l < tx_now env /\ t ∉ tx_locked env.
Proof.
  rewrite list_elem_of_fmap. split.
  - intros ([t' w] & -> & (l & Hl & _ & He & Hk)%select_expired_elem). eauto.
  - intros (l & Hl & He & Hk). exists (t, l_worker_id l). split; [done|]. apply select_expired_elem. eauto.
Qed.

(** C25: without faults, and when no expired lease belongs to a worker id above 2^63-1,
    RecoverExpiredLeases requeues exactly the tasks whose lease has expired and is not
    locked by another transaction, failures unchanged, and returns their number; every
    other task, with or without a lease, keeps its lease and its history. *)
Theorem recover_expired_leases (env : txenv) (d : db) :
  tx_faults env = [] -> store_inv d -> ready env 0 d ->
  (forall t l, leases d !! t = Some l -> l_expires_at l < tx_now env -> 0 <= l_worker_id l) ->
  exists ts d', RecoverExpiredLeases env d = (Ok (Z.of_nat (length ts)), d') /\
    recovered_exactly ts d d' /\
    forall t, t ∈ ts <->
      exists l, leases d !! t = Some l /\ l_expires_at l < tx_now env /\ t ∉ tx_locked env.
Proof.
  intros Hf Hinv Hr Hpos. set (ls := select_expired_leases env d).
  assert (Hsel : forall t w, (t, w) ∈ ls -> 0 <= w /\ owner_of t d = Some w).
  { intros t w (l & Hl & <- & He & _)%select_expired_elem. split; [by eapply Hpos|].
    unfold owner_of. by rewrite Hl. }
  assert (Hls : expired_rows env d = Ok ls).
  { apply expired_rows_ok. split; [done|]. apply Forall_forall. intros [t w] Hin. by eapply Hsel. }
  assert (Hall : Forall (fun l => leased_to (fst l) (snd l) d) ls).
  { apply Forall_forall. intros [t w] Hin. destruct (Hsel _ _ Hin) as [Hw Ho]. unfold leased_to. cbn.
    rewrite int64_id; [done|]. pose proof (owner_bounds _ _ _ Hinv Ho). lia. }
  exists (fst <$> ls). eexists. rewrite length_fmap.
  split; [apply RecoverExpired_yields; [done..|by apply leased_known|done]|].
  split; [apply lose_each_exactly; [done..|apply select_expired_NoDup | done]|]. intros t. apply expired_rows_elem.
Qed.

End recovery.

(** ** Fencing *)

(** The task and worker of a call that a worker's report causes. *)
Definition report_of (op : store_op) : option (Z * Z) :=
  match op with
  | OpRenewLease _ t w | OpMarkRunning t w | OpMarkCompleted t w | OpMarkFailed t w _ => Some (t, w)
  | _ => None
  end.

(** The call returned an error and changed nothing. *)
Definition refused {A} (d : db) (res : result A * db) : Prop := is_ok (fst res) = false /\ snd res = d.

Lemma all_or_nothing_excluded {A} d (E : A -> db -> Prop) res :
  all_or_nothing d E res -> (forall a d', E a d' -> False) -> refused d res.
Proof. destruct res as [[a|e] d']; cbn; intros H Hx; [by destruct (Hx _ _ H)|]. destruct H as [->|[a Ha]]; [done | by destruct (Hx _ _ Ha)]. Qed.

Section fencing.
Context {P : PgxScan}.

Lemma stale_report op t w env d :
  report_of op = Some (t, w) -> ~ leased_to t w d -> refused d (run_op op env d).
Proof.
  intros Hop Hno.
  assert (Hno' : check_lease_owner t (int64 w) d = true -> False) by (by intros ?%check_owner).
  destruct op; cbn in Hop; simplify_eq; cbn [run_op]; unfold refused, reply; cbn [fst snd]; rewrite is_ok_rmap.
  - eapply all_or_nothing_excluded; [apply RenewLease_spec|]. cbv beta. by intros _ d' [? _].
  - eapply all_or_nothing_excluded; [apply MarkRunning_spec|]. cbv beta. by intros _ d' [? _ _ _].
  - eapply all_or_nothing_excluded; [apply MarkCompleted_spec|]. cbv beta. by intros _ d' [? _ _ _].
  - eapply all_or_nothing_excluded; [apply MarkFailed_spec|]. cbv beta. by intros _ d' [? _ _ _].
Qed.

(** C12: a report (renewal, start, completion or failure) of a worker that does not hold
    the task's lease, because it never did, because the lease expired and was
    taken away, or because another worker has the task now, is refused and
    changes nothing, with any faults. *)
Theorem stale_reports_refused (op : store_op) (t w : Z) (env : txenv) (d : db) :
  report_of op = Some (t, w) -> ~ leased_to t w d -> refused d (run_op op env d).
Proof. exact (stale_report op t w env d). Qed.

(** The checks of the lease and of the status, without faults. *)
Lemma yields_ensureLeaseOwner env t w d n :
  leased_to t w d -> yields env (ensureLeaseOwner t w) d n tt d n.
Proof.
  intros Ho%check_owner. unfold ensureLeaseOwner, yields.
  erewrite yields_bind by (apply yields_wrap, yields_call). erewrite yields_bind by apply yields_get.
  by rewrite Ho.
Qed.

Lemma yields_ensureLatestStatusIn env t s l d n :
  latest_status t d = Some s -> s ∈ l -> yields env (ensureLatestStatusIn t l) d n tt d n.
Proof.
  intros Hl Hs. unfold ensureLatestStatusIn, yields.
  erewrite (yields_bind _ _ _ _ _ s d n).
  - by rewrite bool_decide_eq_true_2.
  - unfold latestStatus. apply yields_wrap. unfold yields. erewrite yields_bind by apply yields_call.
    erewrite yields_bind by apply yields_get. by rewrite Hl.
Qed.

(** The status of a leased task. *)
Lemma holding_active d t w s :
  store_inv d -> leased_to t w d -> latest_status t d = Some s -> s ∈ [StateAssigned; StateRunning].
Proof.
  intros Hinv Hown Hl. destruct (abs_leased _ _ _ _ Hinv Hl Hown) as (f & m & Ha).
  pose proof (proj1 (ai_owner _ (active_inv _ _ _ _ _ _ Hinv Ha)) ltac:(by eexists)) as Hact.
  cbn in Hact. destruct Hact; subst; set_solver.
Qed.

Lemma MarkFailed_yields t w msg env d s :
  tx_faults env = [] -> store_inv d -> ready env 0 d -> leased_to t w d ->
  latest_status t d = Some s -> MarkFailed t w msg env d = (Ok tt, fail_task env t w msg d).
Proof.
  intros Hf Hinv Hr Hown Hl. pose proof (latest_task _ _ _ Hinv Hl) as [r Ht].
  pose proof (holding_active _ _ _ _ Hinv Hown Hl) as Hs.
  unfold MarkFailed, MarkFailed_tx. apply with_tx_commits; [done|].
  erewrite yields_bind by (by apply yields_wrap, yields_ensureLeaseOwner).
  erewrite yields_bind by (by apply yields_wrap; eapply yields_ensureLatestStatusIn).
  erewrite yields_bind by (by apply yields_wrap, yields_insertStatus).
  set (d1 := delete_lease t (int64 w) (add_status env 0 t StateFailed (Some w) msg d)).
  erewrite (yields_bind _ _ _ _ _ tt d1 1) by (apply yields_wrap; done).
  unfold fail_task. cbv zeta. fold d1.
  assert (Hc : count_failed t d1 = Some (failed_count t d1, t_max_retries r)).
  { unfold count_failed, d1. by rewrite tasks_delete_lease, tasks_add_status, Ht. }
  erewrite (yields_bind _ _ _ _ _ (failed_count t d1, t_max_retries r) d1 1).
  - rewrite Hc. cbn [fst snd]. destruct (failed_count t d1 <? t_max_retries r).
    + do 2 eexists. erewrite yields_bind; [done|]. apply yields_wrap, yields_insertStatus.
      * by apply ready_delete, ready_add.
      * unfold d1. by rewrite tasks_delete_lease, tasks_add_status, Ht.
    + by do 2 eexists.
  - apply yields_wrap. unfold yields. erewrite yields_bind by apply yields_call.
    erewrite yields_bind by apply yields_get. by rewrite Hc.
Qed.

(** One failure more and no lease; queued again while failures are below the limit. *)
Definition failed_once (t : Z) (r : task_row) (d d' : db) : Prop :=
  leases d' !! t = None /\ failed_count t d' = failed_count t d + 1 /\
  latest_status t d' = Some (if failed_count t d + 1 <? t_max_retries r then StateQueued else StateFailed).

Lemma mark_failed_effect (t w : Z) (msg : string) (env : txenv) (d : db) (r : task_row) :
  tx_faults env = [] -> store_inv d -> ready env 0 d -> leased_to t w d -> tasks d !! t = Some r ->
  exists d', MarkFailed t w msg env d = (Ok tt, d') /\ failed_once t r d d'.
Proof.
  intros Hf Hinv Hr Hown Ht. destruct (lease_latest _ _ _ Hinv Hown) as [s Hl].
  destruct (abs_leased _ _ _ _ Hinv Hl Hown) as (f & m & Ha).
  eexists. split; [by eapply MarkFailed_yields|].
  pose proof (end_work_abs env 0 t w s StateFailed msg d f m (si_chron _ Hinv) Hr Ha) as Ha1.
  destruct (end_work_tables env 0 t w StateFailed msg d Hinv Hr ltac:(by eexists)) as (Hto & Hr1 & _).
  unfold failed_once, fail_task. cbv zeta. fold (end_work env 0 t w StateFailed msg d).
  apply abs_some in Ha as (r0 & Ht0 & _ & _ & Hf0 & Hm0). assert (r0 = r) as -> by congruence. cbn in Hf0, Hm0.
  pose proof (abs_some _ _ _ Ha1) as (r1 & Ht1 & Hl1 & Ho1 & Hf1 & Hm1). cbn [a_failed a_max a_status a_owner] in *.
  unfold count_failed. rewrite Ht1, Hf1, Hm1, Hf0, Hm0. rewrite bool_decide_eq_true_2 in * by done.
  destruct (f + 1 <? m).
  - pose proof (abs_add_plain env 1 t StateQueued None EmptyString _ _ Hr1 (to_chron _ Hto) Ha1 ltac:(done)) as Ha2.
    apply abs_some in Ha2 as (r2 & _ & Hl2 & Ho2 & Hf2 & _). split; [by apply owner_None | done].
  - split; [by apply owner_None | done].
Qed.

(** C24: without faults the lease holder's MarkFailed succeeds, adds exactly one failure
    and ends the lease; the task is queued again if the failures are still below
    max_retries, and is FAILED for good otherwise. *)
Theorem mark_failed_retries (t w : Z) (msg : string) (env : txenv) (d : db) (r : task_row) :
  tx_faults env = [] -> store_inv d -> ready env 0 d -> leased_to t w d -> tasks d !! t = Some r ->
  exists d', MarkFailed t w msg env d = (Ok tt, d') /\ failed_once t r d d'.
Proof. exact (mark_failed_effect t w msg env d r). Qed.

Lemma MarkWorkerLost_yields t w msg env d s :
  tx_faults env = [] -> ready env 0 d -> is_Some (tasks d !! t) -> latest_status t d = Some s -> active_status s ->
  MarkWorkerLost t w msg env d = (Ok tt, lose_task env 0 t w msg d).
Proof.
  intros Hf Hr Ht Hl Hs. unfold MarkWorkerLost, MarkWorkerLost_tx. apply with_tx_commits; [done|]. do 2 eexists.
  erewrite yields_bind.
  2: { apply yields_wrap. eapply yields_ensureLatestStatusIn; [exact Hl|]. destruct Hs; subst; set_solver. }
  erewrite yields_bind by (by apply yields_wrap, yields_insertStatus).
  set (d1 := delete_lease t (int64 w) (add_status env 0 t StateWorkerLost (Some w) msg d)).
  erewrite (yields_bind _ _ _ _ _ tt d1 1) by (apply yields_wrap; done).
  erewrite yields_bind; [done|]. apply yields_wrap, yields_insertStatus; [by apply ready_delete, ready_add|].
  unfold d1. by rewrite tasks_delete_lease, tasks_add_status.
Qed.

(** MarkWorkerLost does not check who holds the lease: naming a worker that does not
    hold it succeeds without faults, puts the task back in the queue and leaves the
    holder's lease in place, so that a queued task has a lease. *)
Theorem misnamed_loss_keeps_lease (t w : Z) (msg : string) (env : txenv) (d : db) (s : TaskState) (l : lease_row) :
  tx_faults env = [] -> table_inv AnyWorker d -> ready env 0 d ->
  latest_status t d = Some s -> s = StateAssigned \/ s = StateRunning ->
  leases d !! t = Some l -> l_worker_id l <> int64 w ->
  exists d', MarkWorkerLost t w msg env d = (Ok tt, d') /\
    history t d' = StateQueued :: StateWorkerLost :: history t d /\ leases d' !! t = Some l.
Proof.
  intros Hf Hinv Hr Hl Hs Hle Hne. eexists.
  split; [eapply MarkWorkerLost_yields; [done..|by eapply latest_task|done|exact Hs]|].
  unfold lose_task. rewrite history_add. cbn [leases add_status insert_status].
  rewrite delete_other; [by rewrite history_add|].
  unfold owner_of. cbn [leases add_status insert_status]. rewrite Hle. cbn. congruence.
Qed.

Context {L : PgxScanLaws P}.

(** C40: a lease held by a worker whose id is 2^63 or more is stored as a negative number,
    which RecoverExpiredLeases cannot read back: once such a lease has expired the
    method fails for all expired leases and changes nothing. *)
Theorem large_id_blocks_expiry (env : txenv) (d : db) (t w : Z) (l : lease_row) :
  2 ^ 63 <= w < 2 ^ 64 -> leases d !! t = Some l -> l_worker_id l = int64 w ->
  l_expires_at l < tx_now env -> t ∉ tx_locked env ->
  refused d (RecoverExpiredLeases env d).
Proof.
  intros Hw Hl Hlw He Hk. eapply all_or_nothing_excluded; [apply RecoverExpiredLeases_spec|].
  intros k d' (ls & [-> Hpos]%expired_rows_ok & _). rewrite Forall_forall in Hpos.
  specialize (Hpos (t, int64 w)). cbn in Hpos.
  assert (0 <= int64 w) as Hge by (apply Hpos, select_expired_elem; eauto).
  revert Hge. unfold int64, u64_size. rewrite Z.mod_small by lia. case_match; zbool; lia.
Qed.

End fencing.
