(* ===== verification/TaskWitness.v ===== *)
(** * The task store on concrete data

    An instance of pgx's conversions, a run of the store from the empty tables,
    and the properties of the store applied to it. *)

From S2P Require Import Prelude Cluster TaskStore TaskTx TaskLifecycle TaskRefine TaskAtomic TaskReach TaskFunctional TaskRecovery.

#[export] Instance demo_pgx : PgxScan := {
  scan_text o := match o with Some s => Ok s | None => Err (EFmt "cannot scan NULL into *string" []) end;
  scan_uint64 z := if z <? 0 then Err (EFmt "%d is less than zero for uint64" [FInt z]) else Ok z;
}.

#[export] Instance demo_pgx_laws : PgxScanLaws demo_pgx.
Proof.
  split; cbn; try done; intros z Hz; case_match; zbool; done || lia.
Qed.

(** The [i]-th transaction, one second after the one before. *)
Definition demo_env (i : Z) : txenv :=
  mkTxEnv (1000000 * i) (fun n => 1000 * i + Z.of_nat n) [] ∅.

Definition demo_row (created : Z) : task_row :=
  mkTaskRow "s3://b/run" (Some "s3://b/in") (Some "s3://b/out") [] 2 created.

Definition demo_store : PostgresStore := mkPostgresStore 2000000000.

Definition demo_op (op : store_op) (i : Z) (d : db) : db := snd (run_op op (demo_env i) d).

(** Two tasks; task 1 is claimed and assigned to worker 4, which starts it. *)
Definition demo_queued : db :=
  submit 2 (demo_row 20) (demo_env 2) (submit 1 (demo_row 10) (demo_env 1) empty_db).
Definition demo_claimed : db := demo_op (OpClaimQueued 9 1) 3 demo_queued.
Definition demo_assigned : db := demo_op (OpMarkAssigned demo_store 1 4) 4 demo_claimed.
Definition demo_running : db := demo_op (OpMarkRunning 1 4) 5 demo_assigned.
Definition demo_completed : db := demo_op (OpMarkCompleted 1 4) 6 demo_running.

Lemma demo_ready i d :
  forallb (fun r => (s_created_at r <=? 1000000 * i) && (s_id r <? 1000 * i)) (statuses d) = true ->
  ready (demo_env i) 0 d.
Proof.
  intros H. split; [cbn; lia|]. apply Forall_forall. intros r Hr. cbn. rewrite Z.add_0_r.
  apply list_elem_of_In in Hr. pose proof (proj1 (forallb_forall _ _) H r Hr) as Hb. cbn in Hb.
  apply andb_true_iff in Hb as [H1%Z.leb_le H2%Z.ltb_lt]. done.
Qed.

Lemma demo_step op i d :
  forallb (fun r => (s_created_at r <=? 1000000 * i) && (s_id r <? 1000 * i)) (statuses d) = true ->
  op_ok op d -> sstep d (demo_op op i d).
Proof. intros Hr Hop. apply ss_op; [by apply demo_ready | done]. Qed.

Lemma demo_reach_queued : rtc sstep empty_db demo_queued.
Proof.
  eapply rtc_l; [|eapply rtc_l; [|apply rtc_refl]]; apply ss_submit; try done; by apply demo_ready; vm_compute.
Qed.

Lemma demo_reach_claimed : rtc sstep empty_db demo_claimed.
Proof. eapply rtc_r; [exact demo_reach_queued|]. apply demo_step; [vm_compute; done | done]. Qed.

Lemma demo_reach_assigned : rtc sstep empty_db demo_assigned.
Proof. eapply rtc_r; [exact demo_reach_claimed|]. apply demo_step; [vm_compute; done | done]. Qed.

Lemma demo_reach_running : rtc sstep empty_db demo_running.
Proof. eapply rtc_r; [exact demo_reach_assigned|]. apply demo_step; [vm_compute; done | done]. Qed.

Lemma demo_reach_completed : rtc sstep empty_db demo_completed.
Proof. eapply rtc_r; [exact demo_reach_running|]. apply demo_step; [vm_compute; done | done]. Qed.

Lemma demo_inv d : rtc sstep empty_db d -> store_inv d.
Proof. intros H. by apply empty_reach. Qed.

Lemma demo_leased t w d : check_lease_owner t (int64 w) d = true -> leased_to t w d.
Proof. by intros ?%check_owner. Qed.

(** ** The properties on this run *)

(** Worker 5 is declared lost although worker 4 holds the lease. *)
Definition demo_misnamed : db := demo_op (OpMarkWorkerLost 1 5 "dispatch failed") 6 demo_running.

Lemma store_refines_lifecycle_witness :
  table_inv AnyWorker demo_misnamed /\ tasks demo_misnamed = tasks demo_running /\
  forall t, astep_opt AnyWorker (abs demo_running t) (abs demo_misnamed t).
Proof.
  apply (store_refines_lifecycle AnyWorker (OpMarkWorkerLost 1 5 "dispatch failed") (demo_env 6) demo_running).
  - apply (empty_reach (c := AnyWorker)). eapply rtc_subrel; [|exact demo_reach_running]. apply calls_any.
  - apply demo_ready. vm_compute. reflexivity.
  - exact I.
Defined.

Lemma reachable_tasks_witness :
  exists s h, history 1 demo_running = s :: h /\ latest_status 1 demo_running = Some s /\
    lifecycle_path HolderOnly (s :: h) = true /\
    (s = StateAssigned \/ s = StateRunning -> is_Some (leases demo_running !! 1)) /\
    (is_Some (leases demo_running !! 1) ->
       s = StateAssigned \/ s = StateRunning \/
       HolderOnly = AnyWorker /\ (s = StateQueued \/ s = StateScheduling)) /\
    (s = StateScheduling \/ s = StateAssigned \/ s = StateRunning -> failed_count 1 demo_running < 2) /\
    failed_count 1 demo_running <= Z.max 0 2 /\ (s = StateFailed -> failed_count 1 demo_running = 2).
Proof.
  exact (reachable_tasks HolderOnly demo_running demo_reach_running 1 (demo_row 10) ltac:(vm_compute; reflexivity)).
Defined.

Lemma finished_tasks_stay_witness :
  history 1 (demo_op OpRecoverExpiredLeases 900 demo_completed) = history 1 demo_completed /\
  leases (demo_op OpRecoverExpiredLeases 900 demo_completed) !! 1 = None.
Proof.
  apply (finished_tasks_stay HolderOnly demo_completed _ 1 StateCompleted).
  - exact demo_reach_completed.
  - apply rtc_once, demo_step; [vm_compute; reflexivity | exact I].
  - vm_compute. reflexivity.
  - left. reflexivity.
Defined.

Lemma demo_uris created : has_uris (demo_row created).
Proof. split; by eexists. Qed.

(** A task without an output URI, older than task 1. *)
Definition demo_no_output : db :=
  submit 3 (mkTaskRow "s3://b/run" (Some "s3://b/in") None [] 2 5) (demo_env 3) demo_queued.

Lemma demo_reach_no_output : rtc sstep empty_db demo_no_output.
Proof.
  eapply rtc_r; [exact demo_reach_queued|]. apply ss_submit; [apply demo_ready; vm_compute; reflexivity|].
  vm_compute. reflexivity.
Qed.

(** The older of two tasks is claimed; a still older one without an output URI stops
    the claim. *)
Lemma claim_oldest_first_witness :
  (exists ts d', ClaimQueued 9 1 (demo_env 3) demo_queued = (Ok ts, d') /\
     claimed_oldest 1 (demo_env 3) demo_queued ts d') /\
  is_ok (fst (ClaimQueued 9 2 (demo_env 4) demo_no_output)) = false /\
  snd (ClaimQueued 9 2 (demo_env 4) demo_no_output) = demo_no_output.
Proof.
  split.
  - apply (claim_oldest_first 9 1 (demo_env 3) demo_queued).
    + reflexivity.
    + exact (demo_inv _ demo_reach_queued).
    + apply demo_ready. vm_compute. reflexivity.
    + lia.
    + assert (E : claim_queued 1 (demo_env 3) demo_queued = [(1, demo_row 10)]) by (vm_compute; reflexivity).
      rewrite E. constructor; [apply demo_uris | constructor].
  - refine (proj2 (claim_oldest_first 9 2 (demo_env 4) demo_no_output _ _ _ _) 3
      (mkTaskRow "s3://b/run" (Some "s3://b/in") None [] 2 5) _ _).
    + reflexivity.
    + exact (demo_inv _ demo_reach_no_output).
    + apply demo_ready. vm_compute. reflexivity.
    + lia.
    + vm_compute. left.
    + intros [_ [o Ho]]. discriminate Ho.
Defined.

Lemma recover_expired_leases_witness :
  exists ts d', RecoverExpiredLeases (demo_env 900) demo_running = (Ok (Z.of_nat (length ts)), d') /\
    recovered_exactly ts demo_running d' /\
    forall t, t ∈ ts <-> exists l, leases demo_running !! t = Some l /\
      l_expires_at l < tx_now (demo_env 900) /\ t ∉ tx_locked (demo_env 900).
Proof.
  apply (recover_expired_leases (demo_env 900) demo_running).
  - reflexivity.
  - exact (demo_inv _ demo_reach_running).
  - apply demo_ready. vm_compute. reflexivity.
  - assert (H : map_Forall (fun _ l => 0 <= l_worker_id l) (leases demo_running))
      by (apply (bool_decide_eq_true_1 _); vm_compute; reflexivity).
    intros t l Hl _. exact (H t l Hl).
Defined.

Lemma recover_dead_leases_witness :
  exists ts d', RecoverDeadWorkerLeases ∅ (demo_env 6) demo_running = (Ok (Z.of_nat (length ts)), d') /\
    recovered_exactly ts demo_running d' /\
    forall t, t ∈ ts <-> exists l, leases demo_running !! t = Some l /\
      (∅ : gmap Z Member) !! uint64 (l_worker_id l) = None /\ t ∉ tx_locked (demo_env 6).
Proof.
  apply (recover_dead_leases ∅ (demo_env 6) demo_running).
  - reflexivity.
  - exact (demo_inv _ demo_reach_running).
  - apply demo_ready. vm_compute. reflexivity.
Defined.


Lemma stale_reports_refused_witness :
  refused demo_running (run_op (OpMarkCompleted 1 5) (demo_env 6) demo_running).
Proof.
  apply (stale_reports_refused (OpMarkCompleted 1 5) 1 5 (demo_env 6) demo_running).
  - reflexivity.
  - intros H. apply check_owner in H. vm_compute in H. discriminate H.
Defined.

Lemma mark_failed_retries_witness :
  exists d', MarkFailed 1 4 "exit status 1" (demo_env 6) demo_running = (Ok tt, d') /\
    failed_once 1 (demo_row 10) demo_running d'.
Proof.
  apply (mark_failed_retries 1 4 "exit status 1" (demo_env 6) demo_running (demo_row 10)).
  - reflexivity.
  - exact (demo_inv _ demo_reach_running).
  - apply demo_ready. vm_compute. reflexivity.
  - apply demo_leased. vm_compute. reflexivity.
  - vm_compute. reflexivity.
Defined.

Lemma large_id_blocks_expiry_witness :
  let d := demo_op (OpMarkAssigned demo_store 1 (2 ^ 63)) 4 demo_claimed in
  refused d (RecoverExpiredLeases (demo_env 900) d).
Proof.
  apply (large_id_blocks_expiry (demo_env 900) _ 1 (2 ^ 63) (mkLeaseRow (- 2 ^ 63) 6000000 4000000 4000000)).
  - lia.
  - vm_compute. reflexivity.
  - vm_compute. reflexivity.
  - vm_compute. reflexivity.
  - apply not_elem_of_empty.
Defined.

Lemma misnamed_loss_keeps_lease_witness :
  exists d', MarkWorkerLost 1 5 "dispatch failed" (demo_env 6) demo_running = (Ok tt, d') /\
    history 1 d' = StateQueued :: StateWorkerLost :: history 1 demo_running /\
    leases d' !! 1 = Some (mkLeaseRow 4 6000000 4000000 4000000).
Proof.
  apply (misnamed_loss_keeps_lease 1 5 "dispatch failed" (demo_env 6) demo_running StateRunning).
  - reflexivity.
  - apply (empty_reach (c := AnyWorker)). eapply rtc_subrel; [|exact demo_reach_running]. apply calls_any.
  - apply demo_ready. vm_compute. reflexivity.
  - vm_compute. reflexivity.
  - right. reflexivity.
  - vm_compute. reflexivity.
  - vm_compute. discriminate.
Defined.

(** Every arrow that design.md does not draw is taken on some run, with users that
    declare only holders lost. *)
Theorem undocumented_arrows_taken (s s' : TaskState) :
  undocumented s s' = true ->
  exists d newer older, rtc sstep empty_db d /\ history 1 d = newer ++ s' :: s :: older.
Proof.
  intros H. destruct s, s'; try discriminate H.
  - exists (demo_op OpRecoverStaleScheduling 6 demo_claimed), [], [StateQueued]. split; [|vm_compute; reflexivity].
    eapply rtc_r; [exact demo_reach_claimed|]. apply demo_step; [vm_compute; reflexivity | exact I].
  - exists (demo_op (OpMarkFailed 1 4 "exit status 1") 6 demo_assigned), [StateQueued], [StateScheduling; StateQueued]. split; [|vm_compute; reflexivity].
    eapply rtc_r; [exact demo_reach_assigned|]. apply demo_step; [vm_compute; reflexivity | exact I].
  - exists (demo_op (OpMarkWorkerLost 1 4 "dispatch failed") 6 demo_assigned), [StateQueued], [StateScheduling; StateQueued]. split; [|vm_compute; reflexivity].
    eapply rtc_r; [exact demo_reach_assigned|]. apply demo_step; [vm_compute; reflexivity|].
    right. apply demo_leased. vm_compute. reflexivity.
  - exists (demo_op (OpMarkRunning 1 4) 6 demo_running), [], [StateAssigned; StateScheduling; StateQueued]. split; [|vm_compute; reflexivity].
    eapply rtc_r; [exact demo_reach_running|]. apply demo_step; [vm_compute; reflexivity | exact I].
Qed.
