(* ===== verification/TaskIsolation.v ===== *)
(** * Transactions side by side

    PostgreSQL runs the methods of the store as READ COMMITTED transactions: a
    statement sees what was committed before it began and the transaction's own
    changes.  Here a transaction is a session that moves one statement at a time
    over the shared tables, and any number of sessions interleave.  A session
    that no commit interrupts gives exactly what the sequential definitions
    give; a commit between two of its statements can lose a task. *)

From S2P Require Import Prelude Cluster TaskStore TaskTx TaskLifecycle TaskRefine TaskAtomic TaskReach TaskRecovery TaskWitness.

(** ** Sessions *)

(** A transaction in progress: the rest of its program, the number of ids drawn,
    the faults to come and its own changes, oldest first. *)
Record session := mkSession {
  ses_env : txenv;
  ses_prog : tx store_reply;
  ses_drawn : nat;
  ses_faults : list fault;
  ses_writes : list (db -> db);
}.

(** The tables as the session sees them. *)
Definition view (ws : list (db -> db)) (c : db) : db := fold_left (fun d f => f d) ws c.

(** One statement: its reads, writes and ids, up to the next call to the server. *)
Fixpoint statement (c : db) (env : txenv) (m : tx store_reply) (n : nat) (fs : list fault)
    (ws : list (db -> db)) : session :=
  match m with
  | TxRead k => statement c env (k env (view ws c)) n fs ws
  | TxPut f k => statement c env k n fs (ws ++ [f env])
  | TxNewId k => statement c env (k (tx_uuid env n)) (S n) fs ws
  | TxDone _ | TxCall _ | TxCommit _ => mkSession env m n fs ws
  end.

Definition pop_fault (fs : list fault) : fault * list fault :=
  match fs with [] => (NoFault, []) | f :: fs' => (f, fs') end.

Definition call_works (f : fault) : bool := match f with NoFault => true | _ => false end.

(** The next call of the session on the committed tables [c].  A session that has
    finished does nothing; what it did not commit is gone. *)
Definition session_step (s : session) (c : db) : session * db :=
  let '(f, fs) := pop_fault (ses_faults s) in
  let c' := view (ses_writes s) c in
  match ses_prog s with
  | TxCall k =>
      (statement c (ses_env s) (k (call_works f)) (ses_drawn s) fs (ses_writes s), c)
  | TxCommit k =>
      match f with
      | NoFault => (statement c' (ses_env s) (k true) (ses_drawn s) fs [], c')
      | FailAfter => (statement c' (ses_env s) (k false) (ses_drawn s) fs [], c')
      | Fail => (statement c (ses_env s) (k false) (ses_drawn s) fs (ses_writes s), c)
      end
  | _ => (s, c)
  end.

Definition outcome (s : session) : option (result store_reply) :=
  match ses_prog s with TxDone r => Some r | _ => None end.

(** ** The methods as sessions *)

Section sessions.
Context {P : PgxScan}.

Definition as_reply {A} (f : A -> store_reply) (m : tx A) : tx store_reply :=
  let* a := m in tx_ret (f a).

(** The transaction of a method; RenewLease and ActiveLeases are single statements. *)
Definition op_tx (op : store_op) : option (tx store_reply) :=
  match op with
  | OpClaimQueued s b => Some (as_reply RTasks (begin_tx "claim queued" (ClaimQueued_tx s b)))
  | OpActiveLeases => None
  | OpRenewLease _ _ _ => None
  | OpMarkAssigned s t w => Some (as_reply (fun _ => RUnit) (begin_tx "mark assigned" (MarkAssigned_tx s t w)))
  | OpMarkRunning t w => Some (as_reply (fun _ => RUnit) (begin_tx "mark running" (MarkRunning_tx t w)))
  | OpMarkCompleted t w => Some (as_reply (fun _ => RUnit) (begin_tx "mark completed" (MarkCompleted_tx t w)))
  | OpMarkFailed t w msg =>
      Some (as_reply (fun _ => RUnit) (begin_tx "mark failed" (MarkFailed_tx t w msg)))
  | OpMarkWorkerLost t w msg =>
      Some (as_reply (fun _ => RUnit) (begin_tx "mark worker lost" (MarkWorkerLost_tx t w msg)))
  | OpRecoverExpiredLeases =>
      Some (as_reply RCount (begin_tx "recover expired leases" RecoverExpiredLeases_tx))
  | OpRecoverDeadWorkerLeases alive =>
      Some (as_reply RCount (begin_tx "recover dead worker leases" (RecoverDeadWorkerLeases_tx alive)))
  | OpRecoverStaleScheduling =>
      Some (as_reply RCount (begin_tx "recover stale scheduling" RecoverStaleScheduling_tx))
  end.

(** The committed tables and the sessions opened so far. *)
Record server := mkServer { sv_db : db; sv_sessions : list session }.

(** A client opens a transaction for a method (its time and ids are [env]'s), session
    [i] makes its next call, or a client runs a method that is one statement. *)
Inductive server_event :=
| EvOpen (op : store_op) (env : txenv)
| EvNext (i : nat)
| EvStatement (op : store_op) (env : txenv).

Definition server_step (v : server) (e : server_event) : server :=
  match e with
  | EvOpen op env =>
      match op_tx op with
      | Some m => mkServer (sv_db v) (sv_sessions v ++ [mkSession env m 0 (tx_faults env) []])
      | None => v
      end
  | EvNext i =>
      match sv_sessions v !! i with
      | Some s =>
          let '(s', c') := session_step s (sv_db v) in
          mkServer c' (<[i := s']> (sv_sessions v))
      | None => v
      end
  | EvStatement op env =>
      match op_tx op with
      | Some _ => v
      | None => mkServer (snd (run_op op env (sv_db v))) (sv_sessions v)
      end
  end.

Definition serve (v : server) (es : list server_event) : server := fold_left server_step es v.

End sessions.

(** ** A session that no commit interrupts *)

(** Recording what was committed does not change a run. *)
Lemma run_tx_committed {A} (m : tx A) env : forall d n fs o,
  run_tx m env (mkTxSt d n fs o) =
  let '(r, st) := run_tx m env (mkTxSt d n fs None) in
  (r, mkTxSt (cur st) (drawn st) (pending st)
        (match committed st with Some x => Some x | None => o end)).
Proof.
  induction m as [r|k IH|k IH|g m IH|k IH|k IH]; intros d n fs o; cbn; [done| | | | |].
  - destruct fs as [|[] fs]; cbn; apply IH.
  - apply IH.
  - apply IH.
  - apply IH.
  - destruct fs as [|[] fs]; cbn; [| |by apply IH|];
      unfold tx_record; cbn; rewrite (IH _ _ _ _ (Some d)); destruct (run_tx _ env _) as [r st];
      cbn; by destruct (committed st).
Qed.

(** What the session returns and leaves committed when it runs to its end on [c]
    undisturbed. *)
Definition completes (s : session) (c : db) : result store_reply * db :=
  let '(r, st) := run_tx (ses_prog s) (ses_env s) (mkTxSt (view (ses_writes s) c) (ses_drawn s) (ses_faults s) None) in
  (r, match committed st with Some d => d | None => c end).

Lemma view_app ws f c : view (ws ++ [f]) c = f (view ws c).
Proof. unfold view. by rewrite fold_left_app. Qed.

Lemma completes_statement c env m : forall n fs ws,
  completes (statement c env m n fs ws) c = completes (mkSession env m n fs ws) c.
Proof.
  induction m as [r|k IH|k IH|g m IH|k IH|k IH]; intros n fs ws; cbn [statement]; [done|done| | | |done].
  - apply IH.
  - rewrite IH. unfold completes. cbn. by rewrite view_app.
  - apply IH.
Qed.

(** A call takes the session closer to the outcome it has anyway. *)
Lemma completes_step s c :
  completes (fst (session_step s c)) (snd (session_step s c)) = completes s c.
Proof.
  destruct s as [env m n fs ws]. unfold session_step. cbn.
  destruct m as [r|k|k|g m|k|k]; cbn; try (by destruct (pop_fault fs)).
  - destruct fs as [|[] fs]; cbn; rewrite completes_statement; done.
  - destruct fs as [|[] fs]; cbn; rewrite completes_statement; unfold completes; cbn; try done;
      unfold tx_record; cbn; rewrite (run_tx_committed _ _ _ _ _ (Some _));
      destruct (run_tx _ env _) as [r st]; cbn; by destruct (committed st).
Qed.

Lemma completes_done s c r : outcome s = Some r -> completes s c = (r, c).
Proof. destruct s as [env [] n fs ws]; unfold completes; cbn; congruence. Qed.

Section isolation.
Context {P : PgxScan}.

Lemma completes_op op m env c :
  op_tx op = Some m -> completes (mkSession env m 0 (tx_faults env) []) c = run_op op env c.
Proof.
  assert (Hmap : forall A (f : A -> store_reply) name body,
    completes (mkSession env (as_reply f (begin_tx name body)) 0 (tx_faults env) []) c =
    reply f (with_tx name body env c)).
  { intros A f name body. unfold completes, as_reply, with_tx, reply.
    cbn [ses_prog ses_env ses_writes ses_drawn ses_faults view fold_left]. rewrite run_tx_bind.
    destruct (run_tx (begin_tx name body) env _) as [[a|e] st]; done. }
  destruct op; intros [= <-]; apply Hmap.
Qed.

(** Every event but the calls of session [i] leaves the committed tables alone. *)
Fixpoint quiet (i : nat) (v : server) (es : list server_event) : Prop :=
  match es with
  | [] => True
  | e :: es' => (e = EvNext i \/ sv_db (server_step v e) = sv_db v) /\ quiet i (server_step v e) es'
  end.

Lemma quiet_completes i es : forall v s,
  sv_sessions v !! i = Some s -> quiet i v es ->
  exists s', sv_sessions (serve v es) !! i = Some s' /\
    completes s' (sv_db (serve v es)) = completes s (sv_db v).
Proof.
  induction es as [|e es IH]; intros v s Hs Hq; [by exists s|]. destruct Hq as [He Hq]. cbn [serve fold_left].
  assert (exists s1, sv_sessions (server_step v e) !! i = Some s1 /\
    completes s1 (sv_db (server_step v e)) = completes s (sv_db v)) as (s1 & Hs1 & <-);
    [|by apply IH].
  destruct e as [op env|j|op env]; cbn [server_step] in *.
  - exists s. destruct (op_tx op); cbn; [|done]. split; [|done]. by apply lookup_app_l_Some.
  - destruct (decide (j = i)) as [->|Hji].
    + rewrite Hs. destruct (session_step s (sv_db v)) as [s' c'] eqn:E. exists s'. cbn. split.
      * apply list_lookup_insert_eq. by eapply lookup_lt_Some.
      * pose proof (completes_step s (sv_db v)) as H. by rewrite E in H.
    + exists s. destruct He as [[= ?]|He]; [done|]. rewrite He. split; [|done].
      destruct (sv_sessions v !! j); [|done]. destruct (session_step _ _) as [s' c']. cbn.
      by rewrite list_lookup_insert_ne.
  - exists s. destruct He as [?|He]; [done|]. rewrite He. split; [|done]. by destruct (op_tx op).
Qed.

(** A statement ends at the next call of a smaller program: calls run out. *)
Lemma statement_finishes env m : forall c n fs ws v i,
  sv_db v = c -> sv_sessions v !! i = Some (statement c env m n fs ws) ->
  exists k s, sv_sessions (serve v (repeat (EvNext i) k)) !! i = Some s /\ is_Some (outcome s).
Proof.
  induction m as [r|k IH|k IH|g m IH|k IH|k IH]; intros c n fs ws v i Hc Hs; cbn [statement] in Hs.
  - exists 0%nat. eexists. split; [exact Hs|]. by exists r.
  - destruct (IH (call_works (fst (pop_fault fs))) c n (snd (pop_fault fs)) ws (server_step v (EvNext i)) i) as (j & s & H).
    + cbn. rewrite Hs, Hc. unfold session_step. cbn. by destruct (pop_fault fs).
    + cbn. rewrite Hs, Hc. unfold session_step. cbn. destruct (pop_fault fs). cbn. apply list_lookup_insert_eq. by eapply lookup_lt_Some.
    + exists (S j), s. exact H.
  - by eapply IH.
  - by eapply IH.
  - by eapply IH.
  - pose (f := fst (pop_fault fs)). pose (c' := match f with Fail => c | _ => view ws c end).
    pose (ws' := match f with Fail => ws | _ => [] end).
    destruct (IH (call_works f) c' n (snd (pop_fault fs)) ws' (server_step v (EvNext i)) i) as (j & s & H).
    + subst f c'. cbn. rewrite Hs, Hc. unfold session_step. cbn. by destruct (pop_fault fs) as [[] ?].
    + subst f c' ws'. cbn. rewrite Hs, Hc. unfold session_step. cbn. destruct (pop_fault fs) as [[] ?]; cbn;
        apply list_lookup_insert_eq; by eapply lookup_lt_Some.
    + exists (S j), s. exact H.
Qed.

(** A method of the store run as a session among others does exactly what the
    sequential definition of the method does, whatever calls other sessions make
    in between, as long as none of them changes the committed tables; and the
    session comes to its end. *)
Lemma uninterrupted_session (op : store_op) (m : tx store_reply) (env : txenv) (v : server) :
  op_tx op = Some m ->
  let v0 := server_step v (EvOpen op env) in
  let i := length (sv_sessions v) in
  (forall es s r, quiet i v0 es -> sv_sessions (serve v0 es) !! i = Some s -> outcome s = Some r ->
     (r, sv_db (serve v0 es)) = run_op op env (sv_db v)) /\
  (exists k s, sv_sessions (serve v0 (repeat (EvNext i) k)) !! i = Some s /\ is_Some (outcome s)).
Proof.
  intros Hm v0 i.
  assert (Hi : sv_sessions v0 !! i = Some (mkSession env m 0 (tx_faults env) [])).
  { unfold v0, i. cbn. rewrite Hm. cbn. by apply list_lookup_middle. }
  split.
  - intros es s r Hq Hs Hr. destruct (quiet_completes _ _ _ _ Hi Hq) as (s' & Hs' & Hc).
    assert (s' = s) as -> by congruence. rewrite (completes_done _ _ r Hr) in Hc. rewrite Hc.
    rewrite (completes_op op m) by done. unfold v0. cbn. by rewrite Hm.
  - apply (statement_finishes env m (sv_db v0) 0 (tx_faults env) [] v0 i); [done|]. rewrite Hi. f_equal.
    destruct op; cbn in Hm; by simplify_eq.
Qed.

End isolation.

(** ** A commit between two statements *)

(** The task is running and no worker holds its lease. *)
Record orphaned (t : Z) (d : db) : Prop := {
  or_running : latest_status t d = Some StateRunning;
  or_unleased : leases d !! t = None;
}.

Lemma kept_orphaned t d d' : kept t d d' -> orphaned t d -> orphaned t d'.
Proof. intros [Hr Hl] [Ho Hu]. split; [|congruence]. unfold latest_status in *. by rewrite Hr. Qed.

Lemma kept_add_each env ts s w msg t : forall n d, t ∉ ts -> kept t d (add_each env n ts s w msg d).
Proof.
  induction ts as [|t' ts IH]; intros n d Hni; cbn; [reflexivity|].
  apply not_elem_of_cons in Hni as [Hne Hni]. etransitivity; [|by apply IH].
  eapply kept_other; [apply same_except_add | done].
Qed.

Lemma same_except_fail env t w msg d : same_except t d (fail_task env t w msg d).
Proof.
  unfold fail_task. assert (same_except t d (delete_lease t (int64 w) (add_status env 0 t StateFailed (Some w) msg d))).
  { etransitivity; [apply same_except_add | apply same_except_delete]. }
  repeat case_match; try done. etransitivity; [done | apply same_except_add].
Qed.

Lemma kept_all_or_nothing {A} t d (E : A -> db -> Prop) res :
  (forall a d', E a d' -> kept t d d') -> all_or_nothing d E res -> kept t d (snd res).
Proof.
  intros HE. destruct res as [[a|e] d']; cbn; [by apply HE|].
  intros [->|[a Ha]]; [reflexivity | by eapply HE].
Qed.

Definition spares (t : Z) (op : store_op) : Prop :=
  match op with OpMarkWorkerLost t' _ _ => t' <> t | _ => True end.

Section lost.
Context {P : PgxScan}.

Lemma orphaned_unowned t w d : orphaned t d -> check_lease_owner t w d = false.
Proof. intros [_ Hu]. unfold check_lease_owner. by rewrite Hu. Qed.

Lemma expired_rows_fst env d ls :
  expired_rows env d = Ok ls -> fst <$> ls = fst <$> select_expired_leases env d.
Proof.
  intros H. eapply scan_rows_fmap; [|exact H]. intros [t w] [t' w']. unfold rmap. cbn.
  destruct (scan_uint64 w); congruence.
Qed.

(** No method of the store but MarkWorkerLost changes an orphaned task. *)
Lemma orphaned_kept op env t d :
  orphaned t d -> spares t op -> kept t d (snd (run_op op env d)).
Proof.
  intros Ho Hsp.
  assert (Hun : forall t' w, check_lease_owner t' w d = true -> t <> t').
  { intros t' w Hc ->. by rewrite orphaned_unowned in Hc. }
  destruct Ho as [Hrun Hlease].
  destruct op as [s b| |s t' w|s t' w|t' w|t' w|t' w msg|t' w msg| |alive|]; cbn [run_op reply snd].
  - eapply kept_all_or_nothing; [|apply ClaimQueued_spec]. intros ts d' [_ Hrows ->]. apply kept_add_each.
    rewrite (scan_rows_fmap _ fst TaskID _ _ scan_task_id Hrows).
    intros ([t0 r] & -> & (_ & Hc & _)%claim_queued_elem)%list_elem_of_fmap.
    unfold claimable in Hc. cbn in Hc, Hrun. by rewrite Hrun in Hc.
  - by rewrite (proj1 (ActiveLeases_spec env d)).
  - eapply kept_all_or_nothing; [|apply RenewLease_spec]. intros _ d' [Hc (l & Hl & ->)].
    split; [done|]. cbn. rewrite lookup_insert_ne; [done|]. intros ->. congruence.
  - eapply kept_all_or_nothing; [|apply MarkAssigned_spec]. intros _ d' [Hpre _ ->].
    eapply kept_other; [etransitivity; [apply same_except_add | apply same_except_upsert]|]. intros ->. congruence.
  - eapply kept_all_or_nothing; [|apply MarkRunning_spec]. intros _ d' [Hc _ _ ->].
    eapply kept_other; [apply same_except_add | by eapply Hun].
  - eapply kept_all_or_nothing; [|apply MarkCompleted_spec]. intros _ d' [Hc _ _ ->].
    eapply kept_other; [etransitivity; [apply same_except_add | apply same_except_delete] | by eapply Hun].
  - eapply kept_all_or_nothing; [|apply MarkFailed_spec]. intros _ d' [Hc _ _ ->].
    eapply kept_other; [apply same_except_fail | by eapply Hun].
  - eapply kept_all_or_nothing; [|apply MarkWorkerLost_spec]. intros _ d' [_ _ ->].
    eapply kept_other; [apply same_except_lose|]. intros ->. by apply Hsp.
  - eapply kept_all_or_nothing; [|apply RecoverExpiredLeases_spec]. intros k d' (ls & Hls & [_ ->]).
    apply kept_lose_each. rewrite (expired_rows_fst _ _ _ Hls).
    intros ([t0 w] & -> & (l & Hl & _)%select_expired_elem)%list_elem_of_fmap. cbn in *. congruence.
  - eapply kept_all_or_nothing; [|apply RecoverDeadWorkerLeases_spec]. intros k d' [_ ->]. apply kept_lose_each.
    intros ([t0 w] & -> & [_ Hin]%list_elem_of_filter)%list_elem_of_fmap.
    apply list_elem_of_fmap in Hin as ([t1 w1] & [= -> ->] & [Hown _]%select_active_elem).
    unfold owner_of in Hown. cbn in *. by rewrite Hlease in Hown.
  - eapply kept_all_or_nothing; [|apply RecoverStaleScheduling_spec]. intros k d' [_ ->]. apply kept_add_each.
    intros (_ & Hs & _)%select_stale_elem. congruence.
Qed.

(** The tables under any further use of the store, and new tasks. *)
Definition later (t : Z) (d d' : db) : Prop :=
  (exists op env, spares t op /\ d' = snd (run_op op env d)) \/
  (exists t' r env, tasks d !! t' = None /\ t' <> t /\ d' = submit t' r env d).

Lemma orphaned_later t d d' : rtc (later t) d d' -> orphaned t d -> kept t d d'.
Proof.
  induction 1 as [|d d1 d' Hstep _ IH]; intros Ho; [reflexivity|].
  assert (Hk : kept t d d1).
  { destruct Hstep as [(op & env & Hsp & ->)|(t' & r & env & _ & Hne & ->)]; [by apply orphaned_kept|].
    unfold submit. split; [|done]. rewrite rows_of_add, bool_decide_eq_false_2 by done. done. }
  etransitivity; [exact Hk|]. apply IH. by eapply kept_orphaned.
Qed.

End lost.

(** Task 1 is assigned to worker 4 with a lease of two seconds, long over.  The leader
    opens RecoverExpiredLeases; the worker opens MarkRunning and reads the lease and
    the status; the leader's transaction commits; the worker's goes on. *)
Definition race : list server_event :=
  EvOpen OpRecoverExpiredLeases (demo_env 10) :: EvOpen (OpMarkRunning 1 4) (demo_env 11) ::
  repeat (EvNext 0) 5 ++ repeat (EvNext 1) 3 ++ repeat (EvNext 0) 2 ++ repeat (EvNext 1) 2.

Definition after_race : server := serve (mkServer demo_assigned []) race.

(** C7: a leader that recovers expired leases while the worker of such a lease starts
    its task can lose the task: both calls succeed, the task ends as RUNNING with
    no lease, and no later use of the store, by any node and with any faults,
    changes it again, unless a scheduler declares a worker of this very task
    lost, which it does only for tasks it has just claimed. *)
Theorem recovery_race_loses_task :
  rtc sstep empty_db demo_assigned /\
  (outcome <$> sv_sessions after_race) = [Some (Ok (RCount 1)); Some (Ok RUnit)] /\
  orphaned 1 (sv_db after_race) /\
  forall d', rtc (later 1) (sv_db after_race) d' ->
    orphaned 1 d' /\ history 1 d' = history 1 (sv_db after_race).
Proof.
  assert (Ho : orphaned 1 (sv_db after_race)) by (split; by vm_compute).
  split; [exact demo_reach_assigned|]. split; [by vm_compute|]. split; [done|].
  intros d' Hd. pose proof (orphaned_later _ _ _ Hd Ho) as Hk.
  split; [by eapply kept_orphaned|]. destruct Hk as [Hr _]. unfold history. by rewrite Hr.
Qed.
