(* ===== verification/TaskLocality.v ===== *)
(** * Transactions on different tasks do not disturb each other

    The methods that move one task read and write only that task's row, its
    statuses and its lease.  Run as sessions (TaskIsolation.v), they give the
    result of an undisturbed run although other sessions commit changes to other
    tasks between any two of their statements. *)

From S2P Require Import Prelude Cluster TaskStore TaskTx TaskLifecycle TaskRefine TaskAtomic TaskReach TaskRecovery TaskWitness TaskIsolation.

(** ** Databases that agree on one task *)

(** The row, the statuses and the lease of [t] are the same, and so is the use of the
    ids that uuidv7() returns to the transaction with [env]. *)
Record agree (env : txenv) (t : Z) (d d' : db) : Prop := {
  ag_task : tasks d' !! t = tasks d !! t;
  ag_kept : kept t d d';
  ag_ids : forall k, tx_uuid env k ∈ s_id <$> statuses d' <-> tx_uuid env k ∈ s_id <$> statuses d;
}.

#[export] Instance agree_equiv env t : Equivalence (agree env t).
Proof.
  split.
  - intros d. by split.
  - intros d d' [? [] Hi]. split; [done | by split | by intros k; rewrite Hi].
  - intros d1 d2 d3 [? [] Hi] [? [] Hi']. split; [congruence | split; congruence|].
    intros k. by rewrite Hi', Hi.
Qed.

(** A change that depends on [t] alone. *)
Definition respects (env : txenv) (t : Z) (f : db -> db) : Prop :=
  forall d d', agree env t d d' -> agree env t (f d) (f d').

Lemma agree_latest env t d d' : agree env t d d' -> latest_status t d' = latest_status t d.
Proof. intros [_ [Hr _] _]. unfold latest_status. by rewrite Hr. Qed.

Lemma agree_owner env t w d d' : agree env t d d' -> check_lease_owner t w d' = check_lease_owner t w d.
Proof. intros [_ [_ Hl] _]. unfold check_lease_owner. by rewrite Hl. Qed.

Lemma agree_count env t d d' : agree env t d d' -> count_failed t d' = count_failed t d.
Proof. intros [Ht [Hr _] _]. unfold count_failed, failed_count. by rewrite Ht, Hr. Qed.

Lemma respects_insert env t id s a e : respects env t (insert_status id t s a e env).
Proof.
  intros d d' [Ht [Hr Hl] Hi]. split; [done | split; [|done]|].
  - unfold rows_of, insert_status in *. cbn [statuses]. rewrite !filter_cons. cbn [s_task_id].
    destruct (decide (t = t)); [by rewrite Hr | done].
  - intros k. cbn. rewrite !elem_of_cons. by rewrite Hi.
Qed.

Lemma respects_delete env t w : respects env t (delete_lease t w).
Proof.
  intros d d' [Ht [Hr Hl] Hi].
  assert (leases (delete_lease t w d') !! t = leases (delete_lease t w d) !! t).
  { unfold delete_lease. rewrite Hl. destruct (leases d !! t) as [l|] eqn:E; [|by rewrite Hl].
    destruct (l_worker_id l =? w); [cbn; by rewrite !lookup_delete_eq | by rewrite Hl]. }
  split; [by rewrite !tasks_delete_lease | split; [by rewrite !rows_of_delete | done]|].
  by rewrite !statuses_delete.
Qed.

Lemma respects_upsert env t w secs : respects env t (upsert_lease t w secs env).
Proof.
  intros d d' [Ht [Hr Hl] Hi]. split; [done | split; [done|] | done].
  cbn. by rewrite Hl, !lookup_insert_eq.
Qed.

(** ** Programs that read and write one task *)

Fixpoint local {A} (env : txenv) (t : Z) (m : tx A) : Prop :=
  match m with
  | TxDone _ => True
  | TxCall k | TxCommit k => forall ok, local env t (k ok)
  | TxRead k => forall d d', agree env t d d' -> k env d = k env d' /\ local env t (k env d)
  | TxPut f k => respects env t (f env) /\ local env t k
  | TxNewId k => forall n, local env t (k (tx_uuid env n))
  end.

Section local.
Context (env : txenv) (t : Z).

Lemma local_bind {A B} (m : tx A) (f : A -> tx B) :
  local env t m -> (forall a, local env t (f a)) -> local env t (tx_bind m f).
Proof.
  intros Hm Hf. induction m as [[a|e]|k IH|k IH|g m IH|k IH|k IH]; cbn in *; auto.
  - intros d d' Hd. destruct (Hm d d' Hd) as [Heq Hl]. rewrite Heq. rewrite Heq in Hl. auto.
  - destruct Hm. auto.
Qed.

Lemma local_wrap {A} fmt args (m : tx A) : local env t m -> local env t (tx_wrap fmt args m).
Proof.
  intros Hm. induction m as [[a|e]|k IH|k IH|g m IH|k IH|k IH]; cbn in *; auto.
  - intros d d' Hd. destruct (Hm d d' Hd) as [Heq Hl]. rewrite Heq. rewrite Heq in Hl. auto.
  - destruct Hm. auto.
Qed.

Lemma local_call : local env t tx_call.
Proof. by intros []. Qed.

Lemma local_commit : local env t tx_commit.
Proof. by intros []. Qed.

Lemma local_get {A} (q : txenv -> db -> A) :
  (forall d d', agree env t d d' -> q env d' = q env d) -> local env t (tx_get q).
Proof. intros Hq d d' Hd. by rewrite (Hq d d' Hd). Qed.

Lemma local_exec f : respects env t (f env) -> local env t (tx_exec f).
Proof. intros Hf. by intros []. Qed.

Lemma local_insertStatus s w msg : local env t (insertStatus t s w msg).
Proof.
  unfold insertStatus. apply local_wrap, local_bind; [exact local_call|]. intros _. cbn. intros n d d' [Ht _ _].
  rewrite Ht. split; [done|]. intros d1 d2 [_ _ Hi]. rewrite (bool_decide_ext _ _ (Hi n)). split; [done|].
  case_match; [done|]. case_match; [done|]. split; [apply respects_insert | done].
Qed.

Lemma local_latestStatus : local env t (latestStatus t).
Proof.
  unfold latestStatus. apply local_wrap, local_bind; [exact local_call|]. intros _. apply local_bind.
  - apply local_get. intros d d'. apply agree_latest.
  - by intros [].
Qed.

Lemma local_ensureLatestStatusIn l : local env t (ensureLatestStatusIn t l).
Proof.
  unfold ensureLatestStatusIn. apply local_bind; [exact local_latestStatus|]. intros s. by case_match.
Qed.

Lemma local_ensureLeaseOwner w : local env t (ensureLeaseOwner t w).
Proof.
  unfold ensureLeaseOwner. apply local_bind; [apply local_wrap, local_call|]. intros _. apply local_bind.
  - apply local_get. intros d d'. apply agree_owner.
  - intros ok. by case_match.
Qed.

Lemma local_count :
  local env t (tx_call ;;* let* c := tx_get (fun _ d => count_failed t d) in
               match c with Some c => tx_ret c | None => tx_err err_no_rows end).
Proof.
  apply local_bind; [exact local_call|]. intros _. apply local_bind.
  - apply local_get. intros d d'. apply agree_count.
  - by intros [].
Qed.

End local.

#[export] Hint Resolve local_wrap local_call local_commit local_exec local_insertStatus local_latestStatus
  local_ensureLatestStatusIn local_ensureLeaseOwner local_count respects_delete respects_upsert : local.

(** The task of a method that moves one task in a transaction. *)
Definition op_task (op : store_op) : option Z :=
  match op with
  | OpMarkAssigned _ t _ | OpMarkRunning t _ | OpMarkCompleted t _ | OpMarkFailed t _ _ | OpMarkWorkerLost t _ _ => Some t
  | _ => None
  end.

Lemma op_tx_local `{!PgxScan} op m env t :
  op_task op = Some t -> op_tx op = Some m -> local env t m.
Proof.
  intros Ht Hm.
  assert (Hreply : forall name (body : tx unit), local env t body ->
    local env t (as_reply (fun _ => RUnit) (begin_tx name body))).
  { intros name body Hb. apply local_bind; [|done]. apply local_bind; auto with local. }
  destruct op; try discriminate Ht; injection Ht as ->; injection Hm as <-; apply Hreply.
  - unfold MarkAssigned_tx. apply local_bind; [auto with local|]. intros s0. case_match; [done|].
    repeat (apply local_bind; [auto with local | intros _]). auto with local.
  - repeat (apply local_bind; [auto with local | intros _]). auto with local.
  - repeat (apply local_bind; [auto with local | intros _]). auto with local.
  - unfold MarkFailed_tx. do 4 (apply local_bind; [auto with local | intros _]).
    apply local_bind; [auto with local|]. intros counts.
    apply local_bind; [case_match; [auto with local | done]|]. auto with local.
  - repeat (apply local_bind; [auto with local | intros _]). auto with local.
Qed.

(** ** Sessions of such programs *)

(** The rest of the session concerns [t] only. *)
Record on_task (t : Z) (s : session) : Prop := {
  ot_prog : local (ses_env s) t (ses_prog s);
  ot_writes : Forall (respects (ses_env s) t) (ses_writes s);
}.

Lemma view_respects env t ws : Forall (respects env t) ws -> respects env t (view ws).
Proof.
  induction 1 as [|f ws Hf _ IH]; intros d d' Hd; [done|]. unfold view in *. cbn. apply IH. by apply Hf.
Qed.

(** Runs on databases that agree on the task end alike. *)
Lemma run_local {A} env t (m : tx A) : forall d d' n fs o o',
  local env t m -> agree env t d d' -> option_Forall2 (agree env t) o o' ->
  let p := run_tx m env (mkTxSt d n fs o) in
  let p' := run_tx m env (mkTxSt d' n fs o') in
  fst p = fst p' /\ option_Forall2 (agree env t) (committed (snd p)) (committed (snd p')).
Proof.
  induction m as [r|k IH|k IH|g m IH|k IH|k IH]; intros d d' n fs o o' Hm Hd Ho; cbn in *.
  - done.
  - destruct fs as [|[] fs]; cbn; by apply IH.
  - destruct (Hm d d' Hd) as [Heq Hl]. rewrite <- Heq. by apply IH.
  - destruct Hm as [Hg Hm]. apply IH; [done | by apply Hg | done].
  - by apply IH.
  - destruct fs as [|[] fs]; cbn; unfold tx_record; cbn; apply IH; try done; by constructor.
Qed.

(** So do sessions when the committed tables change elsewhere. *)
Lemma completes_agree t s c c' :
  on_task t s -> agree (ses_env s) t c c' ->
  fst (completes s c) = fst (completes s c') /\ agree (ses_env s) t (snd (completes s c)) (snd (completes s c')).
Proof.
  intros [Hp Hw] Hc. unfold completes.
  destruct (run_local (ses_env s) t (ses_prog s) _ _ (ses_drawn s) (ses_faults s) None None Hp
    (view_respects _ _ _ Hw c c' Hc) ltac:(constructor)) as [H1 H2].
  destruct (run_tx _ _ _) as [r st]. destruct (run_tx _ _ _) as [r' st']. cbn in *.
  split; [done|]. by destruct H2.
Qed.

Lemma statement_on_task t c env m : forall n fs ws,
  local env t m -> Forall (respects env t) ws ->
  on_task t (statement c env m n fs ws) /\ ses_env (statement c env m n fs ws) = env.
Proof.
  induction m as [r|k IH|k IH|g m IH|k IH|k IH]; intros n fs ws Hm Hw; cbn [statement]; try by repeat split.
  - cbn in Hm. destruct (Hm (view ws c) (view ws c) ltac:(reflexivity)). by apply IH.
  - destruct Hm as [Hg Hm]. apply IH; [done|]. apply Forall_app. split; [done | by apply Forall_singleton].
  - by apply IH.
Qed.

Lemma session_step_on_task t s c :
  on_task t s -> on_task t (fst (session_step s c)) /\ ses_env (fst (session_step s c)) = ses_env s.
Proof.
  destruct s as [env m n fs ws]. intros [Hm Hw]. cbn in Hm, Hw. unfold session_step. cbn.
  destruct m as [r|k|k|g m|k|k]; cbn; try (by destruct (pop_fault fs)).
  - destruct (pop_fault fs) as [f fs']. cbn. by apply statement_on_task.
  - destruct (pop_fault fs) as [[] fs']; cbn; by apply statement_on_task.
Qed.

Section others.
Context {P : PgxScan}.

(** Every event but the calls of session [i] leaves what is committed about [t] alone,
    and uses none of the ids of the session's transaction. *)
Fixpoint elsewhere (env : txenv) (t : Z) (i : nat) (v : server) (es : list server_event) : Prop :=
  match es with
  | [] => True
  | e :: es' => (e = EvNext i \/ agree env t (sv_db v) (sv_db (server_step v e))) /\ elsewhere env t i (server_step v e) es'
  end.

(** An event that does not move session [i] leaves it as it is. *)
Lemma other_event i e v s :
  sv_sessions v !! i = Some s -> e <> EvNext i -> sv_sessions (server_step v e) !! i = Some s.
Proof.
  intros Hs He. destruct e as [op env|j|op env]; cbn.
  - destruct (op_tx op); cbn; [by apply lookup_app_l_Some | done].
  - destruct (sv_sessions v !! j); [|done]. destruct (session_step _ _). cbn.
    rewrite list_lookup_insert_ne; [done|]. congruence.
  - by destruct (op_tx op).
Qed.

Lemma own_event i v s :
  sv_sessions v !! i = Some s ->
  sv_sessions (server_step v (EvNext i)) !! i = Some (fst (session_step s (sv_db v))) /\
  sv_db (server_step v (EvNext i)) = snd (session_step s (sv_db v)).
Proof.
  intros Hs. cbn. rewrite Hs. destruct (session_step s (sv_db v)). cbn. split; [|done].
  apply list_lookup_insert_eq. by eapply lookup_lt_Some.
Qed.

Lemma elsewhere_completes env t i es : forall v s,
  sv_sessions v !! i = Some s -> on_task t s -> ses_env s = env -> elsewhere env t i v es ->
  exists s', sv_sessions (serve v es) !! i = Some s' /\
    fst (completes s (sv_db v)) = fst (completes s' (sv_db (serve v es))) /\
    agree env t (snd (completes s (sv_db v))) (snd (completes s' (sv_db (serve v es)))).
Proof.
  induction es as [|e es IH]; intros v s Hs Ht Henv Hq; [by exists s|]. destruct Hq as [He Hq]. cbn [serve fold_left].
  assert (e = EvNext i \/ e <> EvNext i) as [->|Hne].
  { destruct e as [|j|]; [by right | destruct (decide (j = i)); [left | right]; congruence | by right]. }
  - destruct (own_event _ _ _ Hs) as [Hs1 Hd1]. destruct (session_step_on_task t s (sv_db v) Ht) as [Ht1 Henv1].
    destruct (IH _ _ Hs1 Ht1 ltac:(congruence) Hq) as (s' & Hs' & H1 & H2). exists s'. split; [done|].
    rewrite Hd1, completes_step in H1, H2. done.
  - destruct He as [?|He]; [done|]. pose proof (other_event _ _ _ _ Hs Hne) as Hs1.
    destruct (IH _ _ Hs1 Ht Henv Hq) as (s' & Hs' & H1 & H2). exists s'. split; [done|].
    rewrite <- Henv in *. destruct (completes_agree t s _ _ Ht He) as [H3 H4].
    split; [exact (eq_trans H3 H1) | etransitivity; [exact H4 | exact H2]].
Qed.

(** What a method that reported success did to its task, from [d] to [d']. *)
Definition moved_task (op : store_op) (d d' : db) : Prop :=
  match op with
  | OpMarkAssigned _ t w =>
      latest_status t d = Some StateScheduling /\
      history t d' = StateAssigned :: history t d /\ leased_to t w d'
  | OpMarkRunning t w =>
      leased_to t w d /\ (latest_status t d = Some StateAssigned \/ latest_status t d = Some StateRunning) /\
      history t d' = StateRunning :: history t d /\ leases d' !! t = leases d !! t
  | OpMarkCompleted t w =>
      leased_to t w d /\ latest_status t d = Some StateRunning /\
      history t d' = StateCompleted :: history t d /\ leases d' !! t = None
  | OpMarkFailed t w _ =>
      leased_to t w d /\ (latest_status t d = Some StateAssigned \/ latest_status t d = Some StateRunning) /\
      (exists r, tasks d !! t = Some r /\
         history t d' = (if failed_count t d + 1 <? t_max_retries r then [StateQueued] else []) ++
                        StateFailed :: history t d) /\
      leases d' !! t = None
  | OpMarkWorkerLost t w _ =>
      (latest_status t d = Some StateAssigned \/ latest_status t d = Some StateRunning) /\
      history t d' = StateQueued :: StateWorkerLost :: history t d /\
      (leased_to t w d -> leases d' !! t = None) /\
      (~ leased_to t w d -> leases d' !! t = leases d !! t)
  | _ => True
  end.

Lemma agree_moved op t env d d1 d2 :
  op_task op = Some t -> agree env t d1 d2 -> moved_task op d d1 -> moved_task op d d2.
Proof.
  intros Ht [_ [Hr Hl] _].
  assert (Hh : history t d2 = history t d1) by (unfold history; by rewrite Hr).
  assert (Ho : owner_of t d2 = owner_of t d1) by (unfold owner_of; by rewrite Hl).
  destruct op; try discriminate Ht; injection Ht as ->; cbn; unfold leased_to in *; by rewrite ?Hh, ?Hl, ?Ho.
Qed.

Lemma delete_owned t w d : leased_to t w d -> leases (delete_lease t (int64 w) d) !! t = None.
Proof. intros Ho. apply owner_None. rewrite owner_delete. by rewrite bool_decide_eq_true_2. Qed.

Lemma fail_task_moved env t w msg d r :
  leased_to t w d -> tasks d !! t = Some r ->
  history t (fail_task env t w msg d) =
    (if failed_count t d + 1 <? t_max_retries r then [StateQueued] else []) ++ StateFailed :: history t d /\
  leases (fail_task env t w msg d) !! t = None.
Proof.
  intros Ho Ht. unfold fail_task. cbv zeta. set (d1 := delete_lease _ _ _).
  assert (Hc : count_failed t d1 = Some (failed_count t d + 1, t_max_retries r)).
  { unfold count_failed, d1. rewrite tasks_delete_lease, tasks_add_status, Ht, failed_delete, failed_add.
    by rewrite bool_decide_eq_true_2. }
  assert (Hh : history t d1 = StateFailed :: history t d) by (unfold d1; by rewrite history_delete, history_add).
  assert (Hl : leases d1 !! t = None) by (by apply delete_owned).
  rewrite Hc. case_match; [rewrite history_add, Hh; done | done].
Qed.

(** The methods run by themselves. *)
Lemma run_op_moved op env d t :
  op_task op = Some t ->
  match run_op op env d with
  | (Ok _, d') => moved_task op d d'
  | (Err _, d') => d' = d \/ moved_task op d d'
  end.
Proof.
  intros Ht.
  assert (Hgo : forall (E : unit -> db -> Prop) p, all_or_nothing d E p -> (forall d', E tt d' -> moved_task op d d') ->
    match reply (fun _ => RUnit) p with (Ok _, d') => moved_task op d d' | (Err _, d') => d' = d \/ moved_task op d d' end).
  { intros E [[[]|e] d'] Hp HE; cbn in *; [by apply HE|]. destruct Hp as [->|[[] Hp]]; [by left | right; by apply HE]. }
  assert (Hact : forall t, (exists s, latest_status t d = Some s /\ active_status s) ->
    latest_status t d = Some StateAssigned \/ latest_status t d = Some StateRunning).
  { intros t0 (s & Hs & [-> | ->]); auto. }
  destruct op; try discriminate Ht; injection Ht as ->; cbn [run_op].
  - eapply Hgo; [apply MarkAssigned_spec|]. intros d' [Hl _ ->]. split; [done|].
    split; [apply history_add | unfold leased_to, owner_of; cbn; by rewrite lookup_insert_eq].
  - eapply Hgo; [apply MarkRunning_spec|]. intros d' [Ho%check_owner Hl _ ->].
    split; [done|]. split; [by apply Hact|]. split; [apply history_add | done].
  - eapply Hgo; [apply MarkCompleted_spec|]. intros d' [Ho%check_owner Hl _ ->].
    split; [done|]. split; [done|]. split; [by rewrite history_delete, history_add | by apply delete_owned].
  - eapply Hgo; [apply MarkFailed_spec|]. intros d' [Ho%check_owner Hl [r Hr] ->].
    destruct (fail_task_moved env t w msg d r Ho Hr). split; [done|]. split; [by apply Hact|]. eauto.
  - eapply Hgo; [apply MarkWorkerLost_spec|]. intros d' [Hl _ ->]. split; [by apply Hact|]. unfold lose_task.
    split; [by rewrite history_add, history_delete, history_add|]. cbn [leases add_status insert_status].
    split; [intros Ho; by apply delete_owned | intros Ho; by rewrite delete_other].
Qed.

(** C6: MarkAssigned, MarkRunning, MarkCompleted, MarkFailed and MarkWorkerLost as sessions
    among others that commit changes to other tasks between any two of their
    statements.  A session that has returned gave the reply of an undisturbed run on
    the tables it was opened on; if it succeeded, its task was then leased to the
    worker (for the three reports) and in a status the method accepts, and now has the
    statuses and the lease of [moved_task]; if it failed, its task is as it was, or
    the commit took effect and the reply was lost.  And the session does return. *)
Theorem sessions_on_other_tasks (op : store_op) (env : txenv) (v : server) (t : Z) :
  op_task op = Some t ->
  let v0 := server_step v (EvOpen op env) in
  let i := length (sv_sessions v) in
  (forall es s r, elsewhere env t i v0 es -> sv_sessions (serve v0 es) !! i = Some s -> outcome s = Some r ->
     let d' := sv_db (serve v0 es) in
     r = fst (run_op op env (sv_db v)) /\
     match r with
     | Ok _ => moved_task op (sv_db v) d'
     | Err _ => kept t (sv_db v) d' \/ moved_task op (sv_db v) d'
     end) /\
  (exists k s, sv_sessions (serve v0 (repeat (EvNext i) k)) !! i = Some s /\ is_Some (outcome s)).
Proof.
  intros Ht v0 i.
  assert (exists m, op_tx op = Some m) as [m Hm] by (destruct op; try discriminate Ht; by eexists).
  split; [|by eapply uninterrupted_session].
  assert (Hi : sv_sessions v0 !! i = Some (mkSession env m 0 (tx_faults env) [])).
  { unfold v0, i. cbn. rewrite Hm. cbn. by apply list_lookup_middle. }
  assert (Hd : sv_db v0 = sv_db v) by (unfold v0; cbn; by rewrite Hm).
  intros es s r Hq Hs Hr d'.
  destruct (elsewhere_completes env t i es _ _ Hi) as (s' & Hs' & H1 & H2); [|done..|].
  { split; [by eapply op_tx_local | constructor]. }
  assert (s' = s) as -> by congruence. rewrite (completes_done _ _ r Hr), Hd in H1, H2.
  rewrite (completes_op op m) in H1, H2 by done. cbn [fst snd] in H1, H2. split; [done|]. fold d' in H2.
  pose proof (run_op_moved op env (sv_db v) t Ht) as Hmv.
  destruct (run_op op env (sv_db v)) as [r0 d0]. cbn in H1, H2. subst r0. destruct r as [a|e].
  - by eapply agree_moved.
  - destruct Hmv as [->|Hmv]; [left; apply H2 | right; by eapply agree_moved].
Qed.

End others.

(** ** On concrete data *)

(** A status of another task, with an id of another transaction. *)
Lemma agree_appended env t r d d' :
  tasks d' = tasks d -> leases d' = leases d -> statuses d' = r :: statuses d ->
  s_task_id r <> t -> (forall k, tx_uuid env k <> s_id r) -> agree env t d d'.
Proof.
  intros Ht Hl Hs Hr Hid. split; [by rewrite Ht | split; [|by rewrite Hl]|].
  - unfold rows_of. by rewrite Hs, filter_cons_False.
  - intros k. rewrite Hs. cbn. rewrite elem_of_cons. naive_solver.
Qed.

(** Worker 4 completes task 1 while the scheduler claims task 2 in a transaction of its
    own, which commits between two statements of the worker's. *)
Definition claim_env : txenv := mkTxEnv 6500000 (fun n => 5500 + Z.of_nat n) [] ∅.

Definition claim_commits : list server_event :=
  EvOpen (OpClaimQueued 9 1) claim_env :: repeat (EvNext 0) 3 ++ repeat (EvNext 1) 5 ++ repeat (EvNext 0) 3.

Definition completing : server :=
  server_step (mkServer demo_running []) (EvOpen (OpMarkCompleted 1 4) (demo_env 6)).

Definition completed_session : session :=
  default (mkSession (demo_env 6) (TxDone (Ok RUnit)) 0 [] []) (sv_sessions (serve completing claim_commits) !! 0%nat).

Lemma sessions_on_other_tasks_witness :
  Ok RUnit = fst (run_op (OpMarkCompleted 1 4) (demo_env 6) demo_running) /\
  moved_task (OpMarkCompleted 1 4) demo_running (sv_db (serve completing claim_commits)).
Proof.
  refine (proj1 (sessions_on_other_tasks (OpMarkCompleted 1 4) (demo_env 6) (mkServer demo_running []) 1 eq_refl)
    claim_commits completed_session (Ok RUnit) _ _ _).
  - cbn [elsewhere claim_commits repeat app].
    repeat match goal with |- _ /\ _ => split end; try exact I; first
      [ left; reflexivity
      | right; match goal with |- agree _ _ ?a ?b => replace b with a by (vm_compute; reflexivity) end; reflexivity
      | right; refine (agree_appended _ _ (mkStatusRow 5500 2 StateScheduling (Some 9) None 6500000) _ _ _ _ _ _ _);
        [vm_compute; reflexivity .. | discriminate | intros k; cbn; lia] ].
  - vm_compute. reflexivity.
  - vm_compute. reflexivity.
Defined.

(** The claim was committed in between. *)
Example claim_committed : latest_status 2 (sv_db (serve completing claim_commits)) = Some StateScheduling.
Proof. vm_compute. reflexivity. Qed.
