(* ===== verification/Strategy.v ===== *)
(** * scheduler/strategy: the choice of a worker

    The interface Strategy of strategy.go is a type class, its promise to the
    scheduler a second one; RoundRobin is an instance of both. *)

From S2P Require Import Prelude Cluster.

(** ** The interface *)

Class Strategy (S : Type) := { Pick : gmap Z Member -> S -> option Member * S }.

(** The next [n] choices on the same members. *)
Fixpoint picks {S} `{Strategy S} (m : gmap Z Member) (s : S) (n : nat) : list (option Member) :=
  match n with
  | O => []
  | S n' => fst (Pick m s) :: picks m (snd (Pick m s)) n'
  end.

(** The map is keyed by the members' own ids, as the registry of cluster/ is. *)
Definition keyed (m : gmap Z Member) : Prop := map_Forall (fun id x => ID x = id) m.

(** [steady_for s n]: the next [n] choices are made without disturbance of the
    strategy's internal state. *)
Class StrategyLaws (S : Type) `{Strategy S} := {
  steady_for : S -> nat -> Prop;
  pick_some m s : m <> ∅ -> exists w, fst (Pick m s) = Some w;
  pick_empty s : fst (Pick ∅ s) = None;
  pick_member m s w : fst (Pick m s) = Some w -> exists id, m !! id = Some w;
  pick_spread m s n : keyed m -> steady_for s n -> (n <= size m)%nat -> NoDup (picks m s n);
}.

(** ** RoundRobin *)

Record RoundRobin := mkRoundRobin { counter : Z }.

Definition NewRoundRobin : RoundRobin := mkRoundRobin 0.

(** The keys of the map, sorted by slices.Sort. *)
Definition sorted_ids (m : gmap Z Member) : list Z := sort_by Z.leb (fst <$> map_to_list m).

Definition zero_member : Member := mkMember 0 EmptyString.

Definition RoundRobin_Pick (m : gmap Z Member) (r : RoundRobin) : option Member * RoundRobin :=
  if (size m =? 0)%nat then (None, r)
  else
    let ids := sorted_ids m in
    let idx := counter r mod Z.of_nat (length ids) in
    (Some (default zero_member (m !! (ids !!! Z.to_nat idx))), mkRoundRobin (uint64 (counter r + 1))).

#[export] Instance RoundRobin_Strategy : Strategy RoundRobin := { Pick := RoundRobin_Pick }.

Lemma sorted_ids_perm m : sorted_ids m ≡ₚ fst <$> map_to_list m.
Proof. apply sort_by_Permutation. Qed.

Lemma sorted_ids_length m : length (sorted_ids m) = size m.
Proof. rewrite sorted_ids_perm, length_fmap. apply length_map_to_list. Qed.

Lemma sorted_ids_NoDup m : NoDup (sorted_ids m).
Proof. rewrite sorted_ids_perm. apply NoDup_fst_map_to_list. Qed.

Lemma sorted_ids_elem m id : id ∈ sorted_ids m <-> is_Some (m !! id).
Proof.
  rewrite sorted_ids_perm, list_elem_of_fmap. split.
  - intros ([i w] & -> & H%elem_of_map_to_list). by eexists.
  - intros [w Hw]. exists (id, w). split; [done|]. by apply elem_of_map_to_list.
Qed.

(** The member at position [i] of the sorted ids, counted round the circle. *)
Definition nth_member (m : gmap Z Member) (i : Z) : Member :=
  default zero_member (m !! (sorted_ids m !!! Z.to_nat (i mod Z.of_nat (size m)))).

Lemma Pick_nth m r : m <> ∅ -> RoundRobin_Pick m r = (Some (nth_member m (counter r)), mkRoundRobin (uint64 (counter r + 1))).
Proof.
  intros Hm. unfold RoundRobin_Pick, nth_member. rewrite sorted_ids_length.
  destruct (Nat.eqb_spec (size m) 0) as [H|H]; [|done]. by apply map_size_empty_iff in H.
Qed.

Lemma size_pos (m : gmap Z Member) : m <> ∅ -> 0 < Z.of_nat (size m).
Proof. intros Hm. assert (size m <> 0%nat) by (by intros ?%map_size_empty_iff). lia. Qed.

Lemma nth_member_in m i : m <> ∅ -> exists id, sorted_ids m !! Z.to_nat (i mod Z.of_nat (size m)) = Some id /\
  m !! id = Some (nth_member m i).
Proof.
  intros Hm. pose proof (size_pos m Hm) as Hs.
  assert (Z.to_nat (i mod Z.of_nat (size m)) < length (sorted_ids m))%nat as Hlt.
  { rewrite sorted_ids_length. pose proof (Z.mod_pos_bound i _ Hs). lia. }
  destruct (lookup_lt_is_Some_2 _ _ Hlt) as [id Hid]. exists id. split; [done|].
  assert (is_Some (m !! id)) as [w Hw] by (by eapply sorted_ids_elem, list_elem_of_lookup_2).
  unfold nth_member. rewrite (list_lookup_total_correct _ _ _ Hid), Hw. done.
Qed.

(** Different positions on the circle are different members. *)
Lemma nth_member_inj m i j :
  keyed m -> m <> ∅ -> nth_member m i = nth_member m j ->
  i mod Z.of_nat (size m) = j mod Z.of_nat (size m).
Proof.
  intros Hk Hm Heq. pose proof (size_pos m Hm) as Hs.
  destruct (nth_member_in m i Hm) as (a & Ha & Hia). destruct (nth_member_in m j Hm) as (b & Hb & Hjb).
  assert (a = b) as -> by (rewrite <- (Hk a _ Hia), <- (Hk b _ Hjb); by rewrite Heq).
  pose proof (NoDup_lookup _ _ _ _ (sorted_ids_NoDup m) Ha Hb).
  pose proof (Z.mod_pos_bound i _ Hs).
  pose proof (Z.mod_pos_bound j _ Hs). lia.
Qed.

(** Before the counter wraps, [n] choices are the next [n] positions. *)
Lemma picks_nth m : m <> ∅ -> forall n c, 0 <= c -> c + Z.of_nat n <= u64_size ->
  picks m (mkRoundRobin c) n = (fun i => Some (nth_member m (c + Z.of_nat i))) <$> seq 0 n.
Proof.
  intros Hm. induction n as [|n IH]; intros c H0 Hc; [done|]. cbn [picks seq fmap list_fmap].
  cbn [Pick RoundRobin_Strategy]. rewrite (Pick_nth m) by done. cbn [fst snd counter].
  rewrite Z.add_0_r. f_equal. destruct (decide (n = 0%nat)) as [->|Hn]; [done|].
  rewrite uint64_id by (unfold is_u64, u64_size in *; lia). rewrite IH by lia.
  rewrite <- fmap_S_seq, <- list_fmap_compose. apply list_fmap_ext. intros i x _. cbn. do 2 f_equal. lia.
Qed.

Lemma mod_inj_small c i j n : 0 <= i < n -> 0 <= j < n -> (c + i) mod n = (c + j) mod n -> i = j.
Proof.
  intros Hi Hj Heq. assert (Hd : (i - j) mod n = 0).
  { replace (i - j) with ((c + i) - (c + j)) by lia. rewrite Zminus_mod, Heq, Z.sub_diag. apply Z.mod_0_l. lia. }
  apply Z.mod_divide in Hd as [k Hk]; [|lia].
  assert (k <= -1 \/ k = 0 \/ 1 <= k) as [H|[->|H]] by lia; [|lia|]; nia.
Qed.

#[export] Instance RoundRobin_laws : StrategyLaws RoundRobin.
Proof.
  refine {| steady_for r n := 0 <= counter r /\ counter r + Z.of_nat n <= u64_size |}; cbn [Pick RoundRobin_Strategy].
  - intros m r Hm. rewrite Pick_nth by done. by eexists.
  - done.
  - intros m r w. destruct (decide (m = ∅)) as [->|Hm]; [done|]. rewrite Pick_nth by done.
    intros [= <-]. destruct (nth_member_in m (counter r) Hm) as (id & _ & H). by exists id.
  - intros m [c] n Hk [H0 Hc] Hn. cbn in H0, Hc. destruct (decide (m = ∅)) as [->|Hm].
    { rewrite map_size_empty in Hn. assert (n = 0%nat) as -> by lia. constructor. }
    rewrite picks_nth by done. apply NoDup_fmap_2_strong; [|apply NoDup_seq].
    intros i j Hi%elem_of_seq Hj%elem_of_seq [= Heq].
    apply nth_member_inj in Heq; [|done..].
    apply mod_inj_small in Heq; lia.
Defined.

(** A choice from the map is one of its values, also after other choices. *)
Lemma picks_elem {S} `{StrategyLaws S} m n : forall (s : S) w, Some w ∈ picks m s n -> exists id, m !! id = Some w.
Proof.
  induction n as [|n IH]; intros s w Hin; cbn in Hin; [by apply elem_of_nil in Hin|].
  apply elem_of_cons in Hin as [Hw|Hin]; [by apply (pick_member m s) | by apply (IH (snd (Pick m s)))].
Qed.

Lemma picks_length {S} `{Strategy S} m n : forall s : S, length (picks m s n) = n.
Proof. induction n as [|n IH]; intros s; cbn; [done|]. by rewrite IH. Qed.

Lemma picks_full {S} `{StrategyLaws S} m n : forall s : S, m <> ∅ -> Forall is_Some (picks m s n).
Proof.
  induction n as [|n IH]; intros s Hm; cbn; constructor; [|by apply IH].
  destruct (pick_some m s Hm) as [w ->]. by eexists.
Qed.

(** C38: as many consecutive choices as there are members, before the 64-bit counter
    wraps, choose every member exactly once. *)
Theorem round_robin_fair (m : gmap Z Member) (r : RoundRobin) :
  keyed m -> 0 <= counter r -> counter r + Z.of_nat (size m) <= u64_size ->
  picks m r (size m) ≡ₚ (Some ∘ snd) <$> map_to_list m.
Proof.
  intros Hk H0 Hc. apply submseteq_length_Permutation.
  - apply NoDup_submseteq; [by apply pick_spread|]. intros [w|] Hw.
    + destruct (picks_elem m (size m) r w Hw) as [id Hid]. apply list_elem_of_fmap. exists (id, w).
      split; [done|]. by apply elem_of_map_to_list.
    + destruct (decide (m = ∅)) as [->|Hm]; [by apply elem_of_nil in Hw|].
      pose proof (picks_full m (size m) r Hm) as Hf. rewrite Forall_forall in Hf. by destruct (Hf _ Hw).
  - by rewrite picks_length, length_fmap, length_map_to_list.
Qed.

Lemma round_robin_fair_witness :
  let m := <[3 := mkMember 3 "c"]> (<[1 := mkMember 1 "a"]> (∅ : gmap Z Member)) in
  picks m (mkRoundRobin 5) (size m) ≡ₚ (Some ∘ snd) <$> map_to_list m.
Proof.
  apply (round_robin_fair _ (mkRoundRobin 5)).
  - apply (bool_decide_eq_true_1 _). vm_compute. reflexivity.
  - cbn. lia.
  - vm_compute. discriminate.
Defined.

(** When the counter wraps, two choices in a row can be the same member. *)
Example round_robin_wraps :
  let m := <[3 := mkMember 3 "c"]> (<[2 := mkMember 2 "b"]> (<[1 := mkMember 1 "a"]> (∅ : gmap Z Member))) in
  picks m (mkRoundRobin u64_max) 2 = [Some (mkMember 1 "a"); Some (mkMember 1 "a")].
Proof. vm_compute. reflexivity. Qed.
