(* ===== verification/Scheduler.v ===== *)
(** * scheduler/: the scheduling engine

    [tick] is written against the interfaces the source names: a strategy, a
    task store and a task dispatcher, type classes over the world they act on.
    The world of the theorems, [sworld], is the database of TaskStore.v with
    the reports of workers and new submissions happening between the calls. *)

From S2P Require Import Prelude Cluster TaskStore TaskTx TaskLifecycle TaskRefine TaskAtomic TaskReach TaskFunctional TaskRecovery StoreIface Strategy.

Record AssignTaskRequest := mkAssignTaskRequest {
  req_TaskId : string;
  req_ExecutableUri : string;
  req_InputUri : string;
  req_OutputUri : string;
  req_Args : list string;
}.

(** The interface TaskDispatcher. *)
Class TaskDispatcher (W : Type) := {
  AssignTask : string -> AssignTaskRequest -> W -> result unit * W;
}.

(** ** The engine *)

Record Engine (S : Type) := mkEngine {
  selfID : Z;
  BatchSize : Z;
  strategy : S;
  didLeaderRecovery : bool;
}.
Arguments mkEngine {S} _ _ _ _.
Arguments selfID {S} _.
Arguments BatchSize {S} _.
Arguments strategy {S} _.
Arguments didLeaderRecovery {S} _.

Definition NewEngine {S} (self batch : Z) (s : S) : Engine S := mkEngine self batch s false.

Section engine.
Context {W S : Type} `{!Uuid} `{!Store W} `{!TaskDispatcher W} `{!Strategy S}.

Definition aliveWorkers (self : Z) (members : gmap Z Member) : gmap Z Member :=
  filter (fun p => fst p <> self) members.

Definition freeWorkers (alive : gmap Z Member) (w : W) : result (gmap Z Member) * W :=
  if (size alive =? 0)%nat then (Ok alive, w)
  else
    match store_ActiveLeases w with
    | (Err e, w') => (Err e, w')
    | (Ok leases, w') => (Ok (fold_left (fun free l => delete (LeaseWorker l) free) leases alive), w')
    end.

Definition recoverOnLeadership (alive : gmap Z Member) (w : W) : W :=
  let w1 := snd (store_RecoverStaleScheduling w) in
  snd (store_RecoverDeadWorkerLeases alive w1).

Definition request_of (t : Task) : AssignTaskRequest :=
  mkAssignTaskRequest (uuid_String (TaskID t)) (Executable t) (InputURI t) (OutputURI t) (Args t).

Fixpoint dispatchClaimedTasks (ts : list Task) (workers : gmap Z Member) (s : S) (w : W) : S * W :=
  match ts with
  | [] => (s, w)
  | t :: ts' =>
      match Pick workers s with
      | (None, s') => (s', w)
      | (Some worker, s') =>
          match store_MarkAssigned (TaskID t) (ID worker) w with
          | (Err _, w1) => dispatchClaimedTasks ts' workers s' w1
          | (Ok _, w1) =>
              match AssignTask (GRPCAddr worker) (request_of t) w1 with
              | (Ok _, w2) => dispatchClaimedTasks ts' workers s' w2
              | (Err _, w2) =>
                  let w3 := snd (store_MarkWorkerLost (TaskID t) (ID worker) "dispatch failed" w2) in
                  dispatchClaimedTasks ts' workers s' w3
              end
          end
      end
  end.

Definition set_recovery (b : bool) (e : Engine S) : Engine S :=
  mkEngine (selfID e) (BatchSize e) (strategy e) b.

Definition set_strategy (s : S) (e : Engine S) : Engine S :=
  mkEngine (selfID e) (BatchSize e) s (didLeaderRecovery e).

(** [leader] and [members] are what the election and the cluster report at this tick. *)
Definition tick (leader : bool) (members : gmap Z Member) (e : Engine S) (w : W) : Engine S * W :=
  if negb leader then (set_recovery false e, w)
  else
    let alive := aliveWorkers (selfID e) members in
    if (size alive =? 0)%nat then (e, w)
    else
      let '(e1, w1) :=
        if negb (didLeaderRecovery e)
        then (set_recovery true e, recoverOnLeadership alive w)
        else (e, w) in
      match store_RecoverExpiredLeases w1 with
      | (Err _, w2) => (e1, w2)
      | (Ok _, w2) =>
          match freeWorkers alive w2 with
          | (Err _, w3) => (e1, w3)
          | (Ok workers, w3) =>
              if (size workers =? 0)%nat then (e1, w3)
              else
                let claimCount := Z.min (BatchSize e) (Z.of_nat (size workers)) in
                if claimCount =? 0 then (e1, w3)
                else
                  match store_ClaimQueued (selfID e) claimCount w3 with
                  | (Err _, w4) => (e1, w4)
                  | (Ok [], w4) => (e1, w4)
                  | (Ok ts, w4) =>
                      let '(s, w5) := dispatchClaimedTasks ts workers (strategy e1) w4 in
                      (set_strategy s e1, w5)
                  end
          end
      end.

End engine.

(** ** The world of the scheduler *)

(** Something other than the scheduler acts on the tables: a worker reports, or a
    client submits a task. *)
Inductive outside :=
| OutReport (op : store_op)
| OutSubmit (t : Z) (r : task_row).

Definition outside_ok (o : outside) : Prop :=
  match o with OutReport op => is_Some (report_of op) | OutSubmit _ _ => True end.

(** [se_tx n d]: time, ids, faults and locks of the [n]-th call when it finds [d];
    [se_between n]: what happens before it; [se_rpc n]: the answer to an RPC. *)
Record senv := mkSEnv {
  se_tx : nat -> db -> txenv;
  se_between : nat -> list outside;
  se_rpc : nat -> result unit;
}.

Record sworld := mkSWorld {
  sw_db : db;
  sw_calls : nat;
  sw_sent : list (string * AssignTaskRequest);
}.

Section world.
Context {P : PgxScan} (E : senv) (st : PostgresStore).

Definition run_outside (n : nat) (d : db) (o : outside) : db :=
  match o with
  | OutReport op => snd (run_op op (se_tx E n d) d)
  | OutSubmit t r => if bool_decide (is_Some (tasks d !! t)) then d else submit t r (se_tx E n d) d
  end.

(** The database the [n]-th call finds. *)
Definition before_call (w : sworld) : db :=
  fold_left (run_outside (sw_calls w)) (se_between E (sw_calls w)) (sw_db w).

Definition sw_call {A} (m : txenv -> db -> result A * db) (w : sworld) : result A * sworld :=
  let d := before_call w in
  let '(r, d') := m (se_tx E (sw_calls w) d) d in
  (r, mkSWorld d' (Datatypes.S (sw_calls w)) (sw_sent w)).

Definition sworld_runs : RunsStore sworld := {| run_store A := @sw_call A |}.

Definition sworld_store : Store sworld := @postgres_store sworld sworld_runs _ st.

(** The request may arrive even when the call reports an error. *)
Definition sworld_dispatcher : TaskDispatcher sworld := {|
  AssignTask addr req w :=
    (se_rpc E (sw_calls w), mkSWorld (sw_db w) (Datatypes.S (sw_calls w)) (sw_sent w ++ [(addr, req)]));
|}.

(** The engine in this world. *)
Context {S : Type} `{!Uuid} `{!Strategy S}.

Definition dispatch_in : list Task -> gmap Z Member -> S -> sworld -> S * sworld :=
  @dispatchClaimedTasks sworld S _ sworld_store sworld_dispatcher _.

Definition free_in : gmap Z Member -> sworld -> result (gmap Z Member) * sworld :=
  @freeWorkers sworld sworld_store.

Definition tick_in : bool -> gmap Z Member -> Engine S -> sworld -> Engine S * sworld :=
  @tick sworld S _ sworld_store sworld_dispatcher _.

End world.
