(* ===== verification/SchedulerProps.v ===== *)
(** * What the scheduler guarantees

    Each tick is a sequence of steps of the store, gives a worker at most one
    task, and never undoes a lease of another worker. *)

From S2P Require Import Prelude Cluster TaskStore TaskTx TaskLifecycle TaskRefine TaskAtomic TaskReach TaskFunctional TaskRecovery StoreIface Strategy Scheduler.

(** ** Only MarkAssigned gives out leases *)

Definition owners_shrink (d d' : db) : Prop :=
  forall t, owner_of t d' = owner_of t d \/ owner_of t d' = None.

#[export] Instance owners_shrink_preorder : PreOrder owners_shrink.
Proof.
  split; [by left|]. intros d1 d2 d3 H12 H23 t.
  destruct (H23 t) as [->| ->]; [apply H12 | by right].
Qed.

Lemma shrink_leases d d' : leases d' = leases d -> owners_shrink d d'.
Proof. intros H t. left. unfold owner_of. by rewrite H. Qed.

Lemma shrink_delete t w d : owners_shrink d (delete_lease t w d).
Proof.
  intros t'. unfold owner_of, delete_lease. destruct (leases d !! t) as [l|]; [|by left].
  destruct (l_worker_id l =? w); [|by left]. cbn. rewrite lookup_delete.
  case_decide; [by right | by left].
Qed.

Lemma shrink_add env n t s w msg d : owners_shrink d (add_status env n t s w msg d).
Proof. by apply shrink_leases. Qed.

Lemma shrink_lose env n t w msg d : owners_shrink d (lose_task env n t w msg d).
Proof. etransitivity; [apply shrink_add|]. etransitivity; [apply shrink_delete | apply shrink_add]. Qed.

Lemma shrink_lose_each env ls msg : forall n d, owners_shrink d (lose_each env n ls msg d).
Proof.
  induction ls as [|l ls IH]; intros n d; cbn; [done|]. etransitivity; [apply shrink_lose | apply IH].
Qed.

Lemma shrink_fail env t w msg d : owners_shrink d (fail_task env t w msg d).
Proof.
  unfold fail_task. cbv zeta.
  assert (H : owners_shrink d (delete_lease t (int64 w) (add_status env 0 t StateFailed (Some w) msg d)))
    by (etransitivity; [apply shrink_add | apply shrink_delete]).
  repeat case_match; try done.
Qed.

Lemma shrink_all_or_nothing {A} d (F : A -> db -> Prop) res :
  (forall a d', F a d' -> owners_shrink d d') -> all_or_nothing d F res -> owners_shrink d (snd res).
Proof.
  intros HF. destruct res as [[a|e] d']; cbn; [by apply HF|]. intros [->|[a Ha]]; [done | by eapply HF].
Qed.

Definition assigns (op : store_op) : bool :=
  match op with OpMarkAssigned _ _ _ => true | _ => false end.

Lemma run_op_shrinks `{!PgxScan} op env d :
  assigns op = false -> owners_shrink d (snd (run_op op env d)).
Proof.
  intros Hop. destruct op; try done; cbn [run_op reply snd].
  - eapply shrink_all_or_nothing; [|apply ClaimQueued_spec]. intros ts d' [_ _ ->].
    apply shrink_leases, add_each_leases.
  - by rewrite (proj1 (ActiveLeases_spec env d)).
  - eapply shrink_all_or_nothing; [|apply RenewLease_spec]. cbv beta.
    intros _ d' (_ & _ & Ho)%RenewLease_same t'. by left.
  - eapply shrink_all_or_nothing; [|apply MarkRunning_spec]. cbv beta. intros _ d' [_ _ _ ->]. apply shrink_add.
  - eapply shrink_all_or_nothing; [|apply MarkCompleted_spec]. cbv beta. intros _ d' [_ _ _ ->].
    etransitivity; [apply shrink_add | apply shrink_delete].
  - eapply shrink_all_or_nothing; [|apply MarkFailed_spec]. cbv beta. intros _ d' [_ _ _ ->]. apply shrink_fail.
  - eapply shrink_all_or_nothing; [|apply MarkWorkerLost_spec]. cbv beta. intros _ d' [_ _ ->]. apply shrink_lose.
  - eapply shrink_all_or_nothing; [|apply RecoverExpiredLeases_spec]. intros k d' (ls & _ & [_ ->]).
    apply shrink_lose_each.
  - eapply shrink_all_or_nothing; [|apply RecoverDeadWorkerLeases_spec]. intros k d' [_ ->]. apply shrink_lose_each.
  - eapply shrink_all_or_nothing; [|apply RecoverStaleScheduling_spec]. intros k d' [_ ->].
    apply shrink_leases, add_each_leases.
Qed.

(** ** Calls in the world of the scheduler *)

Section world.
Context {P : PgxScan} {L : PgxScanLaws P} (E : senv) (st : PostgresStore).
Hypothesis Hready : forall n d, ready (se_tx E n d) 0 d.
Hypothesis Hbetween : forall n, Forall outside_ok (se_between E n).

(** The database moved along steps of the store without new leases. *)
Record evolves (d d' : db) : Prop := {
  ev_inv : store_inv d';
  ev_steps : rtc sstep d d';
  ev_owners : owners_shrink d d';
}.

Lemma evolves_trans d1 d2 d3 : evolves d1 d2 -> evolves d2 d3 -> evolves d1 d3.
Proof. intros [? ? ?] [? ? ?]. split; [done | by etransitivity | by etransitivity]. Qed.

Lemma evolves_refl d : store_inv d -> evolves d d.
Proof. intros H. split; [done | apply rtc_refl | done]. Qed.

Lemma evolves_op op n d :
  store_inv d -> op_ok op d -> assigns op = false -> evolves d (snd (run_op op (se_tx E n d) d)).
Proof.
  intros Hinv Hop Ha. split.
  - by apply run_op_refines.
  - by apply rtc_once, ss_op.
  - by apply run_op_shrinks.
Qed.

Lemma outside_evolves n o d : store_inv d -> outside_ok o -> evolves d (run_outside E n d o).
Proof.
  intros Hinv Ho. destruct o as [op|t r]; cbn.
  - destruct Ho as [p Hp]. apply evolves_op; [done|..]; by destruct op.
  - case_bool_decide as Ht; [by apply evolves_refl|].
    assert (tasks d !! t = None) as Hnone by (destruct (tasks d !! t); [destruct Ht; by eexists | done]).
    split; [by apply submit_inv | by apply rtc_once, ss_submit | by apply shrink_leases].
Qed.

Lemma outsides_evolve n os : forall d,
  store_inv d -> Forall outside_ok os -> evolves d (fold_left (run_outside E n) os d).
Proof.
  induction os as [|o os IH]; intros d Hinv Hos; cbn; [by apply evolves_refl|].
  apply Forall_cons in Hos as [Ho Hos]. pose proof (outside_evolves n o d Hinv Ho) as Hev.
  eapply evolves_trans; [exact Hev|]. apply IH; [apply Hev | done].
Qed.

Lemma before_evolves w : store_inv (sw_db w) -> evolves (sw_db w) (before_call E w).
Proof. intros Hinv. by apply outsides_evolve. Qed.

(** A call that gives out no lease, from one world to the next. *)
Lemma call_evolves {A} op f (m : txenv -> db -> result A * db) w :
  (forall env d, run_op op env d = reply f (m env d)) -> assigns op = false ->
  store_inv (sw_db w) -> op_ok op (before_call E w) -> evolves (sw_db w) (sw_db (snd (sw_call E m w))).
Proof.
  intros Hm Ha Hinv Hop. pose proof (before_evolves w Hinv) as Hb. eapply evolves_trans; [exact Hb|].
  pose proof (evolves_op op (sw_calls w) (before_call E w) (ev_inv _ _ Hb) Hop Ha) as Hev.
  rewrite Hm in Hev. unfold sw_call. by destruct (m _ (before_call E w)).
Qed.

Lemma call_sent {A} (m : txenv -> db -> result A * db) w : sw_sent (snd (sw_call E m w)) = sw_sent w.
Proof. unfold sw_call. by destruct (m _ _). Qed.

(** What a successful call returned, from the database it found. *)
Lemma call_result {A} (m : txenv -> db -> result A * db) w r w' :
  sw_call E m w = (r, w') ->
  m (se_tx E (sw_calls w) (before_call E w)) (before_call E w) = (r, sw_db w') /\ sw_sent w' = sw_sent w.
Proof. unfold sw_call. destruct (m _ _). by intros [= <- <-]. Qed.

(** ** One lease per worker *)

Definition idle (w : Z) (d : db) : Prop := forall t, owner_of t d <> Some (int64 w).

Definition one_lease (d : db) : Prop :=
  forall t t' w, owner_of t d = Some w -> owner_of t' d = Some w -> t = t'.

Lemma idle_shrink w d d' : owners_shrink d d' -> idle w d -> idle w d'.
Proof. intros Hs Hi t. destruct (Hs t) as [-> | ->]; [apply Hi | done]. Qed.

Lemma one_lease_shrink d d' : owners_shrink d d' -> one_lease d -> one_lease d'.
Proof.
  intros Hs Ho t t' w Ht Ht'. apply (Ho t t' w).
  - destruct (Hs t) as [<-|Hn]; [done | congruence].
  - destruct (Hs t') as [<-|Hn]; [done | congruence].
Qed.

Lemma held_shrink t w d d' : owners_shrink d d' -> held_by t w d -> held_by t w d'.
Proof.
  intros Hs Hh. unfold held_by, leased_to in *. destruct (Hs t) as [-> | ->]; auto.
Qed.

(** MarkAssigned gives [t] to [w], or nothing happens to the leases. *)
Lemma assign_owner t w env d d' :
  MarkAssigned_effect st t w env d d' ->
  forall t', owner_of t' d' = if bool_decide (t' = t) then Some (int64 w) else owner_of t' d.
Proof.
  intros [_ _ ->] t'. unfold owner_of. cbn [leases upsert_lease].
  case_bool_decide as Ht; [subst; by rewrite lookup_insert_eq | by rewrite lookup_insert_ne].
Qed.

Lemma assign_one_lease t w env d d' :
  MarkAssigned_effect st t w env d d' -> idle w d -> one_lease d -> one_lease d'.
Proof.
  intros He Hi Ho t1 t2 x. rewrite !(assign_owner _ _ _ _ _ He). repeat case_bool_decide; subst; try done.
  - intros [= <-] Hx. by destruct (Hi t2).
  - intros Hx [= <-]. by destruct (Hi t1).
  - apply Ho.
Qed.

Lemma assign_idle t w w' env d d' :
  MarkAssigned_effect st t w env d d' -> is_u64 w -> is_u64 w' -> w' <> w -> idle w' d -> idle w' d'.
Proof.
  intros He Hw Hw' Hne Hi t'. rewrite (assign_owner _ _ _ _ _ He). case_bool_decide; [|apply Hi].
  intros [= Heq]. apply Hne. symmetry. by apply int64_inj.
Qed.

(** What a call of MarkAssigned can do. *)
Lemma call_assign t w wd r w' :
  sw_call E (MarkAssigned st t w) wd = (r, w') -> store_inv (sw_db wd) -> is_u64 w ->
  let d := before_call E wd in
  evolves (sw_db wd) d /\ store_inv (sw_db w') /\ rtc sstep d (sw_db w') /\ sw_sent w' = sw_sent wd /\
  (idle w d -> one_lease d -> one_lease (sw_db w')) /\
  (forall x, is_u64 x -> x <> w -> idle x d -> idle x (sw_db w')) /\
  (is_ok r = true -> held_by t w (sw_db w')) /\
  (forall t', t' <> t -> abs (sw_db w') t' = abs d t').
Proof.
  intros Hc Hinv Hw d. pose proof (before_evolves wd Hinv) as Hb. apply call_result in Hc as [Hm Hsent].
  pose proof (Hready (sw_calls wd) d) as Hr.
  pose proof (run_op_refines (OpMarkAssigned st t w) _ d (ev_inv _ _ Hb) Hr I) as Href.
  pose proof (run_op_moves (OpMarkAssigned st t w) _ d (ev_inv _ _ Hb) Hr I) as Hmv.
  pose proof (MarkAssigned_spec st t w (se_tx E (sw_calls wd) d) d) as Hs.
  assert (Hst : sstep d (snd (run_op (OpMarkAssigned st t w) (se_tx E (sw_calls wd) d) d))) by (by apply ss_op).
  cbn [run_op reply snd] in Href, Hst, Hmv. fold d in Hm. rewrite Hm in Href, Hst, Hs, Hmv. cbn in Href, Hst, Hmv.
  split; [done|]. split; [apply Href|]. split; [by apply rtc_once|]. split; [done|].
  assert (Heff : sw_db w' = d /\ is_ok r = false \/ MarkAssigned_effect st t w (se_tx E (sw_calls wd) d) d (sw_db w')).
  { destruct r; cbn in Hs; [by right|]. destruct Hs as [->|[_ Hs]]; [by left | by right]. }
  split_and!.
  - intros Hi Ho. destruct Heff as [[-> _]|He]; [done|]. by eapply assign_one_lease.
  - intros x Hx Hne Hi. destruct Heff as [[-> _]|He]; [done|]. by eapply assign_idle.
  - intros Hok. destruct Heff as [[_ Hno]|He]; [congruence|]. right. unfold leased_to.
    by rewrite (assign_owner _ _ _ _ _ He), bool_decide_eq_true_2.
  - intros t' Hne. eapply untouched; [apply Hb | exact Hmv|]. by intros [? _].
Qed.

(** ** The dispatch loop *)

Context {S : Type} {U : Uuid} {Hst : Strategy S} {SL : StrategyLaws S}.

Definition sent_of (p : Task * Member) : string * AssignTaskRequest := (GRPCAddr (snd p), request_of (fst p)).

(** The keys are the ids and fit 64 bits, as the registry guarantees. *)
Definition members_ok (m : gmap Z Member) : Prop := keyed m /\ forall id x, m !! id = Some x -> is_u64 id.

Lemma pick_u64 workers s n w :
  members_ok workers -> Some w ∈ picks workers s n -> is_u64 (ID w) /\ workers !! ID w = Some w.
Proof.
  intros [Hk Hu] Hin. destruct (picks_elem workers n s w Hin) as [id Hid].
  pose proof (Hk id w Hid) as Hid'. cbn in Hid'. rewrite Hid'. split; [by eapply Hu | done].
Qed.

(** What the dispatch loop keeps and does. *)
Record dispatched (ts : list Task) (choices : list (option Member)) (w w' : sworld) : Prop := {
  dp_inv : store_inv (sw_db w');
  dp_steps : rtc sstep (sw_db w) (sw_db w');
  dp_one : one_lease (sw_db w');
  dp_sent : exists ps, sw_sent w' = sw_sent w ++ (sent_of <$> ps) /\ ps.*1 `sublist_of` ts /\
    Some <$> ps.*2 `sublist_of` choices;
}.

(** One task further: nothing was sent for it, or one request was. *)
Lemma dispatched_cons t wk ts choices w w1 w' :
  rtc sstep (sw_db w) (sw_db w1) ->
  sw_sent w1 = sw_sent w \/ sw_sent w1 = sw_sent w ++ [sent_of (t, wk)] ->
  dispatched ts choices w1 w' -> dispatched (t :: ts) (Some wk :: choices) w w'.
Proof.
  intros Hrt Hs [Hinv Hst' Ho (ps & Hsent & H1 & H2)]. split; [done | by etransitivity | done|].
  destruct Hs as [Hs|Hs]; rewrite Hs in Hsent.
  - exists ps. split; [done|]. split; by apply sublist_cons.
  - exists ((t, wk) :: ps). cbn. rewrite Hsent, <- app_assoc. split; [done|]. split; by apply sublist_skip.
Qed.

Lemma dispatch_ok workers ts : forall s w,
  members_ok workers -> store_inv (sw_db w) -> one_lease (sw_db w) ->
  NoDup (picks workers s (length ts)) ->
  (forall wk, Some wk ∈ picks workers s (length ts) -> idle (ID wk) (sw_db w)) ->
  dispatched ts (picks workers s (length ts)) w (snd (dispatch_in E st ts workers s w)).
Proof.
  induction ts as [|t ts IH]; intros s w Hok Hinv Hone Hnd Hidle.
  { split; [done | apply rtc_refl | done|]. exists []. cbn. by rewrite app_nil_r. }
  cbn [length picks] in *. unfold dispatch_in. cbn [dispatchClaimedTasks].
  pose proof (pick_u64 workers s (Datatypes.S (length ts))) as Hu. cbn [picks] in Hu.
  destruct (Pick workers s) as [[wk|] s'] eqn:Hp; cbn [fst snd] in *.
  2:{ split; [done | apply rtc_refl | done|]. exists []. cbn. rewrite app_nil_r.
      split; [done|]. split; apply sublist_nil_l. }
  apply NoDup_cons in Hnd as [Hni Hnd].
  destruct (Hu wk Hok ltac:(by left)) as [Hwk Hkey].
  cbn [store_MarkAssigned sworld_store postgres_store sworld_runs run_store].
  destruct (sw_call E (MarkAssigned st (TaskID t) (ID wk)) w) as [r w1] eqn:Hc.
  destruct (call_assign _ _ _ _ _ Hc Hinv Hwk) as (Hb & Hinv1 & Hrt1 & Hsent1 & Hone1 & Hidle1 & Hheld & _).
  pose proof (ev_owners _ _ Hb) as Hshr.
  assert (Hrt : rtc sstep (sw_db w) (sw_db w1)) by (etransitivity; [apply Hb | exact Hrt1]).
  assert (Ho1 : one_lease (sw_db w1)).
  { apply Hone1; [eapply idle_shrink; [done | apply Hidle; by left] | by eapply one_lease_shrink]. }
  assert (Hi1 : forall x, Some x ∈ picks workers s' (length ts) -> idle (ID x) (sw_db w1)).
  { intros x Hx. destruct (Hu x Hok ltac:(by right)) as [Hxu Hxk]. apply Hidle1; [done| |].
    - intros Heq. rewrite Heq, Hkey in Hxk. simplify_eq. by apply Hni.
    - eapply idle_shrink; [done|]. apply Hidle. by right. }
  destruct r as [[]|e].
  - cbn [AssignTask sworld_dispatcher].
    set (w2 := mkSWorld (sw_db w1) (Datatypes.S (sw_calls w1)) (sw_sent w1 ++ [(GRPCAddr wk, request_of t)])).
    destruct (se_rpc E (sw_calls w1)) as [[]|e].
    + eapply (dispatched_cons t wk ts _ w w2); [done| |by apply IH]. right. cbn. by rewrite Hsent1.
    + cbn [store_MarkWorkerLost sworld_store postgres_store sworld_runs run_store].
      assert (Hev : evolves (sw_db w2) (sw_db (snd (sw_call E (MarkWorkerLost (TaskID t) (ID wk) "dispatch failed") w2)))).
      { eapply (call_evolves (OpMarkWorkerLost (TaskID t) (ID wk) "dispatch failed") (fun _ => RUnit)); [done..|].
        cbn. eapply held_shrink; [apply ev_owners, before_evolves; exact Hinv1|]. by apply Hheld. }
      eapply (dispatched_cons t wk ts _ w (snd (sw_call E (MarkWorkerLost (TaskID t) (ID wk) "dispatch failed") w2))).
      * etransitivity; [exact Hrt | apply Hev].
      * right. rewrite call_sent. cbn. by rewrite Hsent1.
      * apply IH; [done | apply Hev | eapply one_lease_shrink; [apply Hev | exact Ho1] | done|].
        intros x Hx. eapply idle_shrink; [apply Hev|]. by apply Hi1.
  - eapply (dispatched_cons t wk ts _ w w1); [done | by left | by apply IH].
Qed.

(** ** The workers that are free *)

Lemma remove_leased ls : forall (m : gmap Z Member) id x,
  fold_left (fun free l => delete (LeaseWorker l) free) ls m !! id = Some x <->
  m !! id = Some x /\ id ∉ LeaseWorker <$> ls.
Proof.
  induction ls as [|l ls IH]; intros m id x; cbn; [split; [intros; split; [done | apply not_elem_of_nil] | tauto]|].
  rewrite IH, lookup_delete_Some, not_elem_of_cons. naive_solver.
Qed.

Lemma alive_elem self (m : gmap Z Member) id x :
  aliveWorkers self m !! id = Some x <-> m !! id = Some x /\ id <> self.
Proof. unfold aliveWorkers. by rewrite map_lookup_filter_Some. Qed.

Lemma members_ok_sub m m' : (forall id x, m' !! id = Some x -> m !! id = Some x) -> members_ok m -> members_ok m'.
Proof. intros Hs [Hk Hu]. split; [intros id x Hx; by apply Hk, Hs | intros id x Hx; by eapply Hu, Hs]. Qed.

(** The free workers are alive, and hold no lease. *)
Lemma free_ok alive w r w' :
  members_ok alive -> store_inv (sw_db w) -> free_in E st alive w = (r, w') ->
  evolves (sw_db w) (sw_db w') /\ sw_sent w' = sw_sent w /\
  (forall free id x, r = Ok free -> free !! id = Some x -> alive !! id = Some x /\ idle id (sw_db w')).
Proof.
  intros Hok Hinv. unfold free_in, freeWorkers. destruct (Nat.eqb_spec (size alive) 0) as [H0|Hn].
  { intros [= <- <-]. split; [by apply evolves_refl|]. split; [done|].
    apply map_size_empty_iff in H0 as ->. intros free id x [= <-] Hx. by rewrite lookup_empty in Hx. }
  cbn [store_ActiveLeases sworld_store postgres_store sworld_runs run_store].
  pose proof (call_evolves OpActiveLeases RLeases ActiveLeases w ltac:(done) eq_refl Hinv I) as Hev.
  destruct (sw_call E ActiveLeases w) as [r1 w1] eqn:Hc. apply call_result in Hc as [Hm Hsent]. cbn in Hev.
  destruct r1 as [ls|e]; intros [= <- <-]; (split; [done|]; split; [done|]); [|done].
  intros free id x [= <-] [Hx Hni]%remove_leased. split; [done|]. intros t Ho.
  destruct (ActiveLeases_spec (se_tx E (sw_calls w) (before_call E w)) (before_call E w)) as [Hsame Hls].
  rewrite Hm in Hsame, Hls. cbn in Hsame. rewrite Hsame in Ho. specialize (Hls ls eq_refl). apply Hni.
  apply fmap_Some in Ho as (l & Hl & Hw). rewrite Hls, <- list_fmap_compose.
  apply list_elem_of_fmap. exists (t, l). split; [|by apply elem_of_map_to_list].
  cbn. rewrite <- Hw, uint64_int64; [done|]. by eapply Hok.
Qed.

Lemma recover_evolves alive w :
  store_inv (sw_db w) ->
  evolves (sw_db w) (sw_db (@recoverOnLeadership sworld (sworld_store E st) alive w)) /\
  sw_sent (@recoverOnLeadership sworld (sworld_store E st) alive w) = sw_sent w.
Proof.
  intros Hinv. unfold recoverOnLeadership. cbn [store_RecoverStaleScheduling store_RecoverDeadWorkerLeases sworld_store postgres_store sworld_runs run_store].
  pose proof (call_evolves OpRecoverStaleScheduling RCount RecoverStaleScheduling w ltac:(done) eq_refl Hinv I) as H1.
  split; [|by rewrite !call_sent]. eapply evolves_trans; [exact H1|].
  by apply (call_evolves (OpRecoverDeadWorkerLeases alive) RCount); [..|apply H1|].
Qed.

(** The tasks a successful claim returned. *)
Lemma claim_result self batch w ts w' :
  sw_call E (ClaimQueued self batch) w = (Ok ts, w') -> store_inv (sw_db w) ->
  evolves (sw_db w) (sw_db w') /\ sw_sent w' = sw_sent w /\ Z.of_nat (length ts) <= batch /\
  Forall (fun t => latest_status (TaskID t) (before_call E w) = Some StateQueued) ts.
Proof.
  intros Hc Hinv.
  pose proof (call_evolves (OpClaimQueued self batch) RTasks (ClaimQueued self batch) w ltac:(done) eq_refl Hinv I) as Hev.
  rewrite Hc in Hev. split; [done|]. apply call_result in Hc as [Hm Hsent]. split; [done|].
  pose proof (ClaimQueued_spec self batch (se_tx E (sw_calls w) (before_call E w)) (before_call E w)) as Hs.
  rewrite Hm in Hs. destruct Hs as [Hb Hrows _].
  pose proof (scan_rows_fmap _ fst TaskID _ _ scan_task_id Hrows) as Hids. split.
  - pose proof (f_equal length Hids) as Hlen. rewrite !length_fmap in Hlen. rewrite Hlen.
    unfold claim_queued. rewrite length_take. lia.
  - cut (Forall (fun t => latest_status t (before_call E w) = Some StateQueued) (TaskID <$> ts)).
    { intros Hall. exact (proj1 (Forall_fmap _ _ _) Hall). }
    rewrite Hids. apply Forall_fmap, Forall_forall. intros [t r] (Ht & Hcl & _)%claim_queued_elem.
    eapply claimable_queued; [|done..]. by apply before_evolves.
Qed.

(** ** The tick *)

(** What a tick keeps and does: at most BatchSize requests, to different members
    other than the scheduler itself. *)
Record tick_safe (members : gmap Z Member) (e : Engine S) (w w' : sworld) : Prop := {
  tk_inv : store_inv (sw_db w');
  tk_steps : rtc sstep (sw_db w) (sw_db w');
  tk_one : one_lease (sw_db w');
  tk_sent : exists ps, sw_sent w' = sw_sent w ++ (sent_of <$> ps) /\ NoDup (ID <$> ps.*2) /\
    Forall (fun x => members !! ID x = Some x /\ ID x <> selfID e) ps.*2 /\
    Z.of_nat (length ps) <= Z.max 0 (BatchSize e);
}.

Lemma tick_quiet members e w w' :
  evolves (sw_db w) (sw_db w') -> one_lease (sw_db w) -> sw_sent w' = sw_sent w -> tick_safe members e w w'.
Proof.
  intros Hev Ho Hs. split; [apply Hev | apply Hev | eapply one_lease_shrink; [apply Hev | done] |].
  exists []. rewrite Hs, app_nil_r. split; [done|]. split; [constructor|]. split; [constructor | cbn; lia].
Qed.

Lemma sublist_some_elem (ps : list (Task * Member)) choices x :
  Some <$> ps.*2 `sublist_of` choices -> x ∈ ps.*2 -> Some x ∈ choices.
Proof.
  intros Hs Hx. apply (sublist_submseteq _ _) in Hs. eapply elem_of_submseteq; [|exact Hs].
  by apply list_elem_of_fmap_2.
Qed.

(** From the requests of the dispatch loop to those of the tick. *)
Lemma tick_dispatch members e free ts s w w1 w' :
  members_ok members -> (forall id x, free !! id = Some x -> members !! id = Some x /\ id <> selfID e) ->
  evolves (sw_db w) (sw_db w1) -> sw_sent w1 = sw_sent w ->
  Z.of_nat (length ts) <= BatchSize e -> NoDup (picks free s (length ts)) ->
  dispatched ts (picks free s (length ts)) w1 w' -> tick_safe members e w w'.
Proof.
  intros Hok Hfree Hev Hs Hlen Hnd [Hinv Hrt Ho (ps & Hsent & H1 & H2)].
  split; [done | etransitivity; [apply Hev | done] | done|]. exists ps. rewrite <- Hs. split; [done|].
  assert (Hmem : forall x, x ∈ ps.*2 -> members !! ID x = Some x /\ ID x <> selfID e).
  { intros x Hx. pose proof (sublist_some_elem _ _ _ H2 Hx) as Hin.
    apply (pick_u64 free s (length ts)) in Hin as [_ Hin]; [by apply Hfree|].
    eapply members_ok_sub; [|exact Hok]. intros id y Hy. by apply Hfree. }
  split_and!.
  - apply NoDup_fmap_2_strong.
    + intros x y Hx%Hmem Hy%Hmem Heq. destruct Hx as [Hx _], Hy as [Hy _]. rewrite Heq in Hx. congruence.
    + eapply (NoDup_fmap_1 Some), sublist_NoDup; [exact Hnd | exact H2].
  - by apply Forall_forall.
  - apply sublist_length in H1. rewrite length_fmap in H1. lia.
Qed.

(** The end of a tick: the claim and the dispatch of what was claimed. *)
Lemma tick_claimed members e free s w w3 w4 cc ts :
  members_ok members ->
  (forall id x, free !! id = Some x -> members !! id = Some x /\ id <> selfID e /\ idle id (sw_db w3)) ->
  evolves (sw_db w) (sw_db w3) -> sw_sent w3 = sw_sent w -> one_lease (sw_db w) ->
  cc <= BatchSize e -> cc <= Z.of_nat (size free) ->
  (forall n, (n <= size members)%nat -> steady_for s n) ->
  sw_call E (ClaimQueued (selfID e) cc) w3 = (Ok ts, w4) ->
  tick_safe members e w (snd (dispatch_in E st ts free s w4)).
Proof.
  intros Hok Hsub Hev13 Hs13 Hone Hc1 Hc2 Hsteady Hclaim.
  destruct (claim_result _ _ _ _ _ Hclaim (ev_inv _ _ Hev13)) as (Hev4 & Hs4 & Hlen & _).
  pose proof (evolves_trans _ _ _ Hev13 Hev4) as Hev14.
  assert (Hsize : (size free <= size members)%nat).
  { apply map_subseteq_size, map_subseteq_spec. intros id x Hx. by apply Hsub. }
  assert (Hfok : members_ok free) by (eapply members_ok_sub; [|exact Hok]; intros id x Hx; by apply Hsub).
  assert (Hnd : NoDup (picks free s (length ts))) by (apply pick_spread; [apply Hfok | apply Hsteady | ]; lia).
  eapply (tick_dispatch members e free ts s w w4); [done| |exact Hev14|congruence|lia|done|].
  { intros id x Hx. destruct (Hsub id x Hx) as (? & ? & _). done. }
  apply dispatch_ok; [done | apply Hev14 | eapply one_lease_shrink; [apply Hev14 | done] | done|].
  intros x Hx. destruct (pick_u64 _ _ _ _ Hfok Hx) as [_ Hkey].
  eapply idle_shrink; [apply Hev4|]. by eapply Hsub.
Qed.

Lemma tick_safe_lemma leader members (e : Engine S) (w : sworld) :
  members_ok members -> store_inv (sw_db w) -> one_lease (sw_db w) ->
  (forall n, (n <= size members)%nat -> steady_for (strategy e) n) ->
  tick_safe members e w (snd (tick_in E st leader members e w)).
Proof.
  intros Hok Hinv Hone Hsteady. unfold tick_in, tick. destruct leader; cbn [negb];
    [|by apply tick_quiet; [apply evolves_refl|..]].
  set (alive := aliveWorkers (selfID e) members).
  assert (Halive : members_ok alive).
  { eapply members_ok_sub; [|exact Hok]. by intros id x [Hx _]%alive_elem. }
  destruct (size alive =? 0)%nat; [by apply tick_quiet; [apply evolves_refl|..]|].
  set (p := if negb (didLeaderRecovery e) then _ else _).
  assert (Hp : evolves (sw_db w) (sw_db (snd p)) /\ sw_sent (snd p) = sw_sent w /\ strategy (fst p) = strategy e).
  { unfold p. destruct (negb (didLeaderRecovery e)); cbn; [|split; [by apply evolves_refl | done]].
    destruct (recover_evolves alive w Hinv). done. }
  destruct p as [e1 w1]. destruct Hp as (Hev1 & Hs1 & Hstrat). cbn [fst snd] in *.
  cbn [store_RecoverExpiredLeases sworld_store postgres_store sworld_runs run_store].
  pose proof (call_evolves OpRecoverExpiredLeases RCount RecoverExpiredLeases w1 ltac:(done) eq_refl (ev_inv _ _ Hev1) I) as Hev2.
  pose proof (call_sent RecoverExpiredLeases w1) as Hs2.
  destruct (sw_call E RecoverExpiredLeases w1) as [r2 w2]. cbn [snd] in *.
  assert (Hev12 : evolves (sw_db w) (sw_db w2)) by (by eapply evolves_trans).
  assert (Hs12 : sw_sent w2 = sw_sent w) by congruence.
  destruct r2 as [k|err]; [|by apply tick_quiet].
  change (freeWorkers alive w2) with (free_in E st alive w2).
  destruct (free_in E st alive w2) as [r3 w3] eqn:Hfree.
  destruct (free_ok alive w2 r3 w3 Halive (ev_inv _ _ Hev12) Hfree) as (Hev3 & Hs3 & Hidle).
  pose proof (evolves_trans _ _ _ Hev12 Hev3) as Hev13. assert (Hs13 : sw_sent w3 = sw_sent w) by congruence.
  destruct r3 as [free|err]; [|by apply tick_quiet].
  destruct (Nat.eqb_spec (size free) 0) as [|Hne]; [by apply tick_quiet|].
  destruct (Z.eqb_spec (Z.min (BatchSize e) (Z.of_nat (size free))) 0) as [|Hcc]; [by apply tick_quiet|].
  cbn [store_ClaimQueued sworld_store postgres_store sworld_runs run_store]. set (cc := Z.min _ _) in *.
  pose proof (call_evolves (OpClaimQueued (selfID e) cc) RTasks (ClaimQueued (selfID e) cc) w3 ltac:(done) eq_refl (ev_inv _ _ Hev13) I) as Hev4.
  pose proof (call_sent (ClaimQueued (selfID e) cc) w3) as Hs4.
  destruct (sw_call E (ClaimQueued (selfID e) cc) w3) as [r4 w4] eqn:Hclaim. cbn [snd] in *.
  pose proof (evolves_trans _ _ _ Hev13 Hev4) as Hev14. assert (Hs14 : sw_sent w4 = sw_sent w) by congruence.
  destruct r4 as [[|t ts]|err]; [by apply tick_quiet| |by apply tick_quiet].
  pose proof (tick_claimed members e free (strategy e1) w w3 w4 cc (t :: ts) Hok) as Htail. unfold dispatch_in in Htail.
  destruct (dispatchClaimedTasks (t :: ts) free (strategy e1) w4) as [s' w5]. cbn [snd] in *.
  apply Htail; try done; [|unfold cc; lia | unfold cc; lia |].
  - intros id x Hx. destruct (Hidle free id x eq_refl Hx) as [Ha Hi]. apply alive_elem in Ha as [? ?]. done.
  - by rewrite Hstrat.
Qed.

(** ** Tasks left in SCHEDULING *)

Definition is_stuck (t : Z) (d : db) : Prop := exists f m, abs d t = Some (mkATask StateScheduling None f m).

Lemma stuck_latest t d : store_inv d -> is_stuck t d <-> latest_status t d = Some StateScheduling.
Proof.
  intros Hinv. split.
  - intros (f & m & (r & _ & Hl & _)%abs_some). done.
  - intros Hl. destruct (abs_latest _ _ _ Hinv Hl) as (o & f & m & Ha & _). exists f, m. rewrite Ha.
    pose proof (ai_owner _ (active_inv _ _ _ _ _ _ Hinv Ha)) as Ho. unfold active_status in Ho. cbn in Ho.
    destruct o; [naive_solver | done].
Qed.

Lemma stuck_owner t d : is_stuck t d -> owner_of t d = None.
Proof. intros (f & m & (r & _ & _ & Ho & _)%abs_some). done. Qed.

(** The operations that move a task out of SCHEDULING. *)
Definition frees (t : Z) (op : store_op) : Prop :=
  match op with OpMarkAssigned _ t' _ => t = t' | OpRecoverStaleScheduling => True | _ => False end.

Lemma stuck_op op n t d :
  store_inv d -> op_ok op d -> ~ frees t op -> is_stuck t d -> is_stuck t (snd (run_op op (se_tx E n d) d)).
Proof.
  intros Hinv Hop Hf Hs. unfold is_stuck.
  rewrite (untouched (c := HolderOnly) op d); [done | done | by apply run_op_moves|].
  pose proof (stuck_owner _ _ Hs) as Ho. apply stuck_latest in Hs; [|done].
  destruct op; cbn in *; unfold leased_to; try naive_solver; rewrite ?Hs, ?Ho; try done.
  all: by intros [??].
Qed.

Lemma stuck_outside n o t d : store_inv d -> outside_ok o -> is_stuck t d -> is_stuck t (run_outside E n d o).
Proof.
  intros Hinv Ho Hs. destruct o as [op|t' r]; cbn.
  - destruct Ho as [p Hp]. apply stuck_op; [done| | |done]; destruct op; cbn in *; naive_solver.
  - case_bool_decide as Ht; [done|].
    assert (tasks d !! t' = None) as Hnone by (destruct (tasks d !! t'); [destruct Ht; by eexists | done]).
    destruct (submit_abs t' r (se_tx E n d) d Hinv (Hready n d) Hnone) as (_ & _ & Hother).
    destruct Hs as (f & m & Ha). exists f, m.
    destruct (Hother t) as [-> _]; [|done]. intros ->. apply abs_some in Ha as (r0 & Hr0 & _). congruence.
Qed.

Lemma stuck_before t w : store_inv (sw_db w) -> is_stuck t (sw_db w) -> is_stuck t (before_call E w).
Proof.
  unfold before_call. pose proof (Hbetween (sw_calls w)) as Hos. revert Hos. generalize (sw_db w) as d.
  induction (se_between E (sw_calls w)) as [|o os IH]; intros d Hos Hinv Hs; [done|]. cbn.
  apply Forall_cons in Hos as [Ho Hos]. apply IH; [done | by apply outside_evolves | by apply stuck_outside].
Qed.

Lemma stuck_call {A} op f (m : txenv -> db -> result A * db) t w :
  (forall env d, run_op op env d = reply f (m env d)) -> ~ frees t op ->
  store_inv (sw_db w) -> op_ok op (before_call E w) -> is_stuck t (sw_db w) ->
  is_stuck t (sw_db (snd (sw_call E m w))).
Proof.
  intros Hm Hf Hinv Hop Hs. pose proof (before_evolves w Hinv) as Hb.
  pose proof (stuck_op op (sw_calls w) t (before_call E w) (ev_inv _ _ Hb) Hop Hf (stuck_before t w Hinv Hs)) as H.
  rewrite Hm in H. unfold sw_call. by destruct (m _ (before_call E w)).
Qed.

Lemma stuck_dispatch workers t ts : forall s w,
  members_ok workers -> store_inv (sw_db w) -> t ∉ TaskID <$> ts -> is_stuck t (sw_db w) ->
  is_stuck t (sw_db (snd (dispatch_in E st ts workers s w))).
Proof.
  induction ts as [|t0 ts IH]; intros s w Hok Hinv Hni Hs; [done|].
  cbn in Hni. apply not_elem_of_cons in Hni as [Hne Hni]. unfold dispatch_in. cbn [dispatchClaimedTasks].
  pose proof (pick_u64 workers s 1) as Hu. cbn [picks] in Hu.
  destruct (Pick workers s) as [[wk|] s'] eqn:Hp; cbn [fst snd] in *; [|done].
  destruct (Hu wk Hok ltac:(by left)) as [Hwk _]. cbn [store_MarkAssigned sworld_store postgres_store sworld_runs run_store].
  destruct (sw_call E (MarkAssigned st (TaskID t0) (ID wk)) w) as [r w1] eqn:Hc.
  destruct (call_assign _ _ _ _ _ Hc Hinv Hwk) as (_ & Hinv1 & _ & _ & _ & _ & Hheld & Habs).
  assert (Hs1 : is_stuck t (sw_db w1)) by (unfold is_stuck; rewrite Habs by done; by apply stuck_before).
  destruct r as [[]|e]; [|by apply IH]. cbn [AssignTask sworld_dispatcher].
  set (w2 := mkSWorld _ _ _). destruct (se_rpc E (sw_calls w1)) as [[]|e]; [by apply IH|].
  cbn [store_MarkWorkerLost sworld_store postgres_store sworld_runs run_store].
  assert (Hop : op_ok (OpMarkWorkerLost (TaskID t0) (ID wk) "dispatch failed") (before_call E w2)).
  { cbn. eapply held_shrink; [apply ev_owners, before_evolves; exact Hinv1|]. by apply Hheld. }
  apply IH; [done| |done|].
  - by apply (call_evolves (OpMarkWorkerLost (TaskID t0) (ID wk) "dispatch failed") (fun _ => RUnit)).
  - by apply (stuck_call (OpMarkWorkerLost (TaskID t0) (ID wk) "dispatch failed") (fun _ => RUnit)); [|intros []|..].
Qed.

(** The ticks of a node that stays the leader. *)
Fixpoint leader_ticks (ms : list (gmap Z Member)) (e : Engine S) (w : sworld) : Engine S * sworld :=
  match ms with
  | [] => (e, w)
  | m :: ms' => leader_ticks ms' (fst (tick_in E st true m e w)) (snd (tick_in E st true m e w))
  end.

(** A tick after the recovery of the first one. *)
Record stuck_tick (t : Z) (e' : Engine S) (w' : sworld) : Prop := {
  sk_inv : store_inv (sw_db w');
  sk_task : is_stuck t (sw_db w');
  sk_flag : didLeaderRecovery e' = true;
}.

(** The inner part of the tick, when nothing is dispatched. *)
Lemma stuck_quiet {A} op f (m : txenv -> db -> result A * db) t w r w' :
  (forall env d, run_op op env d = reply f (m env d)) -> assigns op = false -> ~ frees t op ->
  (forall d, op_ok op d) -> store_inv (sw_db w) -> is_stuck t (sw_db w) ->
  sw_call E m w = (r, w') -> store_inv (sw_db w') /\ is_stuck t (sw_db w').
Proof.
  intros Hm Ha Hf Hop Hinv Hs Hc.
  pose proof (call_evolves op f m w Hm Ha Hinv (Hop _)) as Hev.
  pose proof (stuck_call op f m t w Hm Hf Hinv (Hop _) Hs) as Hst'. rewrite Hc in *. split; [apply Hev | done].
Qed.

(** Dispatching keeps the invariant, whoever holds leases. *)
Lemma dispatch_inv workers ts : forall s w,
  members_ok workers -> store_inv (sw_db w) -> store_inv (sw_db (snd (dispatch_in E st ts workers s w))).
Proof.
  induction ts as [|t0 ts IH]; intros s w Hok Hinv; [done|]. unfold dispatch_in. cbn [dispatchClaimedTasks].
  pose proof (pick_u64 workers s 1) as Hu. cbn [picks] in Hu.
  destruct (Pick workers s) as [[wk|] s'] eqn:Hp; cbn [fst snd] in *; [|done].
  destruct (Hu wk Hok ltac:(by left)) as [Hwk _]. cbn [store_MarkAssigned sworld_store postgres_store sworld_runs run_store].
  destruct (sw_call E (MarkAssigned st (TaskID t0) (ID wk)) w) as [r w1] eqn:Hc.
  destruct (call_assign _ _ _ _ _ Hc Hinv Hwk) as (_ & Hinv1 & _ & _ & _ & _ & Hheld & _).
  destruct r as [[]|e]; [|by apply IH]. cbn [AssignTask sworld_dispatcher].
  set (w2 := mkSWorld _ _ _). destruct (se_rpc E (sw_calls w1)) as [[]|e]; [by apply IH|].
  cbn [store_MarkWorkerLost sworld_store postgres_store sworld_runs run_store]. apply IH; [done|].
  apply (call_evolves (OpMarkWorkerLost (TaskID t0) (ID wk) "dispatch failed") (fun _ => RUnit)); [done..|].
  cbn. eapply held_shrink; [apply ev_owners, before_evolves; exact Hinv1|]. by apply Hheld.
Qed.

Lemma tick_stuck members e w t :
  members_ok members -> store_inv (sw_db w) -> didLeaderRecovery e = true -> is_stuck t (sw_db w) ->
  stuck_tick t (fst (tick_in E st true members e w)) (snd (tick_in E st true members e w)).
Proof.
  intros Hok Hinv Hflag Hs. unfold tick_in, tick. cbn [negb]. rewrite Hflag. cbn [negb].
  set (alive := aliveWorkers (selfID e) members).
  assert (Halive : members_ok alive).
  { eapply members_ok_sub; [|exact Hok]. by intros id x [Hx _]%alive_elem. }
  destruct (size alive =? 0)%nat; [by split|]. cbn [store_RecoverExpiredLeases sworld_store postgres_store sworld_runs run_store].
  destruct (sw_call E RecoverExpiredLeases w) as [r2 w2] eqn:H2.
  destruct (stuck_quiet OpRecoverExpiredLeases RCount _ t _ _ _ ltac:(done) eq_refl ltac:(intros []) ltac:(done) Hinv Hs H2)
    as [Hinv2 Hs2].
  destruct r2 as [k|err]; [|by split]. change (freeWorkers alive w2) with (free_in E st alive w2).
  destruct (free_in E st alive w2) as [r3 w3] eqn:Hfree.
  destruct (free_ok alive w2 r3 w3 Halive Hinv2 Hfree) as (Hev3 & _ & Hsub).
  assert (Hs3 : is_stuck t (sw_db w3)).
  { revert Hfree. unfold free_in, freeWorkers. destruct (size alive =? 0)%nat; [by intros [= <- <-]|].
    cbn [store_ActiveLeases sworld_store postgres_store sworld_runs run_store]. destruct (sw_call E ActiveLeases w2) as [[ls|er] w3'] eqn:Hc;
    intros [= <- <-]; by destruct (stuck_quiet OpActiveLeases RLeases _ t _ _ _ ltac:(done) eq_refl ltac:(intros []) ltac:(done) Hinv2 Hs2 Hc). }
  pose proof (ev_inv _ _ Hev3) as Hinv3.
  destruct r3 as [free|err]; [|by split]. destruct (size free =? 0)%nat; [by split|].
  destruct (_ =? 0); [by split|]. cbn [store_ClaimQueued sworld_store postgres_store sworld_runs run_store].
  destruct (sw_call E (ClaimQueued _ _) w3) as [r4 w4] eqn:H4.
  destruct (stuck_quiet (OpClaimQueued (selfID e) (Z.min (BatchSize e) (Z.of_nat (size free)))) RTasks _ t _ _ _
    ltac:(done) eq_refl ltac:(intros []) ltac:(done) Hinv3 Hs3 H4) as [Hinv4 Hs4].
  destruct r4 as [[|t0 ts]|err]; [by split| |by split].
  destruct (claim_result _ _ _ _ _ H4 Hinv3) as (_ & _ & _ & Hq).
  assert (Hfok : members_ok free) by (eapply members_ok_sub; [|exact Halive]; intros id x Hx; by eapply Hsub).
  assert (Hni : t ∉ TaskID <$> (t0 :: ts)).
  { intros (x & -> & Hx)%list_elem_of_fmap. rewrite Forall_forall in Hq. specialize (Hq x Hx).
    apply stuck_before, stuck_latest in Hs3; [congruence | by apply before_evolves | done]. }
  pose proof (stuck_dispatch free t (t0 :: ts) (strategy e) w4 Hfok Hinv4 Hni Hs4) as Hfin.
  pose proof (dispatch_inv free (t0 :: ts) (strategy e) w4 Hfok Hinv4) as Hfinv. unfold dispatch_in in *.
  destruct (dispatchClaimedTasks (t0 :: ts) free (strategy e) w4) as [s' w5]. by split.
Qed.

Lemma ticks_stuck t ms : forall e w,
  Forall members_ok ms -> store_inv (sw_db w) -> didLeaderRecovery e = true -> is_stuck t (sw_db w) ->
  stuck_tick t (fst (leader_ticks ms e w)) (snd (leader_ticks ms e w)).
Proof.
  induction ms as [|m ms IH]; intros e w Hms Hinv Hf Hs; [by split|]. apply Forall_cons in Hms as [Hm Hms].
  destruct (tick_stuck m e w t Hm Hinv Hf Hs). by apply IH.
Qed.

(** ** Properties *)

(** C4: whatever calls fail, whatever rows are locked, and whatever workers report and
    clients submit between the calls, a tick moves the tables along the lifecycle
    only, keeps at most one lease per worker, and sends at most BatchSize
    requests, to different members of the cluster other than the scheduler. *)
Theorem scheduler_tick_safe (leader : bool) (members : gmap Z Member) (e : Engine S) (w : sworld) :
  members_ok members -> store_inv (sw_db w) -> one_lease (sw_db w) ->
  (forall n, (n <= size members)%nat -> steady_for (strategy e) n) ->
  let w' := snd (tick_in E st leader members e w) in
  store_inv (sw_db w') /\ rtc sstep (sw_db w) (sw_db w') /\ one_lease (sw_db w') /\
  exists ps, sw_sent w' = sw_sent w ++ (sent_of <$> ps) /\ NoDup (ID <$> ps.*2) /\
    Forall (fun x => members !! ID x = Some x /\ ID x <> selfID e) ps.*2 /\
    Z.of_nat (length ps) <= Z.max 0 (BatchSize e).
Proof.
  intros Hok Hinv Hone Hsteady. destruct (tick_safe_lemma leader members e w Hok Hinv Hone Hsteady). auto.
Qed.

(** C39: a task that is in SCHEDULING when the leader has done its recovery, because a
    call of MarkAssigned or of the recovery itself failed, stays there through
    every later tick of that leader: only a change of leadership frees it. *)
Theorem scheduling_task_stays (ms : list (gmap Z Member)) (e : Engine S) (w : sworld) (t : Z) :
  Forall members_ok ms -> store_inv (sw_db w) -> didLeaderRecovery e = true ->
  latest_status t (sw_db w) = Some StateScheduling ->
  didLeaderRecovery (fst (leader_ticks ms e w)) = true /\
  latest_status t (sw_db (snd (leader_ticks ms e w))) = Some StateScheduling.
Proof.
  intros Hms Hinv Hf Hl. apply stuck_latest in Hl; [|done].
  destruct (ticks_stuck t ms e w Hms Hinv Hf Hl) as [Hinv' Hs' Hf']. split; [done|]. by apply stuck_latest.
Qed.

End world.
