(* ===== verification/SchedulerWitness.v ===== *)
(** * The scheduler on concrete data *)

From S2P Require Import Prelude GoStd Cluster TaskStore TaskTx TaskLifecycle TaskRefine TaskAtomic TaskReach TaskFunctional TaskRecovery TaskWitness StoreIface Strategy Scheduler SchedulerProps.

(** A server whose clock and ids are ahead of everything recorded. *)
Definition ahead (f : status_row -> Z) (d : db) : Z := foldr (fun r => Z.max (f r)) 0 (statuses d).

Definition next_env (d : db) : txenv :=
  mkTxEnv (ahead s_created_at d) (fun n => 1 + ahead s_id d + Z.of_nat n) [] ∅.

Lemma ahead_le f d r : r ∈ statuses d -> f r <= ahead f d.
Proof. unfold ahead. induction 1 as [|r r' rs _ IH]; cbn; lia. Qed.

Lemma next_ready d : ready (next_env d) 0 d.
Proof.
  split; [cbn; lia|]. apply Forall_forall. intros r Hr. cbn.
  pose proof (ahead_le s_created_at d r Hr). pose proof (ahead_le s_id d r Hr). lia.
Qed.

(** Before the third call a worker renews a lease it may not have. *)
Definition demo_senv : senv :=
  mkSEnv (fun _ => next_env) (fun n => if (n =? 3)%nat then [OutReport (OpRenewLease demo_store 1 4)] else [])
    (fun n => if (n =? 6)%nat then Err (EFmt "unavailable" []) else Ok tt).

Lemma demo_senv_ready n d : ready (se_tx demo_senv n d) 0 d.
Proof. apply next_ready. Qed.

Lemma demo_senv_between n : Forall outside_ok (se_between demo_senv n).
Proof. cbn. destruct (n =? 3)%nat; repeat constructor. by eexists. Qed.

(** Task ids written in decimal. *)
#[export] Instance demo_uuid : Uuid := {
  uuid_String t := string_of (format_digits 39 t []);
  uuid_Parse s := parse_digits (2 ^ 128 - 1) 0 (bytes_of s);
}.

#[export] Instance demo_uuid_laws : UuidLaws demo_uuid.
Proof.
  split. intros t Ht. cbn [uuid_Parse uuid_String demo_uuid].
  rewrite bytes_string_of, parse_format_digits; [done | lia | lia].
Qed.

Definition demo_members : gmap Z Member :=
  <[9 := mkMember 9 "n9"]> (<[4 := mkMember 4 "n4"]> (<[5 := mkMember 5 "n5"]> ∅)).

Definition demo_world (d : db) : sworld := mkSWorld d 0 [].

Lemma demo_members_ok : members_ok demo_members.
Proof.
  assert (H : map_Forall (fun id x => ID x = id /\ 0 <= id < u64_size) demo_members)
    by (apply (bool_decide_eq_true_1 _); vm_compute; reflexivity).
  split; intros id x Hx; destruct (H id x Hx); done.
Qed.

Lemma demo_one_lease d : (size (leases d) <= 1)%nat -> one_lease d.
Proof.
  intros Hs t t' w (l & Hl & _)%fmap_Some (l' & Hl' & _)%fmap_Some.
  destruct (decide (t = t')) as [|Hne]; [done|]. exfalso.
  assert (size (delete t (leases d)) <> 0%nat).
  { intros H0%map_size_empty_iff. assert (delete t (leases d) !! t' = Some l') as Hx by (by rewrite lookup_delete_ne).
    rewrite H0, lookup_empty in Hx. done. }
  pose proof (map_size_delete_Some t (leases d) ltac:(by eexists)). lia.
Qed.

(** Two queued tasks and two workers: both tasks are sent, the first RPC fails. *)
Lemma scheduler_tick_safe_witness :
  let e := NewEngine 9 8 NewRoundRobin in
  let w' := snd (tick_in demo_senv demo_store true demo_members e (demo_world demo_queued)) in
  store_inv (sw_db w') /\ rtc sstep demo_queued (sw_db w') /\ one_lease (sw_db w') /\
  exists ps, sw_sent w' = [] ++ (sent_of <$> ps) /\ NoDup (ID <$> ps.*2) /\
    Forall (fun x => demo_members !! ID x = Some x /\ ID x <> 9) ps.*2 /\ Z.of_nat (length ps) <= Z.max 0 8.
Proof.
  apply (scheduler_tick_safe demo_senv demo_store demo_senv_ready demo_senv_between true demo_members
    (NewEngine 9 8 NewRoundRobin) (demo_world demo_queued)).
  - exact demo_members_ok.
  - exact (demo_inv _ demo_reach_queued).
  - apply demo_one_lease. vm_compute. lia.
  - intros n Hn. cbn in *. unfold u64_size. change (size demo_members) with 3%nat in Hn. lia.
Defined.

(** The tick sends two requests, to workers 4 and 5. *)
Example demo_tick_sends :
  fst <$> sw_sent (snd (tick_in demo_senv demo_store true demo_members (NewEngine 9 8 NewRoundRobin)
    (demo_world demo_queued))) = ["n4"; "n5"].
Proof. vm_compute. reflexivity. Qed.

Lemma scheduling_task_stays_witness :
  let e := mkEngine 9 8 NewRoundRobin true in
  didLeaderRecovery (fst (leader_ticks demo_senv demo_store [demo_members; demo_members] e (demo_world demo_claimed))) = true /\
  latest_status 1 (sw_db (snd (leader_ticks demo_senv demo_store [demo_members; demo_members] e
    (demo_world demo_claimed)))) = Some StateScheduling.
Proof.
  apply (scheduling_task_stays demo_senv demo_store demo_senv_ready demo_senv_between).
  - apply Forall_cons; split; [exact demo_members_ok|]. apply Forall_cons; split; [exact demo_members_ok | apply Forall_nil; exact I].
  - exact (demo_inv _ demo_reach_claimed).
  - reflexivity.
  - vm_compute. reflexivity.
Defined.
