(* ===== verification/SchedulerProgress.v ===== *)
(** * What an undisturbed tick of the scheduler achieves

    In a world where no call to the database and no RPC fails and nobody else
    changes the tables during the tick, the scheduler hands out as many tasks
    as its batch, the idle workers and the queue allow, oldest first. *)

From S2P Require Import Prelude GoStd Cluster TaskStore TaskTx TaskLifecycle TaskRefine TaskAtomic TaskReach TaskFunctional TaskRecovery TaskWitness StoreIface Strategy Scheduler SchedulerProps SchedulerWitness.

Lemma MarkAssigned_yields st t w env d :
  tx_faults env = [] -> ready env 0 d -> latest_status t d = Some StateScheduling -> is_Some (tasks d !! t) ->
  MarkAssigned st t w env d =
    (Ok tt, upsert_lease t (int64 w) (lease_secs st) env (add_status env 0 t StateAssigned (Some w) EmptyString d)).
Proof.
  intros Hf Hr Hl Ht. unfold MarkAssigned. apply with_tx_commits; [done|]. do 2 eexists. unfold MarkAssigned_tx.
  erewrite yields_bind.
  2: { apply yields_wrap. unfold latestStatus. apply yields_wrap. unfold yields.
       erewrite yields_bind by apply yields_call. erewrite yields_bind by apply yields_get. by rewrite Hl. }
  rewrite bool_decide_eq_true_2 by done. cbn [negb].
  erewrite yields_bind by (by apply yields_wrap, yields_insertStatus).
  erewrite yields_bind by (apply yields_wrap; done). done.
Qed.

Section calm.
Context {P : PgxScan} {L : PgxScanLaws P} (E : senv) (st : PostgresStore).
Context {S : Type} {U : Uuid} {Hst : Strategy S} {SL : StrategyLaws S}.

(** Nothing fails, nothing interferes, no row is locked. *)
Record calm : Prop := {
  ca_ready : forall n d, ready (se_tx E n d) 0 d;
  ca_faults : forall n d, tx_faults (se_tx E n d) = [];
  ca_locks : forall n d, tx_locked (se_tx E n d) = ∅;
  ca_between : forall n, se_between E n = [];
  ca_rpc : forall n, se_rpc E n = Ok tt;
}.
Context (Hcalm : calm).

Lemma calm_ready n d : ready (se_tx E n d) 0 d.
Proof. apply Hcalm. Qed.

Lemma calm_between n : Forall outside_ok (se_between E n).
Proof. rewrite (ca_between Hcalm). constructor. Qed.

Lemma calm_before w : before_call E w = sw_db w.
Proof. unfold before_call. by rewrite (ca_between Hcalm). Qed.

Lemma calm_call {A} (m : txenv -> db -> result A * db) w :
  sw_call E m w =
  (fst (m (se_tx E (sw_calls w) (sw_db w)) (sw_db w)),
   mkSWorld (snd (m (se_tx E (sw_calls w) (sw_db w)) (sw_db w))) (Datatypes.S (sw_calls w)) (sw_sent w)).
Proof. unfold sw_call. rewrite calm_before. by destruct (m _ _). Qed.

(** The task is on its way to the worker. *)
Definition assigned_to (d : db) (p : Task * Member) : Prop :=
  latest_status (TaskID (fst p)) d = Some StateAssigned /\ leased_to (TaskID (fst p)) (ID (snd p)) d.

Lemma kept_assigned d d' p : kept (TaskID (fst p)) d d' -> assigned_to d p -> assigned_to d' p.
Proof.
  intros [Hr Hl] [H1 H2]. unfold assigned_to, leased_to, owner_of, latest_status in *. by rewrite Hr, Hl.
Qed.

(** Every task of the loop is assigned to the worker the strategy picks for it. *)
Lemma calm_dispatch workers ts : forall s w,
  members_ok workers -> workers <> ∅ -> store_inv (sw_db w) -> NoDup (TaskID <$> ts) ->
  Forall (fun t => latest_status (TaskID t) (sw_db w) = Some StateScheduling) ts ->
  exists ps, ps.*1 = ts /\ Some <$> ps.*2 = picks workers s (length ts) /\
    sw_sent (snd (dispatch_in E st ts workers s w)) = sw_sent w ++ (sent_of <$> ps) /\
    Forall (assigned_to (sw_db (snd (dispatch_in E st ts workers s w)))) ps /\
    (forall t, t ∉ TaskID <$> ts -> kept t (sw_db w) (sw_db (snd (dispatch_in E st ts workers s w)))).
Proof.
  induction ts as [|t ts IH]; intros s w Hok Hne Hinv Hnd Hall.
  { exists []. cbn. rewrite app_nil_r. split_and!; try done. }
  apply NoDup_cons in Hnd as [Hni Hnd]. apply Forall_cons in Hall as [Hl Hall].
  unfold dispatch_in. cbn [dispatchClaimedTasks length picks].
  pose proof (pick_u64 workers s 1) as Hu. cbn [picks] in Hu. destruct (pick_some workers s Hne) as [wk Hwk].
  destruct (Pick workers s) as [o s'] eqn:Hp. cbn [fst snd] in *. subst o. destruct (Hu wk Hok ltac:(by left)) as [Hw _].
  cbn [store_MarkAssigned sworld_store postgres_store sworld_runs run_store].
  pose proof (latest_task _ _ _ Hinv Hl) as Ht. set (env := se_tx E (sw_calls w) (sw_db w)).
  pose proof (MarkAssigned_yields st (TaskID t) (ID wk) env (sw_db w) (ca_faults Hcalm _ _) (ca_ready Hcalm _ _) Hl Ht) as Hy.
  rewrite calm_call. fold env. rewrite Hy. cbn [fst snd AssignTask sworld_dispatcher]. rewrite (ca_rpc Hcalm). cbv iota beta. cbn [sw_db sw_calls sw_sent].
  set (d1 := upsert_lease _ _ _ _ _) in *. set (w2 := mkSWorld d1 _ _).
  assert (Hsame : same_except (TaskID t) (sw_db w) d1).
  { unfold d1. etransitivity; [apply same_except_add | apply same_except_upsert]. }
  assert (Hinv1 : store_inv d1).
  { eapply (MarkAssigned_ok st (TaskID t) (ID wk) env (sw_db w)); [done | apply (ca_ready Hcalm)|]. by split. }
  destruct (IH s' w2 Hok Hne Hinv1 Hnd) as (ps & H1 & H2 & H3 & H4 & H5).
  { rewrite Forall_forall in *. intros t' Ht'. rewrite <- (Hall t' Ht'). unfold latest_status. cbn [sw_db w2].
    rewrite (se_rows _ _ _ Hsame); [done|]. intros Heq. apply Hni. rewrite <- Heq. by apply list_elem_of_fmap_2. }
  exists ((t, wk) :: ps). cbn [fmap list_fmap fst snd]. rewrite H1, H2. split; [done|]. split; [done|].
  unfold dispatch_in in H3, H4, H5. split; [rewrite H3; cbn; by rewrite <- app_assoc|]. split.
  - constructor; [|exact H4]. eapply kept_assigned; [by apply H5|]. split; cbn [fst snd sw_db w2].
    + unfold d1. change (latest_status (TaskID t) (upsert_lease ?a ?b ?c ?d ?e)) with (latest_status (TaskID t) e).
      apply latest_add; [apply (ca_ready Hcalm) | apply Hinv].
    + unfold leased_to, owner_of, d1. cbn. by rewrite lookup_insert_eq.
  - intros t' [Hne' Hni']%not_elem_of_cons. etransitivity; [|by apply H5]. by eapply kept_other.
Qed.

(** The members that can take a task: alive, not the scheduler itself, without a lease. *)
Definition free_at (self : Z) (members : gmap Z Member) (d : db) (free : gmap Z Member) : Prop :=
  forall id x, free !! id = Some x <-> members !! id = Some x /\ id <> self /\ idle id d.

Lemma idle_leases d id :
  store_inv d -> is_u64 id ->
  idle id d <-> id ∉ LeaseWorker <$>
    ((fun p => mkLease (fst p) (uint64 (l_worker_id (snd p))) (l_expires_at (snd p))) <$> map_to_list (leases d)).
Proof.
  intros Hinv Hid. rewrite <- list_fmap_compose, list_elem_of_fmap. split.
  - intros Hi ([t l] & -> & Hl%elem_of_map_to_list). cbn in *. apply (Hi t).
    assert (Ho : owner_of t d = Some (l_worker_id l)) by (unfold owner_of; by rewrite Hl).
    rewrite Ho, int64_uint64; [done|]. by eapply owner_bounds.
  - intros Hni t Ho. apply Hni. apply fmap_Some in Ho as (l & Hl & Hw). exists (t, l). cbn. split.
    + by rewrite <- Hw, uint64_int64.
    + by apply elem_of_map_to_list.
Qed.

(** ActiveLeases and freeWorkers without faults. *)
Lemma calm_free self members free w :
  members_ok members -> store_inv (sw_db w) -> free_at self members (sw_db w) free -> free <> ∅ ->
  free_in E st (aliveWorkers self members) w =
    (Ok free, mkSWorld (sw_db w) (Datatypes.S (sw_calls w)) (sw_sent w)).
Proof.
  intros Hok Hinv Hfree Hne. unfold free_in, freeWorkers.
  assert (size (aliveWorkers self members) <> 0)%nat as Hs.
  { intros H0%map_size_empty_iff. apply Hne, map_empty. intros id. destruct (free !! id) as [x|] eqn:Hx; [|done].
    apply Hfree in Hx as (Hm & Hid & _). pose proof (proj2 (alive_elem self members id x) (conj Hm Hid)) as Ha.
    by rewrite H0, lookup_empty in Ha. }
  rewrite (proj2 (Nat.eqb_neq _ _) Hs). cbn [store_ActiveLeases sworld_store postgres_store sworld_runs run_store].
  rewrite calm_call. unfold ActiveLeases, with_pool. rewrite (ca_faults Hcalm). cbn [fst snd].
  f_equal. f_equal. apply map_eq. intros id. apply option_eq. intros x. rewrite remove_leased, alive_elem, (Hfree id x).
  split.
  - intros [[Hm Hid] Hni]. split_and!; [done..|]. apply idle_leases; [done| |done]. by eapply Hok.
  - intros (Hm & Hid & Hi). split; [done|]. apply idle_leases in Hi; [done | done|]. by eapply Hok.
Qed.

(** ClaimQueued without faults: the oldest tasks, now SCHEDULING. *)
Lemma calm_claim self batch w :
  0 <= batch -> store_inv (sw_db w) ->
  let rows := take (Z.to_nat batch) (claim_list (se_tx E (sw_calls w) (sw_db w)) (sw_db w)) in
  let ts := task_of <$> rows in
  Forall (fun p => has_uris (snd p)) rows ->
  exists w', sw_call E (ClaimQueued self batch) w = (Ok ts, w') /\ store_inv (sw_db w') /\ sw_sent w' = sw_sent w /\
    NoDup (TaskID <$> ts) /\ Forall (fun t => latest_status (TaskID t) (sw_db w') = Some StateScheduling) ts.
Proof.
  intros Hb Hinv rows ts Huri. set (env := se_tx E (sw_calls w) (sw_db w)).
  assert (Hscan : scan_rows scan_task (claim_queued batch env (sw_db w)) = Ok ts) by (by apply scan_tasks_uris).
  pose proof (ClaimQueued_yields self batch env (sw_db w) ts (ca_faults Hcalm _ _) (ca_ready Hcalm _ _) Hb Hscan) as Hy.
  destruct (ClaimQueued_ok self batch env (sw_db w) ts _ Hinv (ca_ready Hcalm _ _) ltac:(by split)) as [Hnd Hm].
  rewrite calm_call. fold env. rewrite Hy. eexists. split; [done|]. cbn [sw_db sw_sent fst snd].
  split; [by eapply moves_each_inv|]. split; [done|]. split; [done|]. apply Forall_forall. intros x Hx.
  eapply latest_moved; [exact Hm | done | by apply list_elem_of_fmap_2 |].
  assert (Hin : TaskID x ∈ fst <$> claim_queued batch env (sw_db w)).
  { rewrite <- (scan_rows_fmap _ fst TaskID _ _ scan_task_id Hscan). by apply list_elem_of_fmap_2. }
  apply list_elem_of_fmap in Hin as ([t r] & -> & (Ht & Hc & _)%claim_queued_elem).
  intros a a' (r' & _ & Hl & _)%abs_some Hstep. cbn [fst] in *. rewrite (claimable_queued _ _ _ Hinv Ht Hc) in Hl.
  destruct Hstep; cbn in Hl; simplify_eq; cbn; try done; unfold active_status, strays in *; naive_solver.
Qed.

(** RecoverExpiredLeases without faults. *)
Lemma calm_expired n d :
  store_inv d ->
  (forall t l, leases d !! t = Some l -> l_expires_at l < tx_now (se_tx E n d) -> 0 <= l_worker_id l) ->
  let d' := snd (RecoverExpiredLeases (se_tx E n d) d) in
  exists k, RecoverExpiredLeases (se_tx E n d) d = (Ok k, d') /\ store_inv d'.
Proof.
  intros Hinv Hpos d'. set (env := se_tx E n d).
  pose proof (run_op_refines OpRecoverExpiredLeases env d Hinv (ca_ready Hcalm n d) I) as [Hinv' _ _ _].
  cbn [run_op reply snd] in Hinv'. fold env in d'. fold d' in Hinv'.
  assert (Hls : expired_rows env d = Ok (select_expired_leases env d)).
  { apply expired_rows_ok. split; [done|]. apply Forall_forall.
    intros [t w] (l & Hl & <- & He & _)%select_expired_elem. by eapply Hpos. }
  assert (Hall : Forall (fun a => is_Some (tasks d !! fst a)) (select_expired_leases env d)).
  { apply Forall_forall. intros [t w] (l & Hl & _)%select_expired_elem. by eapply lease_task_known. }
  pose proof (RecoverExpired_yields env d _ (ca_faults Hcalm n d) (ca_ready Hcalm n d) Hall Hls) as Hy.
  unfold d'. rewrite Hy. eexists. split; [done|]. unfold d' in *. rewrite Hy in *. done.
Qed.

(** The world after the recovery that the first tick of a leadership starts with. *)
Definition after_takeover (members : gmap Z Member) (e : Engine S) (w : sworld) : sworld :=
  if didLeaderRecovery e then w
  else @recoverOnLeadership sworld (sworld_store E st) (aliveWorkers (selfID e) members) w.

Lemma calm_takeover members e w :
  store_inv (sw_db w) ->
  store_inv (sw_db (after_takeover members e w)) /\ sw_sent (after_takeover members e w) = sw_sent w.
Proof.
  intros Hinv. unfold after_takeover. destruct (didLeaderRecovery e); [done|]. unfold recoverOnLeadership.
  cbn [store_RecoverStaleScheduling store_RecoverDeadWorkerLeases sworld_store postgres_store sworld_runs run_store].
  rewrite !calm_call. cbn [fst snd sw_db sw_sent]. split; [|done].
  set (d1 := snd (RecoverStaleScheduling _ _)).
  assert (Hinv1 : store_inv d1)
    by exact (rf_inv _ _ _ (run_op_refines OpRecoverStaleScheduling _ _ Hinv (ca_ready Hcalm _ _) I)).
  exact (rf_inv _ _ _ (run_op_refines (OpRecoverDeadWorkerLeases _) _ _ Hinv1 (ca_ready Hcalm _ _) I)).
Qed.

(** The tick up to the claim. *)
Lemma calm_tick_claims members free e w :
  let w1 := after_takeover members e w in
  let d := snd (RecoverExpiredLeases (se_tx E (sw_calls w1) (sw_db w1)) (sw_db w1)) in
  let w3 := mkSWorld d (2 + sw_calls w1) (sw_sent w) in
  let cc := Z.min (BatchSize e) (Z.of_nat (size free)) in
  members_ok members -> store_inv (sw_db w) -> 0 < BatchSize e ->
  (forall t l, leases (sw_db w1) !! t = Some l -> l_expires_at l < tx_now (se_tx E (sw_calls w1) (sw_db w1)) ->
     0 <= l_worker_id l) ->
  free_at (selfID e) members d free -> free <> ∅ ->
  store_inv d /\ 0 < cc /\
  snd (tick_in E st true members e w) =
  match sw_call E (ClaimQueued (selfID e) cc) w3 with
  | (Ok ts, w4) => match ts with [] => w4 | _ => snd (dispatch_in E st ts free (strategy e) w4) end
  | (Err _, w4) => w4
  end.
Proof.
  intros w1 d w3 cc Hok Hinv Hbatch Hpos Hfree Hne.
  destruct (calm_takeover members e w Hinv) as [Hinv1 Hsent1]. fold w1 in Hinv1, Hsent1.
  destruct (calm_expired (sw_calls w1) (sw_db w1) Hinv1 Hpos) as (n & Hexp & Hinvd). fold d in Hexp, Hinvd.
  assert (Hsz : size free <> 0%nat) by (by rewrite map_size_non_empty_iff).
  assert (Hal : size (aliveWorkers (selfID e) members) <> 0%nat).
  { apply map_choose in Hne as (id & x & Hx). apply Hfree in Hx as (Hm & Hid & _).
    intros H0%map_size_empty_iff. pose proof (proj2 (alive_elem (selfID e) members id x) (conj Hm Hid)) as Ha.
    by rewrite H0, lookup_empty in Ha. }
  split; [done|]. split; [unfold cc; lia|].
  unfold tick_in, tick. cbn [negb]. rewrite (proj2 (Nat.eqb_neq _ _) Hal).
  assert (Htake : exists e1, strategy e1 = strategy e /\
    (if negb (didLeaderRecovery e)
     then (set_recovery true e, @recoverOnLeadership sworld (sworld_store E st) (aliveWorkers (selfID e) members) w)
     else (e, w)) = (e1, w1)).
  { unfold w1, after_takeover. destruct (didLeaderRecovery e); (eexists; split; [|reflexivity]; done). }
  destruct Htake as (e1 & Hstrat & ->). cbv iota beta.
  cbn [store_RecoverExpiredLeases sworld_store postgres_store sworld_runs run_store]. rewrite calm_call, Hexp. cbn [fst snd].
  set (w2 := mkSWorld d _ _).
  change (freeWorkers (aliveWorkers (selfID e) members) w2) with (free_in E st (aliveWorkers (selfID e) members) w2).
  rewrite (calm_free (selfID e) members free w2) by done. rewrite (proj2 (Nat.eqb_neq _ _) Hsz).
  fold cc. rewrite (proj2 (Z.eqb_neq cc 0)) by (unfold cc; lia).
  cbn [store_ClaimQueued sworld_store postgres_store sworld_runs run_store w2 sw_db sw_calls sw_sent].
  rewrite Hsent1, Hstrat. change (mkSWorld d (Datatypes.S (Datatypes.S (sw_calls w1))) (sw_sent w)) with w3. unfold dispatch_in.
  destruct (sw_call E (ClaimQueued (selfID e) cc) w3) as [[[|t ts]|err] w4]; [done | | done].
  by destruct (dispatchClaimedTasks (t :: ts) free (strategy e) w4).
Qed.

(** C5: an undisturbed tick of a leader with idle workers, the first of its leadership or a
    later one, makes progress: if the oldest tasks in the queue, as many as the batch
    and the idle workers allow, all have an input and an output URI, the tick sends one
    request for each of them and each ends up assigned and leased to the worker that got
    its request; if one of them lacks a URI, which the schema allows, the tick sends
    nothing.  Undisturbed means that no call fails and nothing else changes the tables;
    and no expired lease may belong to a worker id of 2^63 or more. *)
Theorem calm_tick_assigns (members free : gmap Z Member) (e : Engine S) (w : sworld) :
  let w1 := after_takeover members e w in
  let d := snd (RecoverExpiredLeases (se_tx E (sw_calls w1) (sw_db w1)) (sw_db w1)) in
  let queue := claim_list (se_tx E (2 + sw_calls w1) d) d in
  let k := Nat.min (Z.to_nat (BatchSize e)) (size free) in
  let w' := snd (tick_in E st true members e w) in
  members_ok members -> store_inv (sw_db w) -> 0 < BatchSize e ->
  (forall t l, leases (sw_db w1) !! t = Some l -> l_expires_at l < tx_now (se_tx E (sw_calls w1) (sw_db w1)) ->
     0 <= l_worker_id l) ->
  free_at (selfID e) members d free -> free <> ∅ ->
  (Forall (fun p => has_uris (snd p)) (take k queue) ->
   exists ps, sw_sent w' = sw_sent w ++ (sent_of <$> ps) /\
     ps.*1 = task_of <$> take k queue /\
     Some <$> ps.*2 = picks free (strategy e) (length (take k queue)) /\
     Forall (assigned_to (sw_db w')) ps) /\
  (forall t r, (t, r) ∈ take k queue -> ~ has_uris r -> sw_sent w' = sw_sent w).
Proof.
  intros w1 d queue k w' Hok Hinv Hbatch Hpos Hfree Hne.
  destruct (calm_tick_claims members free e w Hok Hinv Hbatch Hpos Hfree Hne) as (Hinvd & Hcc & Htick).
  fold w' in Htick. fold w1 d in Htick, Hinvd. set (cc := Z.min _ _) in *. set (w3 := mkSWorld d _ _) in *.
  assert (Hk : Z.to_nat cc = k) by (unfold cc, k; lia). split.
  - intros Huri.
    destruct (calm_claim (selfID e) cc w3) as (w4 & Hc & Hinv4 & Hs4 & Hnd & Hall); [lia | done | by rewrite Hk|].
    rewrite Hk in *. change (claim_list (se_tx E (sw_calls w3) (sw_db w3)) (sw_db w3)) with queue in *. rewrite Hc in Htick.
    assert (Hfok : members_ok free) by (eapply members_ok_sub; [|exact Hok]; intros id x Hx; by apply Hfree).
    destruct (calm_dispatch free (task_of <$> take k queue) (strategy e) w4 Hfok Hne Hinv4 Hnd Hall)
      as (ps & H1 & H2 & H3 & H4 & _). rewrite length_fmap in H2. rewrite Hs4 in H3.
    exists ps. rewrite Htick. destruct (task_of <$> take k queue) as [|t ts] eqn:Hts; [|done].
    apply fmap_nil_inv in H1. subst ps. rewrite Hs4, app_nil_r. split_and!; [done..| constructor].
  - intros t r Hin Hn. unfold sw_call in Htick. rewrite calm_before in Htick.
    destruct (null_uri_blocks_claims (selfID e) cc (se_tx E (sw_calls w3) (sw_db w3)) (sw_db w3) t r) as [Herr _];
      [by rewrite Hk | done|].
    destruct (ClaimQueued _ _ _ _) as [[ts|err] d']; [done|]. by rewrite Htick.
Qed.

End calm.

(** ** On concrete data *)

Definition calm_senv : senv := mkSEnv (fun _ => next_env) (fun _ => []) (fun _ => Ok tt).

Lemma calm_senv_calm : calm calm_senv.
Proof. split; try done. intros n d. apply next_ready. Qed.

Definition calm_free_members : gmap Z Member := <[4 := mkMember 4 "n4"]> (<[5 := mkMember 5 "n5"]> ∅).

Lemma calm_no_leases d : leases d = ∅ -> forall t l, leases d !! t = Some l -> False.
Proof. intros E t l Hl. rewrite E, lookup_empty in Hl. discriminate. Qed.

(** The first tick of a leader with two tasks and two idle workers: both are assigned. *)
Lemma calm_tick_assigns_witness :
  exists ps, fst <$> (sent_of <$> ps) = ["n4"; "n5"]%string /\ TaskID <$> ps.*1 = [1; 2] /\
    Forall (assigned_to (sw_db (snd (tick_in calm_senv demo_store true demo_members
      (mkEngine 9 8 NewRoundRobin false) (demo_world demo_queued))))) ps.
Proof.
  destruct (calm_tick_assigns calm_senv demo_store calm_senv_calm demo_members calm_free_members
    (mkEngine 9 8 NewRoundRobin false) (demo_world demo_queued)) as [Hgo _].
  - exact demo_members_ok.
  - exact (demo_inv _ demo_reach_queued).
  - cbn. lia.
  - intros t l Hl. exfalso. eapply calm_no_leases; [|exact Hl]. vm_compute. reflexivity.
  - set (d := snd (RecoverExpiredLeases _ _)).
    assert (Hidle : forall id, idle id d).
    { intros i t Ho. unfold owner_of in Ho. assert (leases d = ∅) as E by (vm_compute; reflexivity).
      rewrite E, lookup_empty in Ho. discriminate. }
    intros id x. unfold calm_free_members, demo_members. rewrite !lookup_insert_Some, lookup_empty. split.
    + intros [[<- <-]|(H5 & [[<- <-]|[_ [=]]])]; split_and!; try done; auto 10; apply Hidle.
    + intros (H & Hid & _). clear Hidle. clear d. cbn in Hid. naive_solver.
  - discriminate.
  - destruct Hgo as (ps & H1 & H2 & H3 & H4).
    { match goal with |- Forall _ ?l => assert (El : l = [(1, demo_row 10); (2, demo_row 20)]) by (vm_compute; reflexivity) end.
      rewrite El. constructor; [apply demo_uris|]. constructor; [apply demo_uris | constructor]. }
    exists ps. rewrite <- list_fmap_compose. split.
    + assert (Hs : sw_sent (demo_world demo_queued) ++ (sent_of <$> ps) = sent_of <$> ps) by reflexivity.
      rewrite Hs in H1. clear -H1.
      assert (E : fst <$> sw_sent (snd (tick_in calm_senv demo_store true demo_members (mkEngine 9 8 NewRoundRobin false) (demo_world demo_queued))) = ["n4"; "n5"]%string)
        by (vm_compute; reflexivity).
      rewrite H1, <- list_fmap_compose in E. exact E.
    + split; [|exact H4]. rewrite H2. vm_compute. reflexivity.
Defined.
