(* ===== verification/Server.v ===== *)
(** * server/: the gRPC handlers

    The handlers of the scheduler service translate requests into calls of the
    task store; the handler of the worker service hands an assignment to the
    worker engine.  (The election service is in ElectionEngine.v, [recv_elect]
    and [recv_coord].) *)

From S2P Require Import Prelude Cluster TaskStore StoreIface TaskTx TaskLifecycle TaskRefine TaskAtomic TaskReach TaskRecovery Scheduler.

(** The gRPC codes the handlers use, and the outcome of a call. *)
Inductive Code := InvalidArgument | Internal.

Inductive rpc :=
| RpcOk
| RpcError (c : Code) (e : error).

Definition rpc_ok (r : rpc) : bool := match r with RpcOk => true | RpcError _ _ => false end.

(** The messages of the scheduler service; an enum of protobuf is an open integer. *)
Record ReportResultRequest := mkReportResult {
  rr_TaskId : string;
  rr_WorkerId : Z;
  rr_Outcome : Z;
  rr_Error : string;
}.

Definition TaskOutcome_SUCCESS : Z := 1.

Definition TaskOutcome_FAILED : Z := 2.

Record RenewLeaseRequest := mkRenewLease { rl_TaskId : string; rl_WorkerId : Z }.

Record MarkRunningRequest := mkMarkRunning { mr_TaskId : string; mr_WorkerId : Z }.

(** worker.Assignment *)
Record Assignment := mkAssignment {
  as_TaskID : string;
  as_ExecutableURI : string;
  as_InputURI : string;
  as_OutputURI : string;
  as_Args : list string;
}.

Section handlers.
Context {W : Type} `{!Uuid} `{!Store W}.

Definition invalid (msg : string) : rpc := RpcError InvalidArgument (EFmt msg []).

(** [if err != nil { return nil, status.Error(codes.Internal, err.Error()) }] *)
Definition reply_of (p : result unit * W) : rpc * W :=
  match p with
  | (Ok _, w) => (RpcOk, w)
  | (Err e, w) => (RpcError Internal e, w)
  end.

Definition SchedulerServer_ReportResult (req : ReportResultRequest) (w : W) : rpc * W :=
  match uuid_Parse (rr_TaskId req) with
  | Err _ => (invalid "invalid task_id", w)
  | Ok t =>
      if rr_Outcome req =? TaskOutcome_SUCCESS
      then reply_of (store_MarkCompleted t (rr_WorkerId req) w)
      else if rr_Outcome req =? TaskOutcome_FAILED
      then reply_of (store_MarkFailed t (rr_WorkerId req) (rr_Error req) w)
      else (invalid "invalid outcome", w)
  end.

Definition SchedulerServer_RenewLease (req : RenewLeaseRequest) (w : W) : rpc * W :=
  match uuid_Parse (rl_TaskId req) with
  | Err _ => (invalid "invalid task_id", w)
  | Ok t => reply_of (store_RenewLease t (rl_WorkerId req) w)
  end.

Definition SchedulerServer_MarkRunning (req : MarkRunningRequest) (w : W) : rpc * W :=
  match uuid_Parse (mr_TaskId req) with
  | Err _ => (invalid "invalid task_id", w)
  | Ok t => reply_of (store_MarkRunning t (mr_WorkerId req) w)
  end.

(** The assignment the worker service passes to HandleAssignment. *)
Definition WorkerServer_AssignTask (req : AssignTaskRequest) : Assignment :=
  mkAssignment (req_TaskId req) (req_ExecutableUri req) (req_InputUri req) (req_OutputUri req) (req_Args req).

End handlers.

(** ** The handlers on the PostgreSQL store *)

(** One request in one transaction environment. *)
Record request_world := mkRequest { rq_env : txenv; rq_db : db }.

#[export] Instance request_runs : RunsStore request_world := {|
  run_store A m w := let '(r, d) := m (rq_env w) (rq_db w) in (r, mkRequest (rq_env w) d)
|}.

Inductive request :=
| ReqReport (r : ReportResultRequest)
| ReqRenew (r : RenewLeaseRequest)
| ReqRunning (r : MarkRunningRequest).

Section postgres.
Context {P : PgxScan} {U : Uuid} (st : PostgresStore).

Definition handle (req : request) (env : txenv) (d : db) : rpc * db :=
  let w := mkRequest env d in
  let S := postgres_store (W := request_world) st in
  let '(r, w') :=
    match req with
    | ReqReport r => SchedulerServer_ReportResult r w
    | ReqRenew r => SchedulerServer_RenewLease r w
    | ReqRunning r => SchedulerServer_MarkRunning r w
    end in
  (r, rq_db w').

(** The operation of the store a request stands for. *)
Definition op_of_request (req : request) : option store_op :=
  match req with
  | ReqReport r =>
      match uuid_Parse (rr_TaskId r) with
      | Err _ => None
      | Ok t =>
          if rr_Outcome r =? TaskOutcome_SUCCESS then Some (OpMarkCompleted t (rr_WorkerId r))
          else if rr_Outcome r =? TaskOutcome_FAILED then Some (OpMarkFailed t (rr_WorkerId r) (rr_Error r))
          else None
      end
  | ReqRenew r =>
      match uuid_Parse (rl_TaskId r) with
      | Err _ => None | Ok t => Some (OpRenewLease st t (rl_WorkerId r)) end
  | ReqRunning r =>
      match uuid_Parse (mr_TaskId r) with
      | Err _ => None | Ok t => Some (OpMarkRunning t (mr_WorkerId r)) end
  end.

(** A request does what its operation does, and reports its error. *)
Lemma handle_op req env d :
  match op_of_request req with
  | Some op => is_Some (report_of op) /\ snd (handle req env d) = snd (run_op op env d) /\
      rpc_ok (fst (handle req env d)) = is_ok (fst (run_op op env d))
  | None => snd (handle req env d) = d /\ exists e, fst (handle req env d) = RpcError InvalidArgument e
  end.
Proof.
  unfold handle, op_of_request, SchedulerServer_ReportResult, SchedulerServer_RenewLease,
    SchedulerServer_MarkRunning, invalid.
  destruct req as [r|r|r]; (destruct (uuid_Parse _) as [t|e]; [|by eauto]);
    [destruct (rr_Outcome r =? TaskOutcome_SUCCESS); [|destruct (rr_Outcome r =? TaskOutcome_FAILED); [|by eauto]]|..];
    cbn; (split; [by eexists|]);
    match goal with |- context [let '(_, _) := ?m env d in _] => destruct (m env d) as [[] ?] end; done.
Qed.

Lemma handle_sstep `{!PgxScanLaws P} req env d :
  ready env 0 d -> rtc sstep d (snd (handle req env d)).
Proof.
  intros Hr. pose proof (handle_op req env d) as Hh. destruct (op_of_request req) as [op|].
  - destruct Hh as (Hop & -> & _). apply rtc_once, ss_op; [done|]. by destruct op, Hop.
  - destruct Hh as [-> _]. apply rtc_refl.
Qed.

(** C36: a request to the scheduler service with an unreadable task id or an unknown
    outcome is answered InvalidArgument and changes nothing; one of a worker that
    does not hold the lease is answered with an error and changes nothing; any
    other moves each task by at most one step of the lifecycle. *)
Theorem requests_refine_lifecycle `{!PgxScanLaws P} (req : request) (env : txenv) (d : db) :
  store_inv d -> ready env 0 d ->
  let '(r, d') := handle req env d in
  match op_of_request req with
  | None => d' = d /\ exists e, r = RpcError InvalidArgument e
  | Some op =>
      exists t w, report_of op = Some (t, w) /\ store_inv d' /\
        (forall t', astep_opt HolderOnly (abs d t') (abs d' t')) /\
        (~ leased_to t w d -> d' = d /\ rpc_ok r = false)
  end.
Proof.
  intros Hinv Hr. pose proof (handle_op req env d) as Hh. destruct (handle req env d) as [r d']. cbn in Hh.
  destruct (op_of_request req) as [op|]; [|by destruct Hh].
  destruct Hh as ([[t w] Hop] & -> & Hok). exists t, w. split; [done|].
  assert (op_ok op d) as Hopok by (by destruct op).
  destruct (run_op_refines op env d Hinv Hr Hopok) as [Hinv' _ Hst _]. split; [done|]. split; [done|].
  intros Hno. destruct (stale_report op t w env d Hop Hno) as [Hf Hd]. split; [done|]. by rewrite Hok.
Qed.

End postgres.

(** The task id survives the way from the scheduler over the dispatcher's request and
    the worker's assignment back into a report: the scheduler service reads the
    id of the task that was dispatched. *)
Theorem task_id_roundtrip {U : Uuid} {UL : UuidLaws U} (st : PostgresStore) (t : Task) (w : Z) (msg : string) :
  0 <= TaskID t < 2 ^ 128 ->
  let a := WorkerServer_AssignTask (request_of t) in
  op_of_request st (ReqRunning (mkMarkRunning (as_TaskID a) w)) = Some (OpMarkRunning (TaskID t) w) /\
  op_of_request st (ReqRenew (mkRenewLease (as_TaskID a) w)) = Some (OpRenewLease st (TaskID t) w) /\
  op_of_request st (ReqReport (mkReportResult (as_TaskID a) w TaskOutcome_SUCCESS msg)) = Some (OpMarkCompleted (TaskID t) w) /\
  op_of_request st (ReqReport (mkReportResult (as_TaskID a) w TaskOutcome_FAILED msg)) = Some (OpMarkFailed (TaskID t) w msg).
Proof. intros Ht. cbn. by rewrite uuid_parse_string. Qed.
