(* ===== verification/Worker.v ===== *)
(** * worker/engine.go: the life of an assignment on a worker

    [runTask] is written against the interfaces of the source (the election
    and cluster it reads the leader from, the client of the scheduler service,
    the executor) over an unspecified world.  The goroutine [renewLoop] runs
    beside it: [ticks] says how many renewals happen in each of its phases.
    The world of the theorems, [wworld], has the leader's service on the other
    side of the client, on tables that others change too. *)

From S2P Require Import Prelude Cluster TaskStore StoreIface TaskTx TaskLifecycle TaskRefine TaskAtomic TaskReach TaskFunctional TaskRecovery Scheduler Server.

(** ** Interfaces *)

(** What the worker reads of election.Engine and cluster.Cluster; every read takes
    time. *)
Class LeaderView (W : Type) := {
  view_CurrentLeader : W -> Z * W;
  view_IsLeader : W -> bool * W;
  view_MemberAddr : Z -> W -> option string * W;
}.

Class WorkerClient (W : Type) := {
  client_RenewLease : string -> RenewLeaseRequest -> W -> bool * W;
  client_MarkRunning : string -> MarkRunningRequest -> W -> bool * W;
  client_ReportResult : string -> ReportResultRequest -> W -> bool * W;
}.

Class Executor (W : Type) := { Execute : Assignment -> W -> option string * W }.

(** ** The engine *)

Section engine.
Context {W : Type} `{!LeaderView W} `{!WorkerClient W} `{!Executor W}.

Definition leaderAddr (w : W) : option string * W :=
  let '(leaderID, w1) := view_CurrentLeader w in
  if leaderID =? 0 then (None, w1)
  else
    let '(self, w2) := view_IsLeader w1 in
    if self then (None, w2) else view_MemberAddr leaderID w2.

(** One turn of the loop. *)
Definition renew_tick (workerID : Z) (taskID : string) (w : W) : W :=
  match leaderAddr w with
  | (None, w1) => w1
  | (Some addr, w1) => snd (client_RenewLease addr (mkRenewLease taskID workerID) w1)
  end.

Definition renewLoop (workerID : Z) (taskID : string) (n : nat) (w : W) : W :=
  Nat.iter n (renew_tick workerID taskID) w.

(** The report of a result, with the leader's address read again. *)
Definition report (workerID : Z) (taskID : string) (outcome : Z) (msg : string) (w : W) : W :=
  match leaderAddr w with
  | (None, w1) => w1
  | (Some addr, w1) => snd (client_ReportResult addr (mkReportResult taskID workerID outcome msg) w1)
  end.

Definition runTask (ticks : nat -> nat) (workerID : Z) (a : Assignment) (w : W) : W :=
  let taskID := as_TaskID a in
  match leaderAddr w with
  | (None, w1) => w1
  | (Some addr, w1) =>
      match client_MarkRunning addr (mkMarkRunning taskID workerID) w1 with
      | (false, w2) => w2
      | (true, w2) =>
          let w3 := renewLoop workerID taskID (ticks 0%nat) w2 in
          let '(err, w4) := Execute a w3 in
          let w5 := renewLoop workerID taskID (ticks 1%nat) w4 in
          let w6 :=
            match err with
            | Some msg => report workerID taskID TaskOutcome_FAILED msg w5
            | None => report workerID taskID TaskOutcome_SUCCESS EmptyString w5
            end in
          renewLoop workerID taskID (ticks 2%nat) w6
      end
  end.

End engine.

(** ** A worker, the leader's service and the tables *)

(** What the worker's environment does at each step: the leader and addresses it
    reports, the other users of the tables, the fate of an RPC (lost on the way
    there or on the way back) and the outcome of the task's script. *)
Record wenv := mkWEnv {
  we_leader : nat -> Z;
  we_isLeader : nat -> bool;
  we_addr : nat -> Z -> option string;
  we_others : nat -> db -> db;
  we_tx : nat -> db -> txenv;
  we_rpc : nat -> fault;
  we_exec : nat -> option string;
}.

Record wworld := mkWWorld { ww_db : db; ww_time : nat; ww_execs : list Assignment }.

Section world.
Context {P : PgxScan} {U : Uuid} (E : wenv) (st : PostgresStore).

Definition ww_read {A} (f : nat -> A) (w : wworld) : A * wworld :=
  (f (ww_time w), mkWWorld (ww_db w) (S (ww_time w)) (ww_execs w)).

(** The tables a request finds. *)
Definition ww_found (w : wworld) : db := we_others E (ww_time w) (ww_db w).

Definition ww_request (req : request) (w : wworld) : bool * wworld :=
  let d := ww_found w in
  let next d' := mkWWorld d' (S (ww_time w)) (ww_execs w) in
  match we_rpc E (ww_time w) with
  | Fail => (false, next d)
  | FailAfter => (false, next (snd (handle st req (we_tx E (ww_time w) d) d)))
  | NoFault =>
      let '(r, d') := handle st req (we_tx E (ww_time w) d) d in (rpc_ok r, next d')
  end.

Definition wworld_view : LeaderView wworld := {|
  view_CurrentLeader := ww_read (we_leader E);
  view_IsLeader := ww_read (we_isLeader E);
  view_MemberAddr id := ww_read (fun n => we_addr E n id);
|}.

Definition wworld_client : WorkerClient wworld := {|
  client_RenewLease _ r := ww_request (ReqRenew r);
  client_MarkRunning _ r := ww_request (ReqRunning r);
  client_ReportResult _ r := ww_request (ReqReport r);
|}.

Definition wworld_executor : Executor wworld := {|
  Execute a w := (we_exec E (ww_time w), mkWWorld (ww_db w) (S (ww_time w)) (ww_execs w ++ [a]));
|}.

Definition leaderAddr_in : wworld -> option string * wworld := @leaderAddr wworld wworld_view.

Definition renewLoop_in : Z -> string -> nat -> wworld -> wworld := @renewLoop wworld wworld_view wworld_client.

Definition report_in : Z -> string -> Z -> string -> wworld -> wworld := @report wworld wworld_view wworld_client.

Definition runTask_in : (nat -> nat) -> Z -> Assignment -> wworld -> wworld :=
  @runTask wworld wworld_view wworld_client wworld_executor.

End world.
