(* ===== verification/WorkerProps.v ===== *)
(** * What a worker does to its task

    The script of a task runs only on a worker for which RUNNING was recorded,
    and a worker that is not disturbed brings its task to the end the script
    deserves. *)

From S2P Require Import Prelude Cluster TaskStore StoreIface TaskTx TaskLifecycle TaskRefine TaskAtomic TaskReach TaskFunctional TaskRecovery Scheduler Server Worker.

Section world.
Context {P : PgxScan} {L : PgxScanLaws P} {U : Uuid} (E : wenv) (st : PostgresStore).

(** The world moves on: steps of the store only, no script started. *)
Record moves_on (w w' : wworld) : Prop := {
  mo_steps : rtc sstep (ww_db w) (ww_db w');
  mo_execs : ww_execs w' = ww_execs w;
}.

#[export] Instance moves_on_preorder : PreOrder moves_on.
Proof.
  split; [intros w; split; [apply rtc_refl | done]|].
  intros w1 w2 w3 [? ?] [? ?]. split; [by etransitivity | congruence].
Qed.

Lemma leaderAddr_db w : ww_db (snd (leaderAddr_in E w)) = ww_db w /\ ww_execs (snd (leaderAddr_in E w)) = ww_execs w.
Proof. unfold leaderAddr_in, leaderAddr. cbn. repeat case_match; done. Qed.

Lemma leaderAddr_on w : moves_on w (snd (leaderAddr_in E w)).
Proof. destruct (leaderAddr_db w) as [H1 H2]. split; [rewrite H1; apply rtc_refl | done]. Qed.

Section steps.
Hypothesis Hready : forall n d, ready (we_tx E n d) 0 d.
Hypothesis Hothers : forall n d, rtc sstep d (we_others E n d).

Lemma request_on req w : moves_on w (snd (ww_request E st req w)).
Proof.
  unfold ww_request. split; [|by repeat case_match].
  transitivity (ww_found E w); [apply Hothers|].
  pose proof (handle_sstep st req (we_tx E (ww_time w) (ww_found E w)) (ww_found E w) (Hready _ _)) as Hs.
  destruct (we_rpc E (ww_time w)); cbn; [|apply rtc_refl|done]. by destruct (handle st req _ _).
Qed.

Lemma renew_on wid tid n w : moves_on w (renewLoop_in E st wid tid n w).
Proof.
  induction n as [|n IH]; [done|]. etransitivity; [exact IH|]. change (renewLoop_in E st wid tid (S n) w)
    with (@renew_tick wworld (wworld_view E) (wworld_client E st) wid tid (renewLoop_in E st wid tid n w)).
  unfold renew_tick. change (@leaderAddr wworld (wworld_view E)) with (leaderAddr_in E).
  pose proof (leaderAddr_on (renewLoop_in E st wid tid n w)) as Hl.
  destruct (leaderAddr_in E _) as [[addr|] w1]; [|done]. etransitivity; [exact Hl | apply request_on].
Qed.

Lemma report_on wid tid outcome msg w : moves_on w (report_in E st wid tid outcome msg w).
Proof.
  unfold report_in, report. change (@leaderAddr wworld (wworld_view E)) with (leaderAddr_in E).
  pose proof (leaderAddr_on w) as Hl. destruct (leaderAddr_in E w) as [[addr|] w1]; [|done].
  etransitivity; [exact Hl | apply request_on].
Qed.

(** The acknowledged request to run the task. *)
Lemma running_acknowledged r w w' :
  ww_request E st (ReqRunning r) w = (true, w') ->
  exists t, uuid_Parse (mr_TaskId r) = Ok t /\
    MarkRunning_effect t (mr_WorkerId r) (we_tx E (ww_time w) (ww_found E w)) (ww_found E w) (ww_db w').
Proof.
  unfold ww_request. destruct (we_rpc E (ww_time w)); [|done..].
  pose proof (handle_op st (ReqRunning r) (we_tx E (ww_time w) (ww_found E w)) (ww_found E w)) as Hh.
  cbn [op_of_request] in Hh. destruct (handle st _ _ _) as [res d']. cbn [fst snd] in Hh.
  intros [= Hok <-]. cbn [ww_db].
  destruct (uuid_Parse (mr_TaskId r)) as [t|e]; [|destruct Hh as [_ [e' ->]]; done].
  destruct Hh as (_ & -> & Hr). exists t. split; [done|]. cbn [run_op reply fst snd] in *.
  rewrite Hok, is_ok_rmap in Hr.
  pose proof (MarkRunning_spec t (mr_WorkerId r) (we_tx E (ww_time w) (ww_found E w)) (ww_found E w)) as Hs.
  by destruct (MarkRunning _ _ _ _) as [[a|e] d''].
Qed.

(** The store recorded RUNNING for the worker, on the way from [w] to [w']. *)
Definition recorded_running (wid : Z) (a : Assignment) (w w' : wworld) : Prop :=
  exists t env d d', uuid_Parse (as_TaskID a) = Ok t /\ MarkRunning_effect t wid env d d' /\
    rtc sstep (ww_db w) d /\ rtc sstep d' (ww_db w').

(** C14: whatever happens to the messages and whoever else uses the tables, a worker moves
    the tables along the lifecycle only, and starts the task's script at most
    once, after the store recorded RUNNING for it while it held the lease. *)
Theorem execution_requires_running (ticks : nat -> nat) (wid : Z) (a : Assignment) (w : wworld) :
  let w' := runTask_in E st ticks wid a w in
  rtc sstep (ww_db w) (ww_db w') /\
  (ww_execs w' = ww_execs w \/
   ww_execs w' = ww_execs w ++ [a] /\ recorded_running wid a w w').
Proof.
  cbv zeta. unfold runTask_in, runTask. change (@leaderAddr wworld (wworld_view E)) with (leaderAddr_in E).
  pose proof (leaderAddr_on w) as [Hl1 Hl2].
  destruct (leaderAddr_in E w) as [[addr|] w1]; cbn [snd] in *; [|by auto].
  cbn [client_MarkRunning wworld_client].
  pose proof (request_on (ReqRunning (mkMarkRunning (as_TaskID a) wid)) w1) as [Hr1 Hr2].
  pose proof (running_acknowledged (mkMarkRunning (as_TaskID a) wid) w1) as Hack.
  destruct (ww_request E st (ReqRunning (mkMarkRunning (as_TaskID a) wid)) w1) as [[|] w2]; cbn [snd] in *.
  2:{ split; [by etransitivity | left; congruence]. }
  destruct (Hack w2 eq_refl) as (t & Ht & Heff).
  pose proof (renew_on wid (as_TaskID a) (ticks 0%nat) w2) as [Hn1 Hn2].
  change (@renewLoop wworld (wworld_view E) (wworld_client E st)) with (renewLoop_in E st).
  change (@report wworld (wworld_view E) (wworld_client E st)) with (report_in E st).
  set (w3 := renewLoop_in E st wid (as_TaskID a) (ticks 0%nat) w2) in *. cbn [Execute wworld_executor].
  set (w4 := mkWWorld (ww_db w3) _ _).
  set (w6 := match we_exec E (ww_time w3) with Some msg => _ | None => _ end).
  assert (Hmo : moves_on w4 (renewLoop_in E st wid (as_TaskID a) (ticks 2%nat) w6)).
  { etransitivity; [|apply renew_on]. etransitivity; [apply (renew_on wid (as_TaskID a) (ticks 1%nat))|].
    unfold w6. destruct (we_exec E (ww_time w3)); apply report_on. }
  destruct Hmo as [Hm1 Hm2]. cbn in Hm1, Hm2.
  assert (Hend : rtc sstep (ww_db w2) (ww_db (renewLoop_in E st wid (as_TaskID a) (ticks 2%nat) w6)))
    by (by etransitivity).
  split; [etransitivity; [exact Hl1|]; by etransitivity|]. right. split; [by rewrite Hm2, Hn2, Hr2, Hl2|].
  exists t, (we_tx E (ww_time w1) (ww_found E w1)), (ww_found E w1), (ww_db w2).
  split; [done|]. split; [done|]. split; [|done].
  etransitivity; [exact Hl1 | apply Hothers].
Qed.

End steps.
(** ** An undisturbed worker *)

Section quiet.
Hypothesis Hready : forall n d, ready (we_tx E n d) 0 d.
Hypothesis Hfaults : forall n d, tx_faults (we_tx E n d) = [].
Hypothesis Hothers : forall n d, we_others E n d = d.
Hypothesis Hrpc : forall n, we_rpc E n = NoFault.
Hypothesis Hleader : forall n, we_leader E n <> 0 /\ we_isLeader E n = false /\ forall id, is_Some (we_addr E n id).

Lemma leaderAddr_found w : exists addr w1,
  leaderAddr_in E w = (Some addr, w1) /\ ww_db w1 = ww_db w /\ ww_execs w1 = ww_execs w.
Proof.
  unfold leaderAddr_in, leaderAddr. cbn. destruct (Hleader (ww_time w)) as [Hl _].
  destruct (Hleader (S (ww_time w))) as (_ & Hs & _). destruct (Hleader (S (S (ww_time w)))) as (_ & _ & Ha).
  destruct (Z.eqb_spec (we_leader E (ww_time w)) 0); [done|]. cbn. rewrite Hs.
  destruct (Ha (we_leader E (ww_time w))) as [addr Haddr]. unfold ww_read. cbn. rewrite Haddr. eauto.
Qed.

Lemma quiet_request req w op :
  op_of_request st req = Some op ->
  fst (ww_request E st req w) = is_ok (fst (run_op op (we_tx E (ww_time w) (ww_db w)) (ww_db w))) /\
  ww_db (snd (ww_request E st req w)) = snd (run_op op (we_tx E (ww_time w) (ww_db w)) (ww_db w)) /\
  ww_execs (snd (ww_request E st req w)) = ww_execs w.
Proof.
  intros Hop. unfold ww_request, ww_found. rewrite Hrpc, Hothers.
  pose proof (handle_op st req (we_tx E (ww_time w) (ww_db w)) (ww_db w)) as Hh. rewrite Hop in Hh.
  destruct (handle st req _ _) as [r d']. cbn in *. by destruct Hh as (_ & -> & ->).
Qed.

(** The worker holds the lease of the task, whose status is [s]. *)
Record holding (t wid : Z) (s : TaskState) (d : db) : Prop := {
  ho_inv : store_inv d;
  ho_lease : leased_to t wid d;
  ho_status : latest_status t d = Some s;
}.

Lemma view_latest d d' t : same_view d d' -> latest_status t d' = latest_status t d.
Proof. intros [_ Hs _]. unfold latest_status, rows_of. by rewrite Hs. Qed.

Lemma view_failed d d' t : same_view d d' -> failed_count t d' = failed_count t d.
Proof. intros [_ Hs _]. unfold failed_count, rows_of. by rewrite Hs. Qed.

Lemma view_holding t wid s d d' : same_view d d' -> holding t wid s d -> holding t wid s d'.
Proof.
  intros Hv [Hinv Hl Hs]. split.
  - eapply rf_inv, refines_view; done.
  - unfold leased_to. by rewrite (sv_owners _ _ Hv).
  - by rewrite (view_latest _ _ _ Hv).
Qed.

Lemma same_view_trans d1 d2 d3 : same_view d1 d2 -> same_view d2 d3 -> same_view d1 d3.
Proof. intros [? ? H1] [? ? H2]. split; [congruence..|]. intros t. by rewrite H2, H1. Qed.

Lemma moves_each_nil d d' : moves_each HolderOnly [] d d' -> d' = d.
Proof. by inversion 1. Qed.

Lemma renew_op_view st' t w env d :
  store_inv d -> ready env 0 d -> same_view d (snd (run_op (OpRenewLease st' t w) env d)).
Proof.
  intros Hinv Hr. destruct (run_op_moves (OpRenewLease st' t w) env d Hinv Hr I) as [Hv|ts _ Hall Hm]; [done|].
  destruct ts; [|by apply Forall_cons in Hall as [[] _]].
  rewrite (moves_each_nil _ _ Hm). apply same_view_refl.
Qed.

Lemma renew_view wid tid t n w :
  uuid_Parse tid = Ok t -> store_inv (ww_db w) ->
  same_view (ww_db w) (ww_db (renewLoop_in E st wid tid n w)) /\
  ww_execs (renewLoop_in E st wid tid n w) = ww_execs w.
Proof.
  intros Ht Hinv. induction n as [|n [IH1 IH2]]; [split; [apply same_view_refl | done]|].
  change (renewLoop_in E st wid tid (S n) w)
    with (@renew_tick wworld (wworld_view E) (wworld_client E st) wid tid (renewLoop_in E st wid tid n w)).
  set (w0 := renewLoop_in E st wid tid n w) in *. unfold renew_tick.
  change (@leaderAddr wworld (wworld_view E)) with (leaderAddr_in E).
  destruct (leaderAddr_found w0) as (addr & w1 & -> & Hd & He). cbn [client_RenewLease wworld_client].
  destruct (quiet_request (ReqRenew (mkRenewLease tid wid)) w1 (OpRenewLease st t wid)) as (_ & -> & ->).
  { cbn. by rewrite Ht. }
  rewrite Hd, He. split; [|done]. eapply same_view_trans; [exact IH1|]. apply renew_op_view; [|apply Hready].
  eapply rf_inv, refines_view; done.
Qed.

Lemma running_holding t wid env d s :
  tx_faults env = [] -> ready env 0 d -> holding t wid s d ->
  is_ok (fst (run_op (OpMarkRunning t wid) env d)) = true /\
  holding t wid StateRunning (snd (run_op (OpMarkRunning t wid) env d)) /\
  failed_count t (snd (run_op (OpMarkRunning t wid) env d)) = failed_count t d.
Proof.
  intros Hf Hr [Hinv Hown Hl]. cbn [run_op reply fst snd]. rewrite is_ok_rmap.
  assert (Hy : MarkRunning t wid env d = (Ok tt, add_status env 0 t StateRunning (Some wid) EmptyString d)).
  { apply with_tx_commits; [done|]. do 2 eexists. unfold MarkRunning_tx.
    erewrite yields_bind by (by apply yields_wrap, yields_ensureLeaseOwner).
    erewrite yields_bind by (apply yields_wrap; eapply yields_ensureLatestStatusIn;
      [done | by eapply holding_active]).
    erewrite yields_bind by (apply yields_wrap, yields_insertStatus; [done | by eapply latest_task]). done. }
  rewrite Hy. cbn [fst snd]. split; [done|]. split.
  - split; [|done|by apply latest_add; [|apply Hinv]].
    pose proof (run_op_refines (OpMarkRunning t wid) env d Hinv Hr I) as [Hinv' _ _ _].
    cbn [run_op reply snd] in Hinv'. by rewrite Hy in Hinv'.
  - rewrite failed_add, bool_decide_eq_false_2 by done. lia.
Qed.

(** The end of the task as the store records it. *)
Definition ended (t : Z) (r : task_row) (res : option string) (d d' : db) : Prop :=
  match res with
  | None =>
      leases d' !! t = None /\ latest_status t d' = Some StateCompleted /\ failed_count t d' = failed_count t d
  | Some _ => failed_once t r d d'
  end.

Lemma completed_ended t wid env d r :
  tx_faults env = [] -> ready env 0 d -> holding t wid StateRunning d ->
  ended t r None d (snd (run_op (OpMarkCompleted t wid) env d)).
Proof.
  intros Hf Hr [Hinv Hown Hl]. cbn [run_op reply snd].
  assert (Hy : MarkCompleted t wid env d = (Ok tt, end_work env 0 t wid StateCompleted EmptyString d)).
  { apply with_tx_commits; [done|]. do 2 eexists. unfold MarkCompleted_tx.
    erewrite yields_bind by (by apply yields_wrap, yields_ensureLeaseOwner).
    erewrite yields_bind by (apply yields_wrap; eapply yields_ensureLatestStatusIn; [done | by left]).
    erewrite yields_bind by (apply yields_wrap, yields_insertStatus; [done | by eapply latest_task]).
    erewrite yields_bind by (apply yields_wrap; done). done. }
  rewrite Hy. cbn [snd]. destruct (abs_leased _ _ _ _ Hinv Hl Hown) as (f & m & Ha).
  pose proof (end_work_abs env 0 t wid StateRunning StateCompleted EmptyString d f m (si_chron _ Hinv) Hr Ha) as Ha1.
  apply abs_some in Ha as (? & _ & _ & _ & Hfd & _). apply abs_some in Ha1 as (? & _ & Hl1 & Ho1 & Hf1 & _).
  cbn in *. rewrite bool_decide_eq_false_2 in Hf1 by done.
  split; [by apply owner_None|]. split; [done|]. lia.
Qed.

Lemma report_ended t wid tid res w r :
  uuid_Parse tid = Ok t -> holding t wid StateRunning (ww_db w) -> tasks (ww_db w) !! t = Some r ->
  let w' := match res with
            | Some msg => report_in E st wid tid TaskOutcome_FAILED msg w
            | None => report_in E st wid tid TaskOutcome_SUCCESS EmptyString w
            end in
  ended t r res (ww_db w) (ww_db w') /\ ww_execs w' = ww_execs w /\ store_inv (ww_db w').
Proof.
  intros Ht Hh Hr. cbv zeta. unfold report_in, report.
  change (@leaderAddr wworld (wworld_view E)) with (leaderAddr_in E).
  destruct (leaderAddr_found w) as (addr & w1 & -> & Hd & He). cbn [client_ReportResult wworld_client].
  destruct res as [msg|].
  - destruct (quiet_request (ReqReport (mkReportResult tid wid TaskOutcome_FAILED msg)) w1 (OpMarkFailed t wid msg))
      as (_ & -> & ->); [cbn; by rewrite Ht|]. rewrite Hd, He. split; [|split; [done | apply run_op_refines; [apply Hh | apply Hready | done]]].
    destruct (mark_failed_effect t wid msg (we_tx E (ww_time w1) (ww_db w)) (ww_db w) r) as (d' & Hy & Hfo);
      [apply Hfaults | apply Hh | apply Hready | apply Hh | done|].
    cbn [run_op reply snd]. rewrite Hy. done.
  - destruct (quiet_request (ReqReport (mkReportResult tid wid TaskOutcome_SUCCESS EmptyString)) w1 (OpMarkCompleted t wid))
      as (_ & -> & ->); [cbn; by rewrite Ht|]. rewrite Hd, He. split; [|split; [done | apply run_op_refines; [apply Hh | apply Hready | done]]].
    apply completed_ended; [apply Hfaults | apply Hready | done].
Qed.

Lemma view_ended t r res d0 d d' : same_view d d' -> ended t r res d0 d -> ended t r res d0 d'.
Proof.
  intros Hv. unfold ended, failed_once. rewrite (view_latest _ _ t Hv), (view_failed _ _ t Hv).
  assert (Hl : leases d !! t = None -> leases d' !! t = None).
  { intros Hl. apply owner_None. rewrite (sv_owners _ _ Hv). unfold owner_of. by rewrite Hl. }
  destruct res; naive_solver.
Qed.

(** C15: a worker that holds the lease of a task and is not disturbed (messages arrive, the
    leader is known, no one else touches the tables) runs the task's script once
    and ends the lease: the task is COMPLETED if the script succeeded; otherwise
    one failure is added and the task is queued again or, with its retries used
    up, FAILED.  The renewals in between, however many, change none of this. *)
Theorem worker_finishes_task (ticks : nat -> nat) (wid t : Z) (s : TaskState) (a : Assignment)
    (r : task_row) (res : option string) (w : wworld) :
  holding t wid s (ww_db w) -> uuid_Parse (as_TaskID a) = Ok t -> tasks (ww_db w) !! t = Some r ->
  (forall n, we_exec E n = res) ->
  let w' := runTask_in E st ticks wid a w in
  ww_execs w' = ww_execs w ++ [a] /\ ended t r res (ww_db w) (ww_db w').
Proof.
  intros Hh Ht Hr Hres. cbv zeta. unfold runTask_in, runTask.
  change (@leaderAddr wworld (wworld_view E)) with (leaderAddr_in E).
  destruct (leaderAddr_found w) as (addr & w1 & -> & Hd & He). cbn [client_MarkRunning wworld_client].
  destruct (quiet_request (ReqRunning (mkMarkRunning (as_TaskID a) wid)) w1 (OpMarkRunning t wid)) as (Hok & Hd2 & He2).
  { cbn. by rewrite Ht. }
  rewrite Hd in Hok, Hd2.
  destruct (running_holding t wid (we_tx E (ww_time w1) (ww_db w)) (ww_db w) s (Hfaults _ _) (Hready _ _) Hh) as (Hok' & Hh2 & Hf2).
  pose proof (rf_tasks _ _ _ (run_op_refines (OpMarkRunning t wid) (we_tx E (ww_time w1) (ww_db w)) (ww_db w)
    (ho_inv _ _ _ _ Hh) (Hready _ _) I)) as Htasks2.
  destruct (ww_request E st _ w1) as [b w2]. cbn [fst snd] in *. rewrite Hok, Hok'. rewrite <- Hd2 in *.
  change (@renewLoop wworld (wworld_view E) (wworld_client E st)) with (renewLoop_in E st).
  change (@report wworld (wworld_view E) (wworld_client E st)) with (report_in E st).
  destruct (renew_view wid (as_TaskID a) t (ticks 0%nat) w2 Ht (ho_inv _ _ _ _ Hh2)) as [Hv3 He3].
  set (w3 := renewLoop_in E st wid (as_TaskID a) (ticks 0%nat) w2) in *.
  cbn [Execute wworld_executor]. rewrite Hres. set (w4 := mkWWorld (ww_db w3) _ _).
  pose proof (view_holding _ _ _ _ _ Hv3 Hh2) as Hh3.
  destruct (renew_view wid (as_TaskID a) t (ticks 1%nat) w4 Ht (ho_inv _ _ _ _ Hh3)) as [Hv5 He5].
  set (w5 := renewLoop_in E st wid (as_TaskID a) (ticks 1%nat) w4) in *.
  pose proof (same_view_trans _ _ _ Hv3 Hv5) as Hv25.
  destruct (report_ended t wid (as_TaskID a) res w5 r Ht (view_holding _ _ _ _ _ Hv5 Hh3)) as (Hend & He6 & Hinv6).
  { by rewrite (sv_tasks _ _ Hv25), Htasks2. }
  set (w6 := match res with Some msg => _ | None => _ end) in *.
  destruct (renew_view wid (as_TaskID a) t (ticks 2%nat) w6 Ht Hinv6) as [Hv7 He7]. split.
  - rewrite He7, He6, He5. cbn. by rewrite He3, He2, He.
  - eapply view_ended; [exact Hv7|]. unfold ended, failed_once in *. by rewrite (view_failed _ _ t Hv25), Hf2 in Hend.
Qed.

End quiet.
End world.
