(* ===== verification/WorkerWitness.v ===== *)
(** * The servers and the worker on concrete data *)

From S2P Require Import Prelude GoStd Cluster TaskStore StoreIface TaskTx TaskLifecycle TaskRefine TaskAtomic TaskReach TaskFunctional TaskRecovery TaskWitness Strategy Scheduler SchedulerProps SchedulerWitness Server Worker WorkerProps.

Lemma requests_refine_lifecycle_witness :
  let req := ReqReport (mkReportResult "1" 4 TaskOutcome_SUCCESS EmptyString) in
  let '(r, d') := handle demo_store req (demo_env 6) demo_running in
  match op_of_request demo_store req with
  | None => d' = demo_running /\ exists e, r = RpcError InvalidArgument e
  | Some op =>
      exists t w, report_of op = Some (t, w) /\ store_inv d' /\
        (forall t', astep_opt HolderOnly (abs demo_running t') (abs d' t')) /\
        (~ leased_to t w demo_running -> d' = demo_running /\ rpc_ok r = false)
  end.
Proof.
  apply (requests_refine_lifecycle demo_store
    (ReqReport (mkReportResult "1" 4 TaskOutcome_SUCCESS EmptyString)) (demo_env 6) demo_running).
  - exact (demo_inv _ demo_reach_running).
  - apply demo_ready. vm_compute. reflexivity.
Defined.

Lemma task_id_roundtrip_witness :
  let t := task_of (1, demo_row 10) in
  let a := WorkerServer_AssignTask (request_of t) in
  op_of_request demo_store (ReqRunning (mkMarkRunning (as_TaskID a) 4)) = Some (OpMarkRunning (TaskID t) 4) /\
  op_of_request demo_store (ReqRenew (mkRenewLease (as_TaskID a) 4)) = Some (OpRenewLease demo_store (TaskID t) 4) /\
  op_of_request demo_store (ReqReport (mkReportResult (as_TaskID a) 4 TaskOutcome_SUCCESS "m")) = Some (OpMarkCompleted (TaskID t) 4) /\
  op_of_request demo_store (ReqReport (mkReportResult (as_TaskID a) 4 TaskOutcome_FAILED "m")) = Some (OpMarkFailed (TaskID t) 4 "m").
Proof. apply (task_id_roundtrip demo_store (task_of (1, demo_row 10)) 4 "m"). cbn. lia. Defined.

(** A worker whose script ends with [res]; the scheduler recovers leases meanwhile. *)
Definition busy_wenv (res : option string) : wenv :=
  mkWEnv (fun _ => 9) (fun _ => false) (fun _ id => if id =? 9 then Some "n9" else None)
    (fun n d => if (n =? 16)%nat then demo_op OpRecoverExpiredLeases 900 d else d)
    (fun _ => next_env) (fun n => if (n =? 11)%nat then FailAfter else NoFault) (fun _ => res).

Definition demo_assignment : Assignment := mkAssignment "1" "s3://b/run" "s3://b/in" "s3://b/out" [].

Definition demo_wworld : wworld := mkWWorld demo_assigned 0 [].

Definition quiet_wenv (res : option string) : wenv :=
  mkWEnv (fun _ => 9) (fun _ => false) (fun _ _ => Some "n9") (fun _ d => d)
    (fun _ => next_env) (fun _ => NoFault) (fun _ => res).

(** Two renewals while the script runs. *)
Definition two_ticks (n : nat) : nat := if (n =? 0)%nat then 2%nat else 0%nat.

Lemma execution_requires_running_witness :
  let w' := runTask_in (quiet_wenv None) demo_store two_ticks 4 demo_assignment demo_wworld in
  rtc sstep demo_assigned (ww_db w') /\
  (ww_execs w' = [] \/
   ww_execs w' = [] ++ [demo_assignment] /\ recorded_running 4 demo_assignment demo_wworld w').
Proof.
  apply (execution_requires_running (quiet_wenv None) demo_store (fun _ => next_ready)
    (fun _ d => rtc_refl _ d) two_ticks 4 demo_assignment demo_wworld).
Defined.

Lemma worker_finishes_task_witness :
  let w' := runTask_in (quiet_wenv None) demo_store two_ticks 4 demo_assignment demo_wworld in
  ww_execs w' = [] ++ [demo_assignment] /\ ended 1 (demo_row 10) None demo_assigned (ww_db w').
Proof.
  apply (worker_finishes_task (quiet_wenv None) demo_store (fun _ => next_ready) (fun _ _ => eq_refl)
    (fun _ _ => eq_refl) (fun _ => eq_refl)) with (s := StateAssigned) (t := 1).
  - intros n. cbn. split; [lia|]. split; [reflexivity|]. intros id. by eexists.
  - split; [exact (demo_inv _ demo_reach_assigned) | apply demo_leased; vm_compute; reflexivity | vm_compute; reflexivity].
  - vm_compute. reflexivity.
  - vm_compute. reflexivity.
  - intros n. reflexivity.
Defined.

(** The worker's run, evaluated. *)
Example demo_worker_completes :
  latest_status 1 (ww_db (runTask_in (quiet_wenv None) demo_store two_ticks 4 demo_assignment demo_wworld))
  = Some StateCompleted.
Proof. vm_compute. reflexivity. Qed.

(** The scheduler took the lease away while the script ran: the report is refused. *)
Example demo_worker_too_late :
  latest_status 1 (ww_db (runTask_in (busy_wenv None) demo_store two_ticks 4 demo_assignment demo_wworld))
  = Some StateQueued.
Proof. vm_compute. reflexivity. Qed.
