(* ===== verification/Executor.v ===== *)
(** * worker/task_executor.go and storage/client.go: running a task

    The local files are a map from clean absolute paths (lists of components) to
    file contents or directories, the object store a map from keys to contents.
    What S3 and the operating system answer, and what the script does to the
    files, are the inputs [xenv]. *)

From S2P Require Import Prelude GoStd Server.
From Stdlib Require Import Ascii.

(** ** package path/filepath, on clean paths *)

Definition path : Type := list string.

Definition slash : ascii := byte_of 47.

(** The bytes after the last slash. *)
Definition after_slash (b : list ascii) : list ascii :=
  fold_left (fun acc c => if Ascii.eqb c slash then [] else acc ++ [c]) b [].

Fixpoint strip_slashes (rev_b : list ascii) : list ascii :=
  match rev_b with
  | c :: b' => if Ascii.eqb c slash then strip_slashes b' else rev_b
  | [] => []
  end.

(** filepath.Base *)
Definition Base (s : string) : string :=
  match bytes_of s with
  | [] => "."
  | b =>
      match reverse (strip_slashes (reverse b)) with
      | [] => "/"
      | b' => string_of (after_slash b')
      end
  end.

(** filepath.Join of a clean directory and one component. *)
Definition Join (dir : path) (name : string) : path :=
  if bool_decide (name = EmptyString) || bool_decide (name = ".") then dir
  else if bool_decide (name = "..") then reverse (tail (reverse dir))
  else dir ++ [name].

Definition path_string (p : path) : string := foldr (fun c acc => ("/" ++ c ++ acc)%string) EmptyString p.

(** ** storage/client.go *)

Fixpoint has_prefix (p b : list ascii) : bool :=
  match p, b with
  | [], _ => true
  | x :: p', y :: b' => Ascii.eqb x y && has_prefix p' b'
  | _ :: _, [] => false
  end.

(** strings.SplitN(s, "/", 2): what is after the first slash, if there is one. *)
Fixpoint split_slash (b : list ascii) : option (list ascii * list ascii) :=
  match b with
  | [] => None
  | c :: b' =>
      if Ascii.eqb c slash then Some ([], b')
      else match split_slash b' with Some (x, y) => Some (c :: x, y) | None => None end
  end.

Definition parseKey (uri : string) : string :=
  if has_prefix (bytes_of "s3://") (bytes_of uri) then
    match split_slash (drop 5 (bytes_of uri)) with
    | Some (_, key) => string_of key
    | None => uri
    end
  else uri.

Inductive node := File (content : string) | Dir.

Record machine := mkMachine {
  files : gmap path node;
  objects : gmap string string;
}.

(** What happens outside: MkdirTemp, GetObject beyond the object's presence, os.Create,
    io.Copy (an error comes with what was written until then), os.Open, PutObject (an
    error comes with whether the object was stored all the same and only the answer
    lost), and the command: its error, its standard error and output, and the files it
    leaves. *)
Record xenv := mkXEnv {
  x_workdir : result path;
  x_get : string -> option error;
  x_create : path -> option error;
  x_copy : path -> string -> option (string * error);
  x_open : path -> option error;
  x_put : string -> option (error * bool);
  x_run : list string -> path -> list string -> gmap path node -> option error * (string * string) * gmap path node;
}.

Section storage.
Context (E : xenv).

Definition Client_Download (uri : string) (dest : path) (m : machine) : result unit * machine :=
  let key := parseKey uri in
  match objects m !! key, x_get E key with
  | None, _ => (Err (EWrap "storage: get object %q" [FStr uri] (EFmt "NoSuchKey" [])), m)
  | _, Some e => (Err (EWrap "storage: get object %q" [FStr uri] e), m)
  | Some body, None =>
      match x_create E dest with
      | Some e => (Err (EWrap "storage: create file %q, %w" [FStr (path_string dest)] e), m)
      | None =>
          match x_copy E dest body with
          | Some (part, e) =>
              (Err (EWrap "storage: write file %q" [FStr (path_string dest)] e),
               mkMachine (<[dest := File part]> (files m)) (objects m))
          | None => (Ok tt, mkMachine (<[dest := File body]> (files m)) (objects m))
          end
      end
  end.

Definition Client_Upload (uri : string) (src : path) (m : machine) : result unit * machine :=
  let key := parseKey uri in
  match files m !! src with
  | None => (Err (EWrap "storage: open file %q" [FStr (path_string src)] (EFmt "no such file" [])), m)
  | Some nd =>
      match x_open E src, nd with
      | Some e, _ => (Err (EWrap "storage: open file %q" [FStr (path_string src)] e), m)
      | None, Dir => (Err (EWrap "storage: put object %q" [FStr uri] (EFmt "is a directory" [])), m)
      | None, File body =>
          let m' := mkMachine (files m) (<[key := body]> (objects m)) in
          match x_put E key with
          | Some (e, stored) =>
              (Err (EWrap "storage: put object %q" [FStr uri] e), if stored : bool then m' else m)
          | None => (Ok tt, m')
          end
      end
  end.

End storage.

(** ** worker/task_executor.go *)

(** Everything under the directory goes. *)
Definition RemoveAll (dir : path) (m : machine) : machine :=
  mkMachine (filter (fun kv => ~ dir `prefix_of` kv.1) (files m)) (objects m).

(** err, the standard error and the standard output of the script. *)
Definition run_error (e : error) (out : string * string) : error :=
  if bool_decide (fst out <> EmptyString) then EWrap "execute task: %w: %s" [FStr (fst out)] e
  else if bool_decide (snd out <> EmptyString) then EWrap "execute task: %w: %s" [FStr (snd out)] e
  else EWrap "execute task" [] e.

Section execute.
Context (E : xenv) (pythonPath : string) (pid : Z).

(** The part of Execute after the working directory exists. *)
Definition execute_in (workDir : path) (a : Assignment) (m : machine) : result unit * machine :=
  let scriptPath := Join workDir "task.py" in
  let inputPath := Join workDir "input" in
  let outputName := Base (as_OutputURI a) in
  let has_output := negb (bool_decide (as_OutputURI a = EmptyString)) in
  if has_output && (bool_decide (outputName = ".") || bool_decide (outputName = "/") || bool_decide (outputName = EmptyString))
  then (Err (EFmt "invalid output_uri %q" [FStr (as_OutputURI a)]), m)
  else
    let outputPath := Join workDir outputName in
    match Client_Download E (as_ExecutableURI a) scriptPath m with
    | (Err e, m1) => (Err (EWrap "download executable" [] e), m1)
    | (Ok _, m1) =>
        let has_input := negb (bool_decide (as_InputURI a = EmptyString)) in
        let '(got, m2) := if has_input then Client_Download E (as_InputURI a) inputPath m1 else (Ok tt, m1) in
        match got with
        | Err e => (Err (EWrap "download input" [] e), m2)
        | Ok _ =>
            let env := ["TASK_INPUT=" ++ (if has_input then path_string inputPath else EmptyString);
                        "TASK_OUTPUT=" ++ (if has_output then path_string outputPath else EmptyString);
                        "WORKER_PID=" ++ FormatUint pid]%string in
            let '(err, out, fs) := x_run E (pythonPath :: path_string scriptPath :: as_Args a) workDir env (files m2) in
            let m3 := mkMachine fs (objects m2) in
            match err with
            | Some e => (Err (run_error e out), m3)
            | None =>
                if has_output then
                  match files m3 !! outputPath with
                  | None => 
                      (Err (EWrap "task finished but output file missing at %s" [FStr (path_string outputPath)] (EFmt "no such file" [])), m3)
                  | Some _ =>
                      match Client_Upload E (as_OutputURI a) outputPath m3 with
                      | (Err e, m4) => (Err (EWrap "upload output" [] e), m4)
                      | (Ok _, m4) => (Ok tt, m4)
                      end
                  end
                else (Ok tt, m3)
            end
        end
    end.

Definition TaskExecutor_Execute (a : Assignment) (m : machine) : result unit * machine :=
  match x_workdir E with
  | Err e => (Err (EWrap "create temp workdir" [] e), m)
  | Ok dir =>
      let '(r, m') := execute_in dir a (mkMachine (<[dir := Dir]> (files m)) (objects m)) in
      (r, RemoveAll dir m')
  end.

End execute.

(** ** Lemmas *)

Lemma split_slash_app b k : slash ∉ b -> split_slash (b ++ slash :: k) = Some (b, k).
Proof.
  induction b as [|c b IH]; intros Hni; cbn.
  - by rewrite Ascii.eqb_refl.
  - apply not_elem_of_cons in Hni as [Hne Hni]. destruct (Ascii.eqb_spec c slash); [congruence|]. by rewrite IH.
Qed.

Lemma download_spec E uri dest m :
  objects (snd (Client_Download E uri dest m)) = objects m /\
  forall u, fst (Client_Download E uri dest m) = Ok u ->
    exists body, objects m !! parseKey uri = Some body /\
      snd (Client_Download E uri dest m) = mkMachine (<[dest := File body]> (files m)) (objects m).
Proof. unfold Client_Download. repeat case_match; split; try done. intros []. eauto. Qed.

Lemma upload_spec E uri src m :
  let stored body m' := files m !! src = Some (File body) /\ m' = mkMachine (files m) (<[parseKey uri := body]> (objects m)) in
  match Client_Upload E uri src m with
  | (Ok _, m') => exists body, stored body m'
  | (Err _, m') => m' = m \/ exists body e, stored body m' /\ x_put E (parseKey uri) = Some (e, true)
  end.
Proof. unfold Client_Upload. repeat case_match; simplify_eq; eauto 10. Qed.

(** ** What a run of the executor does *)

(** The command line and the environment of the script of docs/design.md. *)
Definition script_command (pythonPath : string) (dir : path) (a : Assignment) : list string :=
  [pythonPath; path_string (Join dir "task.py")] ++ as_Args a.

Definition output_path (dir : path) (a : Assignment) : path := Join dir (Base (as_OutputURI a)).

Definition script_env (pid : Z) (dir : path) (a : Assignment) : list string :=
  ["TASK_INPUT=" ++ (if bool_decide (as_InputURI a = EmptyString) then EmptyString else path_string (Join dir "input"));
   "TASK_OUTPUT=" ++ (if bool_decide (as_OutputURI a = EmptyString) then EmptyString else path_string (output_path dir a));
   "WORKER_PID=" ++ FormatUint pid]%string.

(** The script and the input, as they are in the object store, are in the working
    directory. *)
Definition staged (dir : path) (a : Assignment) (m : machine) (fs : gmap path node) : Prop :=
  (exists script, objects m !! parseKey (as_ExecutableURI a) = Some script /\
     fs !! Join dir "task.py" = Some (File script)) /\
  (as_InputURI a <> EmptyString ->
     exists input, objects m !! parseKey (as_InputURI a) = Some input /\ fs !! Join dir "input" = Some (File input)).

(** The script ran on the staged files, without an error, and left [fs']. *)
Definition script_succeeds (E : xenv) (pythonPath : string) (pid : Z) (dir : path) (a : Assignment) (m : machine)
    (fs' : gmap path node) : Prop :=
  exists fs out, staged dir a m fs /\
    x_run E (script_command pythonPath dir a) dir (script_env pid dir a) fs = (None, out, fs').

(** The file at TASK_OUTPUT is now the object of output_uri. *)
Definition output_stored (dir : path) (a : Assignment) (fs' : gmap path node) (m m' : machine) : Prop :=
  exists body, fs' !! output_path dir a = Some (File body) /\
    objects m' = <[parseKey (as_OutputURI a) := body]> (objects m).

Definition executed (E : xenv) (pythonPath : string) (pid : Z) (dir : path) (a : Assignment) (r : result unit)
    (m m' : machine) : Prop :=
  match r with
  | Ok _ => exists fs', script_succeeds E pythonPath pid dir a m fs' /\
      if bool_decide (as_OutputURI a = EmptyString) then objects m' = objects m else output_stored dir a fs' m m'
  | Err _ => objects m' = objects m \/
      exists fs' e, script_succeeds E pythonPath pid dir a m fs' /\ as_OutputURI a <> EmptyString /\
        x_put E (parseKey (as_OutputURI a)) = Some (e, true) /\ output_stored dir a fs' m m'
  end.

Lemma staged_files dir a m script input fs :
  objects m !! parseKey (as_ExecutableURI a) = Some script ->
  (as_InputURI a = EmptyString /\ fs = <[Join dir "task.py" := File script]> (files m) \/
   objects m !! parseKey (as_InputURI a) = Some input /\
   fs = <[Join dir "input" := File input]> (<[Join dir "task.py" := File script]> (files m))) ->
  staged dir a m fs.
Proof.
  intros Hs [[Hi ->]|[Hi ->]]; split.
  - exists script. by rewrite lookup_insert_eq.
  - done.
  - exists script. rewrite lookup_insert_ne, lookup_insert_eq; [done|]. cbn. by intros [_ [=]]%app_inj_tail.
  - intros _. exists input. by rewrite lookup_insert_eq.
Qed.

Lemma execute_in_spec E python pid dir a m :
  executed E python pid dir a (fst (execute_in E python pid dir a m)) m (snd (execute_in E python pid dir a m)).
Proof.
  unfold execute_in. match goal with |- context [if ?b then _ else _] => destruct b end; [by left|].
  destruct (download_spec E (as_ExecutableURI a) (Join dir "task.py") m) as [Ho1 Hd1].
  destruct (Client_Download E (as_ExecutableURI a) _ m) as [[u|e] m1]; [|by left]. cbn [fst snd] in Ho1, Hd1.
  destruct (Hd1 u eq_refl) as (script & Hscript & ->). cbn [objects] in *.
  set (p := if negb (bool_decide (as_InputURI a = EmptyString)) then _ else _).
  assert (Hp : objects (snd p) = objects m /\ (is_ok (fst p) = true -> staged dir a m (files (snd p)))).
  { unfold p. case_bool_decide as Hin; cbn [negb]; cbv iota.
    - split; [done|]. intros _. eapply staged_files with (input := EmptyString); eauto.
    - destruct (download_spec E (as_InputURI a) (Join dir "input") (mkMachine (<[Join dir "task.py" := File script]> (files m)) (objects m))) as [Ho2 Hd2].
      split; [exact Ho2|]. destruct (Client_Download E (as_InputURI a) _ _) as [[u2|] m2]; [|done]. intros _. cbn in Hd2.
      destruct (Hd2 u2 eq_refl) as (input & Hinput & ->). eapply staged_files; eauto. }
  destruct Hp as [Ho2 Hst]. destruct p as [[u2|e] m2]; cbn [fst snd] in *; [|by left]. specialize (Hst eq_refl).
  cbv zeta. replace (["TASK_INPUT=" ++ _; _; _]%string) with (script_env pid dir a)
    by (unfold script_env, output_path; by do 2 case_bool_decide).
  change (python :: path_string (Join dir "task.py") :: as_Args a) with (script_command python dir a).
  destruct (x_run E _ dir _ (files m2)) as [[err out] fs'] eqn:Hrun.
  assert (Hok : err = None -> script_succeeds E python pid dir a m fs') by (intros ->; unfold script_succeeds; eauto).
  destruct err as [e|]; [by left|]. specialize (Hok eq_refl).
  case_bool_decide as Hout; cbn [negb files].
  - cbn. exists fs'. by rewrite bool_decide_eq_true_2.
  - change (Join dir (Base (as_OutputURI a))) with (output_path dir a).
    destruct (fs' !! output_path dir a) as [nd|]; [|by left].
    pose proof (upload_spec E (as_OutputURI a) (output_path dir a) (mkMachine fs' (objects m2))) as Hu. cbv zeta in Hu.
    cbn [files objects] in Hu. unfold executed, output_stored. rewrite <- Ho2.
    destruct (Client_Upload E _ _ _) as [[[]|e] m4]; cbn [fst snd].
    + destruct Hu as (body & Hb & ->). exists fs'. rewrite bool_decide_eq_false_2 by done. eauto.
    + destruct Hu as [->|(body & e' & [Hb ->] & Hx)]; [by left|]. right. eauto 10.
Qed.

(** ** Properties *)

(** C37: when Execute succeeds the script ran without an error, with python3, the script's
    path and the task's arguments as its command, with TASK_INPUT, TASK_OUTPUT and
    WORKER_PID in its environment and with the script and the input of the object store
    in its working directory; the object store has then changed exactly at the key of
    output_uri, to the file the script left at TASK_OUTPUT, and not at all without an
    output_uri.  When Execute fails the object store is as it was, unless only the answer
    to the upload of such an output was lost.  In every case nothing of the working
    directory is left behind. *)
Theorem executor_uploads_on_success (E : xenv) (pythonPath : string) (pid : Z) (a : Assignment) (dir : path)
    (m : machine) :
  x_workdir E = Ok dir ->
  let '(r, m') := TaskExecutor_Execute E pythonPath pid a m in
  executed E pythonPath pid dir a r m m' /\ forall p, dir `prefix_of` p -> files m' !! p = None.
Proof.
  intros Hdir. unfold TaskExecutor_Execute. rewrite Hdir.
  pose proof (execute_in_spec E pythonPath pid dir a (mkMachine (<[dir := Dir]> (files m)) (objects m))) as Hu.
  destruct (execute_in E pythonPath pid dir a _) as [r m']. cbn [fst snd] in Hu. split; [exact Hu|].
  intros p Hp. cbn. apply map_lookup_filter_None. right. intros x _ Hx. by apply Hx.
Qed.

(** For every bucket without a slash and every key, parseKey recovers the key: the bucket
    of the URI is ignored, the client's own bucket is used. *)
Theorem parse_key_of_uri (bucket key : list ascii) :
  slash ∉ bucket -> parseKey (string_of (bytes_of "s3://" ++ bucket ++ slash :: key)) = string_of key.
Proof.
  intros Hb. unfold parseKey. rewrite bytes_string_of. change (bytes_of "s3://") with
    ["s"%char; "3"%char; ":"%char; "/"%char; "/"%char]. cbn [app has_prefix skipn].
  rewrite !Ascii.eqb_refl. cbn [andb]. rewrite drop_0. by rewrite split_slash_app.
Qed.

(** When the last component of output_uri is "input", the output of the task and its
    input are the same file: a script that exits without writing anything is
    taken for successful and its input is uploaded as its output, instead of the
    error for a missing output file. *)
Theorem output_named_input (E : xenv) (pythonPath : string) (pid : Z) (a : Assignment) (dir : path) (m : machine) (script body : string) :
  x_workdir E = Ok dir -> as_InputURI a <> EmptyString -> as_OutputURI a <> EmptyString ->
  Base (as_OutputURI a) = "input" ->
  objects m !! parseKey (as_ExecutableURI a) = Some script ->
  objects m !! parseKey (as_InputURI a) = Some body ->
  (forall k, x_get E k = None) -> (forall p, x_create E p = None) -> (forall p b, x_copy E p b = None) ->
  (forall p, x_open E p = None) -> (forall k, x_put E k = None) -> (forall args d env fs, exists out, x_run E args d env fs = (None, out, fs)) ->
  let '(r, m') := TaskExecutor_Execute E pythonPath pid a m in
  r = Ok tt /\ objects m' !! parseKey (as_OutputURI a) = Some body.
Proof.
  intros Hdir Hin Hout Hbase Hscript Hbody Hget Hcreate Hcopy Hopen Hput Hrun.
  unfold TaskExecutor_Execute. rewrite Hdir. unfold execute_in. rewrite Hbase.
  rewrite (bool_decide_eq_false_2 (as_OutputURI a = EmptyString)), (bool_decide_eq_false_2 (as_InputURI a = EmptyString)) by done.
  cbn [negb andb orb]. rewrite !bool_decide_eq_false_2 by done. cbn [orb].
  unfold Client_Download at 1. cbn [objects files]. rewrite Hscript, Hget, Hcreate, Hcopy.
  unfold Client_Download. cbn [objects files]. rewrite Hbody, Hget, Hcreate, Hcopy. cbn [files objects].
  match goal with |- context [x_run E ?a ?d ?e ?f] => destruct (Hrun a d e f) as [out ->] end. cbn [files objects].
  rewrite lookup_insert_eq. unfold Client_Upload. cbn [files objects]. rewrite lookup_insert_eq, Hopen, Hput.
  split; [done|]. cbn. apply lookup_insert_eq.
Qed.

(** ** On concrete data *)

Definition demo_xenv : xenv :=
  mkXEnv (Ok ["tmp"; "pi-bully-task-1"]) (fun _ => None) (fun _ => None) (fun _ _ => None) (fun _ => None) (fun _ => None)
    (fun _ _ _ fs => (None, (EmptyString, EmptyString), fs)).

Definition demo_machine : machine := mkMachine ∅ (<["run.py" := "pass"]> (<["data" := "42"]> ∅)).

Definition demo_job (output : string) : Assignment :=
  mkAssignment "1" "s3://b/run.py" "s3://b/data" output [].

(** A script that writes its output. *)
Definition demo_writer : xenv :=
  mkXEnv (x_workdir demo_xenv) (fun _ => None) (fun _ => None) (fun _ _ => None) (fun _ => None) (fun _ => None)
    (fun _ dir _ fs => (None, (EmptyString, EmptyString), <[dir ++ ["res"] := File "43"]> fs)).

Lemma executor_uploads_on_success_witness :
  let '(r, m') := TaskExecutor_Execute demo_writer "python3" 7 (demo_job "s3://b/out/res") demo_machine in
  executed demo_writer "python3" 7 ["tmp"; "pi-bully-task-1"] (demo_job "s3://b/out/res") r demo_machine m' /\
  forall p, ["tmp"; "pi-bully-task-1"] `prefix_of` p -> files m' !! p = None.
Proof. apply (executor_uploads_on_success demo_writer "python3" 7 (demo_job "s3://b/out/res")). reflexivity. Defined.

Example demo_output_stored :
  let '(r, m') := TaskExecutor_Execute demo_writer "python3" 7 (demo_job "s3://b/out/res") demo_machine in
  r = Ok tt /\ objects m' !! "out/res" = Some "43".
Proof. vm_compute. done. Qed.

Lemma parse_key_of_uri_witness : parseKey "s3://other/a/b" = "a/b".
Proof.
  apply (parse_key_of_uri (bytes_of "other") (bytes_of "a/b")).
  intros H. apply (bool_decide_eq_true_2 _) in H. vm_compute in H. discriminate H.
Defined.

Lemma output_named_input_witness :
  let '(r, m') := TaskExecutor_Execute demo_xenv "python3" 7 (demo_job "s3://b/out/input") demo_machine in
  r = Ok tt /\ objects m' !! "out/input" = Some "42".
Proof.
  apply (output_named_input demo_xenv "python3" 7 (demo_job "s3://b/out/input") ["tmp"; "pi-bully-task-1"] demo_machine "pass" "42");
    try reflexivity; try discriminate.
  intros args d env fs. exists (EmptyString, EmptyString). reflexivity.
Defined.

(** A script that writes nothing is an error when the output has a name of its own. *)
Example demo_missing_output :
  is_ok (fst (TaskExecutor_Execute demo_xenv "python3" 7 (demo_job "s3://b/out/res") demo_machine)) = false.
Proof. vm_compute. reflexivity. Qed.
