(* ===== verification/Clients.v ===== *)
(** * The gRPC clients

    election/client.go, scheduler/dispatcher.go and server/worker_client.go:
    each call opens a connection, makes one call on it and closes it again.
    The connections and the generated stubs are the class [Grpc]; the clients
    implement the interfaces of the scheduler and of the worker. *)

From S2P Require Import Prelude Cluster ElectionEngine TaskStore StoreIface Strategy Scheduler Server Worker.

(** grpc.NewClient, conn.Close and the stubs, on a world [W] with connections [C]. *)
Class Grpc (W C : Type) := {
  grpc_NewClient : string -> W -> result C * W;
  conn_Close : C -> W -> W;
  stub_StartElection : C -> ElectionRequest -> W -> result ElectionResponse * W;
  stub_AnnounceLeader : C -> CoordinatorRequest -> W -> result unit * W;
  stub_AssignTask : C -> AssignTaskRequest -> W -> result unit * W;
  stub_RenewLease : C -> RenewLeaseRequest -> W -> result unit * W;
  stub_ReportResult : C -> ReportResultRequest -> W -> result unit * W;
  stub_MarkRunning : C -> MarkRunningRequest -> W -> result unit * W;
}.

Section clients.
Context {W C : Type} `{!Grpc W C}.

(** Dial, defer conn.Close(), call; the two errors as the method reports them. *)
Definition with_conn {A} (dialErr callErr : error -> error) (addr : string) (call : C -> W -> result A * W)
    (w : W) : result A * W :=
  match grpc_NewClient addr w with
  | (Err e, w1) => (Err (dialErr e), w1)
  | (Ok conn, w1) =>
      let '(r, w2) := call conn w1 in
      (match r with Ok a => Ok a | Err e => Err (callErr e) end, conn_Close conn w2)
  end.

Definition grpcClient_StartElection (addr : string) (req : ElectionRequest) : W -> result ElectionResponse * W :=
  with_conn (EWrap "start election: dial %s" [FStr addr]) (EWrap "start election: call %s" [FStr addr]) addr
    (fun conn => stub_StartElection conn req).

Definition grpcClient_AnnounceLeader (addr : string) (req : CoordinatorRequest) : W -> result unit * W :=
  with_conn (EWrap "announce leader: dial %s" [FStr addr]) (EWrap "announce leader: call %s" [FStr addr]) addr
    (fun conn => stub_AnnounceLeader conn req).

Definition GRPCTaskDispatcher_AssignTask (addr : string) (req : AssignTaskRequest) : W -> result unit * W :=
  with_conn (fun e => e) (fun e => e) addr (fun conn => stub_AssignTask conn req).

Definition WorkerClient_RenewLease (addr : string) (req : RenewLeaseRequest) : W -> result unit * W :=
  with_conn (fun e => e) (fun e => e) addr (fun conn => stub_RenewLease conn req).

Definition WorkerClient_ReportResult (addr : string) (req : ReportResultRequest) : W -> result unit * W :=
  with_conn (fun e => e) (fun e => e) addr (fun conn => stub_ReportResult conn req).

Definition WorkerClient_MarkRunning (addr : string) (req : MarkRunningRequest) : W -> result unit * W :=
  with_conn (fun e => e) (fun e => e) addr (fun conn => stub_MarkRunning conn req).

(** The interfaces the engines call. *)
Definition grpc_dispatcher : TaskDispatcher W := {| AssignTask := GRPCTaskDispatcher_AssignTask |}.

Definition succeeded {A} (p : result A * W) : bool * W := (is_ok (fst p), snd p).

Definition grpc_worker_client : WorkerClient W := {|
  client_RenewLease addr req w := succeeded (WorkerClient_RenewLease addr req w);
  client_MarkRunning addr req w := succeeded (WorkerClient_MarkRunning addr req w);
  client_ReportResult addr req w := succeeded (WorkerClient_ReportResult addr req w);
|}.

End clients.

(** ** Connections are closed *)

(** What the gRPC library promises of connections: a new one is open and was not, a
    failed dial opens none, calls open and close none, Close closes its own. *)
Class GrpcLaws {W C} (G : Grpc W C) (is_open : C -> W -> Prop) := {
  gl_dial_ok addr w c w' : grpc_NewClient addr w = (Ok c, w') ->
    ~ is_open c w /\ forall c', is_open c' w' <-> c' = c \/ is_open c' w;
  gl_dial_err addr w e w' : grpc_NewClient addr w = (Err e, w') -> forall c', is_open c' w' <-> is_open c' w;
  gl_close c w c' : is_open c' (conn_Close c w) <-> is_open c' w /\ c' <> c;
  gl_start c req w c' : is_open c' (snd (stub_StartElection c req w)) <-> is_open c' w;
  gl_announce c req w c' : is_open c' (snd (stub_AnnounceLeader c req w)) <-> is_open c' w;
  gl_assign c req w c' : is_open c' (snd (stub_AssignTask c req w)) <-> is_open c' w;
  gl_renew c req w c' : is_open c' (snd (stub_RenewLease c req w)) <-> is_open c' w;
  gl_report c req w c' : is_open c' (snd (stub_ReportResult c req w)) <-> is_open c' w;
  gl_running c req w c' : is_open c' (snd (stub_MarkRunning c req w)) <-> is_open c' w;
}.

Section laws.
Context {W C : Type} {G : Grpc W C} {is_open : C -> W -> Prop} {L : GrpcLaws G is_open}.

(** The open connections are the same before and after. *)
Definition balanced {A} (m : W -> result A * W) : Prop :=
  forall w c, is_open c (snd (m w)) <-> is_open c w.

Lemma with_conn_balanced {A} dialErr callErr addr (call : C -> W -> result A * W) :
  (forall c, balanced (call c)) -> balanced (with_conn dialErr callErr addr call).
Proof.
  intros Hcall w c. unfold with_conn. destruct (grpc_NewClient addr w) as [[conn|e] w1] eqn:Hd.
  - apply (gl_dial_ok (is_open := is_open)) in Hd as [Hnew Hd].
    specialize (Hcall conn w1). destruct (call conn w1) as [r w2]. cbn in *.
    rewrite (gl_close (is_open := is_open)), Hcall, Hd. split; [|intros Hc; split; [by right|]]; naive_solver.
  - by apply (gl_dial_err (is_open := is_open) _ _ _ _ Hd).
Qed.

(** No client leaves a connection open, however its call ends. *)
Lemma clients_close_connections addr :
  (forall req, balanced (grpcClient_StartElection addr req)) /\
  (forall req, balanced (grpcClient_AnnounceLeader addr req)) /\
  (forall req, balanced (GRPCTaskDispatcher_AssignTask addr req)) /\
  (forall req, balanced (WorkerClient_RenewLease addr req)) /\
  (forall req, balanced (WorkerClient_ReportResult addr req)) /\
  (forall req, balanced (WorkerClient_MarkRunning addr req)).
Proof.
  split_and!; intros req; apply with_conn_balanced; intros c w c';
    [apply gl_start | apply gl_announce | apply gl_assign | apply gl_renew | apply gl_report | apply gl_running].
Qed.

End laws.

(** ** A library that keeps the promise *)

(** Connections are numbers, a world is the next number and a set of numbers; an empty
    address is refused and every election call fails. *)
Definition demo_net : Type := nat * gset nat.

Definition demo_open (c : nat) (w : demo_net) : Prop := c ∈ snd w /\ (c < fst w)%nat.

#[local] Instance demo_grpc : Grpc demo_net nat := {|
  grpc_NewClient addr w :=
    if decide (addr = ""%string) then (Err (EFmt "refused" []), w)
    else (Ok (fst w), (S (fst w), {[fst w]} ∪ snd w));
  conn_Close c w := (fst w, snd w ∖ {[c]});
  stub_StartElection _ _ w := (Err (EFmt "unavailable" []), w);
  stub_AnnounceLeader _ _ w := (Ok tt, w);
  stub_AssignTask _ _ w := (Ok tt, w);
  stub_RenewLease _ _ w := (Ok tt, w);
  stub_ReportResult _ _ w := (Ok tt, w);
  stub_MarkRunning _ _ w := (Ok tt, w);
|}.

(** So the promise can be kept. *)
#[local] Instance demo_grpc_laws : GrpcLaws demo_grpc demo_open.
Proof.
  split; unfold demo_open; try done.
  - intros addr [n s] c w'. cbn. destruct (decide _); [done|]. intros [= <- <-]. cbn.
    split; [lia|]. intros c'. rewrite elem_of_union, elem_of_singleton.
    destruct (decide (c' = n)) as [->|]; [split; [by left | intros _; split; [by left | lia]]|].
    split; [intros [[?|?] ?]; right; (split; [done | lia]) | intros [?|[? ?]]; [done | split; [by right | lia]]].
  - intros addr w e w'. cbn. destruct (decide _); [|done]. by intros [= _ <-].
  - intros c w c'. cbn. set_solver.
Qed.

(** An election call on it: it fails, and the connection it opened is closed again. *)
Example demo_election_call req :
  grpcClient_StartElection "10.0.0.2:50051" req ((3%nat, {[1%nat]}) : demo_net)
  = (Err (EWrap "start election: call %s" [FStr "10.0.0.2:50051"] (EFmt "unavailable" [])), ((4%nat, {[1%nat]}) : demo_net)).
Proof. reflexivity. Qed.
