(* ===== verification/Config.v ===== *)
(** * config/: the configuration of a node

    [Load] reads the environment, a function from names to values ([os.Getenv]
    gives the empty string for a variable that is not set), into a [Config].
    Missing and malformed required variables are errors, in the order the code
    checks them; optional variables that are malformed take their defaults. *)

From S2P Require Import Prelude GoStd GoText ElectionEngine TaskStore.
From Stdlib Require Import Ascii.

Definition environment := string -> string.

Definition second : Z := 1000000000.
Definition millisecond : Z := 1000000.
Definition minute : Z := 60 * second.

(** ** The helpers of config.go *)

Section getters.
Context (Getenv : environment).

Definition getEnvOrDefault (key defaultValue : string) : string :=
  if bool_decide (Getenv key = EmptyString) then defaultValue else Getenv key.

Definition getDurationEnv (key : string) (defaultValue : Z) : Z :=
  if bool_decide (Getenv key = EmptyString) then defaultValue
  else match ParseDuration (Getenv key) with
       | Ok d => d
       | Err _ => defaultValue
       end.

Definition getIntEnv (key : string) (defaultValue : Z) : Z :=
  if bool_decide (Getenv key = EmptyString) then defaultValue
  else match Atoi (Getenv key) with
       | Ok i => i
       | Err _ => defaultValue
       end.

(** if v == "" { return ..., fmt.Errorf("KEY is required") } *)
Definition required {A} (key : string) (k : string -> result A) : result A :=
  if bool_decide (Getenv key = EmptyString) then Err (EFmt (key ++ " is required") []) else k (Getenv key).

End getters.

(** ** The parts *)

Record DatabaseConfig := mkDatabaseConfig { DSN : string }.

Record LogConfig := mkLogConfig { Log_Level : string; Log_Format : string }.

Record NodeConfig := mkNodeConfig { Node_ID : Z; Node_Address : string }.

Record ServerConfig := mkServerConfig { Server_Port : string }.

Record StorageConfig := mkStorageConfig {
  Endpoint : string;
  Bucket : string;
  AccessKey : string;
  SecretKey : string;
  Region : string;
  UseSSL : bool;
}.

Record MemberlistConfig := mkMemberlistConfig {
  BindAddr : string;
  BindPort : Z;
  AdvertiseAddr : string;
  Seeds : list string;
  ProbeInterval : Z;
  ProbeTimeout : Z;
  GossipInterval : Z;
  PushPullInterval : Z;
  SuspicionMult : Z;
}.

Record HealthConfig := mkHealthConfig { Health_Port : string }.

Record SchedulerConfig := mkSchedulerConfig {
  PollInterval : Z;
  BatchSize : Z;
  Scheduler_Strategy : string;
  LeaseDuration : Z;
}.

Record WorkerConfig := mkWorkerConfig { RPCTimeout : Z; LeaseRenewalInterval : Z }.

(** parseSeeds: the addresses between the commas, trimmed, the empty ones left out. *)
Definition parseSeeds (v : string) : list string :=
  string_of <$> filter (fun s => s <> []) (TrimSpace <$> split_comma (bytes_of v)).

Section load.
Context (Getenv : environment).

Definition loadLogConfig : LogConfig :=
  mkLogConfig (getEnvOrDefault Getenv "LOG_LEVEL" "info") (getEnvOrDefault Getenv "LOG_FORMAT" "text").

Definition loadNodeConfig : result NodeConfig :=
  rbind (ParseUint (Getenv "NODE_ID")) (fun id =>
    if id =? 0 then Err (EFmt "NODE_ID is required and must be > 0" [])
    else required Getenv "NODE_ADDRESS" (fun addr => Ok (mkNodeConfig id addr))).

Definition loadServerConfig : result ServerConfig :=
  required Getenv "GRPC_PORT" (fun port => Ok (mkServerConfig port)).

Definition loadDatabaseConfig : result DatabaseConfig :=
  required Getenv "POSTGRES_HOST" (fun host =>
  required Getenv "POSTGRES_PORT" (fun port =>
  required Getenv "POSTGRES_USER" (fun user =>
  required Getenv "POSTGRES_PASSWORD" (fun password =>
  required Getenv "POSTGRES_DB" (fun dbName =>
  required Getenv "POSTGRES_SSL_MODE" (fun sslMode =>
  Ok (mkDatabaseConfig ("postgres://" ++ user ++ ":" ++ password ++ "@" ++ host ++ ":" ++ port
        ++ "/" ++ dbName ++ "?sslmode=" ++ sslMode)))))))).

Definition loadStorageConfig : result StorageConfig :=
  required Getenv "STORAGE_ENDPOINT" (fun endpoint =>
  required Getenv "STORAGE_BUCKET" (fun bucket =>
  required Getenv "STORAGE_ACCESS_KEY" (fun accessKey =>
  required Getenv "STORAGE_SECRET_KEY" (fun secretKey =>
  required Getenv "STORAGE_REGION" (fun region =>
  Ok (mkStorageConfig endpoint bucket accessKey secretKey region
        (bool_decide (Getenv "STORAGE_USE_SSL" = "true")))))))).

Definition loadMemberlistConfig : result MemberlistConfig :=
  required Getenv "MEMBERLIST_BIND_ADDR" (fun bindAddr =>
  required Getenv "MEMBERLIST_BIND_PORT" (fun bindPort =>
  required Getenv "MEMBERLIST_SEEDS" (fun seeds =>
  match Atoi bindPort with
  | Err e => Err (EWrap "invalid MEMBERLIST_BIND_PORT" [] e)
  | Ok port =>
      Ok (mkMemberlistConfig bindAddr port
            (getEnvOrDefault Getenv "MEMBERLIST_ADVERTISE_ADDR" bindAddr)
            (parseSeeds seeds)
            (getDurationEnv Getenv "MEMBERLIST_PROBE_INTERVAL" (1 * second))
            (getDurationEnv Getenv "MEMBERLIST_PROBE_TIMEOUT" (500 * millisecond))
            (getDurationEnv Getenv "MEMBERLIST_GOSSIP_INTERVAL" (200 * millisecond))
            (getDurationEnv Getenv "MEMBERLIST_PUSH_PULL_INTERVAL" (5 * second))
            (getIntEnv Getenv "MEMBERLIST_SUSPICION_MULT" 4))
  end))).

Definition loadElectionConfig : ElectionConfig :=
  mkElectionConfig
    (getDurationEnv Getenv "ELECTION_TIMEOUT" (5 * second))
    (getDurationEnv Getenv "ELECTION_ANNOUNCE_RETRY_INTERVAL" (200 * millisecond))
    (getDurationEnv Getenv "ELECTION_SEND_RETRY_INTERVAL" (100 * millisecond)).

Definition loadHealthConfig : HealthConfig :=
  mkHealthConfig (getEnvOrDefault Getenv "HEALTH_PORT" "8080").

Definition loadSchedulerConfig : SchedulerConfig :=
  mkSchedulerConfig
    (getDurationEnv Getenv "SCHEDULER_POLL_INTERVAL" (5 * second))
    (getIntEnv Getenv "SCHEDULER_BATCH_SIZE" 10)
    (getEnvOrDefault Getenv "SCHEDULER_STRATEGY" "round_robin")
    (getDurationEnv Getenv "SCHEDULER_LEASE_DURATION" (3 * minute)).

Definition loadWorkerConfig : WorkerConfig :=
  mkWorkerConfig
    (getDurationEnv Getenv "WORKER_RPC_TIMEOUT" (5 * second))
    (getDurationEnv Getenv "WORKER_LEASE_RENEWAL_INTERVAL" (30 * second)).

End load.

(** ** Load *)

Record Config := mkConfig {
  Cfg_Database : DatabaseConfig;
  Cfg_Log : LogConfig;
  Cfg_Node : NodeConfig;
  Cfg_Server : ServerConfig;
  Cfg_Storage : StorageConfig;
  Cfg_Memberlist : MemberlistConfig;
  Cfg_Election : ElectionConfig;
  Cfg_Health : HealthConfig;
  Cfg_Scheduler : SchedulerConfig;
  Cfg_Worker : WorkerConfig;
}.

(** The zero values of the parts. *)
Definition no_database : DatabaseConfig := mkDatabaseConfig EmptyString.
Definition no_node : NodeConfig := mkNodeConfig 0 EmptyString.
Definition no_server : ServerConfig := mkServerConfig EmptyString.
Definition no_storage : StorageConfig :=
  mkStorageConfig EmptyString EmptyString EmptyString EmptyString EmptyString false.
Definition no_memberlist : MemberlistConfig := mkMemberlistConfig EmptyString 0 EmptyString [] 0 0 0 0 0.
Definition no_election : ElectionConfig := mkElectionConfig 0 0 0.
Definition no_health : HealthConfig := mkHealthConfig EmptyString.
Definition no_scheduler : SchedulerConfig := mkSchedulerConfig 0 0 EmptyString 0.
Definition no_worker : WorkerConfig := mkWorkerConfig 0 0.

(** The configuration read so far comes back with the first error. *)
Definition Load (Getenv : environment) : Config * option error :=
  let log := loadLogConfig Getenv in
  let stopped db node server storage e :=
    (mkConfig db log node server storage no_memberlist no_election no_health no_scheduler no_worker, Some e) in
  match loadNodeConfig Getenv with
  | Err e => stopped no_database no_node no_server no_storage e
  | Ok node =>
  match loadServerConfig Getenv with
  | Err e => stopped no_database node no_server no_storage e
  | Ok server =>
  match loadDatabaseConfig Getenv with
  | Err e => stopped no_database node server no_storage e
  | Ok db =>
  match loadStorageConfig Getenv with
  | Err e => stopped db node server no_storage e
  | Ok storage =>
  match loadMemberlistConfig Getenv with
  | Err e => stopped db node server storage e
  | Ok ml =>
      (mkConfig db log node server storage ml (loadElectionConfig Getenv) (loadHealthConfig Getenv)
         (loadSchedulerConfig Getenv) (loadWorkerConfig Getenv), None)
  end end end end end.

(** ** When loading fails *)

(** The checks of the loaders, one after the other. *)
Definition node_id_check (Getenv : environment) : option error :=
  match ParseUint (Getenv "NODE_ID") with
  | Err e => Some e
  | Ok id => if id =? 0 then Some (EFmt "NODE_ID is required and must be > 0" []) else None
  end.

Definition missing (key : string) (Getenv : environment) : option error :=
  if bool_decide (Getenv key = EmptyString) then Some (EFmt (key ++ " is required") []) else None.

Definition bind_port_check (Getenv : environment) : option error :=
  match Atoi (Getenv "MEMBERLIST_BIND_PORT") with
  | Err e => Some (EWrap "invalid MEMBERLIST_BIND_PORT" [] e)
  | Ok _ => None
  end.

Definition required_keys : list string :=
  ["NODE_ADDRESS"; "GRPC_PORT"; "POSTGRES_HOST"; "POSTGRES_PORT"; "POSTGRES_USER"; "POSTGRES_PASSWORD";
   "POSTGRES_DB"; "POSTGRES_SSL_MODE"; "STORAGE_ENDPOINT"; "STORAGE_BUCKET"; "STORAGE_ACCESS_KEY";
   "STORAGE_SECRET_KEY"; "STORAGE_REGION"; "MEMBERLIST_BIND_ADDR"; "MEMBERLIST_BIND_PORT"; "MEMBERLIST_SEEDS"].

Definition load_checks : list (environment -> option error) :=
  node_id_check :: (missing <$> required_keys) ++ [bind_port_check].

(** The error of the first check that fails. *)
Fixpoint first_error (cs : list (environment -> option error)) (Getenv : environment) : option error :=
  match cs with
  | [] => None
  | c :: cs' => match c Getenv with Some e => Some e | None => first_error cs' Getenv end
  end.

(** Splits on the next required variable. *)
Ltac next_required :=
  lazymatch goal with
  | |- context [required ?g ?key _] =>
      unfold required at 1; unfold missing at 1; destruct (bool_decide (g key = EmptyString)); [reflexivity|]
  end.

(** C21: loading the configuration fails exactly when one of the node's id, the sixteen
    required variables and the bind port fails its check, and it reports the
    first failure in the order of the sources; malformed optional variables never
    make it fail. *)
Theorem load_reports_first_error (Getenv : environment) :
  snd (Load Getenv) = first_error load_checks Getenv.
Proof.
  unfold Load, load_checks, required_keys. cbn [fmap list_fmap app first_error].
  unfold loadNodeConfig, node_id_check, rbind. destruct (ParseUint (Getenv "NODE_ID")) as [id|]; [|reflexivity].
  destruct (id =? 0); [reflexivity|]. next_required.
  unfold loadServerConfig. next_required.
  unfold loadDatabaseConfig. do 6 next_required.
  unfold loadStorageConfig. do 5 next_required.
  unfold loadMemberlistConfig. do 3 next_required.
  unfold bind_port_check. destruct (Atoi (Getenv "MEMBERLIST_BIND_PORT")); reflexivity.
Qed.

(** ** What a loaded configuration is *)

Definition int_range (z : Z) : Prop := - 2 ^ 63 <= z < 2 ^ 63.

(** An address between commas with nothing around it. *)
Record seed_ok (s : string) : Prop := {
  seed_nonempty : s <> EmptyString;
  seed_no_comma : no_comma (bytes_of s);
  seed_trimmed : TrimSpace (bytes_of s) = bytes_of s;
}.

(** The 64-bit integers and durations of a configuration. *)
Definition numbers (c : Config) : list Z :=
  let m := Cfg_Memberlist c in
  [BindPort m; ProbeInterval m; ProbeTimeout m; GossipInterval m; PushPullInterval m; SuspicionMult m;
   ElectionTimeout (Cfg_Election c); AnnounceRetryInterval (Cfg_Election c); SendRetryInterval (Cfg_Election c);
   PollInterval (Cfg_Scheduler c); BatchSize (Cfg_Scheduler c); LeaseDuration (Cfg_Scheduler c);
   RPCTimeout (Cfg_Worker c); LeaseRenewalInterval (Cfg_Worker c)].

(** The texts that must not be empty. *)
Definition texts (c : Config) : list string :=
  [DSN (Cfg_Database c); Log_Level (Cfg_Log c); Log_Format (Cfg_Log c); Node_Address (Cfg_Node c);
   Server_Port (Cfg_Server c); Endpoint (Cfg_Storage c); Bucket (Cfg_Storage c); AccessKey (Cfg_Storage c);
   SecretKey (Cfg_Storage c); Region (Cfg_Storage c); BindAddr (Cfg_Memberlist c);
   AdvertiseAddr (Cfg_Memberlist c); Health_Port (Cfg_Health c); Scheduler_Strategy (Cfg_Scheduler c)].

Record config_ok (c : Config) : Prop := {
  co_id : 0 < Node_ID (Cfg_Node c) < u64_size;
  co_texts : Forall (fun s => s <> EmptyString) (texts c);
  co_numbers : Forall int_range (numbers c);
  co_seeds : Forall seed_ok (Seeds (Cfg_Memberlist c));
}.

Lemma getEnvOrDefault_nonempty g key d : d <> EmptyString -> getEnvOrDefault g key d <> EmptyString.
Proof. unfold getEnvOrDefault. by case_bool_decide. Qed.

Lemma getDurationEnv_range g key d : int_range d -> int_range (getDurationEnv g key d).
Proof.
  unfold getDurationEnv. case_bool_decide; [done|].
  destruct (ParseDuration (g key)) eqn:E; [|done]. intros _. by apply ParseDuration_range in E.
Qed.

Lemma getIntEnv_range g key d : int_range d -> int_range (getIntEnv g key d).
Proof.
  unfold getIntEnv. case_bool_decide; [done|].
  destruct (Atoi (g key)) eqn:E; [|done]. intros _. by apply Atoi_range in E.
Qed.

Lemma required_ok {A} g key (k : string -> result A) a :
  required g key k = Ok a -> g key <> EmptyString /\ k (g key) = Ok a.
Proof. unfold required. by case_bool_decide. Qed.

Lemma bytes_nonempty s : bytes_of s <> [] <-> s <> EmptyString.
Proof. destruct s; cbn; naive_solver. Qed.

Lemma parseSeeds_ok v : Forall seed_ok (parseSeeds v).
Proof.
  unfold parseSeeds. apply Forall_fmap, Forall_forall. intros b [Hne Hb]%list_elem_of_filter.
  apply list_elem_of_fmap in Hb as (p & -> & Hp).
  pose proof (proj1 (Forall_forall _ _) (split_no_comma (bytes_of v)) p Hp) as Hc.
  split; cbn; rewrite ?bytes_string_of.
  - intros E. apply Hne. by rewrite <- (bytes_string_of (TrimSpace p)), E.
  - by apply TrimSpace_no_comma.
  - apply TrimSpace_idemp.
Qed.

#[export] Hint Resolve getEnvOrDefault_nonempty getDurationEnv_range getIntEnv_range parseSeeds_ok : pibully.

Lemma loadNode_ok g n : loadNodeConfig g = Ok n -> 0 < Node_ID n < u64_size /\ Node_Address n <> EmptyString.
Proof.
  unfold loadNodeConfig, rbind. destruct (ParseUint (g "NODE_ID")) as [id|] eqn:E; [|done].
  apply ParseUint_range in E as [? ?]. destruct (Z.eqb_spec id 0); [done|].
  intros [Ha [= <-]]%required_ok. cbn. split; [lia | done].
Qed.

Lemma loadServer_ok g s : loadServerConfig g = Ok s -> Server_Port s <> EmptyString.
Proof. by intros [Hp [= <-]]%required_ok. Qed.

Lemma loadDatabase_ok g c : loadDatabaseConfig g = Ok c -> DSN c <> EmptyString.
Proof. intros H. repeat apply required_ok in H as [_ H]. by injection H as <-. Qed.

Lemma loadStorage_ok g c :
  loadStorageConfig g = Ok c ->
  Forall (fun s => s <> EmptyString) [Endpoint c; Bucket c; AccessKey c; SecretKey c; Region c].
Proof.
  intros H. do 5 (let Hk := fresh "Hk" in apply required_ok in H as [Hk H]). injection H as <-.
  by repeat constructor.
Qed.

Lemma loadMemberlist_ok g c :
  loadMemberlistConfig g = Ok c ->
  BindAddr c <> EmptyString /\ AdvertiseAddr c <> EmptyString /\ Forall seed_ok (Seeds c) /\
  Forall int_range [BindPort c; ProbeInterval c; ProbeTimeout c; GossipInterval c; PushPullInterval c; SuspicionMult c].
Proof.
  intros H. do 3 (let Hk := fresh "Hk" in apply required_ok in H as [Hk H]).
  destruct (Atoi (g "MEMBERLIST_BIND_PORT")) as [port|] eqn:E; [|done]. apply Atoi_range in E. injection H as <-.
  cbn. split_and!; auto with pibully. repeat constructor; try apply E;
    (apply getDurationEnv_range || apply getIntEnv_range); split; vm_compute; congruence.
Qed.

Lemma load_ok (Getenv : environment) (c : Config) : Load Getenv = (c, None) -> config_ok c.
Proof.
  unfold Load. destruct (loadNodeConfig Getenv) as [n|] eqn:Hn; [|done].
  destruct (loadServerConfig Getenv) as [s|] eqn:Hs; [|done].
  destruct (loadDatabaseConfig Getenv) as [db|] eqn:Hdb; [|done].
  destruct (loadStorageConfig Getenv) as [st|] eqn:Hst; [|done].
  destruct (loadMemberlistConfig Getenv) as [ml|] eqn:Hml; [|done]. intros [= <-].
  apply loadNode_ok in Hn as [Hid Ha]. apply loadServer_ok in Hs. apply loadDatabase_ok in Hdb.
  apply loadStorage_ok in Hst. apply loadMemberlist_ok in Hml as (Hb & Hadv & Hseeds & Hnum).
  rewrite !Forall_cons in Hst. rewrite !Forall_cons in Hnum. split; unfold texts, numbers; cbn; [done| | |done].
  - rewrite !Forall_cons. split_and!; try apply Hst; try done; by apply getEnvOrDefault_nonempty.
  - rewrite !Forall_cons. split_and!; try apply Hnum; try done;
      (apply getDurationEnv_range || apply getIntEnv_range); split; vm_compute; congruence.
Qed.

(** C20: a configuration that loads is well formed: the node's id is a positive 64-bit
    number, no address, port or credential is empty, every number and duration is a
    64-bit integer, and every seed is an address without commas and without
    surrounding space. *)
Theorem loaded_config_ok (Getenv : environment) (c : Config) : Load Getenv = (c, None) -> config_ok c.
Proof. apply load_ok. Qed.

(** ** The seeds *)

Definition print_seeds (l : list string) : string := string_of (join_comma (bytes_of <$> l)).

Lemma filter_all {A} (Q : A -> Prop) `{!forall x, Decision (Q x)} l : Forall Q l -> filter Q l = l.
Proof. induction 1 as [|x l Hx _ IH]; [done|]. rewrite filter_cons_True by done. by rewrite IH. Qed.

(** The seeds written with commas between them are read back as they are. *)
Theorem seeds_roundtrip (l : list string) :
  Forall seed_ok l -> parseSeeds (print_seeds l) = l.
Proof.
  intros Hl. unfold parseSeeds, print_seeds. rewrite bytes_string_of.
  destruct (decide (l = [])) as [->|Hne]; [done|].
  rewrite split_join.
  - assert (Ht : TrimSpace <$> (bytes_of <$> l) = bytes_of <$> l).
    { clear Hne. induction Hl as [|s l [_ _ Hs] _ IH]; [done|]. cbn. by rewrite Hs, IH. }
    rewrite Ht, filter_all.
    + rewrite <- list_fmap_compose. rewrite <- (list_fmap_id l) at 2. apply list_fmap_ext.
      intros i s _. apply string_bytes_of.
    + apply Forall_fmap. eapply Forall_impl; [exact Hl|]. intros s [Hs _ _]. by apply bytes_nonempty.
  - apply Forall_fmap. eapply Forall_impl; [exact Hl|]. by intros s [_ ? _].
  - by destruct l.
Qed.

(** ** Durations that pass unchecked *)

(** A lease of less than a second is written to the database as no time at all: the
    lease has expired when it is granted. *)
Lemma short_lease_expires_at_once (s : PostgresStore) (t w : Z) (env : txenv) (d : db) :
  0 <= leaseDuration s < second ->
  exists l, leases (upsert_lease t w (lease_secs s) env d) !! t = Some l /\ l_expires_at l = tx_now env.
Proof.
  intros Hs. eexists. split; [apply lookup_insert_eq|]. cbn. unfold lease_secs.
  rewrite Z.quot_small by (unfold second in Hs; lia). lia.
Qed.

(** ** .env.example *)

Definition env_example : environment := fun key =>
  match find (fun p => bool_decide (fst p = key))
    [("NODE_ID", "1"); ("NODE_ADDRESS", "localhost:50051"); ("GRPC_PORT", "50051");
     ("POSTGRES_HOST", "localhost"); ("POSTGRES_USER", "postgres"); ("POSTGRES_PASSWORD", "postgres");
     ("POSTGRES_DB", "bully"); ("POSTGRES_PORT", "5432"); ("POSTGRES_SSL_MODE", "disable");
     ("LOG_LEVEL", "info"); ("LOG_FORMAT", "json");
     ("STORAGE_ENDPOINT", "localhost:9000"); ("STORAGE_BUCKET", "bully"); ("STORAGE_ACCESS_KEY", "test");
     ("STORAGE_SECRET_KEY", "test"); ("STORAGE_REGION", "us-east-1"); ("STORAGE_USE_SSL", "false");
     ("MEMBERLIST_BIND_ADDR", "localhost"); ("MEMBERLIST_BIND_PORT", "7947");
     ("MEMBERLIST_SEEDS", "localhost:7947");
     ("ELECTION_TIMEOUT", "5s"); ("ELECTION_ANNOUNCE_RETRY_INTERVAL", "200ms");
     ("ELECTION_SEND_RETRY_INTERVAL", "100ms");
     ("SCHEDULER_POLL_INTERVAL", "5s"); ("SCHEDULER_BATCH_SIZE", "10"); ("SCHEDULER_STRATEGY", "round_robin");
     ("SCHEDULER_LEASE_DURATION", "3m");
     ("WORKER_LEASE_RENEWAL_INTERVAL", "30s"); ("WORKER_RPC_TIMEOUT", "5s")]%string with
  | Some (_, v) => v
  | None => EmptyString
  end.

(** The values of .env.example are those the code falls back to. *)
Example env_example_defaults :
  let bare := fun key => if bool_decide (key ∈ required_keys) || bool_decide (key = "NODE_ID"%string)
    then env_example key else EmptyString in
  loadElectionConfig env_example = loadElectionConfig bare /\
  loadSchedulerConfig env_example = loadSchedulerConfig bare /\
  loadWorkerConfig env_example = loadWorkerConfig bare /\ loadMemberlistConfig env_example = loadMemberlistConfig bare.
Proof. by vm_compute. Qed.

Lemma loaded_config_ok_witness :
  Node_ID (Cfg_Node (fst (Load env_example))) = 1 /\ config_ok (fst (Load env_example)).
Proof. split; [vm_compute; reflexivity|]. apply (loaded_config_ok env_example). vm_compute. reflexivity. Defined.

Lemma seeds_roundtrip_witness :
  parseSeeds (print_seeds ["node1:7946"; "node2:7946"; "node3:7946"]%string) = ["node1:7946"; "node2:7946"; "node3:7946"]%string.
Proof.
  apply (seeds_roundtrip ["node1:7946"; "node2:7946"; "node3:7946"]%string).
  repeat constructor; try discriminate; vm_compute; reflexivity.
Defined.
